(** * ecs.hpp: a shallow embedding of the entity-component-system core

    The development follows [ecs.hpp]: the entity id codec, the sparse set
    and sparse map containers, the per-type component storages, prototypes,
    feature dispatch and the registry.  Unsigned machine integers are values
    of [Z] with their wrap-around written out, [std::vector] is a [list]
    indexed through stdpp's lookup and insert, exceptions and assertion
    failures are explicit outcomes that leave the state behind them.

    One thread is modelled.  A reader-writer lock matters to a single thread
    where it is taken again while the thread still holds it: that happens
    inside the iterations, which keep a storage locked while they call back,
    and is modelled there.  Everywhere else a lock is taken and released
    within one call and is left out. *)

From Stdlib Require Import ZArith Lia Bool.
From stdpp Require Import base numbers list.

Local Open Scope Z_scope.

(** ** Machine integers *)

(** [entity_id] is [std::uint32_t]; conversions to it reduce modulo 2^32. *)
Definition uint32_max : Z := 2 ^ 32.
Definition to_uint32 (z : Z) : Z := z mod uint32_max.
Definition is_uint32 (z : Z) : Prop := 0 <= z < uint32_max.

(** [std::size_t] is taken to be 64 bits wide, as on the LP64 and LLP64
    platforms; [size_max] is [SIZE_MAX], and arithmetic in [std::size_t]
    reduces modulo [size_max + 1]. *)
Definition size_max : Z := 2 ^ 64 - 1.
Definition to_size_t (z : Z) : Z := z mod (size_max + 1).

(** ** Entity id codec (namespace [ecs_hpp::detail]) *)

Definition entity_id_index_bits : Z := 22.
Definition entity_id_version_bits : Z := 10.

(** [(1u << entity_id_index_bits) - 1u] and its version counterpart. *)
Definition entity_id_index_mask : Z := Z.shiftl 1 entity_id_index_bits - 1.
Definition entity_id_version_mask : Z := Z.shiftl 1 entity_id_version_bits - 1.

Definition entity_id_index (id : Z) : Z :=
  to_uint32 (Z.land id entity_id_index_mask).

Definition entity_id_version (id : Z) : Z :=
  to_uint32 (Z.land (Z.shiftr id entity_id_index_bits) entity_id_version_mask).

(** [version << entity_id_index_bits] is computed in 32 bits. *)
Definition entity_id_join (index version : Z) : Z :=
  Z.lor index (to_uint32 (Z.shiftl version entity_id_index_bits)).

Definition upgrade_entity_id (id : Z) : Z :=
  entity_id_join (entity_id_index id) (to_uint32 (entity_id_version id + 1)).

(** ** Outcomes of a call

    An operation returns, throws, or stops the program (a failed [assert],
    an access outside a vector, a mutex locked by the thread that owns it).
    The state it leaves behind is returned next to the outcome, so exception
    safety can be stated. *)

Inductive exception : Type :=
| length_error              (* std::length_error, thrown by next_capacity_size *)
| value_not_found           (* std::logic_error, sparse_set (value not found) *)
| entity_index_overflow     (* std::logic_error, registry (entity index overlow) *)
| component_not_found.      (* std::logic_error, registry (component not found) *)

(** [std::length_error] derives from [std::logic_error]; the other three are
    thrown as [std::logic_error] itself. *)
Definition is_logic_error (e : exception) : bool :=
  match e with
  | length_error | value_not_found | entity_index_overflow | component_not_found => true
  end.

Inductive outcome (A : Type) : Type :=
| Ok (a : A)
| Throw (e : exception)
| Abort.
Arguments Ok {A} a.
Arguments Throw {A} e.
Arguments Abort {A}.

Definition is_ok {A} (o : outcome A) : bool :=
  match o with Ok _ => true | _ => false end.

Definition is_abort {A} (o : outcome A) : bool :=
  match o with Abort => true | _ => false end.

Definition outcome_map {A B} (f : A -> B) (o : outcome A) : outcome B :=
  match o with
  | Ok a => Ok (f a)
  | Throw e => Throw e
  | Abort => Abort
  end.

(** [assert(c)]: checked unless the build defines [NDEBUG]. *)
Definition assert_ (ndebug : bool) (c : bool) : bool := ndebug || c.

(** ** [std::vector] helpers *)

(** [v.resize(n)]: truncates, or pads with value-initialised elements. *)
Definition vec_resize (l : list nat) (n : nat) : list nat :=
  take n l ++ replicate (n - length l) 0%nat.

(** [v.pop_back()]. *)
Definition vec_pop_back {A} (l : list A) : list A := take (length l - 1)%nat l.

(** [swap(v[i], v[j])] for indices in range. *)
Definition vec_swap {A} (l : list A) (i j : nat) : list A :=
  match l !! i, l !! j with
  | Some x, Some y => <[i := y]> (<[j := x]> l)
  | _, _ => l
  end.

(** Removal by swap-with-last, the idiom of both containers:
    [if (i != v.size() - 1) swap(v[i], v.back()); v.pop_back();]. *)
Definition swap_pop {A} (i : nat) (l : list A) : list A :=
  vec_pop_back (if negb (i =? length l - 1)%nat then vec_swap l i (length l - 1)%nat else l).

(** [v.reserve(n)] seen through [capacity()]: grows to [n] when below it. *)
Definition vec_reserve (capacity n : Z) : Z := Z.max capacity n.

(** ** [detail::next_capacity_size] *)

Definition next_capacity_size (cur_size min_size max_size : Z) : outcome Z :=
  if max_size <? min_size then Throw length_error
  else if max_size / 2 <=? cur_size then Ok max_size
  else Ok (Z.max (cur_size * 2) min_size).

Local Close Scope Z_scope.

(** ** [detail::sparse_set]

    Positions in a vector and the [std::size_t] entries of [sparse_] are
    [nat]; stored values (entity ids, family ids) are [Z]. *)

Record sparse_set : Type := mk_sparse_set {
  dense_ : list Z;
  sparse_ : list nat
}.

Definition sparse_set_empty : sparse_set := mk_sparse_set [] [].

(** [detail::sparse_indexer<T>]: the value itself. *)
Definition sparse_indexer (v : Z) : nat := Z.to_nat v.

(** [detail::entity_id_indexer]: the index field of the id. *)
Definition entity_id_indexer (id : Z) : nat := Z.to_nat (entity_id_index id).

Module SparseSet.
Section Ops.
(** The indexer of the instantiation and [sparse_.max_size()]. *)
Variable indexer : Z -> nat.
Variable sparse_max_size : Z.

Definition has (s : sparse_set) (v : Z) : bool :=
  let vi := indexer v in
  (vi <? length (sparse_ s))
  && (sparse_ s !!! vi <? length (dense_ s))
  && (dense_ s !!! (sparse_ s !!! vi) =? v)%Z.

(** [vi + 1u] is computed in [std::size_t]: for [vi = SIZE_MAX] it is 0, the
    resize then asks for no room at all and nothing is thrown, and the write
    to [sparse_[vi]] after the [push_back] falls outside the vector. *)
Definition insert (v : Z) (s : sparse_set) : outcome bool * sparse_set :=
  if has s v then (Ok false, s)
  else
    let vi := indexer v in
    let resized :=
      if length (sparse_ s) <=? vi then
        outcome_map (fun n => vec_resize (sparse_ s) (Z.to_nat n))
          (next_capacity_size (Z.of_nat (length (sparse_ s)))
                              (to_size_t (Z.of_nat vi + 1)) sparse_max_size)
      else Ok (sparse_ s) in
    match resized with
    | Ok sp =>
        let dn := dense_ s ++ [v] in
        if vi <? length sp
        then (Ok true, mk_sparse_set dn (<[vi := length dn - 1]> sp))
        else (Abort, mk_sparse_set dn sp)
    | Throw e => (Throw e, s)
    | Abort => (Abort, s)
    end.

Definition unordered_erase (v : Z) (s : sparse_set) : bool * sparse_set :=
  if negb (has s v) then (false, s)
  else
    let vi := indexer v in
    let dense_index := sparse_ s !!! vi in
    let s1 :=
      if negb (dense_index =? length (dense_ s) - 1) then
        let dn := vec_swap (dense_ s) dense_index (length (dense_ s) - 1) in
        mk_sparse_set dn (<[indexer (dn !!! dense_index) := dense_index]> (sparse_ s))
      else s in
    (true, mk_sparse_set (vec_pop_back (dense_ s1)) (sparse_ s1)).

Definition clear (s : sparse_set) : sparse_set :=
  mk_sparse_set [] (sparse_ s).

(** [std::pair<std::size_t,bool>], with [None] for [(size_t(-1), false)]. *)
Definition find_dense_index (s : sparse_set) (v : Z) : option nat :=
  if has s v then Some (sparse_ s !!! indexer v) else None.

Definition get_dense_index (s : sparse_set) (v : Z) : outcome nat :=
  match find_dense_index s v with
  | Some i => Ok i
  | None => Throw value_not_found
  end.

(** [find] returns an iterator: a position of [dense_], or [end()]. *)
Definition find (s : sparse_set) (v : Z) : option nat :=
  if has s v then Some (sparse_ s !!! indexer v) else None.

Definition empty (s : sparse_set) : bool :=
  match dense_ s with [] => true | _ => false end.

Definition size (s : sparse_set) : nat := length (dense_ s).

(** The well-formedness of a sparse set: every dense slot is pointed back to
    by the sparse entry of its value. *)
Definition wf (s : sparse_set) : Prop :=
  forall i v, dense_ s !! i = Some v -> sparse_ s !! indexer v = Some i.

(** No other stored value shares the sparse slot of [v]. *)
Definition no_collision (s : sparse_set) (v : Z) : Prop :=
  forall w, w ∈ dense_ s -> indexer w = indexer v -> w = v.

(** Sequences of container operations. *)
Inductive set_op : Type :=
| op_insert (v : Z)
| op_unordered_erase (v : Z)
| op_clear.

Definition set_exec (o : set_op) (s : sparse_set) : sparse_set :=
  match o with
  | op_insert v => snd (insert v s)
  | op_unordered_erase v => snd (unordered_erase v s)
  | op_clear => clear s
  end.

Definition set_run (ops : list set_op) (s : sparse_set) : sparse_set :=
  foldl (fun s o => set_exec o s) s ops.

(** Every insert of the run happens while no other stored value shares the
    sparse slot of the inserted one. *)
Fixpoint collision_free (ops : list set_op) (s : sparse_set) : Prop :=
  match ops with
  | [] => True
  | o :: ops' =>
      match o with
      | op_insert v => no_collision s v
      | _ => True
      end /\ collision_free ops' (set_exec o s)
  end.

(** The index of every value the run inserts is below [SIZE_MAX], where
    [vi + 1u] does not wrap. *)
Definition below_size_max (o : set_op) : Prop :=
  match o with
  | op_insert v => (Z.of_nat (indexer v) < size_max)%Z
  | _ => True
  end.

(** The values a run has inserted and not removed since: [insert] adds its
    argument unless it throws, [unordered_erase] removes it, [clear] removes
    everything. *)
Definition present_exec (o : set_op) (s : sparse_set) (p : list Z) : list Z :=
  match o with
  | op_insert v =>
      if is_ok (fst (insert v s)) then (if bool_decide (v ∈ p) then p else p ++ [v]) else p
  | op_unordered_erase v => filter (fun w => w <> v) p
  | op_clear => []
  end.

Fixpoint present (ops : list set_op) (s : sparse_set) (p : list Z) : list Z :=
  match ops with
  | [] => p
  | o :: ops' => present ops' (set_exec o s) (present_exec o s p)
  end.
End Ops.
End SparseSet.

(** ** [detail::sparse_map] *)

Record sparse_map (V : Type) : Type := mk_sparse_map {
  keys_ : sparse_set;
  values_ : list V
}.
Arguments mk_sparse_map {V} keys_ values_.
Arguments keys_ {V} s.
Arguments values_ {V} s.

Definition sparse_map_empty {V} : sparse_map V := mk_sparse_map sparse_set_empty [].

Module SparseMap.
Section Ops.
Context {V : Type}.
Variable indexer : Z -> nat.
Variable sparse_max_size : Z.

(** The address [&values_[i]] that [find] returns, as the position [i]. *)
Definition find_slot (m : sparse_map V) (k : Z) : option nat :=
  SparseSet.find_dense_index indexer (keys_ m) k.

Definition find (m : sparse_map V) (k : Z) : option V :=
  match find_slot m k with
  | Some i => values_ m !! i
  | None => None
  end.

(** [insert] and [insert_or_assign] return [pair<T*, bool>]; the pointer is
    the slot of [k] afterwards, the model returns the flag. *)
Definition insert_new (k : Z) (v : V) (m : sparse_map V) : outcome bool * sparse_map V :=
  let vs := values_ m ++ [v] in
  match SparseSet.insert indexer sparse_max_size k (keys_ m) with
  | (Ok _, ks) => (Ok true, mk_sparse_map ks vs)
  | (Throw e, ks) => (Throw e, mk_sparse_map ks (vec_pop_back vs))
  | (Abort, ks) => (Abort, mk_sparse_map ks vs)
  end.

Definition insert (k : Z) (v : V) (m : sparse_map V) : outcome bool * sparse_map V :=
  match find_slot m k with
  | Some _ => (Ok false, m)
  | None => insert_new k v m
  end.

Definition insert_or_assign (k : Z) (v : V) (m : sparse_map V)
  : outcome bool * sparse_map V :=
  match find_slot m k with
  | Some i => (Ok false, mk_sparse_map (keys_ m) (<[i := v]> (values_ m)))
  | None => insert_new k v m
  end.

Definition unordered_erase (k : Z) (m : sparse_map V) : bool * sparse_map V :=
  match SparseSet.find_dense_index indexer (keys_ m) k with
  | None => (false, m)
  | Some i =>
      let vs := swap_pop i (values_ m) in
      (true, mk_sparse_map (snd (SparseSet.unordered_erase indexer k (keys_ m))) vs)
  end.

Definition clear (m : sparse_map V) : sparse_map V :=
  mk_sparse_map (SparseSet.clear (keys_ m)) [].

Definition has (m : sparse_map V) (k : Z) : bool :=
  SparseSet.has indexer (keys_ m) k.

(** [get] returns [values_[keys_.get_dense_index(k)]]: the slot, then the
    value (reading outside [values_] stops the program). *)
Definition get_slot (m : sparse_map V) (k : Z) : outcome nat :=
  SparseSet.get_dense_index indexer (keys_ m) k.

Definition get (m : sparse_map V) (k : Z) : outcome V :=
  match get_slot m k with
  | Ok i => match values_ m !! i with Some v => Ok v | None => Abort end
  | Throw e => Throw e
  | Abort => Abort
  end.

Definition empty (m : sparse_map V) : bool :=
  match values_ m with [] => true | _ => false end.

Definition size (m : sparse_map V) : nat := length (values_ m).

(** Keys and values in lock-step over a well-formed key set. *)
Definition wf (m : sparse_map V) : Prop :=
  SparseSet.wf indexer (keys_ m) /\ length (values_ m) = length (dense_ (keys_ m)).

(** The entries in dense order. *)
Definition entries (m : sparse_map V) : list (Z * V) :=
  zip (dense_ (keys_ m)) (values_ m).
End Ops.
End SparseMap.

(** A decidable form of [SparseSet.collision_free], for concrete runs. *)
Definition no_collisionb (indexer : Z -> nat) (s : sparse_set) (v : Z) : bool :=
  forallb (fun w => negb (indexer w =? indexer v) || (w =? v)%Z) (dense_ s).

Fixpoint collision_freeb (indexer : Z -> nat) (mx : Z)
    (ops : list SparseSet.set_op) (s : sparse_set) : bool :=
  match ops with
  | [] => true
  | o :: ops' =>
      match o with
      | SparseSet.op_insert v => no_collisionb indexer s v
      | _ => true
      end && collision_freeb indexer mx ops' (SparseSet.set_exec indexer mx o s)
  end.

(** The ways [sparse_set::insert] ends. *)
Section InsertResults.
Variable indexer : Z -> nat.
Variable mx : Z.

Inductive insert_result (v : Z) (s : sparse_set) : outcome bool -> sparse_set -> Prop :=
| insert_present :
    SparseSet.has indexer s v = true -> insert_result v s (Ok false) s
| insert_too_long :
    SparseSet.has indexer s v = false -> length (sparse_ s) <= indexer v ->
    (mx < Z.of_nat (indexer v) + 1)%Z ->
    insert_result v s (Throw length_error) s
| insert_added sp :
    SparseSet.has indexer s v = false ->
    indexer v < length sp ->
    (forall j, j < length (sparse_ s) -> sp !! j = sparse_ s !! j) ->
    length (sparse_ s) <= length sp ->
    (indexer v < length (sparse_ s) \/ (Z.of_nat (indexer v) + 1 <= mx)%Z) ->
    insert_result v s (Ok true)
      (mk_sparse_set (dense_ s ++ [v]) (<[indexer v := length (dense_ s)]> sp)).

(** The ways [sparse_map::insert] ends for a key that is not present. *)
Inductive map_insert_result {V : Type} (k : Z) (v : V) (m : sparse_map V)
  : outcome bool -> sparse_map V -> Prop :=
| map_insert_too_long :
    (mx < Z.of_nat (indexer k) + 1)%Z ->
    map_insert_result k v m (Throw length_error) m
| map_insert_added m' :
    SparseMap.wf indexer m' ->
    dense_ (keys_ m') = dense_ (keys_ m) ++ [k] ->
    values_ m' = values_ m ++ [v] ->
    (indexer k < length (sparse_ (keys_ m)) \/ (Z.of_nat (indexer k) + 1 <= mx)%Z) ->
    map_insert_result k v m (Ok true) m'.

End InsertResults.

(** ** Locks

    Every component storage owns a [std::shared_mutex components_locker_],
    and the registry owns one for its entity ids.  The methods of a storage
    lock its mutex for the length of the call; [for_each_component] keeps it
    locked while it calls back, and [registry::for_each_entity] does the
    same with the mutex of the entity ids.  To one thread a mutex matters
    only where the thread locks it while it already owns it: the behaviour
    is then undefined; libstdc++ throws [std::system_error] out of the lock,
    and since the storage methods reached from a callback ([exists],
    [find]) and their callers are [noexcept], the program ends in
    [std::terminate].  The model keeps the list of the locks the thread
    holds and stops the program on such a lock. *)

Inductive lock : Type :=
| entity_ids_locker_                  (* registry::mutexes_.entity_ids_locker_ *)
| components_locker_ (family : Z).    (* component_storage<T>::components_locker_ *)

#[global] Instance lock_eq_dec : EqDecision lock.
Proof. solve_decision. Defined.

(** A call that locks [l] for its duration, made while [held] are locked. *)
Definition with_lock {A} (held : list lock) (l : lock) (body : outcome A) : outcome A :=
  if bool_decide (l ∈ held) then Abort else body.

(** ** [detail::component_storage]

    Component values live in one universe [value]; a component type is named
    by its family id.  The primary template keeps a sparse map from entity ids
    to values, the specialisation for empty types keeps the ids only and hands
    out the one static [empty_value_]. *)

Inductive component_storage (value : Type) : Type :=
| storage_values (components_ : sparse_map value)
| storage_empty (components_ : sparse_set).
Arguments storage_values {value} components_.
Arguments storage_empty {value} components_.

Module Storage.
Section Ops.
Context {value : Type}.
Variable empty_value_ : value.
Variable sparse_max_size : Z.

(** The ids the storage holds, in dense order. *)
Definition ids (st : component_storage value) : list Z :=
  match st with
  | storage_values m => dense_ (keys_ m)
  | storage_empty s => dense_ s
  end.

Definition assign (id : Z) (v : value) (st : component_storage value)
  : outcome value * component_storage value :=
  match st with
  | storage_values m =>
      match SparseMap.find_slot entity_id_indexer m id with
      | Some i =>
          (Ok v, storage_values (mk_sparse_map (keys_ m) (<[i := v]> (values_ m))))
      | None =>
          let '(res, m') := SparseMap.insert entity_id_indexer sparse_max_size id v m in
          (outcome_map (fun _ => v) res, storage_values m')
      end
  | storage_empty s =>
      if SparseSet.has entity_id_indexer s id then (Ok empty_value_, st)
      else
        let '(res, s') := SparseSet.insert entity_id_indexer sparse_max_size id s in
        (outcome_map (fun _ => empty_value_) res, storage_empty s')
  end.

Definition ensure (id : Z) (v : value) (st : component_storage value)
  : outcome value * component_storage value :=
  match st with
  | storage_values m =>
      match SparseMap.find_slot entity_id_indexer m id with
      | Some i =>
          (match values_ m !! i with Some old => Ok old | None => Abort end, st)
      | None =>
          let '(res, m') := SparseMap.insert entity_id_indexer sparse_max_size id v m in
          (outcome_map (fun _ => v) res, storage_values m')
      end
  | storage_empty s =>
      if SparseSet.has entity_id_indexer s id then (Ok empty_value_, st)
      else
        let '(res, s') := SparseSet.insert entity_id_indexer sparse_max_size id s in
        (outcome_map (fun _ => empty_value_) res, storage_empty s')
  end.

Definition has (st : component_storage value) (id : Z) : bool :=
  match st with
  | storage_values m => SparseMap.has entity_id_indexer m id
  | storage_empty s => SparseSet.has entity_id_indexer s id
  end.

Definition exists_ (st : component_storage value) (id : Z) : bool :=
  match st with
  | storage_values m => SparseMap.has entity_id_indexer m id
  | storage_empty s => SparseSet.has entity_id_indexer s id
  end.

Definition remove (id : Z) (st : component_storage value)
  : bool * component_storage value :=
  match st with
  | storage_values m =>
      let '(b, m') := SparseMap.unordered_erase entity_id_indexer id m in
      (b, storage_values m')
  | storage_empty s =>
      let '(b, s') := SparseSet.unordered_erase entity_id_indexer id s in
      (b, storage_empty s')
  end.

Definition count (st : component_storage value) : nat :=
  match st with
  | storage_values m => SparseMap.size m
  | storage_empty s => SparseSet.size s
  end.

Definition remove_all (st : component_storage value) : nat * component_storage value :=
  match st with
  | storage_values m => (SparseMap.size m, storage_values (SparseMap.clear m))
  | storage_empty s => (SparseSet.size s, storage_empty (SparseSet.clear s))
  end.

Definition find (st : component_storage value) (id : Z) : option value :=
  match st with
  | storage_values m => SparseMap.find entity_id_indexer m id
  | storage_empty s =>
      if SparseSet.has entity_id_indexer s id then Some empty_value_ else None
  end.

Definition clone (from to : Z) (st : component_storage value)
  : outcome unit * component_storage value :=
  match find st from with
  | Some c =>
      let '(res, st') := assign to c st in (outcome_map (fun _ => tt) res, st')
  | None => (Ok tt, st)
  end.

(** [for_each_component(f)] takes the mutex [self] of the storage and walks
    the components with it locked: the callback runs with [self] among the
    locks held.  A callback is a step on an accumulator that may fail. *)
Definition for_each_component {A} (held : list lock) (self : lock)
    (f : list lock -> Z -> value -> A -> outcome A)
    (st : component_storage value) (a : A) : outcome A :=
  with_lock held self
    match st with
    | storage_values m =>
        foldl (fun acc id =>
                 match acc with
                 | Ok a =>
                     match SparseMap.get entity_id_indexer m id with
                     | Ok c => f (self :: held) id c a
                     | Throw e => Throw e
                     | Abort => Abort
                     end
                 | _ => acc
                 end) (Ok a) (dense_ (keys_ m))
    | storage_empty s =>
        foldl (fun acc id =>
                 match acc with
                 | Ok a => f (self :: held) id empty_value_ a
                 | _ => acc
                 end) (Ok a) (dense_ s)
    end.

(** No other entity of the storage shares the sparse slot of [e]. *)
Definition no_collision (st : component_storage value) (e : Z) : Prop :=
  forall w, w ∈ ids st -> entity_id_indexer w = entity_id_indexer e -> w = e.

(** Which of the two class templates a storage is. *)
Definition is_empty_kind (st : component_storage value) : bool :=
  match st with
  | storage_values _ => false
  | storage_empty _ => true
  end.

(** The value an [assign] or [ensure] of [v] leaves in a storage of the kind
    of [st]. *)
Definition stored (st : component_storage value) (v : value) : value :=
  if is_empty_kind st then empty_value_ else v.

(** The entities of a storage with their component, in dense order. *)
Definition rows (st : component_storage value) : list (Z * value) :=
  match st with
  | storage_values m => SparseMap.entries m
  | storage_empty s => map (fun id => (id, empty_value_)) (dense_ s)
  end.

Definition wf (st : component_storage value) : Prop :=
  match st with
  | storage_values m => SparseMap.wf entity_id_indexer m
  | storage_empty s => SparseSet.wf entity_id_indexer s
  end.
End Ops.
End Storage.

(** ** [registry]

    One registry is modelled, so the owner pointer of a handle is left out and
    a handle is its entity id.  The feature table is modelled on its own
    (section Features below). *)

Record registry (value : Type) : Type := mk_registry {
  last_entity_id_ : Z;
  free_entity_ids_ : list Z;
  (** [free_entity_ids_.capacity()] *)
  free_entity_ids_capacity_ : Z;
  entity_ids_ : sparse_set;
  storages_ : sparse_map (component_storage value)
}.
Arguments mk_registry {value}.
Arguments last_entity_id_ {value} r.
Arguments free_entity_ids_ {value} r.
Arguments free_entity_ids_capacity_ {value} r.
Arguments entity_ids_ {value} r.
Arguments storages_ {value} r.

Definition registry_init {value} : registry value :=
  mk_registry 0%Z [] 0%Z sparse_set_empty sparse_map_empty.

Definition set_entity_ids {value} (s : sparse_set) (r : registry value) : registry value :=
  mk_registry (last_entity_id_ r) (free_entity_ids_ r) (free_entity_ids_capacity_ r)
              s (storages_ r).

Definition set_storages {value} (m : sparse_map (component_storage value))
    (r : registry value) : registry value :=
  mk_registry (last_entity_id_ r) (free_entity_ids_ r) (free_entity_ids_capacity_ r)
              (entity_ids_ r) m.

Module Registry.
Section Ops.
Context {value : Type}.
Variable empty_value_ : value.
(** [std::is_empty_v<T>] of the component type of a family. *)
Variable is_empty_v : Z -> bool.
(** [max_size()] of [std::vector<std::size_t>] and of [std::vector<entity_id>]. *)
Variable sparse_max_size : Z.
Variable ids_max_size : Z.

Abbreviation registry := (registry value).
Abbreviation storage := (component_storage value).

(** *** Entities *)

Definition valid_entity (r : registry) (ent : Z) : bool :=
  SparseSet.has entity_id_indexer (entity_ids_ r) ent.

Definition entity_count (r : registry) : nat := SparseSet.size (entity_ids_ r).

Definition create_entity (r : registry) : outcome Z * registry :=
  match last (free_entity_ids_ r) with
  | Some free_ent_id =>
      let new_ent_id := upgrade_entity_id free_ent_id in
      match SparseSet.insert entity_id_indexer sparse_max_size new_ent_id (entity_ids_ r) with
      | (Ok _, ids) =>
          (Ok new_ent_id,
           mk_registry (last_entity_id_ r) (vec_pop_back (free_entity_ids_ r))
                       (free_entity_ids_capacity_ r) ids (storages_ r))
      | (Throw e, ids) => (Throw e, set_entity_ids ids r)
      | (Abort, ids) => (Abort, set_entity_ids ids r)
      end
  | None =>
      if (entity_id_index_mask <=? last_entity_id_ r)%Z
      then (Throw entity_index_overflow, r)
      else
        let reserved :=
          if (free_entity_ids_capacity_ r <=? Z.of_nat (SparseSet.size (entity_ids_ r)))%Z
          then
            (* ensure free entity ids capacity for safe (noexcept) entity destroying *)
            outcome_map (vec_reserve (free_entity_ids_capacity_ r))
              (next_capacity_size (free_entity_ids_capacity_ r)
                 (Z.of_nat (SparseSet.size (entity_ids_ r)) + 1)%Z ids_max_size)
          else Ok (free_entity_ids_capacity_ r) in
        match reserved with
        | Ok capacity =>
            let id := to_uint32 (last_entity_id_ r + 1) in
            match SparseSet.insert entity_id_indexer sparse_max_size id (entity_ids_ r) with
            | (Ok _, ids) =>
                (Ok id, mk_registry id (free_entity_ids_ r) capacity ids (storages_ r))
            | (Throw e, ids) =>
                (Throw e, mk_registry (last_entity_id_ r) (free_entity_ids_ r) capacity
                                      ids (storages_ r))
            | (Abort, ids) =>
                (Abort, mk_registry (last_entity_id_ r) (free_entity_ids_ r) capacity
                                    ids (storages_ r))
            end
        | Throw e => (Throw e, r)
        | Abort => (Abort, r)
        end
  end.

(** *** Storages *)

(** The storage of a family, as its position in the storage table. *)
Definition find_storage_slot_ (r : registry) (family : Z) : option nat :=
  SparseMap.find_slot sparse_indexer (storages_ r) family.

Definition find_storage_ (r : registry) (family : Z) : option storage :=
  SparseMap.find sparse_indexer (storages_ r) family.

Definition new_storage (family : Z) : storage :=
  if is_empty_v family then storage_empty sparse_set_empty
  else storage_values sparse_map_empty.

Definition get_or_create_storage_ (family : Z) (r : registry) : outcome nat * registry :=
  match find_storage_slot_ r family with
  | Some i => (Ok i, r)
  | None =>
      match SparseMap.insert sparse_indexer sparse_max_size family (new_storage family)
                             (storages_ r) with
      | (Ok _, m) => (SparseMap.get_slot sparse_indexer m family, set_storages m r)
      | (Throw e, m) => (Throw e, set_storages m r)
      | (Abort, m) => (Abort, set_storages m r)
      end
  end.

(** A call through the storage pointer at a slot of the table. *)
Definition on_storage {A} (slot : nat) (f : storage -> outcome A * storage)
    (r : registry) : outcome A * registry :=
  match values_ (storages_ r) !! slot with
  | Some st =>
      let '(res, st') := f st in
      (res, set_storages (mk_sparse_map (keys_ (storages_ r))
                                        (<[slot := st']> (values_ (storages_ r)))) r)
  | None => (Abort, r)
  end.

(** *** Components *)

Definition assign_component (ndebug : bool) (family ent : Z) (v : value) (r : registry)
  : outcome value * registry :=
  if negb (assert_ ndebug (valid_entity r ent)) then (Abort, r)
  else
    match get_or_create_storage_ family r with
    | (Ok slot, r1) => on_storage slot (Storage.assign empty_value_ sparse_max_size ent v) r1
    | (Throw e, r1) => (Throw e, r1)
    | (Abort, r1) => (Abort, r1)
    end.

Definition ensure_component (ndebug : bool) (family ent : Z) (v : value) (r : registry)
  : outcome value * registry :=
  if negb (assert_ ndebug (valid_entity r ent)) then (Abort, r)
  else
    match get_or_create_storage_ family r with
    | (Ok slot, r1) => on_storage slot (Storage.ensure empty_value_ sparse_max_size ent v) r1
    | (Throw e, r1) => (Throw e, r1)
    | (Abort, r1) => (Abort, r1)
    end.

Definition remove_component (ndebug : bool) (family ent : Z) (r : registry)
  : outcome bool * registry :=
  if negb (assert_ ndebug (valid_entity r ent)) then (Abort, r)
  else
    match find_storage_slot_ r family with
    | Some slot =>
        on_storage slot (fun st => let '(b, st') := Storage.remove ent st in (Ok b, st')) r
    | None => (Ok false, r)
    end.

Definition exists_component (ndebug : bool) (r : registry) (family ent : Z) : outcome bool :=
  if negb (assert_ ndebug (valid_entity r ent)) then Abort
  else
    match find_storage_ r family with
    | Some st => Ok (Storage.exists_ st ent)
    | None => Ok false
    end.

(** [exists_component] called while the thread holds the locks [held]:
    [storage->exists(ent)] takes the mutex of the storage. *)
Definition exists_component_in (held : list lock) (ndebug : bool) (r : registry)
    (family ent : Z) : outcome bool :=
  if negb (assert_ ndebug (valid_entity r ent)) then Abort
  else
    match find_storage_ r family with
    | Some st => with_lock held (components_locker_ family) (Ok (Storage.exists_ st ent))
    | None => Ok false
    end.

(** The component of an entity in the storage of a family, if any. *)
Definition component_at (r : registry) (family ent : Z) : option value :=
  match find_storage_ r family with
  | Some st => Storage.find empty_value_ st ent
  | None => None
  end.

(** [find_component] returns a pointer: [Some] value, or [None] for null. *)
Definition find_component (ndebug : bool) (r : registry) (family ent : Z)
  : outcome (option value) :=
  if negb (assert_ ndebug (valid_entity r ent)) then Abort
  else
    match find_storage_ r family with
    | Some st => Ok (Storage.find empty_value_ st ent)
    | None => Ok None
    end.

Definition get_component (ndebug : bool) (r : registry) (family ent : Z) : outcome value :=
  if negb (assert_ ndebug (valid_entity r ent)) then Abort
  else
    match find_component ndebug r family ent with
    | Ok (Some c) => Ok c
    | Ok None => Throw component_not_found
    | Throw e => Throw e
    | Abort => Abort
    end.

(** [remove_all_components(ent)] walks the storage table; it is [noexcept],
    so a throw inside it stops the program.  One turn of its loop: *)
Definition remove_all_components_step (ent : Z) (state : outcome nat * registry)
    (family : Z) : outcome nat * registry :=
  let '(acc, r) := state in
  match acc with
  | Ok removed_count =>
      match SparseMap.get_slot sparse_indexer (storages_ r) family with
      | Ok slot =>
          match on_storage slot
                  (fun st => let '(b, st') := Storage.remove ent st in (Ok b, st')) r with
          | (Ok true, r') => (Ok (S removed_count), r')
          | (Ok false, r') => (Ok removed_count, r')
          | (_, r') => (Abort, r')
          end
      | _ => (Abort, r)
      end
  | _ => (acc, r)
  end.

Definition remove_all_components (ndebug : bool) (ent : Z) (r : registry)
  : outcome nat * registry :=
  if negb (assert_ ndebug (valid_entity r ent)) then (Abort, r)
  else foldl (remove_all_components_step ent) (Ok 0, r) (dense_ (keys_ (storages_ r))).

(** [remove_all_components<T>()]. *)
Definition remove_all_components_of (family : Z) (r : registry) : nat * registry :=
  match find_storage_slot_ r family with
  | Some slot =>
      match on_storage slot (fun st => let '(n, st') := Storage.remove_all st in (Ok n, st')) r with
      | (Ok n, r') => (n, r')
      | (_, r') => (0, r')
      end
  | None => (0, r)
  end.

Definition component_count (r : registry) (family : Z) : nat :=
  match find_storage_ r family with
  | Some st => Storage.count st
  | None => 0
  end.

Definition entity_component_count (ndebug : bool) (r : registry) (ent : Z) : outcome nat :=
  if negb (assert_ ndebug (valid_entity r ent)) then Abort
  else
    foldl (fun acc family =>
             match acc with
             | Ok component_count =>
                 match SparseMap.get sparse_indexer (storages_ r) family with
                 | Ok st => Ok (if Storage.has st ent then S component_count else component_count)
                 | _ => Abort
                 end
             | _ => acc
             end)
          (Ok 0) (dense_ (keys_ (storages_ r))).

(** [vector::push_back] seen through [capacity()]: a push at full capacity
    reallocates (to twice the size, at least one). *)
Definition push_back_capacity (capacity : Z) (size : nat) : Z :=
  if (Z.of_nat size <? capacity)%Z then capacity else Z.max 1 (2 * Z.of_nat size).

Definition destroy_entity (ndebug : bool) (ent : Z) (r : registry) : outcome unit * registry :=
  if negb (assert_ ndebug (valid_entity r ent)) then (Abort, r)
  else
    match remove_all_components ndebug ent r with
    | (Ok _, r1) =>
        let '(erased, ids) := SparseSet.unordered_erase entity_id_indexer ent (entity_ids_ r1) in
        if erased then
          if negb (assert_ ndebug
                     (Z.of_nat (length (free_entity_ids_ r1)) <? free_entity_ids_capacity_ r1)%Z)
          then (Abort, set_entity_ids ids r1)
          else
            (Ok tt,
             mk_registry (last_entity_id_ r1) (free_entity_ids_ r1 ++ [ent])
                         (push_back_capacity (free_entity_ids_capacity_ r1)
                                             (length (free_entity_ids_ r1)))
                         ids (storages_ r1))
        else (Ok tt, set_entity_ids ids r1)
    | (_, r1) => (Abort, r1)
    end.

(** [create_entity(const const_uentity& proto)]: a new entity with a copy of
    every component of [proto].  One turn of the loop over the storages: *)
Definition clone_step (proto ent : Z) (state : outcome unit * registry) (family : Z)
  : outcome unit * registry :=
  let '(acc, r) := state in
  match acc with
  | Ok _ =>
      match SparseMap.get_slot sparse_indexer (storages_ r) family with
      | Ok slot => on_storage slot (Storage.clone empty_value_ sparse_max_size proto ent) r
      | Throw e => (Throw e, r)
      | Abort => (Abort, r)
      end
  | _ => (acc, r)
  end.

Definition create_entity_clone (ndebug : bool) (proto : Z) (r : registry)
  : outcome Z * registry :=
  if negb (assert_ ndebug (valid_entity r proto)) then (Abort, r)
  else
    match create_entity r with
    | (Ok ent, r1) =>
        let '(res, r2) :=
          foldl (clone_step proto ent) (Ok tt, r1) (dense_ (keys_ (storages_ r1))) in
        match res with
        | Ok _ => (Ok ent, r2)
        | Throw e =>
            match destroy_entity ndebug ent r2 with
            | (Ok _, r3) => (Throw e, r3)
            | (_, r3) => (Abort, r3)
            end
        | Abort => (Abort, r2)
        end
    | (Throw e, r1) => (Throw e, r1)
    | (Abort, r1) => (Abort, r1)
    end.

End Ops.
End Registry.

(** ** Options

    An option is a predicate object on an entity handle: [exists<T>],
    [exists_any<Ts...>], [exists_all<Ts...>], the combinators [option_neg],
    [option_conj], [option_disj], and [option_bool].  The operators [!], [&&]
    and [||] on options build [option_neg] and the two-element [option_conj]
    and [option_disj]. *)

#[warnings="-register-all"] Inductive option_expr : Type :=
| opt_exists (family : Z)
| opt_exists_any (families : list Z)
| opt_exists_all (families : list Z)
| opt_neg (opt : option_expr)
| opt_conj (opts : list option_expr)
| opt_disj (opts : list option_expr)
| opt_bool (b : bool).

Module Options.
Section Ops.
Context {value : Type}.

(** The fold expression [(... && xs)]: it stops at the first operand that is
    false or does not return; over no operand it is true. *)
Fixpoint all_of (l : list (outcome bool)) : outcome bool :=
  match l with
  | [] => Ok true
  | Ok true :: l' => all_of l'
  | o :: _ => o
  end.

(** The fold expression [(... || xs)]. *)
Fixpoint any_of (l : list (outcome bool)) : outcome bool :=
  match l with
  | [] => Ok false
  | Ok false :: l' => any_of l'
  | o :: _ => o
  end.

(** [operator()(const const_entity& e)]. *)
Fixpoint eval (ndebug : bool) (r : registry value) (o : option_expr) (e : Z)
  : outcome bool :=
  match o with
  | opt_exists T => Registry.exists_component ndebug r T e
  | opt_exists_any Ts => any_of (map (fun T => Registry.exists_component ndebug r T e) Ts)
  | opt_exists_all Ts => all_of (map (fun T => Registry.exists_component ndebug r T e) Ts)
  | opt_neg opt => outcome_map negb (eval ndebug r opt e)
  | opt_conj opts => all_of (map (fun opt => eval ndebug r opt e) opts)
  | opt_disj opts => any_of (map (fun opt => eval ndebug r opt e) opts)
  | opt_bool b => Ok b
  end.

(** [operator()(const const_entity& e)] called from inside an iteration,
    while the thread holds the locks [held]. *)
Fixpoint eval_in (held : list lock) (ndebug : bool) (r : registry value)
    (o : option_expr) (e : Z) : outcome bool :=
  match o with
  | opt_exists T => Registry.exists_component_in held ndebug r T e
  | opt_exists_any Ts =>
      any_of (map (fun T => Registry.exists_component_in held ndebug r T e) Ts)
  | opt_exists_all Ts =>
      all_of (map (fun T => Registry.exists_component_in held ndebug r T e) Ts)
  | opt_neg opt => outcome_map negb (eval_in held ndebug r opt e)
  | opt_conj opts => all_of (map (fun opt => eval_in held ndebug r opt e) opts)
  | opt_disj opts => any_of (map (fun opt => eval_in held ndebug r opt e) opts)
  | opt_bool b => Ok b
  end.

(** The component types an option names. *)
Fixpoint families (o : option_expr) : list Z :=
  match o with
  | opt_exists T => [T]
  | opt_exists_any Ts => Ts
  | opt_exists_all Ts => Ts
  | opt_neg opt => families opt
  | opt_conj opts => concat (map families opts)
  | opt_disj opts => concat (map families opts)
  | opt_bool _ => []
  end.

(** The entities an option selects, told by the components they have:
    [exists<T>] selects the entities with a component of type [T], and the
    combinators are the boolean connectives. *)
Fixpoint selects (empty_value_ : value) (r : registry value) (e : Z) (o : option_expr)
  : bool :=
  let has T := bool_decide (is_Some (Registry.component_at empty_value_ r T e)) in
  match o with
  | opt_exists T => has T
  | opt_exists_any Ts => existsb has Ts
  | opt_exists_all Ts => forallb has Ts
  | opt_neg opt => negb (selects empty_value_ r e opt)
  | opt_conj opts => forallb (selects empty_value_ r e) opts
  | opt_disj opts => existsb (selects empty_value_ r e) opts
  | opt_bool b => b
  end.
End Ops.
End Options.

(** ** Iteration ([registry::for_each_entity], [registry::for_each_component],
    [registry::for_joined_components])

    A functor is a step on an accumulator; it is told the locks that are held
    when it is called and may fail.  The functors of the theorems below take
    the entity and the component values, return, and leave the registry
    alone: [functor1] and [functor2] wrap such a step. *)

Definition functor1 {A} (f : Z -> A -> A) : list lock -> Z -> A -> outcome A :=
  fun _ e a => Ok (f e a).

Definition functor2 {A V} (f : Z -> V -> A -> A) : list lock -> Z -> V -> A -> outcome A :=
  fun _ e c a => Ok (f e c a).

Module Iteration.
Section Ops.
Context {value : Type}.
Variable empty_value_ : value.

Abbreviation registry := (registry value).
Abbreviation storage := (component_storage value).

(** [(... && opts(ent))]: the options are called in turn, up to the first
    that is false or does not return. *)
Definition options_hold (held : list lock) (ndebug : bool) (r : registry)
    (opts : list option_expr) (ent : Z) : outcome bool :=
  Options.all_of (map (fun opt => Options.eval_in held ndebug r opt ent) opts).

(** [if ( (... && opts(ent)) ) f(ent, ...)]. *)
Definition guarded {A} (held : list lock) (ndebug : bool) (r : registry)
    (opts : list option_expr) (ent : Z) (call : A -> outcome A) (a : A) : outcome A :=
  match options_hold held ndebug r opts ent with
  | Ok true => call a
  | Ok false => Ok a
  | Throw e => Throw e
  | Abort => Abort
  end.

(** [for_each_entity] walks the entity ids with [entity_ids_locker_] locked. *)
Definition for_each_entity {A} (ndebug : bool) (f : list lock -> Z -> A -> outcome A)
    (opts : list option_expr) (r : registry) (a : A) : outcome A :=
  with_lock [] entity_ids_locker_
    (foldl (fun acc e =>
              match acc with
              | Ok a => guarded [entity_ids_locker_] ndebug r opts e
                          (f [entity_ids_locker_] e) a
              | _ => acc
              end) (Ok a) (dense_ (entity_ids_ r))).

(** [for_each_component<T>]: the options are called from the callback of the
    storage, with the mutex of the storage of [T] locked. *)
Definition for_each_component {A} (ndebug : bool) (family : Z)
    (f : list lock -> Z -> value -> A -> outcome A)
    (opts : list option_expr) (r : registry) (a : A) : outcome A :=
  match Registry.find_storage_ r family with
  | Some st =>
      Storage.for_each_component empty_value_ [] (components_locker_ family)
        (fun held e t => guarded held ndebug r opts e (f held e t)) st a
  | None => Ok a
  end.

(** The probe of the remaining storages for one entity of the driver,
    [for_joined_components_impl_(e, f, ss, cs...)]: [std::get<0>(ss)->find(e)]
    takes the mutex of that storage.  A storage pointer is kept with the
    family of its type, which names its mutex. *)
Fixpoint for_joined_components_probe {A} (held : list lock) (e : Z)
    (f : list lock -> Z -> list value -> A -> outcome A)
    (ss : list (Z * storage)) (cs : list value) (a : A) : outcome A :=
  match ss with
  | [] => f held e cs a
  | (family, s) :: ss' =>
      match with_lock held (components_locker_ family)
              (Ok (Storage.find empty_value_ s e)) with
      | Ok (Some c) => for_joined_components_probe held e f ss' (cs ++ [c]) a
      | Ok None => Ok a
      | Throw ex => Throw ex
      | Abort => Abort
      end
  end.

(** [std::make_tuple(find_storage_<Ts>()...)], or [None] when the tuple
    contains a null pointer. *)
Definition find_storages_ (r : registry) (families : list Z) : option (list (Z * storage)) :=
  mapM (fun family => pair family <$> Registry.find_storage_ r family) families.

Definition for_joined_components {A} (ndebug : bool) (families : list Z)
    (f : list lock -> Z -> list value -> A -> outcome A)
    (opts : list option_expr) (r : registry) (a : A) : outcome A :=
  match families with
  | [] => for_each_entity ndebug (fun held e => f held e []) opts r a
  | T :: Ts =>
      match find_storages_ r Ts with
      | None => Ok a
      | Some ss =>
          for_each_component ndebug T
            (fun held e t => for_joined_components_probe held e f ss [t]) opts r a
      end
  end.

(** An iteration that does not lock the storage of its driver again: the
    driver is not repeated in the type list and no option names it. *)
Definition relock_free (families : list Z) (opts : list option_expr) : Prop :=
  match families with
  | [] => True
  | T :: Ts => (T ∉ Ts) /\ Forall (fun opt => T ∉ Options.families opt) opts
  end.
End Ops.
End Iteration.

(** *** The calls of an iteration

    What a functor sees of an iteration is the sequence of its calls: the run
    with a functor that appends its arguments to a log. *)

Section Calls.
Context {value : Type}.
Variable empty_value_ : value.

Definition log_entity (e : Z) (calls : list Z) : list Z := calls ++ [e].

Definition log_call (e : Z) (cs : list value) (calls : list (Z * list value))
  : list (Z * list value) := calls ++ [(e, cs)].

Definition entity_calls (ndebug : bool) (opts : list option_expr) (r : registry value)
  : outcome (list Z) :=
  Iteration.for_each_entity ndebug (functor1 log_entity) opts r [].

Definition joined_calls (ndebug : bool) (families : list Z) (opts : list option_expr)
    (r : registry value) : outcome (list (Z * list value)) :=
  Iteration.for_joined_components empty_value_ ndebug families (functor2 log_call) opts r [].

(** The components a probe holds when it reaches the functor, if it does. *)
Fixpoint probe_components (e : Z) (ss : list (component_storage value)) (cs : list value)
  : option (list value) :=
  match ss with
  | [] => Some cs
  | s :: ss' =>
      match Storage.find empty_value_ s e with
      | Some c => probe_components e ss' (cs ++ [c])
      | None => None
      end
  end.

(** The call of the functor for a row of the driving storage, if any. *)
Definition row_call (opts : list option_expr) (r : registry value)
    (ss : list (component_storage value)) (row : Z * value) : option (Z * list value) :=
  if forallb (Options.selects empty_value_ r row.1) opts
  then pair row.1 <$> probe_components row.1 ss [row.2]
  else None.
End Calls.

(** ** Aspects *)

Module Aspect.
Section Ops.
Context {value : Type}.
Variable empty_value_ : value.

(** [(option_bool{true} && ... && exists<Ts>{})]. *)
Definition to_option (Ts : list Z) : option_expr :=
  foldl (fun acc T => opt_conj [acc; opt_exists T]) (opt_bool true) Ts.

(** [(... && e.exists_component<Ts>())]. *)
Definition match_entity (ndebug : bool) (r : registry value) (Ts : list Z) (e : Z)
  : outcome bool :=
  Options.all_of (map (fun T => Registry.exists_component ndebug r T e) Ts).

(** [owner.for_joined_components<Ts...>([&f](const auto& e, const auto&...){ f(e); }, opts...)]. *)
Definition for_each_entity {A} (ndebug : bool) (Ts : list Z)
    (f : list lock -> Z -> A -> outcome A)
    (opts : list option_expr) (r : registry value) (a : A) : outcome A :=
  Iteration.for_joined_components empty_value_ ndebug Ts (fun held e _ => f held e) opts r a.

Definition for_joined_components {A} (ndebug : bool) (Ts : list Z)
    (f : list lock -> Z -> list value -> A -> outcome A)
    (opts : list option_expr) (r : registry value) (a : A) : outcome A :=
  Iteration.for_joined_components empty_value_ ndebug Ts f opts r a.
End Ops.
End Aspect.

(** ** [prototype] and its appliers

    A [typed_applier_with_args<T, Args...>] is the family of [T] and the
    stored arguments; the arguments are kept as the value [T{args...}] they
    construct. *)

Record applier (value : Type) : Type := mk_applier {
  applier_family : Z;
  args_ : value
}.
Arguments mk_applier {value}.
Arguments applier_family {value} a.
Arguments args_ {value} a.

Record prototype (value : Type) : Type := mk_prototype {
  appliers_ : sparse_map (applier value)
}.
Arguments mk_prototype {value}.
Arguments appliers_ {value} p.

Module Prototype.
Section Ops.
Context {value : Type}.
Variable empty_value_ : value.
Variable is_empty_v : Z -> bool.
Variable sparse_max_size : Z.
Variable ids_max_size : Z.

Abbreviation registry := (registry value).
Abbreviation exists_component := (Registry.exists_component (value := value)).
Abbreviation assign_component :=
  (Registry.assign_component empty_value_ is_empty_v sparse_max_size).

(** [typed_applier_with_args::apply_to_entity]. *)
Definition applier_apply_to_entity (ndebug : bool) (a : applier value) (ent : Z)
    (override : bool) (r : registry) : outcome unit * registry :=
  let proceed :=
    if override then Ok true
    else outcome_map negb (exists_component ndebug r (applier_family a) ent) in
  match proceed with
  | Ok true =>
      let '(res, r') := assign_component ndebug (applier_family a) ent (args_ a) r in
      (outcome_map (fun _ => tt) res, r')
  | Ok false => (Ok tt, r)
  | Throw e => (Throw e, r)
  | Abort => (Abort, r)
  end.

(** [typed_applier_with_args::apply_to_component]: [component = T{args...}]. *)
Definition applier_apply_to_component (a : applier value) (component : value) : value :=
  args_ a.

Definition applier_clone (a : applier value) : applier value :=
  mk_applier (applier_family a) (args_ a).

Definition prototype_empty : prototype value := mk_prototype sparse_map_empty.

Definition clear (p : prototype value) : prototype value :=
  mk_prototype (SparseMap.clear (appliers_ p)).

Definition empty (p : prototype value) : bool := SparseMap.empty (appliers_ p).

Definition has_component (p : prototype value) (family : Z) : bool :=
  SparseMap.has sparse_indexer (appliers_ p) family.

(** [component<T>(args...)]. *)
Definition component (family : Z) (args : value) (p : prototype value)
  : outcome unit * prototype value :=
  let '(res, m) :=
    SparseMap.insert_or_assign sparse_indexer sparse_max_size family
      (mk_applier family args) (appliers_ p) in
  (outcome_map (fun _ => tt) res, mk_prototype m).

(** One turn of the loop of [merge_with]. *)
Definition merge_step (other : prototype value) (override : bool)
    (state : outcome unit * prototype value) (family : Z) : outcome unit * prototype value :=
  let '(acc, p) := state in
  match acc with
  | Ok _ =>
      if override || negb (SparseMap.has sparse_indexer (appliers_ p) family) then
        match SparseMap.get sparse_indexer (appliers_ other) family with
        | Ok a =>
            let '(res, m) :=
              SparseMap.insert_or_assign sparse_indexer sparse_max_size family
                (applier_clone a) (appliers_ p) in
            (outcome_map (fun _ => tt) res, mk_prototype m)
        | Throw e => (Throw e, p)
        | Abort => (Abort, p)
        end
      else (acc, p)
  | _ => (acc, p)
  end.

Definition merge_with (other : prototype value) (override : bool) (p : prototype value)
  : outcome unit * prototype value :=
  foldl (merge_step other override) (Ok tt, p) (dense_ (keys_ (appliers_ other))).

(** [apply_to_component(T& component)]: whether an applier was found, and
    the component afterwards. *)
Definition apply_to_component (p : prototype value) (family : Z) (component : value)
  : bool * value :=
  match SparseMap.find sparse_indexer (appliers_ p) family with
  | Some a => (true, applier_apply_to_component a component)
  | None => (false, component)
  end.

(** One turn of the loop of [apply_to_entity]. *)
Definition apply_step (ndebug : bool) (p : prototype value) (ent : Z) (override : bool)
    (state : outcome unit * registry) (family : Z) : outcome unit * registry :=
  let '(acc, r) := state in
  match acc with
  | Ok _ =>
      match SparseMap.get sparse_indexer (appliers_ p) family with
      | Ok a => applier_apply_to_entity ndebug a ent override r
      | Throw e => (Throw e, r)
      | Abort => (Abort, r)
      end
  | _ => (acc, r)
  end.

Definition apply_to_entity (ndebug : bool) (p : prototype value) (ent : Z)
    (override : bool) (r : registry) : outcome unit * registry :=
  foldl (apply_step ndebug p ent override) (Ok tt, r) (dense_ (keys_ (appliers_ p))).

(** [registry::create_entity(const prototype& proto)]. *)
Definition create_entity_from (ndebug : bool) (proto : prototype value) (r : registry)
  : outcome Z * registry :=
  match Registry.create_entity sparse_max_size ids_max_size r with
  | (Ok ent, r1) =>
      match apply_to_entity ndebug proto ent true r1 with
      | (Ok _, r2) => (Ok ent, r2)
      | (Throw e, r2) =>
          match Registry.destroy_entity ndebug ent r2 with
          | (Ok _, r3) => (Throw e, r3)
          | (_, r3) => (Abort, r3)
          end
      | (Abort, r2) => (Abort, r2)
      end
  | (Throw e, r1) => (Throw e, r1)
  | (Abort, r1) => (Abort, r1)
  end.

(** A prototype as the builders make it: every applier sits under the family
    of its own component type, and the table is well formed. *)
Definition wf (p : prototype value) : Prop :=
  SparseMap.wf sparse_indexer (appliers_ p)
  /\ forall family a,
       (family, a) ∈ SparseMap.entries (appliers_ p) ->
       applier_family a = family /\ (0 <= family < 2 ^ 16)%Z.
End Ops.
End Prototype.

(** ** Entity and component handles

    [entity], [const_entity], [component<T>] and [const_component<T>] forward
    to the registry they belong to. *)

Module Handle.
Section Ops.
Context {value : Type}.
Variable empty_value_ : value.

Definition entity_valid (r : registry value) (id : Z) : bool :=
  Registry.valid_entity r id.

Definition entity_exists_component (ndebug : bool) (r : registry value) (family id : Z)
  : outcome bool :=
  Registry.exists_component ndebug r family id.

Definition entity_find_component (ndebug : bool) (r : registry value) (family id : Z)
  : outcome (option value) :=
  Registry.find_component empty_value_ ndebug r family id.

Definition component_exists (ndebug : bool) (r : registry value) (family id : Z)
  : outcome bool :=
  entity_exists_component ndebug r family id.

Definition component_find (ndebug : bool) (r : registry value) (family id : Z)
  : outcome (option value) :=
  entity_find_component ndebug r family id.
End Ops.
End Handle.

(** ** Features and systems

    An event type is a user type or [before<E>] / [after<E>] of an event
    type.  A system says which event types it implements (the
    [dynamic_cast<system<E>*>] of the dispatch succeeds for them) and how it
    processes an event; the handler acts on a world [W] that stands for the
    registry and whatever else user code reaches. *)

Inductive event_type : Type :=
| event_user (n : nat)
| event_before (E : event_type)
| event_after (E : event_type).

#[global] Instance event_type_eq_dec : EqDecision event_type.
Proof. solve_decision. Defined.

Record system (W event : Type) : Type := mk_system {
  implements : event_type -> bool;
  process : event_type -> event -> W -> outcome W
}.
Arguments mk_system {W event}.
Arguments implements {W event} s E.
Arguments process {W event} s E ev w.

Record feature (W event : Type) : Type := mk_feature {
  disabled_ : bool;
  systems_ : list (system W event)
}.
Arguments mk_feature {W event}.
Arguments disabled_ {W event} f.
Arguments systems_ {W event} f.

Module Feature.
Section Ops.
Context {W event : Type}.

Definition feature_init : feature W event := mk_feature false [].

Definition enable (f : feature W event) : feature W event :=
  mk_feature false (systems_ f).

Definition disable (f : feature W event) : feature W event :=
  mk_feature true (systems_ f).

Definition is_enabled (f : feature W event) : bool := negb (disabled_ f).
Definition is_disabled (f : feature W event) : bool := disabled_ f.

Definition add_system (s : system W event) (f : feature W event) : feature W event :=
  mk_feature (disabled_ f) (systems_ f ++ [s]).

(** The [fire_event] lambda of [process_event]; a handler that throws ends
    the dispatch. *)
Definition fire_event (f : feature W event) (E : event_type) (ev : event) (w : W)
  : outcome W :=
  foldl (fun acc base_system =>
           match acc with
           | Ok w =>
               if implements base_system E then process base_system E ev w else Ok w
           | _ => acc
           end) (Ok w) (systems_ f).

Definition process_event (f : feature W event) (E : event_type) (ev : event) (w : W)
  : outcome W :=
  match fire_event f (event_before E) ev w with
  | Ok w1 =>
      match fire_event f E ev w1 with
      | Ok w2 => fire_event f (event_after E) ev w2
      | o => o
      end
  | o => o
  end.

(** [registry::process_event]: every enabled feature of the feature table. *)
Definition registry_process_event (features_ : sparse_map (feature W event))
    (E : event_type) (ev : event) (w : W) : outcome W :=
  foldl (fun acc family =>
           match acc with
           | Ok w =>
               match SparseMap.get sparse_indexer features_ family with
               | Ok f => if is_enabled f then process_event f E ev w else Ok w
               | Throw e => Throw e
               | Abort => Abort
               end
           | _ => acc
           end) (Ok w) (dense_ (keys_ features_)).

(** The handler calls a dispatch is made of, in order. *)
Definition dispatch_calls (f : feature W event) (E : event_type)
  : list (system W event * event_type) :=
  map (fun s => (s, event_before E)) (filter (fun s => implements s (event_before E) = true) (systems_ f))
  ++ map (fun s => (s, E)) (filter (fun s => implements s E = true) (systems_ f))
  ++ map (fun s => (s, event_after E)) (filter (fun s => implements s (event_after E) = true) (systems_ f)).

Definition run_calls (calls : list (system W event * event_type)) (ev : event) (w : W)
  : outcome W :=
  foldl (fun acc call =>
           match acc with
           | Ok w => process (fst call) (snd call) ev w
           | _ => acc
           end) (Ok w) calls.
End Ops.
End Feature.

(** Systems that record their calls: the world is the trace, a call appends
    the system's name and the event type it was called for. *)
Definition tracing_system (name : nat) (handled : list event_type)
  : system (list (nat * event_type)) unit :=
  mk_system
    (fun E => bool_decide (E ∈ handled))
    (fun E _ trace => Ok (trace ++ [(name, E)])).

(** ** Registry states and the calls that reach them *)

(** [family_id] is [std::uint16_t]. *)
Definition family_ok (family : Z) : Prop := (0 <= family < 2 ^ 16)%Z.

Inductive op (value : Type) : Type :=
| op_create_entity
| op_create_entity_from (proto : prototype value)
| op_create_entity_clone (proto : Z)
| op_destroy_entity (ent : Z)
| op_assign_component (family ent : Z) (v : value)
| op_ensure_component (family ent : Z) (v : value)
| op_remove_component (family ent : Z)
| op_remove_all_components (ent : Z)
| op_remove_all_components_of (family : Z)
| op_apply_prototype (proto : prototype value) (ent : Z) (override : bool).
Arguments op_create_entity {value}.
Arguments op_create_entity_from {value} proto.
Arguments op_create_entity_clone {value} proto.
Arguments op_destroy_entity {value} ent.
Arguments op_assign_component {value} family ent v.
Arguments op_ensure_component {value} family ent v.
Arguments op_remove_component {value} family ent.
Arguments op_remove_all_components {value} ent.
Arguments op_remove_all_components_of {value} family.
Arguments op_apply_prototype {value} proto ent override.

Section Reach.
Context {value : Type}.
Variable empty_value_ : value.
Variable is_empty_v : Z -> bool.
Variable sparse_max_size : Z.
Variable ids_max_size : Z.

(** The arguments of a call are of their C++ types: families are family ids,
    prototypes are as their builders leave them. *)
Definition op_ok (o : op value) : Prop :=
  match o with
  | op_assign_component family _ _
  | op_ensure_component family _ _
  | op_remove_component family _
  | op_remove_all_components_of family => family_ok family
  | op_create_entity_from proto
  | op_apply_prototype proto _ _ => Prototype.wf proto
  | _ => True
  end.

Definition exec (ndebug : bool) (o : op value) (r : registry value)
  : outcome unit * registry value :=
  let unit_of {A} (p : outcome A * registry value) := (outcome_map (fun _ => tt) (fst p), snd p) in
  match o with
  | op_create_entity =>
      unit_of (Registry.create_entity sparse_max_size ids_max_size r)
  | op_create_entity_from proto =>
      unit_of (Prototype.create_entity_from empty_value_ is_empty_v sparse_max_size
                 ids_max_size ndebug proto r)
  | op_create_entity_clone proto =>
      unit_of (Registry.create_entity_clone empty_value_ sparse_max_size ids_max_size
                 ndebug proto r)
  | op_destroy_entity ent => Registry.destroy_entity ndebug ent r
  | op_assign_component family ent v =>
      unit_of (Registry.assign_component empty_value_ is_empty_v sparse_max_size
                 ndebug family ent v r)
  | op_ensure_component family ent v =>
      unit_of (Registry.ensure_component empty_value_ is_empty_v sparse_max_size
                 ndebug family ent v r)
  | op_remove_component family ent =>
      unit_of (Registry.remove_component ndebug family ent r)
  | op_remove_all_components ent =>
      unit_of (Registry.remove_all_components ndebug ent r)
  | op_remove_all_components_of family =>
      (Ok tt, snd (Registry.remove_all_components_of family r))
  | op_apply_prototype proto ent override =>
      Prototype.apply_to_entity empty_value_ is_empty_v sparse_max_size ndebug
        proto ent override r
  end.

(** The states of a registry: those a program reaches from a fresh registry
    by calls that respect the assertions of the library (no call stops the
    program in a build with assertions). *)
Inductive reachable : registry value -> Prop :=
| reachable_init : reachable registry_init
| reachable_step r o :
    reachable r -> op_ok o ->
    is_abort (fst (exec false o r)) = false ->
    reachable (snd (exec false o r)).

(** The invariant of reachable states. *)
Record registry_wf (r : registry value) : Prop := mk_registry_wf {
  wf_entity_ids : SparseSet.wf entity_id_indexer (entity_ids_ r);
  wf_last : (0 <= last_entity_id_ r <= entity_id_index_mask)%Z;
  wf_ids :
    forall e, e ∈ dense_ (entity_ids_ r) ++ free_entity_ids_ r ->
      is_uint32 e /\ (1 <= entity_id_index e <= last_entity_id_ r)%Z;
  wf_indices : NoDup (entity_id_index <$> (dense_ (entity_ids_ r) ++ free_entity_ids_ r));
  wf_count :
    (Z.of_nat (length (dense_ (entity_ids_ r))) + Z.of_nat (length (free_entity_ids_ r))
     = last_entity_id_ r)%Z;
  wf_capacity :
    (Z.of_nat (length (free_entity_ids_ r)) + Z.of_nat (length (dense_ (entity_ids_ r)))
     <= free_entity_ids_capacity_ r)%Z;
  wf_storages : SparseMap.wf sparse_indexer (storages_ r);
  wf_families : forall family, family ∈ dense_ (keys_ (storages_ r)) -> family_ok family;
  wf_storage :
    forall st, st ∈ values_ (storages_ r) ->
      Storage.wf st /\ forall e, e ∈ Storage.ids st -> e ∈ dense_ (entity_ids_ r);
  wf_kinds :
    forall family st,
      SparseMap.find sparse_indexer (storages_ r) family = Some st ->
      Storage.is_empty_kind st = is_empty_v family
}.

(** A call on components leaves the entity bookkeeping alone. *)
Definition same_entities (r r' : registry value) : Prop :=
  entity_ids_ r' = entity_ids_ r
  /\ last_entity_id_ r' = last_entity_id_ r
  /\ free_entity_ids_ r' = free_entity_ids_ r
  /\ free_entity_ids_capacity_ r' = free_entity_ids_capacity_ r.

(** The value [assign_component] stores for a family. *)
Definition assigned_value (family : Z) (v : value) : value :=
  if is_empty_v family then empty_value_ else v.

(** The ways [create_entity] ends. *)
Inductive create_result (r : registry value) : outcome Z -> registry value -> Prop :=
| create_reused f ids :
    last (free_entity_ids_ r) = Some f ->
    dense_ ids = dense_ (entity_ids_ r) ++ [upgrade_entity_id f] ->
    create_result r (Ok (upgrade_entity_id f))
      (mk_registry (last_entity_id_ r) (vec_pop_back (free_entity_ids_ r))
                   (free_entity_ids_capacity_ r) ids (storages_ r))
| create_overflow :
    free_entity_ids_ r = [] ->
    (entity_id_index_mask <= last_entity_id_ r)%Z ->
    create_result r (Throw entity_index_overflow) r
| create_fresh ids capacity :
    free_entity_ids_ r = [] ->
    (last_entity_id_ r < entity_id_index_mask)%Z ->
    dense_ ids = dense_ (entity_ids_ r) ++ [(last_entity_id_ r + 1)%Z] ->
    (free_entity_ids_capacity_ r <= capacity)%Z ->
    create_result r (Ok (last_entity_id_ r + 1)%Z)
      (mk_registry (last_entity_id_ r + 1)%Z [] capacity ids (storages_ r))
| create_sparse_too_long r' :
    (sparse_max_size < 2 ^ 22)%Z ->
    entity_ids_ r' = entity_ids_ r ->
    free_entity_ids_ r' = free_entity_ids_ r ->
    last_entity_id_ r' = last_entity_id_ r ->
    create_result r (Throw length_error) r'
| create_free_list_too_long :
    free_entity_ids_ r = [] ->
    (ids_max_size < 2 ^ 22)%Z ->
    create_result r (Throw length_error) r.

(** The id a create call issues: the three overloads of [create_entity] start
    with the same allocation. *)
Definition issued_id (o : op value) (r : registry value) : option Z :=
  match o with
  | op_create_entity | op_create_entity_from _ | op_create_entity_clone _ =>
      match fst (Registry.create_entity sparse_max_size ids_max_size r) with
      | Ok ent => Some ent
      | _ => None
      end
  | _ => None
  end.

(** Destroy the entity created last and create an entity again. *)
Definition recycle (r : registry value) : registry value :=
  match last (dense_ (entity_ids_ r)) with
  | Some ent =>
      snd (Registry.create_entity sparse_max_size ids_max_size
             (snd (Registry.destroy_entity false ent r)))
  | None => r
  end.

(** A decidable part of [op_ok]: the calls that take no prototype. *)
Definition op_okb (o : op value) : bool :=
  match o with
  | op_assign_component family _ _
  | op_ensure_component family _ _
  | op_remove_component family _
  | op_remove_all_components_of family => (0 <=? family)%Z && (family <? 2 ^ 16)%Z
  | op_create_entity_from _
  | op_apply_prototype _ _ _ => false
  | _ => true
  end.

(** A run of calls in a build with assertions, [None] when a call is ill
    typed or stops the program. *)
Fixpoint run_checked (ops : list (op value)) (r : registry value) : option (registry value) :=
  match ops with
  | [] => Some r
  | o :: ops' =>
      if op_okb o && negb (is_abort (fst (exec false o r)))
      then run_checked ops' (snd (exec false o r))
      else None
  end.

(** [n] calls of [create_entity] in a row. *)
Definition create_entities (n : nat) (r : registry value) : registry value :=
  Nat.iter n (fun r => snd (Registry.create_entity sparse_max_size ids_max_size r)) r.
End Reach.

(** ** Example states

    Components are integers; family 3 is an empty marker type.  The vector
    limits are those of a 64-bit libstdc++. *)

Definition demo_is_empty (family : Z) : bool := (family =? 3)%Z.
Definition demo_sparse_max : Z := (2 ^ 60 - 1)%Z.
Definition demo_ids_max : Z := (2 ^ 61 - 1)%Z.

Definition demo_exec : op Z -> registry Z -> outcome unit * registry Z :=
  exec 0%Z demo_is_empty demo_sparse_max demo_ids_max false.

Definition demo_run (ops : list (op Z)) : registry Z :=
  foldl (fun r o => snd (demo_exec o r)) registry_init ops.

(** Two entities; the first has components of families 1, 2 and 3, the second
    of family 1 only. *)
Definition demo_ops : list (op Z) :=
  [op_create_entity; op_create_entity;
   op_assign_component 1 1 10; op_assign_component 2 1 20;
   op_assign_component 3 1 30; op_assign_component 1 2 40]%Z.

Definition demo_registry : registry Z := demo_run demo_ops.

(** One entity created and destroyed again. *)
Definition demo_destroyed : registry Z :=
  demo_run [op_create_entity; op_destroy_entity 1%Z].

(** A prototype with appliers for families 1 and 2. *)
Definition demo_prototype : prototype Z :=
  snd (Prototype.component demo_sparse_max 2%Z 22%Z
         (snd (Prototype.component demo_sparse_max 1%Z 11%Z Prototype.prototype_empty))).

(** A map with the default indexer: keys 3 and 5. *)
Definition demo_map : sparse_map Z :=
  snd (SparseMap.insert sparse_indexer 1000 5 50%Z
         (snd (SparseMap.insert sparse_indexer 1000 3 30%Z sparse_map_empty))).

(** Decidable forms of [SparseSet.wf] and [SparseMap.wf], for concrete
    containers. *)
Definition sparse_set_wfb (indexer : Z -> nat) (s : sparse_set) : bool :=
  forallb (fun iv : nat * Z => bool_decide (sparse_ s !! indexer iv.2 = Some iv.1))
          (imap pair (dense_ s)).

Definition sparse_map_wfb {V} (indexer : Z -> nat) (m : sparse_map V) : bool :=
  sparse_set_wfb indexer (keys_ m) && (length (values_ m) =? length (dense_ (keys_ m))).

(** ** The feature table of a registry

    [registry::features_] maps the family id of a feature tag to the feature.
    The calls return a reference to the stored feature; the model returns the
    table. *)

Module FeatureTable.
Section Ops.
Context {W event : Type}.
Variable sparse_max_size : Z.

(** [assign_feature<Tag>(args...)]: [feature{args...}] replaces the feature
    of the tag, or is inserted. *)
Definition assign_feature (feature_id : Z) (f : feature W event)
    (features_ : sparse_map (feature W event))
  : outcome unit * sparse_map (feature W event) :=
  match SparseMap.find_slot sparse_indexer features_ feature_id with
  | Some i =>
      (Ok tt, mk_sparse_map (keys_ features_) (<[i := f]> (values_ features_)))
  | None =>
      let '(res, m) :=
        SparseMap.insert sparse_indexer sparse_max_size feature_id f features_ in
      (outcome_map (fun _ => tt) res, m)
  end.

(** [ensure_feature<Tag>(args...)]: the feature of the tag is kept when there
    is one. *)
Definition ensure_feature (feature_id : Z) (f : feature W event)
    (features_ : sparse_map (feature W event))
  : outcome unit * sparse_map (feature W event) :=
  match SparseMap.find_slot sparse_indexer features_ feature_id with
  | Some _ => (Ok tt, features_)
  | None =>
      let '(res, m) :=
        SparseMap.insert sparse_indexer sparse_max_size feature_id f features_ in
      (outcome_map (fun _ => tt) res, m)
  end.

Definition has_feature (features_ : sparse_map (feature W event)) (feature_id : Z) : bool :=
  SparseMap.has sparse_indexer features_ feature_id.

(** The handler calls of [registry::process_event], feature by feature. *)
Definition event_calls (features_ : sparse_map (feature W event)) (E : event_type)
  : list (system W event * event_type) :=
  concat ((fun f => if Feature.is_enabled f then Feature.dispatch_calls f E else [])
            <$> values_ features_).
End Ops.
End FeatureTable.

(** Two features for the tracing systems: the first enabled with systems 1
    and 2, the second disabled with system 3. *)
Definition demo_features : sparse_map (feature (list (nat * event_type)) unit) :=
  let handled := [event_before (event_user 0); event_user 0; event_after (event_user 0)] in
  let f1 := Feature.add_system (tracing_system 2 [event_user 0])
              (Feature.add_system (tracing_system 1 handled) Feature.feature_init) in
  let f2 := Feature.disable (Feature.add_system (tracing_system 3 handled)
                               Feature.feature_init) in
  snd (FeatureTable.assign_feature 100000 8 f2
         (snd (FeatureTable.assign_feature 100000 7 f1 sparse_map_empty))).

(** * Proofs *)

Set Default Proof Using "Type".

Local Open Scope Z_scope.

(** *** Arithmetic reading of the codec *)

Lemma index_mask_ones : entity_id_index_mask = Z.ones 22.
Proof. reflexivity. Qed.

Lemma version_mask_ones : entity_id_version_mask = Z.ones 10.
Proof. reflexivity. Qed.

Lemma to_uint32_small z : is_uint32 z -> to_uint32 z = z.
Proof. intros H. apply Z.mod_small. exact H. Qed.

Lemma entity_id_index_mod id :
  0 <= id -> entity_id_index id = id mod 2 ^ 22.
Proof.
  intros Hid. unfold entity_id_index.
  rewrite index_mask_ones, Z.land_ones by lia.
  apply to_uint32_small. unfold is_uint32, uint32_max.
  pose proof (Z.mod_pos_bound id (2 ^ 22)). lia.
Qed.

Lemma entity_id_version_mod id :
  0 <= id -> entity_id_version id = (id / 2 ^ 22) mod 2 ^ 10.
Proof.
  intros Hid. unfold entity_id_version, entity_id_index_bits.
  rewrite version_mask_ones, Z.land_ones, Z.shiftr_div_pow2 by lia.
  apply to_uint32_small. unfold is_uint32, uint32_max.
  pose proof (Z.mod_pos_bound (id / 2 ^ 22) (2 ^ 10)). lia.
Qed.

Lemma lor_disjoint_add i w :
  0 <= i < 2 ^ 22 -> 0 <= w -> Z.lor i (w * 2 ^ 22) = i + w * 2 ^ 22.
Proof.
  intros Hi Hw.
  rewrite (Z.add_comm i), <- Z.lor_comm.
  rewrite <- Z.shiftl_mul_pow2 by lia.
  symmetry. rewrite <- Z.lxor_lor.
  - apply Z.add_nocarry_lxor.
    apply Z.bits_inj'. intros n Hn.
    rewrite Z.land_spec, Z.bits_0.
    destruct (Z.lt_ge_cases n 22) as [Hlt | Hge].
    + rewrite Z.shiftl_spec_low by lia. reflexivity.
    + rewrite (Z.bits_above_log2 i n); [apply andb_false_r | lia |].
      destruct (Z.eq_dec i 0) as [-> | Hne]; [simpl; lia |].
      apply Z.lt_le_trans with 22; [| lia].
      apply Z.log2_lt_pow2; lia.
  - apply Z.bits_inj'. intros n Hn.
    rewrite Z.land_spec, Z.bits_0.
    destruct (Z.lt_ge_cases n 22) as [Hlt | Hge].
    + rewrite Z.shiftl_spec_low by lia. reflexivity.
    + rewrite (Z.bits_above_log2 i n); [apply andb_false_r | lia |].
      destruct (Z.eq_dec i 0) as [-> | Hne]; [simpl; lia |].
      apply Z.lt_le_trans with 22; [| lia].
      apply Z.log2_lt_pow2; lia.
Qed.

(** Shifting a 32-bit version field into place keeps only its low ten bits. *)
Lemma shifted_version_wrap w :
  0 <= w ->
  to_uint32 (Z.shiftl w entity_id_index_bits) = (w mod 2 ^ 10) * 2 ^ 22.
Proof.
  intros Hw. unfold to_uint32, uint32_max, entity_id_index_bits.
  rewrite Z.shiftl_mul_pow2 by lia.
  change (2 ^ 32) with (2 ^ 10 * 2 ^ 22).
  rewrite Z.mul_mod_distr_r by lia. reflexivity.
Qed.

Lemma entity_id_join_add i v :
  0 <= i < 2 ^ 22 -> 0 <= v ->
  entity_id_join i v = i + (v mod 2 ^ 10) * 2 ^ 22.
Proof.
  intros Hi Hv. unfold entity_id_join.
  rewrite shifted_version_wrap by lia.
  apply lor_disjoint_add; [lia |].
  pose proof (Z.mod_pos_bound v (2 ^ 10)). lia.
Qed.

Lemma entity_id_join_range i v :
  0 <= i < 2 ^ 22 -> 0 <= v -> is_uint32 (entity_id_join i v).
Proof.
  intros Hi Hv. rewrite entity_id_join_add by lia.
  pose proof (Z.mod_pos_bound v (2 ^ 10)).
  unfold is_uint32, uint32_max. lia.
Qed.

Lemma entity_id_index_join i v :
  0 <= i < 2 ^ 22 -> 0 <= v -> entity_id_index (entity_id_join i v) = i.
Proof.
  intros Hi Hv.
  pose proof (entity_id_join_range i v Hi Hv) as [Hlo _].
  rewrite entity_id_index_mod by lia.
  rewrite entity_id_join_add by lia.
  rewrite Z.mod_add by lia. apply Z.mod_small. lia.
Qed.

Lemma entity_id_version_join i v :
  0 <= i < 2 ^ 22 -> 0 <= v ->
  entity_id_version (entity_id_join i v) = v mod 2 ^ 10.
Proof.
  intros Hi Hv.
  pose proof (entity_id_join_range i v Hi Hv) as [Hlo _].
  rewrite entity_id_version_mod by lia.
  rewrite entity_id_join_add by lia.
  rewrite Z.div_add by lia. rewrite Z.div_small by lia.
  rewrite Z.add_0_l. apply Z.mod_mod. lia.
Qed.

Lemma entity_id_index_range id : 0 <= id -> 0 <= entity_id_index id < 2 ^ 22.
Proof.
  intros Hid. rewrite entity_id_index_mod by lia.
  apply Z.mod_pos_bound. lia.
Qed.

Lemma entity_id_version_range id : 0 <= id -> 0 <= entity_id_version id < 2 ^ 10.
Proof.
  intros Hid. rewrite entity_id_version_mod by lia.
  apply Z.mod_pos_bound. lia.
Qed.

Lemma upgrade_entity_id_add id :
  0 <= id ->
  upgrade_entity_id id =
  entity_id_index id + ((entity_id_version id + 1) mod 2 ^ 10) * 2 ^ 22.
Proof.
  intros Hid. unfold upgrade_entity_id.
  pose proof (entity_id_index_range id Hid).
  pose proof (entity_id_version_range id Hid).
  rewrite (to_uint32_small (entity_id_version id + 1))
    by (unfold is_uint32, uint32_max; lia).
  apply entity_id_join_add; lia.
Qed.

(** C2.  [upgrade_entity_id] re-joins the index with the version plus one
    reduced by the version mask; on a joined pair it yields the same index
    with the version incremented modulo 2^10, and version 2^10 - 1 wraps
    to 0. *)
Theorem upgrade_entity_id_wraps (id i v : Z)
  (Hid : is_uint32 id) (Hi : 0 <= i < 2 ^ 22) (Hv : 0 <= v < 2 ^ 10) :
  upgrade_entity_id id =
    entity_id_join (entity_id_index id)
                   (Z.land (entity_id_version id + 1) entity_id_version_mask)
  /\ upgrade_entity_id (entity_id_join i v) = entity_id_join i ((v + 1) mod 2 ^ 10)
  /\ upgrade_entity_id (entity_id_join i (2 ^ 10 - 1)) = entity_id_join i 0.
Proof.
  assert (Hup : forall j w, 0 <= j < 2 ^ 22 -> 0 <= w < 2 ^ 10 ->
            upgrade_entity_id (entity_id_join j w) =
            entity_id_join j ((w + 1) mod 2 ^ 10)).
  { intros j w Hj Hw.
    pose proof (entity_id_join_range j w Hj (proj1 Hw)) as [Hlo _].
    rewrite upgrade_entity_id_add by lia.
    rewrite entity_id_index_join, entity_id_version_join by lia.
    rewrite (Z.mod_small w) by lia.
    pose proof (Z.mod_pos_bound (w + 1) (2 ^ 10)).
    rewrite entity_id_join_add by lia.
    rewrite Z.mod_mod by lia. reflexivity. }
  destruct Hid as [Hid0 Hid1].
  pose proof (entity_id_index_range id Hid0).
  pose proof (entity_id_version_range id Hid0).
  split; [| split].
  - rewrite upgrade_entity_id_add by lia.
    rewrite version_mask_ones, Z.land_ones by lia.
    pose proof (Z.mod_pos_bound (entity_id_version id + 1) (2 ^ 10)).
    rewrite entity_id_join_add by lia.
    rewrite Z.mod_mod by lia. reflexivity.
  - apply Hup; lia.
  - rewrite Hup by lia. reflexivity.
Qed.

(** The wrap at the last version, on an id with index 2048. *)
Lemma upgrade_entity_id_wraps_witness :
  upgrade_entity_id 4290772993 =
    entity_id_join (entity_id_index 4290772993)
                   (Z.land (entity_id_version 4290772993 + 1) entity_id_version_mask)
  /\ upgrade_entity_id (entity_id_join 2048 1023) = entity_id_join 2048 ((1023 + 1) mod 2 ^ 10)
  /\ upgrade_entity_id (entity_id_join 2048 (2 ^ 10 - 1)) = entity_id_join 2048 0.
Proof.
  apply (upgrade_entity_id_wraps 4290772993 2048 1023);
    unfold is_uint32, uint32_max; lia.
Defined.


(** *** Facts used by the registry *)

Lemma entity_id_index_upgrade id :
  0 <= id -> entity_id_index (upgrade_entity_id id) = entity_id_index id.
Proof.
  intros Hid. unfold upgrade_entity_id.
  pose proof (entity_id_index_range id Hid).
  pose proof (entity_id_version_range id Hid).
  apply entity_id_index_join; [lia |].
  unfold to_uint32. apply Z.mod_pos_bound. unfold uint32_max. lia.
Qed.

Lemma entity_id_version_upgrade id :
  0 <= id ->
  entity_id_version (upgrade_entity_id id) = (entity_id_version id + 1) mod 2 ^ 10.
Proof.
  intros Hid. unfold upgrade_entity_id.
  pose proof (entity_id_index_range id Hid).
  pose proof (entity_id_version_range id Hid).
  rewrite (to_uint32_small (entity_id_version id + 1))
    by (unfold is_uint32, uint32_max; lia).
  apply entity_id_version_join; lia.
Qed.

Lemma upgrade_entity_id_range id : 0 <= id -> is_uint32 (upgrade_entity_id id).
Proof.
  intros Hid. unfold upgrade_entity_id.
  pose proof (entity_id_index_range id Hid).
  apply entity_id_join_range; [lia |].
  unfold to_uint32. apply Z.mod_pos_bound. unfold uint32_max. lia.
Qed.

Lemma upgrade_entity_id_neq id : 0 <= id -> upgrade_entity_id id <> id.
Proof.
  intros Hid Heq.
  pose proof (entity_id_version_upgrade id Hid) as Hv. rewrite Heq in Hv.
  pose proof (entity_id_version_range id Hid) as Hr.
  destruct (Z.eq_dec (entity_id_version id) (2 ^ 10 - 1)) as [He | Hne].
  - rewrite He in Hv. vm_compute in Hv. discriminate.
  - rewrite Z.mod_small in Hv by lia. lia.
Qed.

Lemma entity_id_index_mask_val : entity_id_index_mask = 2 ^ 22 - 1.
Proof. reflexivity. Qed.

Lemma entity_id_index_small id :
  0 <= id < 2 ^ 22 -> entity_id_index id = id.
Proof.
  intros Hid. rewrite entity_id_index_mod by lia. apply Z.mod_small. lia.
Qed.

Lemma entity_id_indexer_eq a b :
  0 <= a -> 0 <= b ->
  entity_id_indexer a = entity_id_indexer b <-> entity_id_index a = entity_id_index b.
Proof.
  intros Ha Hb. unfold entity_id_indexer.
  pose proof (entity_id_index_range a Ha). pose proof (entity_id_index_range b Hb).
  split; [| congruence]. intros H1. apply Z2Nat.inj; lia.
Qed.

(** The indexers of the registry stay far below [SIZE_MAX]. *)
Lemma entity_id_indexer_size id : Z.of_nat (entity_id_indexer id) < size_max.
Proof.
  unfold entity_id_indexer, entity_id_index, to_uint32, uint32_max, size_max.
  pose proof (Z.mod_pos_bound (Z.land id entity_id_index_mask) (2 ^ 32)). lia.
Qed.

Lemma sparse_indexer_size family :
  family_ok family -> Z.of_nat (sparse_indexer family) < size_max.
Proof. unfold family_ok, sparse_indexer, size_max. lia. Qed.

Local Close Scope Z_scope.

(** ** [next_capacity_size] *)

Lemma next_capacity_size_ok (cur mn mx : Z) :
  (mn <= mx)%Z -> exists n, next_capacity_size cur mn mx = Ok n /\ (mn <= n)%Z.
Proof.
  intros H. unfold next_capacity_size.
  destruct (Z.ltb_spec mx mn); [lia |].
  destruct (Z.leb_spec (mx / 2) cur); eexists; split; try reflexivity; lia.
Qed.

Lemma next_capacity_size_inv (cur mn mx : Z) :
  ((mx < mn)%Z /\ next_capacity_size cur mn mx = Throw length_error) \/
  ((mn <= mx)%Z /\ exists n, next_capacity_size cur mn mx = Ok n /\ (mn <= n)%Z).
Proof.
  unfold next_capacity_size.
  destruct (Z.ltb_spec mx mn); [left; auto |].
  right. split; [lia |].
  destruct (Z.leb_spec (mx / 2) cur); eexists; split; try reflexivity; lia.
Qed.
(** ** The vector helpers *)

Section VecFacts.
Context {A : Type}.
Implicit Types (l : list A) (i j : nat).

Lemma length_vec_pop_back l : length (vec_pop_back l) = length l - 1.
Proof. unfold vec_pop_back. rewrite length_take. lia. Qed.

Lemma lookup_vec_pop_back l j :
  vec_pop_back l !! j = if decide (j < length l - 1) then l !! j else None.
Proof.
  unfold vec_pop_back. destruct (decide (j < length l - 1)).
  - by rewrite lookup_take_lt.
  - rewrite lookup_take_ge; [done | lia].
Qed.

Lemma vec_pop_back_snoc l x : vec_pop_back (l ++ [x]) = l.
Proof.
  unfold vec_pop_back. rewrite length_app. simpl.
  replace (length l + 1 - 1) with (length l) by lia.
  apply take_app_length.
Qed.

Lemma length_vec_swap l i j : length (vec_swap l i j) = length l.
Proof.
  unfold vec_swap. destruct (l !! i), (l !! j); try done.
  by rewrite !length_insert.
Qed.

Lemma lookup_vec_swap l i j k :
  i < length l -> j < length l ->
  vec_swap l i j !! k =
    if decide (k = i) then l !! j
    else if decide (k = j) then l !! i else l !! k.
Proof.
  intros Hi Hj. unfold vec_swap.
  destruct (lookup_lt_is_Some_2 l i Hi) as [x Hx].
  destruct (lookup_lt_is_Some_2 l j Hj) as [y Hy].
  rewrite Hx, Hy.
  destruct (decide (k = i)) as [-> | Hki].
  - rewrite list_lookup_insert_eq; [done | by rewrite length_insert].
  - rewrite list_lookup_insert_ne by done.
    destruct (decide (k = j)) as [-> | Hkj].
    + by rewrite list_lookup_insert_eq.
    + by rewrite list_lookup_insert_ne.
Qed.

Lemma length_swap_pop i l : length (swap_pop i l) = length l - 1.
Proof.
  unfold swap_pop. rewrite length_vec_pop_back.
  destruct (negb _); [by rewrite length_vec_swap | done].
Qed.

Lemma lookup_swap_pop i l j :
  i < length l ->
  swap_pop i l !! j =
    if decide (j < length l - 1)
    then (if decide (j = i) then l !! (length l - 1) else l !! j)
    else None.
Proof.
  intros Hi. unfold swap_pop.
  destruct (Nat.eqb_spec i (length l - 1)) as [Heq | Hne]; simpl.
  - rewrite lookup_vec_pop_back.
    destruct (decide (j < length l - 1)); [| done].
    destruct (decide (j = i)); [lia | done].
  - rewrite lookup_vec_pop_back, length_vec_swap.
    destruct (decide (j < length l - 1)); [| done].
    rewrite lookup_vec_swap by lia.
    destruct (decide (j = i)); [done |].
    destruct (decide (j = length l - 1)); [lia | done].
Qed.

Lemma elem_of_swap_pop i l x :
  i < length l ->
  x ∈ swap_pop i l <-> exists j, j <> i /\ l !! j = Some x.
Proof.
  intros Hi. rewrite list_elem_of_lookup. split.
  - intros [j Hj]. rewrite lookup_swap_pop in Hj by done.
    destruct (decide (j < length l - 1)); [| done].
    destruct (decide (j = i)) as [-> | Hji].
    + exists (length l - 1). split; [lia | done].
    + by exists j.
  - intros [j [Hji Hj]]. pose proof (lookup_lt_Some _ _ _ Hj) as Hlt.
    destruct (decide (j = length l - 1)) as [-> | Hjl].
    + exists i. rewrite lookup_swap_pop by done.
      destruct (decide (i < length l - 1)); [| lia].
      by destruct (decide (i = i)).
    + exists j. rewrite lookup_swap_pop by done.
      destruct (decide (j < length l - 1)); [| lia].
      by destruct (decide (j = i)).
Qed.
End VecFacts.

Lemma lookup_vec_resize_old l n j :
j < length l -> length l <= n -> vec_resize l n !! j = l !! j.
Proof.
intros Hj Hn. unfold vec_resize.
rewrite take_ge by lia. by rewrite lookup_app_l.
Qed.

Lemma length_vec_resize l n : length (vec_resize l n) = n.
Proof.
unfold vec_resize. rewrite length_app, length_take, length_replicate. lia.
Qed.

(** ** The sparse set *)

Section SparseSetFacts.
Variable indexer : Z -> nat.
Variable mx : Z.

Abbreviation has := (SparseSet.has indexer).
Abbreviation insert := (SparseSet.insert indexer mx).
Abbreviation unordered_erase := (SparseSet.unordered_erase indexer).
Abbreviation set_wf := (SparseSet.wf indexer).
Abbreviation no_collision := (SparseSet.no_collision indexer).

Lemma set_has_spec s v :
  has s v = true <->
  exists di, sparse_ s !! indexer v = Some di /\ dense_ s !! di = Some v.
Proof.
  unfold SparseSet.has. cbv zeta.
  rewrite !andb_true_iff, !Nat.ltb_lt, Z.eqb_eq. split.
  - intros [[H1 H2] H3].
    exists (sparse_ s !!! indexer v). split.
    + by apply list_lookup_lookup_total_lt.
    + rewrite <- H3 at 2. by apply list_lookup_lookup_total_lt.
  - intros (di & H1 & H2).
    rewrite (list_lookup_total_correct _ _ _ H1).
    rewrite (list_lookup_total_correct _ _ _ H2).
    split; [split |]; eauto using lookup_lt_Some.
Qed.

Lemma set_has_elem s v : has s v = true -> v ∈ dense_ s.
Proof.
  rewrite set_has_spec. intros (di & _ & H).
  by eapply list_elem_of_lookup_2.
Qed.

Lemma set_wf_has s v : set_wf s -> v ∈ dense_ s -> has s v = true.
Proof.
  intros Hwf [i Hi]%list_elem_of_lookup_1.
  apply set_has_spec. exists i. split; [by apply Hwf | done].
Qed.

Lemma set_has_iff_elem s v : set_wf s -> has s v = true <-> v ∈ dense_ s.
Proof. intros Hwf. split; [apply set_has_elem | by apply set_wf_has]. Qed.

Lemma set_wf_NoDup s : set_wf s -> NoDup (dense_ s).
Proof.
  intros Hwf. apply NoDup_alt. intros i j v Hi Hj.
  apply Hwf in Hi, Hj. congruence.
Qed.

Lemma set_wf_indexer_inj s a b :
  set_wf s -> a ∈ dense_ s -> b ∈ dense_ s -> indexer a = indexer b -> a = b.
Proof.
  intros Hwf [i Hi]%list_elem_of_lookup_1 [j Hj]%list_elem_of_lookup_1 Heq.
  pose proof (Hwf _ _ Hi) as Hi'. pose proof (Hwf _ _ Hj) as Hj'.
  rewrite Heq in Hi'. assert (i = j) by congruence. subst. congruence.
Qed.

Lemma set_wf_empty : set_wf sparse_set_empty.
Proof. intros i v H. destruct i; discriminate. Qed.

Lemma set_wf_clear s : set_wf (SparseSet.clear s).
Proof. intros i v H. destruct i; discriminate. Qed.

Lemma set_has_clear s v : SparseSet.has indexer (SparseSet.clear s) v = false.
Proof.
  apply not_true_is_false. intros H%set_has_elem. simpl in H.
  by apply elem_of_nil in H.
Qed.

Lemma set_find_dense_index_spec s v i :
  SparseSet.find_dense_index indexer s v = Some i ->
  has s v = true /\ sparse_ s !! indexer v = Some i /\ dense_ s !! i = Some v.
Proof.
  unfold SparseSet.find_dense_index.
  destruct (has s v) eqn:Hh; [| done]. intros [= <-].
  apply set_has_spec in Hh as (di & H1 & H2).
  rewrite (list_lookup_total_correct _ _ _ H1). auto.
Qed.

Lemma set_find_dense_index_None s v :
  SparseSet.find_dense_index indexer s v = None <-> has s v = false.
Proof.
  unfold SparseSet.find_dense_index. destruct (has s v); split; done.
Qed.

Lemma set_find_dense_index_wf s v i :
  set_wf s -> dense_ s !! i = Some v ->
  SparseSet.find_dense_index indexer s v = Some i.
Proof.
  intros Hwf Hi. unfold SparseSet.find_dense_index.
  rewrite set_wf_has by eauto using list_elem_of_lookup_2.
  by rewrite (list_lookup_total_correct _ _ _ (Hwf _ _ Hi)).
Qed.

(** *** insert *)

Abbreviation insert_result := (insert_result indexer mx).

Lemma to_size_t_small (z : Z) : (0 <= z <= size_max)%Z -> to_size_t z = z.
Proof. intros Hz. unfold to_size_t. apply Z.mod_small. lia. Qed.

(** The outcomes of [insert] for a value whose index is below [SIZE_MAX], so
    that [vi + 1u] does not wrap. *)
Lemma set_insert_inv v s res s' :
  (Z.of_nat (indexer v) < size_max)%Z ->
  insert v s = (res, s') -> insert_result v s res s'.
Proof.
  intros Hvi. unfold SparseSet.insert. destruct (has s v) eqn:Hh.
  { intros [= <- <-]. by constructor. }
  cbv zeta. rewrite length_app. simpl.
  replace (length (dense_ s) + 1 - 1) with (length (dense_ s)) by lia.
  rewrite to_size_t_small by lia.
  destruct (Nat.leb_spec (length (sparse_ s)) (indexer v)) as [Hle | Hlt].
  - destruct (next_capacity_size_inv (Z.of_nat (length (sparse_ s)))
                (Z.of_nat (indexer v) + 1) mx) as [[Hmx Hr] | [Hmx (n & Hr & Hn)]];
      rewrite Hr; simpl.
    + intros [= <- <-]. by constructor.
    + rewrite length_vec_resize.
      destruct (Nat.ltb_spec (indexer v) (Z.to_nat n)) as [Hin | Hout]; [| lia].
      intros [= <- <-]. apply insert_added; try done.
      * rewrite length_vec_resize. lia.
      * intros j Hj. apply lookup_vec_resize_old; lia.
      * rewrite length_vec_resize. lia.
      * right. done.
  - destruct (Nat.ltb_spec (indexer v) (length (sparse_ s))) as [Hin | Hout]; [| lia].
    intros [= <- <-]. apply insert_added; try done; auto.
Qed.

Lemma set_insert_wf v s res s' :
  (Z.of_nat (indexer v) < size_max)%Z ->
  set_wf s -> no_collision s v -> insert v s = (res, s') -> set_wf s'.
Proof.
  intros Hvi Hwf Hnc Hins. apply set_insert_inv in Hins; [| done].
  destruct Hins as [Hh | Hh Hle Hmx | sp Hh Hvi' Hsp Hlen _]; try done.
  intros i w Hi. simpl in *.
  apply lookup_snoc_Some in Hi as [[Hlt Hi] | [-> ->]].
  - pose proof (Hwf _ _ Hi) as Hs.
    assert (indexer w <> indexer v) as Hne.
    { intros Heq. assert (w = v) as ->.
      { apply Hnc; [by eapply list_elem_of_lookup_2 | done]. }
      rewrite set_wf_has in Hh; [done | done | by eapply list_elem_of_lookup_2]. }
    rewrite list_lookup_insert_ne by done.
    rewrite Hsp; [done | by eapply lookup_lt_Some].
  - by rewrite list_lookup_insert_eq.
Qed.

Lemma set_insert_dense v s res s' :
  (Z.of_nat (indexer v) < size_max)%Z ->
  insert v s = (res, s') ->
  dense_ s' = match res with Ok true => dense_ s ++ [v] | _ => dense_ s end.
Proof.
  intros Hvi Hins. apply set_insert_inv in Hins; [| done]. by destruct Hins.
Qed.

Lemma set_insert_elem v s res s' w :
  (Z.of_nat (indexer v) < size_max)%Z ->
  insert v s = (res, s') -> is_ok res = true ->
  w ∈ dense_ s' <-> w ∈ dense_ s \/ w = v.
Proof.
  intros Hvi Hins Hok. apply set_insert_inv in Hins; [| done].
  destruct Hins as [Hh | Hh Hle Hmx | sp Hh Hvi' Hsp Hlen _]; try done; simpl.
  - apply set_has_elem in Hh. split; [auto | by intros [? | ->]].
  - rewrite elem_of_app, list_elem_of_singleton. done.
Qed.

Lemma set_insert_no_throw v s :
  (Z.of_nat (indexer v) < size_max)%Z ->
  (Z.of_nat (indexer v) + 1 <= mx)%Z -> is_ok (fst (insert v s)) = true.
Proof.
  intros Hvi Hmx. destruct (insert v s) as [res s'] eqn:Hins.
  apply set_insert_inv in Hins; [| done]. destruct Hins; simpl; try done. lia.
Qed.

(** *** unordered_erase *)

Lemma set_erase_absent v s :
  has s v = false -> unordered_erase v s = (false, s).
Proof. intros H. unfold SparseSet.unordered_erase. by rewrite H. Qed.

Lemma set_erase_present v s i :
  set_wf s -> dense_ s !! i = Some v ->
  exists sp,
    unordered_erase v s = (true, mk_sparse_set (swap_pop i (dense_ s)) sp)
    /\ set_wf (mk_sparse_set (swap_pop i (dense_ s)) sp)
    /\ length sp = length (sparse_ s).
Proof.
  intros Hwf Hi. pose proof (Hwf _ _ Hi) as Hs.
  pose proof (lookup_lt_Some _ _ _ Hi) as Hlt.
  unfold SparseSet.unordered_erase.
  rewrite set_wf_has by eauto using list_elem_of_lookup_2. simpl.
  rewrite (list_lookup_total_correct _ _ _ Hs).
  unfold swap_pop.
  destruct (Nat.eqb_spec i (length (dense_ s) - 1)) as [Heq | Hne]; simpl.
  - eexists. split; [reflexivity |]. split; [| done].
    intros j w Hj. simpl in Hj. rewrite lookup_vec_pop_back in Hj.
    destruct (decide _); [| done]. simpl. by apply Hwf.
  - eexists. split; [reflexivity |]. split; [| by rewrite length_insert].
    destruct (lookup_lt_is_Some_2 (dense_ s) (length (dense_ s) - 1)) as [lst Hlst];
      [lia |].
    assert (vec_swap (dense_ s) i (length (dense_ s) - 1) !!! i = lst) as ->.
    { apply list_lookup_total_correct. rewrite lookup_vec_swap by lia.
      by destruct (decide (i = i)). }
    intros j w Hj. simpl in *. rewrite lookup_vec_pop_back, length_vec_swap in Hj.
    destruct (decide (j < length (dense_ s) - 1)); [| done].
    rewrite lookup_vec_swap in Hj by lia.
    destruct (decide (j = i)) as [-> | Hji].
    + assert (w = lst) as -> by congruence.
      apply list_lookup_insert_eq. by eapply lookup_lt_Some, Hwf.
    + destruct (decide (j = length (dense_ s) - 1)); [lia |].
      rewrite list_lookup_insert_ne; [by apply Hwf |].
      intros Heq. pose proof (Hwf _ _ Hlst) as H1. pose proof (Hwf _ _ Hj) as H2.
      rewrite Heq in H1. assert (length (dense_ s) - 1 = j) by congruence. lia.
Qed.

Lemma set_erase_wf v s b s' :
  set_wf s -> unordered_erase v s = (b, s') -> set_wf s'.
Proof.
  intros Hwf He. destruct (has s v) eqn:Hh.
  - apply set_has_elem, list_elem_of_lookup_1 in Hh as [i Hi].
    destruct (set_erase_present v s i Hwf Hi) as (sp & He' & Hwf' & _).
    rewrite He' in He. by injection He as <- <-.
  - rewrite set_erase_absent in He by done. by injection He as <- <-.
Qed.

Lemma set_erase_result v s : fst (unordered_erase v s) = has s v.
Proof. unfold SparseSet.unordered_erase. by destruct (has s v). Qed.

Lemma set_erase_elem v s b s' w :
  set_wf s -> unordered_erase v s = (b, s') ->
  w ∈ dense_ s' <-> w ∈ dense_ s /\ w <> v.
Proof.
  intros Hwf He. destruct (has s v) eqn:Hh.
  - apply set_has_elem, list_elem_of_lookup_1 in Hh as [i Hi].
    destruct (set_erase_present v s i Hwf Hi) as (sp & He' & Hwf' & _).
    rewrite He' in He. injection He as <- <-. simpl.
    rewrite elem_of_swap_pop by eauto using lookup_lt_Some.
    pose proof (set_wf_NoDup s Hwf) as Hnd.
    split.
    + intros (j & Hji & Hj). split; [by eapply list_elem_of_lookup_2 |].
      intros ->. apply Hji. by eapply NoDup_lookup.
    + intros [[j Hj]%list_elem_of_lookup_1 Hne]. exists j. split; [| done].
      intros ->. congruence.
  - rewrite set_erase_absent in He by done. injection He as <- <-.
    split; [| tauto]. intros Hw. split; [done |]. intros ->.
    by rewrite set_wf_has in Hh.
Qed.

Lemma set_erase_length v s :
  set_wf s ->
  length (dense_ (snd (unordered_erase v s))) =
  if has s v then length (dense_ s) - 1 else length (dense_ s).
Proof.
  intros Hwf. destruct (has s v) eqn:Hh.
  - apply set_has_elem, list_elem_of_lookup_1 in Hh as [i Hi].
    destruct (set_erase_present v s i Hwf Hi) as (sp & He' & _).
    rewrite He'. simpl. apply length_swap_pop.
  - by rewrite set_erase_absent.
Qed.
End SparseSetFacts.

(** ** Runs of sparse set operations *)

Section SparseSetRuns.
Variable indexer : Z -> nat.
Variable mx : Z.

Abbreviation has := (SparseSet.has indexer).
Abbreviation set_wf := (SparseSet.wf indexer).
Abbreviation set_exec := (SparseSet.set_exec indexer mx).
Abbreviation set_run := (SparseSet.set_run indexer mx).
Abbreviation collision_free := (SparseSet.collision_free indexer mx).
Abbreviation present := (SparseSet.present indexer mx).

Lemma no_collisionb_sound s v :
  no_collisionb indexer s v = true -> SparseSet.no_collision indexer s v.
Proof.
  unfold no_collisionb. rewrite forallb_forall.
  intros H w Hw Heq. apply list_elem_of_In in Hw. specialize (H w Hw).
  apply orb_true_iff in H as [H | H].
  - apply negb_true_iff, Nat.eqb_neq in H. done.
  - by apply Z.eqb_eq in H.
Qed.

Lemma collision_freeb_sound ops s :
  collision_freeb indexer mx ops s = true -> collision_free ops s.
Proof.
  revert s. induction ops as [| o ops IH]; intros s; simpl; [done |].
  intros [H1 H2]%andb_true_iff. split; [| by apply IH].
  destruct o; try done. by apply no_collisionb_sound.
Qed.

Lemma collision_free_app ops1 ops2 s :
  collision_free (ops1 ++ ops2) s -> collision_free ops1 s.
Proof.
  revert s. induction ops1 as [| o ops1 IH]; intros s; simpl; [done |].
  intros [H1 H2]. split; [done | by apply IH].
Qed.

Lemma collision_free_inj ops s :
  (forall a b, indexer a = indexer b -> a = b) -> collision_free ops s.
Proof.
  intros Hinj. revert s. induction ops as [| o ops IH]; intros s; simpl; [done |].
  split; [| apply IH]. destruct o; try done. intros w _ Hw. by apply Hinj.
Qed.

Lemma set_exec_wf o s :
  SparseSet.below_size_max indexer o ->
  set_wf s ->
  match o with SparseSet.op_insert v => SparseSet.no_collision indexer s v | _ => True end ->
  set_wf (set_exec o s).
Proof.
  intros Hidx Hwf Hnc. destruct o as [v | v |]; simpl.
  - destruct (SparseSet.insert indexer mx v s) as [res s'] eqn:He.
    by eapply set_insert_wf.
  - destruct (SparseSet.unordered_erase indexer v s) as [b s'] eqn:He.
    by eapply set_erase_wf.
  - apply set_wf_clear.
Qed.

Lemma set_exec_present o s p :
  SparseSet.below_size_max indexer o ->
  set_wf s ->
  (forall w, w ∈ dense_ s <-> w ∈ p) ->
  forall w, w ∈ dense_ (set_exec o s) <-> w ∈ SparseSet.present_exec indexer mx o s p.
Proof.
  intros Hidx Hwf Hp w. destruct o as [v | v |]; simpl.
  - destruct (SparseSet.insert indexer mx v s) as [res s'] eqn:He. simpl.
    destruct (is_ok res) eqn:Hok.
    + rewrite (set_insert_elem _ _ _ _ _ _ _ Hidx He Hok), Hp.
      case_bool_decide as Hv.
      * split; [by intros [? | ->] | auto].
      * rewrite elem_of_app, list_elem_of_singleton. done.
    + apply set_insert_inv in He; [| done]. destruct He; try done.
  - destruct (SparseSet.unordered_erase indexer v s) as [b s'] eqn:He. simpl.
    rewrite (set_erase_elem _ _ _ _ _ _ Hwf He), list_elem_of_filter, Hp. tauto.
  - done.
Qed.

Lemma set_run_invariant ops s p :
  Forall (SparseSet.below_size_max indexer) ops ->
  set_wf s -> (forall w, w ∈ dense_ s <-> w ∈ p) -> collision_free ops s ->
  set_wf (set_run ops s)
  /\ forall w, w ∈ dense_ (set_run ops s) <-> w ∈ present ops s p.
Proof.
  intros Hidx. revert s p.
  induction Hidx as [| o ops Ho _ IH]; intros s p Hwf Hp Hcf; simpl.
  - done.
  - destruct Hcf as [Hnc Hcf]. apply IH; [| | done].
    + by apply set_exec_wf.
    + by apply set_exec_present.
Qed.

(** C3 (as amended).  After every step of a run of [insert],
    [unordered_erase] and [clear] in which no value is inserted while another
    stored value shares its sparse slot (every run, when the indexer is
    injective) and no inserted value has the index [SIZE_MAX]: [has v] is the
    test of the indexer invariant; the dense array holds exactly the values
    inserted and not removed since, once each; and [get_dense_index v]
    returns the position of [v] in the dense array when [v] is present and
    throws when it is absent. *)
Theorem sparse_set_run_invariant (ops rest : list SparseSet.set_op) (v : Z)
  (Hidx : Forall (SparseSet.below_size_max indexer) (ops ++ rest))
  (Hrun : SparseSet.collision_free indexer mx (ops ++ rest) sparse_set_empty) :
  let s := SparseSet.set_run indexer mx ops sparse_set_empty in
  (SparseSet.has indexer s v = true <->
     indexer v < length (sparse_ s)
     /\ sparse_ s !!! indexer v < length (dense_ s)
     /\ dense_ s !!! (sparse_ s !!! indexer v) = v)
  /\ (SparseSet.has indexer s v = true <-> v ∈ dense_ s)
  /\ (v ∈ dense_ s <-> v ∈ SparseSet.present indexer mx ops sparse_set_empty [])
  /\ NoDup (dense_ s)
  /\ (SparseSet.has indexer s v = true ->
        exists i, SparseSet.get_dense_index indexer s v = Ok i
                  /\ dense_ s !! i = Some v)
  /\ (SparseSet.has indexer s v = false ->
        SparseSet.get_dense_index indexer s v = Throw value_not_found).
Proof.
  intros s. apply collision_free_app in Hrun. apply Forall_app in Hidx as [Hidx _].
  destruct (set_run_invariant ops sparse_set_empty [] Hidx (set_wf_empty indexer))
    as [Hwf Hpres]; [done | done |]. fold s in Hwf, Hpres.
  split; [| split; [| split; [| split; [| split]]]].
  - unfold SparseSet.has. cbv zeta.
    rewrite !andb_true_iff, !Nat.ltb_lt, Z.eqb_eq. tauto.
  - by apply set_has_iff_elem.
  - apply Hpres.
  - by apply (set_wf_NoDup indexer).
  - intros Hh. unfold SparseSet.get_dense_index.
    destruct (SparseSet.find_dense_index indexer s v) as [i |] eqn:Hf.
    + exists i. split; [done |]. by apply set_find_dense_index_spec in Hf as (_ & _ & ?).
    + apply set_find_dense_index_None in Hf. congruence.
  - intros Hh. unfold SparseSet.get_dense_index.
    apply set_find_dense_index_None in Hh. by rewrite Hh.
Qed.
End SparseSetRuns.

(** A run with the default indexer, which is injective on the values used. *)
Lemma sparse_set_run_invariant_witness :
  let ops := [SparseSet.op_insert 42; SparseSet.op_insert 84;
              SparseSet.op_unordered_erase 42; SparseSet.op_clear;
              SparseSet.op_insert 7] in
  let s := SparseSet.set_run sparse_indexer 1000 ops sparse_set_empty in
  (SparseSet.has sparse_indexer s 7 = true <->
     sparse_indexer 7 < length (sparse_ s)
     /\ sparse_ s !!! sparse_indexer 7 < length (dense_ s)
     /\ dense_ s !!! (sparse_ s !!! sparse_indexer 7) = 7%Z)
  /\ (SparseSet.has sparse_indexer s 7 = true <-> 7%Z ∈ dense_ s)
  /\ (7%Z ∈ dense_ s <-> 7%Z ∈ SparseSet.present sparse_indexer 1000 ops sparse_set_empty [])
  /\ NoDup (dense_ s)
  /\ (SparseSet.has sparse_indexer s 7 = true ->
        exists i, SparseSet.get_dense_index sparse_indexer s 7 = Ok i
                  /\ dense_ s !! i = Some 7%Z)
  /\ (SparseSet.has sparse_indexer s 7 = false ->
        SparseSet.get_dense_index sparse_indexer s 7 = Throw value_not_found).
Proof.
  apply (sparse_set_run_invariant sparse_indexer 1000
           [SparseSet.op_insert 42; SparseSet.op_insert 84;
            SparseSet.op_unordered_erase 42; SparseSet.op_clear;
            SparseSet.op_insert 7] [SparseSet.op_insert 9] 7).
  - repeat constructor.
  - apply collision_freeb_sound. vm_compute. reflexivity.
Defined.

(** C3 as stated fails for the indexer of entity ids, which ignores the
    version field: after [insert 1] and [insert (1 | 1 << 22)] the first value
    is still in the dense array, yet [has] denies it and [get_dense_index]
    throws. *)
Lemma sparse_set_shared_slot_counterexample :
  let s := SparseSet.set_run entity_id_indexer 1000
             [SparseSet.op_insert 1; SparseSet.op_insert 4194305] sparse_set_empty in
  dense_ s = [1%Z; 4194305%Z]
  /\ SparseSet.has entity_id_indexer s 1 = false
  /\ SparseSet.get_dense_index entity_id_indexer s 1 = Throw value_not_found.
Proof. vm_compute. repeat split. Qed.

(** ** The sparse map *)

Section SparseMapFacts.
Context {V : Type}.
Variable indexer : Z -> nat.
Variable mx : Z.

Implicit Types (m : sparse_map V) (k : Z) (v x : V) (i j : nat).

Abbreviation map_wf := (SparseMap.wf (V := V) indexer).
Abbreviation find := (SparseMap.find (V := V) indexer).
Abbreviation find_slot := (SparseMap.find_slot (V := V) indexer).

Lemma map_wf_empty : map_wf sparse_map_empty.
Proof. split; [apply set_wf_empty | done]. Qed.

Lemma map_find_slot_Some m k i :
  map_wf m -> find_slot m k = Some i <-> dense_ (keys_ m) !! i = Some k.
Proof.
  intros [Hwf _]. unfold SparseMap.find_slot. split.
  - by intros (_ & _ & ?)%set_find_dense_index_spec.
  - by apply set_find_dense_index_wf.
Qed.

Lemma map_find_slot_None m k :
  find_slot m k = None <-> SparseMap.has indexer m k = false.
Proof. apply set_find_dense_index_None. Qed.

Lemma map_find_slot_lt m k i :
  map_wf m -> find_slot m k = Some i -> i < length (values_ m).
Proof.
  intros Hwf Hs. pose proof Hwf as [_ Hlen].
  apply map_find_slot_Some in Hs; [| done]. rewrite Hlen. by eapply lookup_lt_Some.
Qed.

Lemma map_find_Some m k v :
  map_wf m ->
  find m k = Some v <->
  exists i, dense_ (keys_ m) !! i = Some k /\ values_ m !! i = Some v.
Proof.
  intros Hwf. unfold SparseMap.find. split.
  - destruct (find_slot m k) as [i |] eqn:Hs; [| done].
    intros Hv. exists i. split; [by apply map_find_slot_Some in Hs | done].
  - intros (i & Hk & Hv). apply map_find_slot_Some in Hk; [| done]. by rewrite Hk.
Qed.

Lemma map_find_entries m k v :
  map_wf m -> find m k = Some v <-> (k, v) ∈ SparseMap.entries m.
Proof.
  intros Hwf. rewrite map_find_Some by done. unfold SparseMap.entries.
  rewrite list_elem_of_lookup. split.
  - intros (i & Hk & Hv). exists i. apply lookup_zip_with_Some. eauto.
  - intros (i & Hi). apply lookup_zip_with_Some in Hi as (x & y & [= <- <-] & Hk & Hv).
    eauto.
Qed.

Lemma map_find_is_Some m k :
  map_wf m -> is_Some (find m k) <-> k ∈ dense_ (keys_ m).
Proof.
  intros Hwf. pose proof Hwf as [_ Hlen]. split.
  - intros [v (i & Hk & _)%map_find_Some]; [| done]. by eapply list_elem_of_lookup_2.
  - intros [i Hi]%list_elem_of_lookup_1.
    destruct (lookup_lt_is_Some_2 (values_ m) i) as [v Hv].
    { rewrite Hlen. by eapply lookup_lt_Some. }
    exists v. apply map_find_Some; eauto.
Qed.

Lemma map_find_has m k :
  map_wf m -> SparseMap.has indexer m k = true <-> is_Some (find m k).
Proof.
  intros Hwf. rewrite map_find_is_Some by done.
  apply set_has_iff_elem. apply Hwf.
Qed.

Lemma map_find_None_has m k :
  map_wf m -> find m k = None <-> SparseMap.has indexer m k = false.
Proof.
  intros Hwf. rewrite <- not_true_iff_false, map_find_has by done.
  rewrite eq_None_not_Some. done.
Qed.

Lemma map_find_elem m k v : map_wf m -> find m k = Some v -> v ∈ values_ m.
Proof.
  intros Hwf (i & _ & Hv)%map_find_Some; [| done]. by eapply list_elem_of_lookup_2.
Qed.

Lemma map_elem_find m v :
  map_wf m -> v ∈ values_ m -> exists k, k ∈ dense_ (keys_ m) /\ find m k = Some v.
Proof.
  intros Hwf [i Hi]%list_elem_of_lookup_1. pose proof Hwf as [_ Hlen].
  destruct (lookup_lt_is_Some_2 (dense_ (keys_ m)) i) as [k Hk].
  { rewrite <- Hlen. by eapply lookup_lt_Some. }
  exists k. split; [by eapply list_elem_of_lookup_2 |]. apply map_find_Some; eauto.
Qed.

(** *** Writing through the pointer of a slot *)

Lemma map_set_slot_wf m i v :
  map_wf m -> map_wf (mk_sparse_map (keys_ m) (<[i := v]> (values_ m))).
Proof. intros [H1 H2]. split; [done |]. simpl. by rewrite length_insert. Qed.

Lemma map_set_slot_find m i k v :
  map_wf m -> dense_ (keys_ m) !! i = Some k ->
  find (mk_sparse_map (keys_ m) (<[i := v]> (values_ m))) k = Some v.
Proof.
  intros Hwf Hk. apply map_find_Some; [by apply map_set_slot_wf |].
  exists i. split; [done |]. simpl. apply list_lookup_insert_eq.
  destruct Hwf as [_ ->]. by eapply lookup_lt_Some.
Qed.

Lemma map_set_slot_find_ne m i k k' v :
  map_wf m -> dense_ (keys_ m) !! i = Some k -> k' <> k ->
  find (mk_sparse_map (keys_ m) (<[i := v]> (values_ m))) k' = find m k'.
Proof.
  intros Hwf Hk Hne. apply option_eq. intros x.
  rewrite !map_find_Some by (done || by apply map_set_slot_wf). simpl.
  split; intros (j & Hj & Hv); exists j; (split; [done |]).
  - rewrite list_lookup_insert_ne in Hv; [done | congruence].
  - rewrite list_lookup_insert_ne; [done | congruence].
Qed.

Lemma map_set_slot_values m i v x :
  x ∈ <[i := v]> (values_ m) -> x = v \/ x ∈ values_ m.
Proof.
  intros [j Hj]%list_elem_of_lookup_1.
  apply list_lookup_insert_Some in Hj as [(-> & -> & _) | [_ Hj]]; [by left |].
  right. by eapply list_elem_of_lookup_2.
Qed.

(** *** insert *)

Abbreviation map_insert_result := (map_insert_result (V := V) indexer mx).

Lemma map_insert_new_inv k v m res m' :
  (Z.of_nat (indexer k) < size_max)%Z ->
  map_wf m -> SparseSet.no_collision indexer (keys_ m) k ->
  find_slot m k = None ->
  SparseMap.insert_new indexer mx k v m = (res, m') ->
  map_insert_result k v m res m'.
Proof.
  intros Hki Hwf Hnc Hno. unfold SparseMap.insert_new.
  destruct (SparseSet.insert indexer mx k (keys_ m)) as [r ks] eqn:Hins.
  pose proof (set_insert_wf _ _ _ _ _ _ Hki (proj1 Hwf) Hnc Hins) as Hwf'.
  apply set_insert_inv in Hins; [| done].
  apply set_find_dense_index_None in Hno.
  destruct Hins as [Hh | Hh Hle Hmx | sp Hh Hvi Hsp Hlen Hor].
  - unfold SparseMap.find_slot in Hno. congruence.
  - intros [= <- <-]. rewrite vec_pop_back_snoc.
    destruct m; simpl. by constructor.
  - intros [= <- <-]. constructor; try done.
    split; [done |]. simpl. rewrite !length_app. simpl.
    destruct Hwf as [_ ->]. done.
Qed.

Lemma map_insert_added_find k v m m' :
  map_wf m -> map_wf m' ->
  dense_ (keys_ m') = dense_ (keys_ m) ++ [k] ->
  values_ m' = values_ m ++ [v] ->
  find m' k = Some v
  /\ (forall k', k' <> k -> find m' k' = find m k')
  /\ find_slot m' k = Some (length (values_ m)).
Proof.
  intros Hwf Hwf' Hd Hv. pose proof Hwf as [_ Hlen].
  assert (dense_ (keys_ m') !! length (values_ m) = Some k) as Hk.
  { rewrite Hd, Hlen. apply list_lookup_middle. done. }
  split; [| split].
  - apply map_find_Some; [done |]. exists (length (values_ m)). split; [done |].
    rewrite Hv. by apply list_lookup_middle.
  - intros k' Hne. apply option_eq. intros x.
    rewrite !map_find_Some by done. rewrite Hd, Hv.
    split; intros (j & Hj & Hx).
    + apply lookup_snoc_Some in Hj as [[Hlt Hj] | [_ ?]]; [| congruence].
      exists j. split; [done |]. rewrite lookup_app_l in Hx; [done | lia].
    + exists j. split; [by apply lookup_app_l_Some | by apply lookup_app_l_Some].
  - by apply map_find_slot_Some.
Qed.

(** *** unordered_erase *)

Lemma map_erase_absent k m :
  find_slot m k = None -> SparseMap.unordered_erase indexer k m = (false, m).
Proof.
  intros H. unfold SparseMap.unordered_erase.
  unfold SparseMap.find_slot in H. by rewrite H.
Qed.

Lemma map_erase_present k m i :
  map_wf m -> dense_ (keys_ m) !! i = Some k ->
  exists m',
    SparseMap.unordered_erase indexer k m = (true, m')
    /\ map_wf m'
    /\ dense_ (keys_ m') = swap_pop i (dense_ (keys_ m))
    /\ values_ m' = swap_pop i (values_ m)
    /\ length (sparse_ (keys_ m')) = length (sparse_ (keys_ m)).
Proof.
  intros Hwf Hi. pose proof Hwf as [Hs Hlen].
  unfold SparseMap.unordered_erase.
  rewrite (set_find_dense_index_wf _ _ _ _ Hs Hi).
  destruct (set_erase_present indexer k (keys_ m) i Hs Hi) as (sp & He & Hwf' & Hsp).
  rewrite He. simpl. eexists. split; [reflexivity |].
  split; [| done]. split; [done |]. simpl. rewrite !length_swap_pop. lia.
Qed.

Lemma map_erase_spec k m b m' :
  map_wf m -> SparseMap.unordered_erase indexer k m = (b, m') ->
  map_wf m'
  /\ b = SparseMap.has indexer m k
  /\ find m' k = None
  /\ (forall k', k' <> k -> find m' k' = find m k')
  /\ (forall k', k' ∈ dense_ (keys_ m') <-> k' ∈ dense_ (keys_ m) /\ k' <> k)
  /\ (forall v, v ∈ values_ m' -> v ∈ values_ m).
Proof.
  intros Hwf He. pose proof Hwf as [Hs Hlen].
  destruct (find_slot m k) as [i |] eqn:Hslot.
  - pose proof Hslot as Hi. apply map_find_slot_Some in Hi; [| done].
    pose proof (lookup_lt_Some _ _ _ Hi) as Hlt.
    destruct (map_erase_present k m i Hwf Hi) as (m2 & He2 & Hwf2 & Hd & Hv & _).
    rewrite He2 in He. injection He as <- <-.
    pose proof (set_wf_NoDup _ _ Hs) as Hnd.
    assert (forall k', k' ∈ dense_ (keys_ m2) <-> k' ∈ dense_ (keys_ m) /\ k' <> k) as Hel.
    { intros k'. rewrite Hd, elem_of_swap_pop by done. split.
      - intros (j & Hji & Hj). split; [by eapply list_elem_of_lookup_2 |].
        intros ->. apply Hji. by eapply NoDup_lookup.
      - intros [[j Hj]%list_elem_of_lookup_1 Hne]. exists j. split; [| done].
        intros ->. congruence. }
    split; [done |]. split; [| split; [| split; [| split]]].
    + symmetry. apply set_wf_has; [done | by eapply list_elem_of_lookup_2].
    + apply eq_None_not_Some. rewrite map_find_is_Some by done.
      rewrite Hel. tauto.
    + intros k' Hne. apply option_eq. intros x.
      rewrite !map_find_Some by done. rewrite Hd, Hv. split.
      * intros (j & Hj & Hx). rewrite lookup_swap_pop in Hj by lia.
        rewrite lookup_swap_pop in Hx by lia.
        rewrite <- Hlen in Hj.
        destruct (decide (j < length (values_ m) - 1)); [| done].
        destruct (decide (j = i)); [| by eauto].
        exists (length (values_ m) - 1). split; [| done]. by rewrite Hlen in Hj |- *.
      * intros (j & Hj & Hx).
        assert (j <> i) as Hji by congruence.
        pose proof (lookup_lt_Some _ _ _ Hx) as Hjlt.
        destruct (decide (j = length (values_ m) - 1)) as [-> | Hjl].
        -- exists i. rewrite !lookup_swap_pop by lia. rewrite <- Hlen.
           destruct (decide (i < length (values_ m) - 1)); [| lia].
           destruct (decide (i = i)); [| done]. done.
        -- exists j. rewrite !lookup_swap_pop by lia. rewrite <- Hlen.
           destruct (decide (j < length (values_ m) - 1)); [| lia].
           by destruct (decide (j = i)).
    + done.
    + intros v. rewrite Hv, elem_of_swap_pop by lia.
      intros (j & _ & Hj). by eapply list_elem_of_lookup_2.
  - rewrite map_erase_absent in He by done. injection He as <- <-.
    pose proof Hslot as Hh. apply map_find_slot_None in Hh.
    split; [done |]. split; [done |]. split; [| split; [done | split; [| done]]].
    + by apply map_find_None_has.
    + intros k'. split; [| tauto]. intros Hk'. split; [done |]. intros ->.
      unfold SparseMap.has in Hh. by rewrite set_wf_has in Hh.
Qed.

Lemma map_wf_clear m : map_wf (SparseMap.clear m).
Proof. split; [apply set_wf_clear | done]. Qed.

Lemma map_get_slot_wf m i k :
  map_wf m -> dense_ (keys_ m) !! i = Some k -> SparseMap.get_slot indexer m k = Ok i.
Proof.
  intros [Hs _] Hi. unfold SparseMap.get_slot, SparseSet.get_dense_index.
  by rewrite (set_find_dense_index_wf _ _ _ _ Hs Hi).
Qed.

Lemma map_get_wf m i k v :
  map_wf m -> dense_ (keys_ m) !! i = Some k -> values_ m !! i = Some v ->
  SparseMap.get indexer m k = Ok v.
Proof.
  intros Hwf Hi Hv. unfold SparseMap.get.
  rewrite (map_get_slot_wf _ _ _ Hwf Hi). by rewrite Hv.
Qed.
End SparseMapFacts.

(** ** Component storages *)

Section StorageFacts.
Context {value : Type}.
Variable empty_value_ : value.
Variable mx : Z.
Implicit Types (st : component_storage value) (e id : Z) (v c : value).

Abbreviation sfind := (Storage.find empty_value_).
Abbreviation sassign := (Storage.assign empty_value_ mx).
Abbreviation sensure := (Storage.ensure empty_value_ mx).
Abbreviation stored := (Storage.stored empty_value_).

Lemma storage_find_is_Some st e :
  Storage.wf st -> is_Some (sfind st e) <-> e ∈ Storage.ids st.
Proof.
  destruct st as [m | s]; simpl; intros Hwf.
  - by apply map_find_is_Some.
  - rewrite <- (set_has_iff_elem entity_id_indexer) by done.
    destruct (SparseSet.has entity_id_indexer s e); split;
      first [done | by intros [? ?] | by eexists].
Qed.

Lemma storage_has_ids st e :
  Storage.wf st -> Storage.has st e = true <-> e ∈ Storage.ids st.
Proof.
  destruct st as [m | s]; simpl; intros Hwf.
  - apply set_has_iff_elem, Hwf.
  - by apply set_has_iff_elem.
Qed.

Lemma storage_exists_has st e : Storage.exists_ st e = Storage.has st e.
Proof. by destruct st. Qed.

Lemma storage_has_find st e :
  Storage.wf st -> Storage.has st e = true <-> is_Some (sfind st e).
Proof. intros Hwf. by rewrite storage_has_ids, storage_find_is_Some. Qed.

Lemma storage_ids_NoDup st : Storage.wf st -> NoDup (Storage.ids st).
Proof.
  destruct st as [m | s]; simpl; intros Hwf.
  - apply (set_wf_NoDup entity_id_indexer), Hwf.
  - by apply (set_wf_NoDup entity_id_indexer).
Qed.

Lemma storage_find_empty s e :
  sfind (storage_empty s) e =
  if SparseSet.has entity_id_indexer s e then Some empty_value_ else None.
Proof. done. Qed.

Lemma storage_rows_ids st : Storage.wf st -> (Storage.rows empty_value_ st).*1 = Storage.ids st.
Proof.
  destruct st as [m | s]; simpl.
  - intros [_ Hlen]. apply fst_zip. lia.
  - intros _. rewrite <- list_fmap_compose. apply list_fmap_id.
Qed.

Lemma storage_rows_find st e c :
  Storage.wf st -> (e, c) ∈ Storage.rows empty_value_ st <-> sfind st e = Some c.
Proof.
  destruct st as [m | s]; simpl; intros Hwf.
  - symmetry. by apply map_find_entries.
  - rewrite list_elem_of_fmap. split.
    + intros (id & [= -> ->] & Hid).
      apply (set_has_iff_elem entity_id_indexer) in Hid; [| done]. by rewrite Hid.
    + destruct (SparseSet.has entity_id_indexer s e) eqn:Hh; [| done].
      intros [= <-]. exists e. split; [done |]. by apply set_has_elem in Hh.
Qed.

Lemma storage_rows_NoDup st :
  Storage.wf st -> NoDup (Storage.rows empty_value_ st).*1.
Proof. intros Hwf. rewrite storage_rows_ids by done. by apply storage_ids_NoDup. Qed.

(** *** assign and ensure *)

Lemma storage_insert_values e v m res m' :
  SparseMap.wf entity_id_indexer m ->
  Storage.no_collision (storage_values m) e ->
  SparseMap.find_slot entity_id_indexer m e = None ->
  SparseMap.insert entity_id_indexer mx e v m = (res, m') ->
  SparseMap.wf entity_id_indexer m'
  /\ ((res = Throw length_error /\ m' = m
       /\ (mx < Z.of_nat (entity_id_indexer e) + 1)%Z)
      \/ (res = Ok true
          /\ SparseMap.find entity_id_indexer m' e = Some v
          /\ (forall e', e' <> e ->
                SparseMap.find entity_id_indexer m' e' = SparseMap.find entity_id_indexer m e')
          /\ (forall e', e' ∈ dense_ (keys_ m') <-> e' ∈ dense_ (keys_ m) \/ e' = e))).
Proof.
  intros Hwf Hnc Hno Hins. unfold SparseMap.insert in Hins. rewrite Hno in Hins.
  apply map_insert_new_inv in Hins;
    [| apply entity_id_indexer_size | done | exact Hnc | done].
  destruct Hins as [Hmx | m' Hwf' Hd Hv _].
  - split; [done |]. left. done.
  - split; [done |]. right.
    destruct (map_insert_added_find entity_id_indexer e v m m' Hwf Hwf' Hd Hv)
      as (H1 & H2 & _).
    split; [done |]. split; [done |]. split; [done |].
    intros e'. rewrite Hd, elem_of_app, list_elem_of_singleton. done.
Qed.

Lemma storage_insert_empty e s res s' :
  SparseSet.wf entity_id_indexer s ->
  Storage.no_collision (value := value) (storage_empty s) e ->
  SparseSet.has entity_id_indexer s e = false ->
  SparseSet.insert entity_id_indexer mx e s = (res, s') ->
  SparseSet.wf entity_id_indexer s'
  /\ ((res = Throw length_error /\ s' = s
       /\ (mx < Z.of_nat (entity_id_indexer e) + 1)%Z)
      \/ (res = Ok true
          /\ (forall e', e' ∈ dense_ s' <-> e' ∈ dense_ s \/ e' = e))).
Proof.
  intros Hwf Hnc Hno Hins.
  pose proof (set_insert_wf _ _ _ _ _ _ (entity_id_indexer_size e) Hwf Hnc Hins) as Hwf'.
  split; [done |]. apply set_insert_inv in Hins; [| apply entity_id_indexer_size].
  destruct Hins as [Hh | Hh Hle Hmx | sp Hh Hvi Hsp Hlen Hor]; [congruence | by left |].
  right. split; [done |]. intros e'. simpl.
  rewrite elem_of_app, list_elem_of_singleton. done.
Qed.

Lemma storage_assign_spec e v st res st' :
  Storage.wf st -> Storage.no_collision st e ->
  sassign e v st = (res, st') ->
  Storage.wf st'
  /\ Storage.is_empty_kind st' = Storage.is_empty_kind st
  /\ ((res = Throw length_error /\ st' = st
       /\ (mx < Z.of_nat (entity_id_indexer e) + 1)%Z)
      \/ (res = Ok (stored st v)
          /\ sfind st' e = Some (stored st v)
          /\ (forall e', e' <> e -> sfind st' e' = sfind st e')
          /\ (forall e', e' ∈ Storage.ids st' <-> e' ∈ Storage.ids st \/ e' = e))).
Proof.
  intros Hwf Hnc. destruct st as [m | s]; simpl in *.
  - destruct (SparseMap.find_slot entity_id_indexer m e) as [i |] eqn:Hslot.
    + intros [= <- <-]. pose proof Hslot as Hi.
      apply map_find_slot_Some in Hi; [| done].
      split; [by apply map_set_slot_wf |]. split; [done |]. right.
      split; [done |]. split; [by apply map_set_slot_find |].
      split; [intros e' Hne; by eapply map_set_slot_find_ne |].
      intros e'. simpl. split; [auto |]. intros [? | ->]; [done |].
      by eapply list_elem_of_lookup_2.
    + destruct (SparseMap.insert entity_id_indexer mx e v m) as [r m'] eqn:Hins.
      intros [= <- <-].
      destruct (storage_insert_values e v m r m' Hwf Hnc Hslot Hins)
        as [Hwf' [(-> & -> & Hmx) | (-> & H1 & H2 & H3)]].
      * split; [done |]. split; [done |]. by left.
      * split; [done |]. split; [done |]. right. done.
  - destruct (SparseSet.has entity_id_indexer s e) eqn:Hh.
    + intros [= <- <-]. split; [done |]. split; [done |]. right.
      split; [done |]. simpl. rewrite Hh. split; [done |]. split; [done |].
      intros e'. split; [auto |]. intros [? | ->]; [done |].
      by apply set_has_elem in Hh.
    + destruct (SparseSet.insert entity_id_indexer mx e s) as [r s'] eqn:Hins.
      intros [= <- <-].
      destruct (storage_insert_empty e s r s' Hwf Hnc Hh Hins)
        as [Hwf' [(-> & -> & Hmx) | (-> & H3)]].
      * split; [done |]. split; [done |]. by left.
      * split; [done |]. split; [done |]. right. split; [done |].
        assert (forall e', SparseSet.has entity_id_indexer s' e' = true <->
                           SparseSet.has entity_id_indexer s e' = true \/ e' = e) as Hhas.
        { intros e'. rewrite !set_has_iff_elem by done. apply H3. }
        simpl. split; [| split; [| done]].
        -- destruct (SparseSet.has entity_id_indexer s' e) eqn:Hh'; [done |].
           apply not_true_iff_false in Hh'. destruct Hh'. apply Hhas. by right.
        -- intros e' Hne.
           destruct (SparseSet.has entity_id_indexer s' e') eqn:H1,
                    (SparseSet.has entity_id_indexer s e') eqn:H2; try done.
           ++ apply Hhas in H1 as [H1 | H1]; congruence.
           ++ apply not_true_iff_false in H1. destruct H1. apply Hhas. by left.
Qed.

Lemma storage_ensure_spec e v st res st' :
  Storage.wf st -> Storage.no_collision st e ->
  sensure e v st = (res, st') ->
  Storage.wf st'
  /\ Storage.is_empty_kind st' = Storage.is_empty_kind st
  /\ (forall e', e' ∈ Storage.ids st' -> e' ∈ Storage.ids st \/ e' = e)
  /\ (is_abort res = false).
Proof.
  intros Hwf Hnc. destruct st as [m | s]; simpl in *.
  - destruct (SparseMap.find_slot entity_id_indexer m e) as [i |] eqn:Hslot.
    + intros [= <- <-].
      destruct (lookup_lt_is_Some_2 (values_ m) i) as [old Hold];
        [by eapply map_find_slot_lt |].
      rewrite Hold. auto.
    + destruct (SparseMap.insert entity_id_indexer mx e v m) as [r m'] eqn:Hins.
      intros [= <- <-].
      destruct (storage_insert_values e v m r m' Hwf Hnc Hslot Hins)
        as [Hwf' [(-> & -> & Hmx) | (-> & H1 & H2 & H3)]].
      * auto.
      * split; [done |]. split; [done |]. split; [| done]. intros e'. apply H3.
  - destruct (SparseSet.has entity_id_indexer s e) eqn:Hh.
    + intros [= <- <-]. auto.
    + destruct (SparseSet.insert entity_id_indexer mx e s) as [r s'] eqn:Hins.
      intros [= <- <-].
      destruct (storage_insert_empty e s r s' Hwf Hnc Hh Hins)
        as [Hwf' [(-> & -> & Hmx) | (-> & H3)]].
      * auto.
      * split; [done |]. split; [done |]. split; [| done]. intros e'. apply H3.
Qed.

(** *** remove *)

Lemma storage_remove_spec e st b st' :
  Storage.wf st -> Storage.remove e st = (b, st') ->
  Storage.wf st'
  /\ Storage.is_empty_kind st' = Storage.is_empty_kind st
  /\ b = Storage.has st e
  /\ sfind st' e = None
  /\ (forall e', e' <> e -> sfind st' e' = sfind st e')
  /\ (forall e', e' ∈ Storage.ids st' <-> e' ∈ Storage.ids st /\ e' <> e).
Proof.
  intros Hwf. destruct st as [m | s]; simpl in *.
  - destruct (SparseMap.unordered_erase entity_id_indexer e m) as [b' m'] eqn:He.
    intros [= <- <-].
    destruct (map_erase_spec entity_id_indexer e m b' m' Hwf He)
      as (H1 & H2 & H3 & H4 & H5 & _).
    done.
  - destruct (SparseSet.unordered_erase entity_id_indexer e s) as [b' s'] eqn:He.
    intros [= <- <-].
    pose proof (set_erase_wf _ _ _ _ _ Hwf He) as Hwf'.
    pose proof (fun w => set_erase_elem entity_id_indexer e s b' s' w Hwf He) as Hel.
    assert (forall e', SparseSet.has entity_id_indexer s' e' = true <->
                       SparseSet.has entity_id_indexer s e' = true /\ e' <> e) as Hhas.
    { intros e'. rewrite !set_has_iff_elem by done. apply Hel. }
    split; [done |]. split; [done |]. split; [| split; [| split; [| done]]].
    + pose proof (set_erase_result entity_id_indexer e s) as Hr.
      rewrite He in Hr. done.
    + simpl. destruct (SparseSet.has entity_id_indexer s' e) eqn:Hh'; [| done].
      apply Hhas in Hh'. tauto.
    + intros e' Hne. simpl.
      destruct (SparseSet.has entity_id_indexer s' e') eqn:H1,
               (SparseSet.has entity_id_indexer s e') eqn:H2; try done.
      * apply Hhas in H1 as [H1 _]. congruence.
      * apply not_true_iff_false in H1. destruct H1. by apply Hhas.
Qed.

Lemma storage_remove_all_spec st n st' :
  Storage.remove_all st = (n, st') ->
  Storage.wf st'
  /\ Storage.is_empty_kind st' = Storage.is_empty_kind st
  /\ Storage.ids st' = [].
Proof.
  destruct st as [m | s]; simpl; intros [= <- <-]; simpl.
  - split; [apply map_wf_clear | done].
  - split; [apply set_wf_clear | done].
Qed.

Lemma storage_clone_spec from to st res st' :
  Storage.wf st -> Storage.no_collision st to ->
  Storage.clone empty_value_ mx from to st = (res, st') ->
  Storage.wf st'
  /\ Storage.is_empty_kind st' = Storage.is_empty_kind st
  /\ (forall e', e' ∈ Storage.ids st' -> e' ∈ Storage.ids st \/ e' = to)
  /\ is_abort res = false.
Proof.
  intros Hwf Hnc. unfold Storage.clone.
  destruct (sfind st from) as [c |]; [| intros [= <- <-]; auto].
  destruct (sassign to c st) as [r st2] eqn:Ha. intros [= <- <-].
  destruct (storage_assign_spec to c st r st2 Hwf Hnc Ha)
    as (H1 & H2 & [(-> & -> & _) | (-> & _ & _ & H3)]).
  - auto.
  - split; [done |]. split; [done |]. split; [| done]. intros e'. apply H3.
Qed.

(** *** for_each_component *)

Lemma with_lock_free {A} (held : list lock) (l : lock) (body : outcome A) :
  l ∉ held -> with_lock held l body = body.
Proof. intros Hl. unfold with_lock. by rewrite bool_decide_eq_false_2. Qed.

Lemma with_lock_held {A} (held : list lock) (l : lock) (body : outcome A) :
  l ∈ held -> with_lock held l body = Abort.
Proof. intros Hl. unfold with_lock. by rewrite bool_decide_eq_true_2. Qed.

(** The walk of a well-formed storage whose mutex is free is the run of the
    callback over its rows, with the mutex held. *)
Lemma storage_for_each_component_rows {A} held self
    (f : list lock -> Z -> value -> A -> outcome A) st a :
  Storage.wf st -> self ∉ held ->
  Storage.for_each_component empty_value_ held self f st a =
  foldl (fun acc row =>
           match acc with
           | Ok a => f (self :: held) row.1 row.2 a
           | _ => acc
           end) (Ok a) (Storage.rows empty_value_ st).
Proof.
  intros Hwf Hfree. unfold Storage.for_each_component.
  rewrite with_lock_free by done. destruct st as [m | s]; simpl in *.
  - assert (forall l acc,
              (forall k c, (k, c) ∈ l -> SparseMap.get entity_id_indexer m k = Ok c) ->
              foldl (fun acc id =>
                       match acc with
                       | Ok a =>
                           match SparseMap.get entity_id_indexer m id with
                           | Ok c => f (self :: held) id c a
                           | Throw e => Throw e
                           | Abort => Abort
                           end
                       | _ => acc
                       end) acc l.*1
              = foldl (fun acc row =>
                         match acc with
                         | Ok a => f (self :: held) row.1 row.2 a
                         | _ => acc
                         end) acc l) as Hfold.
    { induction l as [| [k c] l IH]; intros acc Hl; simpl; [done |].
      rewrite (Hl k c) by apply list_elem_of_here.
      apply IH. intros k' c' Hin. apply Hl. by apply list_elem_of_further. }
    rewrite <- (Hfold (SparseMap.entries m) (Ok a)).
    + unfold SparseMap.entries. rewrite fst_zip; [done |]. destruct Hwf as [_ ->]. done.
    + intros k c [i Hi]%list_elem_of_lookup_1.
      apply lookup_zip_with_Some in Hi as (x & y & [= <- <-] & Hk & Hv).
      by eapply map_get_wf.
  - generalize (dense_ s) (Ok a). clear. intros l.
    induction l as [| id l IH]; intros acc; simpl; [done |]. apply IH.
Qed.
End StorageFacts.

(** ** The registry: entities *)

Section RegistryEntityFacts.
Context {value : Type}.
Variable empty_value_ : value.
Variable is_empty_v : Z -> bool.
Variable mx : Z.
Variable imx : Z.
Implicit Types (r : registry value) (e f : Z).

Abbreviation rwf := (registry_wf (value := value) is_empty_v).
Abbreviation create_entity := (Registry.create_entity (value := value) mx imx).

Lemma registry_wf_init : rwf registry_init.
Proof.
  constructor; simpl.
  - apply set_wf_empty.
  - rewrite entity_id_index_mask_val. lia.
  - intros e He. by apply elem_of_nil in He.
  - constructor.
  - done.
  - done.
  - apply map_wf_empty.
  - intros family H. by apply elem_of_nil in H.
  - intros st H. by apply elem_of_nil in H.
  - intros family st H. done.
Qed.

Lemma set_entity_ids_id r : set_entity_ids (entity_ids_ r) r = r.
Proof. by destruct r. Qed.

Lemma set_storages_id r : set_storages (storages_ r) r = r.
Proof. by destruct r. Qed.

Lemma registry_wf_live r e :
  rwf r -> e ∈ dense_ (entity_ids_ r) ->
  is_uint32 e /\ (1 <= entity_id_index e <= last_entity_id_ r)%Z.
Proof. intros Hwf He. apply (wf_ids _ _ Hwf). apply elem_of_app. by left. Qed.

Lemma registry_wf_free r f :
  rwf r -> f ∈ free_entity_ids_ r ->
  is_uint32 f /\ (1 <= entity_id_index f <= last_entity_id_ r)%Z.
Proof. intros Hwf He. apply (wf_ids _ _ Hwf). apply elem_of_app. by right. Qed.

Lemma registry_wf_valid r e :
  rwf r -> Registry.valid_entity r e = true <-> e ∈ dense_ (entity_ids_ r).
Proof. intros Hwf. apply set_has_iff_elem. apply Hwf. Qed.

Lemma registry_wf_live_free_index r e f :
  rwf r -> e ∈ dense_ (entity_ids_ r) -> f ∈ free_entity_ids_ r ->
  entity_id_index e <> entity_id_index f.
Proof.
  intros Hwf He Hf Heq. pose proof (wf_indices _ _ Hwf) as Hnd.
  rewrite fmap_app in Hnd. apply NoDup_app in Hnd as (_ & Hdis & _).
  apply (Hdis (entity_id_index e)).
  - by apply list_elem_of_fmap_2.
  - rewrite Heq. by apply list_elem_of_fmap_2.
Qed.

Lemma registry_wf_live_inj r a b :
  rwf r -> a ∈ dense_ (entity_ids_ r) -> b ∈ dense_ (entity_ids_ r) ->
  entity_id_indexer a = entity_id_indexer b -> a = b.
Proof. intros Hwf. apply set_wf_indexer_inj. apply Hwf. Qed.

Lemma create_entity_spec r res r' :
  rwf r -> create_entity r = (res, r') ->
  create_result mx imx r res r' /\ rwf r'.
Proof.
  intros Hwf. unfold Registry.create_entity.
  destruct (last (free_entity_ids_ r)) as [f |] eqn:Hlast.
  - (* an id of the free list is reissued *)
    pose proof Hlast as [fr Hfr]%last_Some.
    assert (f ∈ free_entity_ids_ r) as Hf.
    { rewrite Hfr. apply elem_of_app. right. apply list_elem_of_singleton. done. }
    destruct (registry_wf_free r f Hwf Hf) as [[Hf0 Hf1] Hfi].
    pose proof (entity_id_index_upgrade f Hf0) as Hidx.
    pose proof (upgrade_entity_id_range f Hf0) as Hur.
    assert (upgrade_entity_id f ∉ dense_ (entity_ids_ r)) as Hfresh.
    { intros Hin. apply (registry_wf_live_free_index r _ f Hwf Hin Hf). done. }
    destruct (SparseSet.insert entity_id_indexer mx (upgrade_entity_id f) (entity_ids_ r))
      as [ri ids] eqn:Hins.
    assert (SparseSet.wf entity_id_indexer ids) as Hwfi.
    { eapply set_insert_wf; [apply entity_id_indexer_size | apply Hwf | | exact Hins].
      intros w Hw Heq. exfalso.
      destruct (registry_wf_live r w Hwf Hw) as [[Hw0 _] _].
      apply entity_id_indexer_eq in Heq; [| lia | destruct Hur; lia].
      apply (registry_wf_live_free_index r w f Hwf Hw Hf). congruence. }
    apply set_insert_inv in Hins; [| apply entity_id_indexer_size].
    destruct Hins as [Hh | Hh Hle Hmx | sp Hh Hvi Hsp Hlen Hor].
    + apply set_has_elem in Hh. done.
    + intros [= <- <-]. rewrite set_entity_ids_id. split; [| done].
      apply create_sparse_too_long; try done.
      unfold entity_id_indexer in Hmx. rewrite Hidx in Hmx.
      pose proof (entity_id_index_range f Hf0). lia.
    + intros [= <- <-]. split; [by eapply create_reused |].
      rewrite Hfr, vec_pop_back_snoc.
      pose proof (wf_indices _ _ Hwf) as Hnd. pose proof (wf_count _ _ Hwf) as Hcnt.
      pose proof (wf_capacity _ _ Hwf) as Hcap.
      rewrite Hfr in Hnd, Hcnt, Hcap. rewrite length_app in Hcnt, Hcap. simpl in *.
      constructor; simpl.
      * done.
      * apply Hwf.
      * intros e [[He | ->%list_elem_of_singleton]%elem_of_app | He]%elem_of_app.
        -- by apply registry_wf_live.
        -- split; [done |]. by rewrite Hidx.
        -- apply (registry_wf_free r e Hwf). rewrite Hfr. apply elem_of_app. by left.
      * rewrite <- app_assoc, !fmap_app. simpl. rewrite Hidx.
        rewrite !fmap_app in Hnd. simpl in Hnd.
        rewrite (Permutation_app_comm (entity_id_index <$> fr)) in Hnd. done.
      * rewrite length_app. simpl. lia.
      * rewrite length_app. simpl. lia.
      * apply Hwf.
      * apply Hwf.
      * intros st Hst. destruct (wf_storage _ _ Hwf st Hst) as [H1 H2].
        split; [done |]. intros e He. apply elem_of_app. left. by apply H2.
      * apply Hwf.
  - (* a fresh index *)
    apply last_None in Hlast.
    destruct (Z.leb_spec entity_id_index_mask (last_entity_id_ r)) as [Hover | Hlt].
    { intros [= <- <-]. split; [by apply create_overflow | done]. }
    pose proof (wf_last _ _ Hwf) as Hl. pose proof (wf_count _ _ Hwf) as Hcnt.
    pose proof (wf_capacity _ _ Hwf) as Hcap.
    rewrite Hlast in Hcnt, Hcap. simpl in Hcnt, Hcap.
    rewrite entity_id_index_mask_val in Hlt.
    unfold SparseSet.size.
    set (reserved := if (free_entity_ids_capacity_ r <=? _)%Z then _ else _).
    assert ((reserved = Throw length_error /\ (imx < 2 ^ 22)%Z)
            \/ exists capacity, reserved = Ok capacity
                 /\ (free_entity_ids_capacity_ r <= capacity)%Z
                 /\ (Z.of_nat (length (dense_ (entity_ids_ r))) + 1 <= capacity)%Z)
      as [[-> Himx] | (capacity & -> & Hc1 & Hc2)].
    { subst reserved.
      destruct (Z.leb_spec (free_entity_ids_capacity_ r)
                  (Z.of_nat (length (dense_ (entity_ids_ r))))) as [Hfull | Hroom].
      - destruct (next_capacity_size_inv (free_entity_ids_capacity_ r)
                    (Z.of_nat (length (dense_ (entity_ids_ r))) + 1) imx)
          as [[Hm ->] | [Hm (n & -> & Hn)]]; simpl.
        + left. split; [done | lia].
        + right. eexists. split; [done |]. unfold vec_reserve. lia.
      - right. eexists. split; [done |]. lia. }
    { intros [= <- <-]. split; [| done]. by apply create_free_list_too_long. }
    rewrite (to_uint32_small (last_entity_id_ r + 1))
      by (unfold is_uint32, uint32_max; lia).
    assert (entity_id_index (last_entity_id_ r + 1) = (last_entity_id_ r + 1)%Z) as Hidx
      by (apply entity_id_index_small; lia).
    assert ((last_entity_id_ r + 1)%Z ∉ dense_ (entity_ids_ r)) as Hfresh.
    { intros Hin. destruct (registry_wf_live r _ Hwf Hin) as [_ ?]. lia. }
    destruct (SparseSet.insert entity_id_indexer mx (last_entity_id_ r + 1)%Z (entity_ids_ r))
      as [ri ids] eqn:Hins.
    assert (SparseSet.wf entity_id_indexer ids) as Hwfi.
    { eapply set_insert_wf; [apply entity_id_indexer_size | apply Hwf | | exact Hins].
      intros w Hw Heq. exfalso.
      destruct (registry_wf_live r w Hwf Hw) as [[Hw0 _] Hwi].
      apply entity_id_indexer_eq in Heq; [| lia | lia]. lia. }
    apply set_insert_inv in Hins; [| apply entity_id_indexer_size].
    destruct Hins as [Hh | Hh Hle Hmx | sp Hh Hvi Hsp Hlen Hor].
    + apply set_has_elem in Hh. done.
    + intros [= <- <-]. split.
      * apply create_sparse_too_long; try done.
        unfold entity_id_indexer in Hmx. rewrite Hidx in Hmx. lia.
      * destruct Hwf. constructor; simpl in *; try done. rewrite Hlast. simpl. lia.
    + intros [= <- <-]. split.
      * rewrite Hlast. apply create_fresh; try done.
      * pose proof (wf_indices _ _ Hwf) as Hnd. rewrite Hlast, app_nil_r in Hnd.
        constructor; simpl.
        -- done.
        -- rewrite entity_id_index_mask_val. lia.
        -- rewrite Hlast, app_nil_r.
           intros e [He | ->%list_elem_of_singleton]%elem_of_app.
           ++ destruct (registry_wf_live r e Hwf He). split; [done | lia].
           ++ split; [unfold is_uint32, uint32_max; lia | lia].
        -- rewrite Hlast, app_nil_r, fmap_app. simpl. rewrite Hidx.
           rewrite Permutation_app_comm. simpl. constructor; [| done].
           intros (w & Hw1 & Hw2)%list_elem_of_fmap_1.
           destruct (registry_wf_live r w Hwf Hw2). lia.
        -- rewrite Hlast, length_app. simpl. lia.
        -- rewrite Hlast, length_app. simpl. lia.
        -- apply Hwf.
        -- apply Hwf.
        -- intros st Hst. destruct (wf_storage _ _ Hwf st Hst) as [H1 H2].
           split; [done |]. intros e He. apply elem_of_app. left. by apply H2.
        -- apply Hwf.
Qed.
Lemma create_entity_live r res r' :
  rwf r -> create_entity r = (res, r') ->
  forall w, w ∈ dense_ (entity_ids_ r') -> w ∈ dense_ (entity_ids_ r) \/ res = Ok w.
Proof.
  intros Hwf Hc w. destruct (create_entity_spec r res r' Hwf Hc) as [Hres _].
  destruct Hres as [f ids Hl Hd | | ids capacity Hf Hlt Hd Hcap | r' Hmx Hi Hfr Hla |];
    simpl.
  - rewrite Hd, elem_of_app, list_elem_of_singleton. intros [? | ->]; auto.
  - auto.
  - rewrite Hd, elem_of_app, list_elem_of_singleton. intros [? | ->]; auto.
  - rewrite Hi. auto.
  - auto.
Qed.
End RegistryEntityFacts.

(** ** The registry: the storage table *)

Section RegistryStorageFacts.
Context {value : Type}.
Variable empty_value_ : value.
Variable is_empty_v : Z -> bool.
Variable mx : Z.
Implicit Types (r : registry value) (e T : Z) (st : component_storage value).

Abbreviation rwf := (registry_wf (value := value) is_empty_v).
Abbreviation find_storage_ := (Registry.find_storage_ (value := value)).
Abbreviation find_storage_slot_ := (Registry.find_storage_slot_ (value := value)).
Abbreviation component_at := (Registry.component_at empty_value_).
Abbreviation new_storage := (Registry.new_storage (value := value) is_empty_v).

Lemma same_entities_refl r : same_entities r r.
Proof. done. Qed.

Lemma same_entities_trans r1 r2 r3 :
  same_entities r1 r2 -> same_entities r2 r3 -> same_entities r1 r3.
Proof. unfold same_entities. intros (-> & -> & -> & ->) (-> & -> & -> & ->). done. Qed.

Lemma same_entities_valid r r' e :
  same_entities r r' -> Registry.valid_entity r' e = Registry.valid_entity r e.
Proof. intros (H & _). unfold Registry.valid_entity. by rewrite H. Qed.

Lemma same_entities_set_storages m r : same_entities r (set_storages m r).
Proof. done. Qed.

Lemma find_storage_slot_Some r T slot :
  rwf r -> find_storage_slot_ r T = Some slot ->
  exists st, values_ (storages_ r) !! slot = Some st
             /\ find_storage_ r T = Some st
             /\ dense_ (keys_ (storages_ r)) !! slot = Some T.
Proof.
  intros Hwf Hs. pose proof (wf_storages _ _ Hwf) as Hm.
  destruct (lookup_lt_is_Some_2 (values_ (storages_ r)) slot) as [st Hst].
  { by eapply map_find_slot_lt. }
  exists st. split; [done |]. unfold Registry.find_storage_, SparseMap.find.
  unfold Registry.find_storage_slot_ in Hs. rewrite Hs. split; [done |].
  by apply map_find_slot_Some in Hs.
Qed.

Lemma find_storage_slot_None r T :
  find_storage_slot_ r T = None -> find_storage_ r T = None.
Proof.
  unfold Registry.find_storage_, Registry.find_storage_slot_, SparseMap.find.
  by intros ->.
Qed.

Lemma find_storage_elem r T st :
  rwf r -> find_storage_ r T = Some st -> st ∈ values_ (storages_ r).
Proof. intros Hwf. apply map_find_elem. apply Hwf. Qed.

Lemma find_storage_wf r T st :
  rwf r -> find_storage_ r T = Some st ->
  Storage.wf st
  /\ (forall e, e ∈ Storage.ids st -> e ∈ dense_ (entity_ids_ r))
  /\ Storage.is_empty_kind st = is_empty_v T.
Proof.
  intros Hwf Hf. destruct (wf_storage _ _ Hwf st) as [H1 H2];
    [by eapply find_storage_elem |].
  split; [done |]. split; [done |]. by apply (wf_kinds _ _ Hwf).
Qed.

Lemma on_storage_eq {A} slot (f : component_storage value -> outcome A * component_storage value)
    r st :
  values_ (storages_ r) !! slot = Some st ->
  Registry.on_storage slot f r =
  (fst (f st),
   set_storages (mk_sparse_map (keys_ (storages_ r))
                               (<[slot := snd (f st)]> (values_ (storages_ r)))) r).
Proof. intros H. unfold Registry.on_storage. rewrite H. by destruct (f st). Qed.

Lemma registry_set_slot_wf r T slot st st' :
  rwf r ->
  dense_ (keys_ (storages_ r)) !! slot = Some T ->
  values_ (storages_ r) !! slot = Some st ->
  Storage.wf st' ->
  (forall e, e ∈ Storage.ids st' -> e ∈ dense_ (entity_ids_ r)) ->
  Storage.is_empty_kind st' = Storage.is_empty_kind st ->
  let r' := set_storages (mk_sparse_map (keys_ (storages_ r))
                            (<[slot := st']> (values_ (storages_ r)))) r in
  rwf r'
  /\ find_storage_ r' T = Some st'
  /\ (forall T', T' <> T -> find_storage_ r' T' = find_storage_ r T').
Proof.
  intros Hwf Hk Hv Hst' Hids Hkind r'.
  pose proof (wf_storages _ _ Hwf) as Hm.
  assert (find_storage_ r' T = Some st') as Hf.
  { by apply map_set_slot_find. }
  assert (forall T', T' <> T -> find_storage_ r' T' = find_storage_ r T') as Hne.
  { intros T' HT. by eapply map_set_slot_find_ne. }
  split; [| done].
  unfold Registry.find_storage_ in Hf, Hne. subst r'. simpl in Hf, Hne.
  destruct Hwf. constructor; simpl; try done.
  - by apply map_set_slot_wf.
  - intros x [-> | Hx]%map_set_slot_values; [done | by apply wf_storage0].
  - intros family x Hx. destruct (decide (family = T)) as [-> | HT].
    + rewrite Hf in Hx. injection Hx as <-.
      rewrite Hkind. apply wf_kinds0. apply map_find_Some; eauto.
    + apply wf_kinds0. rewrite <- Hx. symmetry. by apply Hne.
Qed.

Lemma new_storage_spec T :
  Storage.wf (new_storage T)
  /\ Storage.ids (new_storage T) = []
  /\ Storage.is_empty_kind (new_storage T) = is_empty_v T
  /\ forall e, Storage.find empty_value_ (new_storage T) e = None.
Proof.
  unfold Registry.new_storage. destruct (is_empty_v T); simpl.
  - split; [apply set_wf_empty | done].
  - split; [apply map_wf_empty | done].
Qed.

Lemma get_or_create_storage_spec T r res r' :
  rwf r -> family_ok T ->
  Registry.get_or_create_storage_ is_empty_v mx T r = (res, r') ->
  rwf r'
  /\ same_entities r r'
  /\ (forall T', T' <> T -> find_storage_ r' T' = find_storage_ r T')
  /\ ((res = Throw length_error /\ r' = r /\ (mx < 2 ^ 16)%Z)
      \/ exists slot st,
           res = Ok slot
           /\ dense_ (keys_ (storages_ r')) !! slot = Some T
           /\ values_ (storages_ r') !! slot = Some st
           /\ (forall e, Storage.find empty_value_ st e = component_at r T e)).
Proof.
  intros Hwf HT. unfold Registry.get_or_create_storage_.
  destruct (find_storage_slot_ r T) as [slot |] eqn:Hslot.
  - intros [= <- <-]. split; [done |]. split; [done |]. split; [done |]. right.
    destruct (find_storage_slot_Some r T slot Hwf Hslot) as (st & H1 & H2 & H3).
    exists slot, st. split; [done |]. split; [done |]. split; [done |].
    intros e. unfold Registry.component_at. fold (find_storage_ r T). by rewrite H2.
  - pose proof (wf_storages _ _ Hwf) as Hm.
    destruct (SparseMap.insert sparse_indexer mx T (new_storage T) (storages_ r))
      as [ri m] eqn:Hins.
    unfold SparseMap.insert in Hins.
    unfold Registry.find_storage_slot_ in Hslot. rewrite Hslot in Hins.
    apply map_insert_new_inv in Hins; [| by apply sparse_indexer_size | done | | done].
    2:{ intros w Hw Heq. apply (wf_families _ _ Hwf) in Hw.
        unfold sparse_indexer, family_ok in *. apply Z2Nat.inj; lia. }
    destruct (new_storage_spec T) as (Hn1 & Hn2 & Hn3 & Hn4).
    destruct Hins as [Hmx | m Hwfm Hd Hv _].
    + intros [= <- <-]. rewrite set_storages_id.
      split; [done |]. split; [done |]. split; [done |]. left.
      split; [done |]. split; [done |].
      unfold sparse_indexer, family_ok in *. lia.
    + destruct (map_insert_added_find sparse_indexer T (new_storage T) (storages_ r) m
                  Hm Hwfm Hd Hv) as (Hf1 & Hf2 & Hf3).
      unfold SparseMap.get_slot, SparseSet.get_dense_index.
      unfold SparseMap.find_slot in Hf3. rewrite Hf3.
      intros [= <- <-].
      split; [| split; [done | split; [exact Hf2 |]]].
      * destruct Hwf. constructor; simpl; try done.
        -- intros family. rewrite Hd, elem_of_app, list_elem_of_singleton.
           intros [? | ->]; [by apply wf_families0 | done].
        -- intros st. rewrite Hv, elem_of_app, list_elem_of_singleton.
           intros [? | ->]; [by apply wf_storage0 |].
           split; [done |]. rewrite Hn2. intros e He. by apply elem_of_nil in He.
        -- intros family st Hst. destruct (decide (family = T)) as [-> | Hne].
           ++ rewrite Hf1 in Hst. by injection Hst as <-.
           ++ rewrite Hf2 in Hst by done. by apply wf_kinds0.
      * right. exists (length (values_ (storages_ r))), (new_storage T).
        split; [done |]. simpl. split; [| split].
        -- rewrite Hd. destruct Hm as [_ ->]. by apply list_lookup_middle.
        -- rewrite Hv. by apply list_lookup_middle.
        -- intros e. rewrite Hn4. unfold Registry.component_at.
           fold (find_storage_ r T).
           rewrite find_storage_slot_None; [done |]. exact Hslot.
Qed.
End RegistryStorageFacts.

(** ** The registry: components *)

Section RegistryComponentFacts.
Context {value : Type}.
Variable empty_value_ : value.
Variable is_empty_v : Z -> bool.
Variable mx : Z.
Implicit Types (r : registry value) (e T : Z) (st : component_storage value).

Abbreviation rwf := (registry_wf (value := value) is_empty_v).
Abbreviation find_storage_ := (Registry.find_storage_ (value := value)).
Abbreviation component_at := (Registry.component_at empty_value_).
Abbreviation assign_component :=
  (Registry.assign_component empty_value_ is_empty_v mx).
Abbreviation ensure_component :=
  (Registry.ensure_component empty_value_ is_empty_v mx).

Lemma assert_valid nd r e :
  Registry.valid_entity r e = true -> assert_ nd (Registry.valid_entity r e) = true.
Proof. intros ->. apply orb_true_r. Qed.

Lemma assert_debug_false c : assert_ false c = c.
Proof. done. Qed.

Lemma storage_no_collision_live r st e :
  rwf r -> st ∈ values_ (storages_ r) -> Registry.valid_entity r e = true ->
  Storage.no_collision st e.
Proof.
  intros Hwf Hst He w Hw Heq.
  apply (registry_wf_live_inj is_empty_v r); try done.
  - by apply (wf_storage _ _ Hwf st).
  - by apply (registry_wf_valid is_empty_v).
Qed.

Lemma component_at_slot r T slot st e :
  rwf r ->
  dense_ (keys_ (storages_ r)) !! slot = Some T ->
  values_ (storages_ r) !! slot = Some st ->
  find_storage_ r T = Some st.
Proof.
  intros Hwf Hk Hv. apply map_find_Some; [apply Hwf | eauto].
Qed.

Lemma assign_component_spec nd T e v r res r' :
  rwf r -> family_ok T -> Registry.valid_entity r e = true ->
  assign_component nd T e v r = (res, r') ->
  rwf r'
  /\ same_entities r r'
  /\ ((res = Throw length_error /\ (mx < 2 ^ 22)%Z
       /\ forall T' e', component_at r' T' e' = component_at r T' e')
      \/ (res = Ok (assigned_value empty_value_ is_empty_v T v)
          /\ component_at r' T e = Some (assigned_value empty_value_ is_empty_v T v)
          /\ forall T' e', (T', e') <> (T, e) ->
               component_at r' T' e' = component_at r T' e')).
Proof.
  intros Hwf HT He. unfold Registry.assign_component.
  rewrite assert_valid by done. simpl.
  destruct (Registry.get_or_create_storage_ is_empty_v mx T r) as [rs r1] eqn:Hg.
  destruct (get_or_create_storage_spec empty_value_ is_empty_v mx T r rs r1 Hwf HT Hg)
    as (Hwf1 & Hsame1 & Hframe1 & [(-> & -> & Hmx) | (slot & st & -> & Hk & Hv & Hst)]).
  { intros [= <- <-]. split; [done |]. split; [done |]. left.
    split; [done |]. split; [lia | done]. }
  rewrite (on_storage_eq slot _ r1 st Hv).
  destruct (Storage.assign empty_value_ mx e v st) as [ra st'] eqn:Ha. simpl.
  intros [= <- <-].
  pose proof (component_at_slot r1 T slot st e Hwf1 Hk Hv) as Hfind1.
  destruct (find_storage_wf is_empty_v r1 T st Hwf1 Hfind1) as (Hstwf & Hids & Hkind).
  assert (Registry.valid_entity r1 e = true) as He1
    by (by rewrite (same_entities_valid r r1)).
  assert (Storage.no_collision st e) as Hnc.
  { eapply storage_no_collision_live; [exact Hwf1 | | done].
    by eapply find_storage_elem. }
  destruct (storage_assign_spec empty_value_ mx e v st ra st' Hstwf Hnc Ha)
    as (Hwf' & Hkind' & Hcases).
  assert (forall e', e' ∈ Storage.ids st' -> e' ∈ dense_ (entity_ids_ r1)) as Hids'.
  { destruct Hcases as [(_ & -> & _) | (_ & _ & _ & Hi)]; [done |].
    intros e' [? | ->]%Hi; [by apply Hids |].
    by apply (registry_wf_valid is_empty_v). }
  destruct (registry_set_slot_wf is_empty_v r1 T slot st st' Hwf1 Hk Hv Hwf' Hids' Hkind')
    as (Hwf2 & Hf2 & Hne2).
  split; [done |]. split; [by eapply same_entities_trans |].
  assert (forall T' e', T' <> T ->
            component_at (set_storages (mk_sparse_map (keys_ (storages_ r1))
                           (<[slot := st']> (values_ (storages_ r1)))) r1) T' e'
            = component_at r T' e') as Hother.
  { intros T' e' HT'. unfold Registry.component_at.
    fold (find_storage_ r T').
    rewrite <- (Hframe1 T' HT'). fold find_storage_. by rewrite (Hne2 T' HT'). }
  assert (forall e',
            component_at (set_storages (mk_sparse_map (keys_ (storages_ r1))
                           (<[slot := st']> (values_ (storages_ r1)))) r1) T e'
            = Storage.find empty_value_ st' e') as Hsame.
  { intros e'. unfold Registry.component_at. fold find_storage_. by rewrite Hf2. }
  destruct Hcases as [(-> & -> & Hmx) | (-> & Hfe & Hfo & _)].
  - left. split; [done |]. split.
    { unfold entity_id_indexer in Hmx.
      destruct (registry_wf_live is_empty_v r e Hwf) as [[He0 _] _];
        [by apply (registry_wf_valid is_empty_v) |].
      pose proof (entity_id_index_range e He0). lia. }
    intros T' e'. destruct (decide (T' = T)) as [-> | HT'].
    + rewrite Hsame. apply Hst.
    + by apply Hother.
  - right. unfold Storage.stored in *. rewrite Hkind in *.
    unfold assigned_value. split; [done |]. split.
    + by rewrite Hsame.
    + intros T' e' Hne. destruct (decide (T' = T)) as [-> | HT'].
      * rewrite Hsame, Hfo; [apply Hst | congruence].
      * by apply Hother.
Qed.

Lemma ensure_component_spec nd T e v r res r' :
  rwf r -> family_ok T -> Registry.valid_entity r e = true ->
  ensure_component nd T e v r = (res, r') ->
  rwf r' /\ same_entities r r' /\ is_abort res = false.
Proof.
  intros Hwf HT He. unfold Registry.ensure_component.
  rewrite assert_valid by done. simpl.
  destruct (Registry.get_or_create_storage_ is_empty_v mx T r) as [rs r1] eqn:Hg.
  destruct (get_or_create_storage_spec empty_value_ is_empty_v mx T r rs r1 Hwf HT Hg)
    as (Hwf1 & Hsame1 & Hframe1 & [(-> & -> & Hmx) | (slot & st & -> & Hk & Hv & Hst)]).
  { intros [= <- <-]. done. }
  rewrite (on_storage_eq slot _ r1 st Hv).
  destruct (Storage.ensure empty_value_ mx e v st) as [ra st'] eqn:Ha. simpl.
  intros [= <- <-].
  pose proof (component_at_slot r1 T slot st e Hwf1 Hk Hv) as Hfind1.
  destruct (find_storage_wf is_empty_v r1 T st Hwf1 Hfind1) as (Hstwf & Hids & Hkind).
  assert (Registry.valid_entity r1 e = true) as He1
    by (by rewrite (same_entities_valid r r1)).
  assert (Storage.no_collision st e) as Hnc.
  { eapply storage_no_collision_live; [exact Hwf1 | | done].
    by eapply find_storage_elem. }
  destruct (storage_ensure_spec empty_value_ mx e v st ra st' Hstwf Hnc Ha)
    as (Hwf' & Hkind' & Hi & Hab).
  assert (forall e', e' ∈ Storage.ids st' -> e' ∈ dense_ (entity_ids_ r1)) as Hids'.
  { intros e' [? | ->]%Hi; [by apply Hids |].
    by apply (registry_wf_valid is_empty_v). }
  destruct (registry_set_slot_wf is_empty_v r1 T slot st st' Hwf1 Hk Hv Hwf' Hids' Hkind')
    as (Hwf2 & _ & _).
  split; [done |]. split; [by eapply same_entities_trans | done].
Qed.

Lemma remove_component_spec nd T e r res r' :
  rwf r -> Registry.valid_entity r e = true ->
  Registry.remove_component nd T e r = (res, r') ->
  rwf r' /\ same_entities r r' /\ is_abort res = false.
Proof using empty_value_ is_empty_v value.
  intros Hwf He. unfold Registry.remove_component.
  rewrite assert_valid by done. simpl.
  destruct (Registry.find_storage_slot_ r T) as [slot |] eqn:Hslot;
    [| intros [= <- <-]; done].
  destruct (find_storage_slot_Some is_empty_v r T slot Hwf Hslot) as (st & Hv & Hf & Hk).
  rewrite (on_storage_eq slot _ r st Hv).
  destruct (Storage.remove e st) as [b st'] eqn:Hr. simpl.
  intros [= <- <-].
  destruct (find_storage_wf is_empty_v r T st Hwf Hf) as (Hstwf & Hids & Hkind).
  destruct (storage_remove_spec empty_value_ e st b st' Hstwf Hr)
    as (Hwf' & Hkind' & _ & _ & _ & Hi).
  destruct (registry_set_slot_wf is_empty_v r T slot st st' Hwf Hk Hv Hwf')
    as (Hwf2 & _ & _); [| done |].
  { intros e' [? _]%Hi. by apply Hids. }
  done.
Qed.

Lemma remove_all_components_of_spec T r n r' :
  rwf r -> Registry.remove_all_components_of T r = (n, r') ->
  rwf r' /\ same_entities r r'.
Proof.
  intros Hwf. unfold Registry.remove_all_components_of.
  destruct (Registry.find_storage_slot_ r T) as [slot |] eqn:Hslot;
    [| intros [= <- <-]; done].
  destruct (find_storage_slot_Some is_empty_v r T slot Hwf Hslot) as (st & Hv & Hf & Hk).
  rewrite (on_storage_eq slot _ r st Hv).
  destruct (Storage.remove_all st) as [c st'] eqn:Hr. simpl.
  intros [= <- <-].
  destruct (find_storage_wf is_empty_v r T st Hwf Hf) as (Hstwf & Hids & Hkind).
  destruct (storage_remove_all_spec st c st' Hr) as (Hwf' & Hkind' & Hi).
  destruct (registry_set_slot_wf is_empty_v r T slot st st' Hwf Hk Hv Hwf')
    as (Hwf2 & _ & _); [| done |].
  { rewrite Hi. intros e' H. by apply elem_of_nil in H. }
  done.
Qed.
End RegistryComponentFacts.

(** ** The registry: removing components and destroying entities *)

Lemma erase_permutation e (s s' : sparse_set) b :
  SparseSet.wf entity_id_indexer s -> e ∈ dense_ s ->
  SparseSet.unordered_erase entity_id_indexer e s = (b, s') ->
  e :: dense_ s' ≡ₚ dense_ s.
Proof.
  intros Hwf He Her.
  pose proof (set_erase_wf _ _ _ _ _ Hwf Her) as Hwf'.
  pose proof (fun w => set_erase_elem entity_id_indexer e s b s' w Hwf Her) as Hel.
  apply NoDup_Permutation.
  - constructor; [| by apply (set_wf_NoDup entity_id_indexer)].
    intros [_ ?]%Hel. done.
  - by apply (set_wf_NoDup entity_id_indexer).
  - intros w. rewrite elem_of_cons, Hel.
    destruct (decide (w = e)) as [-> | Hne]; [tauto |]. tauto.
Qed.

Section RegistryDestroyFacts.
Context {value : Type}.
Variable empty_value_ : value.
Variable is_empty_v : Z -> bool.
Variable mx : Z.
Variable imx : Z.
Implicit Types (r : registry value) (e T : Z) (st : component_storage value).

Abbreviation rwf := (registry_wf (value := value) is_empty_v).

Lemma remove_all_components_fold e r0 k rk c :
  Registry.valid_entity r0 e = true ->
  k <= length (dense_ (keys_ (storages_ r0))) ->
  rwf rk -> same_entities r0 rk ->
  keys_ (storages_ rk) = keys_ (storages_ r0) ->
  (forall j st, j < k -> values_ (storages_ rk) !! j = Some st -> e ∉ Storage.ids st) ->
  exists n r',
    foldl (Registry.remove_all_components_step e)
          (Ok c, rk) (drop k (dense_ (keys_ (storages_ r0))))
    = (Ok n, r')
    /\ rwf r' /\ same_entities r0 r'
    /\ forall st, st ∈ values_ (storages_ r') -> e ∉ Storage.ids st.
Proof using empty_value_ is_empty_v value.
  intros He Hk. remember (length (dense_ (keys_ (storages_ r0))) - k) as d eqn:Hd.
  revert k rk c Hk Hd. induction d as [| d IH]; intros k rk c Hk Hd Hwf Hsame Hkeys Hdone.
  - rewrite drop_ge by lia. simpl. exists c, rk. split; [done |].
    split; [done |]. split; [done |].
    intros st [j Hj]%list_elem_of_lookup_1. apply (Hdone j); [| done].
    apply lookup_lt_Some in Hj. destruct (wf_storages _ _ Hwf) as [_ Hlen].
    rewrite Hlen, Hkeys in Hj. lia.
  - destruct (lookup_lt_is_Some_2 (dense_ (keys_ (storages_ r0))) k) as [T HT]; [lia |].
    rewrite (drop_S _ _ _ HT). simpl.
    pose proof (wf_storages _ _ Hwf) as Hm.
    assert (dense_ (keys_ (storages_ rk)) !! k = Some T) as HTk by (by rewrite Hkeys).
    rewrite (map_get_slot_wf sparse_indexer (storages_ rk) k T Hm HTk).
    destruct (lookup_lt_is_Some_2 (values_ (storages_ rk)) k) as [st Hst].
    { destruct Hm as [_ ->]. rewrite Hkeys. lia. }
    rewrite (on_storage_eq k _ rk st Hst).
    destruct (Storage.remove e st) as [b st'] eqn:Hr. simpl.
    pose proof (component_at_slot is_empty_v rk T k st e Hwf HTk Hst) as Hf.
    destruct (find_storage_wf is_empty_v rk T st Hwf Hf) as (Hstwf & Hids & Hkind).
    destruct (storage_remove_spec empty_value_ e st b st' Hstwf Hr)
      as (Hwf' & Hkind' & _ & _ & _ & Hi).
    destruct (registry_set_slot_wf is_empty_v rk T k st st' Hwf HTk Hst Hwf')
      as (Hwf2 & _ & _); [| done |].
    { intros e' [? _]%Hi. by apply Hids. }
    set (rk' := set_storages _ rk) in *.
    assert (forall c', exists n r',
              foldl (Registry.remove_all_components_step e) (Ok c', rk')
                    (drop (S k) (dense_ (keys_ (storages_ r0)))) = (Ok n, r')
              /\ rwf r' /\ same_entities r0 r'
              /\ forall st, st ∈ values_ (storages_ r') -> e ∉ Storage.ids st) as Hnext.
    { intros c'. apply IH; try done; try lia.
      intros j x Hj Hx. subst rk'. simpl in Hx.
      destruct (decide (j = k)) as [-> | Hjk].
      - rewrite list_lookup_insert_eq in Hx by (by eapply lookup_lt_Some).
        injection Hx as <-. intros [_ ?]%Hi. done.
      - rewrite list_lookup_insert_ne in Hx by done. apply (Hdone j); [lia | done]. }
    destruct b; apply Hnext.
Qed.

Lemma remove_all_components_spec nd e r res r' :
  rwf r -> Registry.valid_entity r e = true ->
  Registry.remove_all_components nd e r = (res, r') ->
  (exists n, res = Ok n)
  /\ rwf r' /\ same_entities r r'
  /\ forall st, st ∈ values_ (storages_ r') -> e ∉ Storage.ids st.
Proof using empty_value_ is_empty_v value.
  intros Hwf He. unfold Registry.remove_all_components.
  rewrite assert_valid by done. simpl.
  destruct (remove_all_components_fold e r 0 r 0 He) as (n & r2 & Hfold & H1 & H2 & H3);
    try done; try lia.
  rewrite drop_0 in Hfold. rewrite Hfold. intros [= <- <-]. eauto.
Qed.

Lemma destroy_entity_spec nd e r res r' :
  rwf r -> Registry.valid_entity r e = true ->
  Registry.destroy_entity nd e r = (res, r') ->
  res = Ok tt
  /\ rwf r'
  /\ free_entity_ids_ r' = free_entity_ids_ r ++ [e]
  /\ (forall w, w ∈ dense_ (entity_ids_ r') <-> w ∈ dense_ (entity_ids_ r) /\ w <> e)
  /\ last_entity_id_ r' = last_entity_id_ r
  /\ free_entity_ids_capacity_ r' = free_entity_ids_capacity_ r
  /\ (Z.of_nat (length (free_entity_ids_ r)) < free_entity_ids_capacity_ r)%Z.
Proof using empty_value_ is_empty_v value.
  intros Hwf He. unfold Registry.destroy_entity.
  rewrite assert_valid by done. simpl.
  destruct (Registry.remove_all_components nd e r) as [ra r1] eqn:Hra.
  destruct (remove_all_components_spec nd e r ra r1 Hwf He Hra)
    as ([n ->] & Hwf1 & (Hs1 & Hs2 & Hs3 & Hs4) & Hgone).
  pose proof He as Hin. apply (registry_wf_valid is_empty_v) in Hin; [| done].
  rewrite Hs1, Hs3, Hs4.
  destruct (SparseSet.unordered_erase entity_id_indexer e (entity_ids_ r)) as [b ids] eqn:Her.
  pose proof (set_erase_result entity_id_indexer e (entity_ids_ r)) as Hb.
  rewrite Her in Hb. simpl in Hb. unfold Registry.valid_entity in He. rewrite He in Hb.
  subst b.
  pose proof (wf_entity_ids _ _ Hwf) as Hwfi.
  pose proof (set_erase_wf _ _ _ _ _ Hwfi Her) as Hwfi'.
  pose proof (fun w => set_erase_elem entity_id_indexer e _ _ _ w Hwfi Her) as Hel.
  pose proof (erase_permutation e _ _ _ Hwfi Hin Her) as Hperm.
  pose proof (wf_capacity _ _ Hwf) as Hcap. pose proof (wf_count _ _ Hwf) as Hcnt.
  assert (length (dense_ (entity_ids_ r)) = S (length (dense_ ids))) as Hlen.
  { by rewrite <- Hperm. }
  assert (Z.of_nat (length (free_entity_ids_ r)) < free_entity_ids_capacity_ r)%Z as Hroom
    by lia.
  unfold assert_. destruct (Z.ltb_spec (Z.of_nat (length (free_entity_ids_ r)))
                              (free_entity_ids_capacity_ r)) as [_ | ?]; [| lia].
  rewrite orb_true_r. simpl. intros [= <- <-]. simpl.
  unfold Registry.push_back_capacity.
  destruct (Z.ltb_spec (Z.of_nat (length (free_entity_ids_ r)))
              (free_entity_ids_capacity_ r)) as [_ | ?]; [| lia].
  split; [done |]. split; [| done].
  constructor; simpl.
  - done.
  - rewrite Hs2. apply Hwf.
  - rewrite Hs2. intros w Hw. apply (wf_ids _ _ Hwf).
    rewrite !elem_of_app in Hw. rewrite elem_of_app.
    destruct Hw as [[? _]%Hel | [? | ->%list_elem_of_singleton]]; auto.
  - pose proof (wf_indices _ _ Hwf) as Hnd.
    rewrite <- Hperm in Hnd. simpl in Hnd.
    rewrite app_assoc, fmap_app. simpl.
    rewrite <- Permutation_cons_append. done.
  - rewrite length_app. simpl. lia.
  - rewrite length_app. simpl. lia.
  - apply Hwf1.
  - apply Hwf1.
  - intros st Hst. destruct (wf_storage _ _ Hwf1 st Hst) as [H1 H2].
    split; [done |]. intros w Hw. apply Hel. split.
    + rewrite <- Hs1. by apply H2.
    + intros ->. by apply (Hgone st).
  - apply Hwf1.
Qed.

Lemma destroy_entity_invalid e r :
  Registry.valid_entity r e = false ->
  Registry.destroy_entity false e r = (Abort, r).
Proof. intros H. unfold Registry.destroy_entity, assert_. by rewrite H. Qed.
End RegistryDestroyFacts.

(** ** Prototypes on a registry, clones, and reachable states *)

Section ReachableFacts.
Context {value : Type}.
Variable empty_value_ : value.
Variable is_empty_v : Z -> bool.
Variable mx : Z.
Variable imx : Z.
Implicit Types (r : registry value) (e T : Z) (p : prototype value).

Abbreviation rwf := (registry_wf (value := value) is_empty_v).
Abbreviation apply_to_entity :=
  (Prototype.apply_to_entity empty_value_ is_empty_v mx).
Abbreviation apply_step := (Prototype.apply_step empty_value_ is_empty_v mx).
Abbreviation applier_apply_to_entity :=
  (Prototype.applier_apply_to_entity empty_value_ is_empty_v mx).

Lemma map_get_find {V} indexer (m : sparse_map V) k v :
  SparseMap.get indexer m k = Ok v -> SparseMap.find indexer m k = Some v.
Proof.
  unfold SparseMap.get, SparseMap.get_slot, SparseSet.get_dense_index,
    SparseMap.find, SparseMap.find_slot.
  destruct (SparseSet.find_dense_index indexer (keys_ m) k) as [i |]; [| done].
  destruct (values_ m !! i); intros [=]. by subst.
Qed.

Lemma prototype_get_family p family a :
  Prototype.wf p -> SparseMap.get sparse_indexer (appliers_ p) family = Ok a ->
  applier_family a = family /\ family_ok family.
Proof.
  intros [Hm Hf] Hg. apply map_get_find in Hg.
  apply map_find_entries in Hg; [| done]. by apply Hf.
Qed.

Lemma exists_component_valid nd r T e :
  Registry.valid_entity r e = true ->
  exists b, Registry.exists_component nd r T e = Ok b.
Proof.
  intros He. unfold Registry.exists_component.
  rewrite assert_valid by done. simpl.
  destruct (Registry.find_storage_ r T); eauto.
Qed.

Lemma applier_apply_wf nd (a : applier value) e override r res r' :
  rwf r -> family_ok (applier_family a) -> Registry.valid_entity r e = true ->
  applier_apply_to_entity nd a e override r = (res, r') ->
  rwf r' /\ same_entities r r' /\ is_abort res = false.
Proof.
  intros Hwf HT He. unfold Prototype.applier_apply_to_entity.
  destruct (exists_component_valid nd r (applier_family a) e He) as [b Hb].
  rewrite Hb. simpl.
  assert (forall res r',
            (let '(res0, r'0) :=
               Registry.assign_component empty_value_ is_empty_v mx nd
                 (applier_family a) e (args_ a) r in
             (outcome_map (fun _ => tt) res0, r'0)) = (res, r') ->
            rwf r' /\ same_entities r r' /\ is_abort res = false) as Hassign.
  { intros res0 r0.
    destruct (Registry.assign_component empty_value_ is_empty_v mx nd
                (applier_family a) e (args_ a) r) as [ra r1] eqn:Ha.
    intros [= <- <-].
    destruct (assign_component_spec empty_value_ is_empty_v mx nd _ e _ r ra r1 Hwf HT He Ha)
      as (H1 & H2 & [(-> & _) | (-> & _)]); done. }
  destruct override; simpl; [apply Hassign |].
  destruct b; simpl; [intros [= <- <-]; done | apply Hassign].
Qed.

Lemma apply_steps_wf nd p e override l r0 acc r res r' :
  Prototype.wf p -> Registry.valid_entity r0 e = true ->
  rwf r -> same_entities r0 r -> is_abort acc = false ->
  foldl (apply_step nd p e override) (acc, r) l = (res, r') ->
  rwf r' /\ same_entities r0 r' /\ is_abort res = false.
Proof.
  intros Hp He. revert acc r.
  induction l as [| family l IH]; intros acc r Hwf Hsame Hacc; simpl.
  - intros [= <- <-]. done.
  - destruct acc as [u | ex |]; [| by apply IH | done].
    destruct (SparseMap.get sparse_indexer (appliers_ p) family) as [a | ex |] eqn:Hg.
    + destruct (prototype_get_family p family a Hp Hg) as [Hfa Hok].
      destruct (applier_apply_to_entity nd a e override r) as [ra r1] eqn:Ha.
      assert (Registry.valid_entity r e = true) as He1
        by (by rewrite (same_entities_valid r0 r)).
      destruct (applier_apply_wf nd a e override r ra r1 Hwf) as (H1 & H2 & H3);
        [by rewrite Hfa | done | done |].
      apply IH; [done | by eapply same_entities_trans | done].
    + by apply IH.
    + exfalso. unfold SparseMap.get in Hg.
      destruct (SparseMap.get_slot sparse_indexer (appliers_ p) family) as [i | |] eqn:Hs;
        try done.
      * destruct Hp as [Hm _]. unfold SparseMap.get_slot, SparseSet.get_dense_index in Hs.
        destruct (SparseSet.find_dense_index sparse_indexer (keys_ (appliers_ p)) family)
          as [j |] eqn:Hj; [| done]. injection Hs as ->.
        apply (map_find_slot_lt sparse_indexer) in Hj; [| done].
        apply lookup_lt_is_Some_2 in Hj as [x Hx]. by rewrite Hx in Hg.
      * unfold SparseMap.get_slot, SparseSet.get_dense_index in Hs.
        by destruct (SparseSet.find_dense_index _ _ _).
Qed.

Lemma apply_to_entity_wf nd p e override r res r' :
  rwf r -> Prototype.wf p -> Registry.valid_entity r e = true ->
  apply_to_entity nd p e override r = (res, r') ->
  rwf r' /\ same_entities r r' /\ is_abort res = false.
Proof.
  intros Hwf Hp He. unfold Prototype.apply_to_entity.
  by apply apply_steps_wf.
Qed.

Lemma apply_steps_invalid p e override l acc r res r' :
  Registry.valid_entity r e = false ->
  foldl (apply_step false p e override) (acc, r) l = (res, r') -> r' = r.
Proof.
  intros He. revert acc.
  induction l as [| family l IH]; intros acc; simpl.
  - by intros [= <- <-].
  - destruct acc as [u | ex |]; try apply IH.
    destruct (SparseMap.get sparse_indexer (appliers_ p) family) as [a | ex |];
      try apply IH.
    unfold Prototype.applier_apply_to_entity, Registry.exists_component,
      Registry.assign_component, assert_.
    rewrite He. simpl. destruct override; simpl; apply IH.
Qed.

(** *** create_entity from a prototype or from an entity *)

Lemma create_entity_valid r ent r' :
  rwf r -> Registry.create_entity mx imx r = (Ok ent, r') ->
  rwf r' /\ Registry.valid_entity r' ent = true.
Proof.
  intros Hwf Hc. destruct (create_entity_spec is_empty_v mx imx r _ r' Hwf Hc)
    as [Hres Hwf'].
  split; [done |]. apply (registry_wf_valid is_empty_v); [done |].
  inversion Hres; subst; simpl;
    match goal with H : dense_ _ = _ |- _ => rewrite H end;
    apply elem_of_app; right; by apply list_elem_of_singleton.
Qed.

Lemma create_entity_no_abort r res r' :
  rwf r -> Registry.create_entity mx imx r = (res, r') ->
  rwf r' /\ is_abort res = false.
Proof.
  intros Hwf Hc. destruct (create_entity_spec is_empty_v mx imx r _ r' Hwf Hc)
    as [Hres Hwf'].
  split; [done |]. by inversion Hres.
Qed.

Lemma create_entity_from_wf nd p r res r' :
  rwf r -> Prototype.wf p ->
  Prototype.create_entity_from empty_value_ is_empty_v mx imx nd p r = (res, r') ->
  rwf r' /\ is_abort res = false
  /\ forall w, w ∈ dense_ (entity_ids_ r') ->
       w ∈ dense_ (entity_ids_ r) \/ fst (Registry.create_entity mx imx r) = Ok w.
Proof.
  intros Hwf Hp. unfold Prototype.create_entity_from.
  destruct (Registry.create_entity mx imx r) as [rc r1] eqn:Hc.
  pose proof (create_entity_live is_empty_v mx imx r rc r1 Hwf Hc) as Hlive.
  destruct rc as [ent | ex |].
  - destruct (create_entity_valid r ent r1 Hwf Hc) as [Hwf1 He1].
    destruct (apply_to_entity nd p ent true r1) as [ra r2] eqn:Ha.
    destruct (apply_to_entity_wf nd p ent true r1 ra r2 Hwf1 Hp He1 Ha)
      as (Hwf2 & Hsame & Hab).
    pose proof Hsame as (Hids & _).
    destruct ra as [u | ex |]; [| | done].
    { intros [= <- <-]. rewrite Hids. done. }
    destruct (Registry.destroy_entity nd ent r2) as [rd r3] eqn:Hd.
    assert (Registry.valid_entity r2 ent = true) as He2
      by (by rewrite (same_entities_valid r1 r2)).
    destruct (destroy_entity_spec empty_value_ is_empty_v nd ent r2 rd r3 Hwf2 He2 Hd)
      as (-> & Hwf3 & _ & Hel & _).
    intros [= <- <-]. split; [done |]. split; [done |].
    intros w [Hw _]%Hel. rewrite Hids in Hw. by apply Hlive.
  - destruct (create_entity_no_abort r _ r1 Hwf Hc). by intros [= <- <-].
  - destruct (create_entity_no_abort r _ r1 Hwf Hc). done.
Qed.

Lemma clone_steps_wf proto ent l r0 acc r res r' :
  Registry.valid_entity r0 ent = true ->
  rwf r -> same_entities r0 r -> is_abort acc = false ->
  foldl (Registry.clone_step empty_value_ mx proto ent) (acc, r) l = (res, r') ->
  rwf r' /\ same_entities r0 r' /\ is_abort res = false.
Proof.
  intros He. revert acc r.
  induction l as [| family l IH]; intros acc r Hwf Hsame Hacc; simpl.
  - intros [= <- <-]. done.
  - destruct acc as [u | ex |]; [| by apply IH | done].
    destruct (SparseMap.get_slot sparse_indexer (storages_ r) family) as [slot | ex |] eqn:Hs.
    + unfold SparseMap.get_slot, SparseSet.get_dense_index in Hs.
      destruct (SparseSet.find_dense_index sparse_indexer (keys_ (storages_ r)) family)
        as [j |] eqn:Hj; [| done]. injection Hs as ->.
      destruct (find_storage_slot_Some is_empty_v r family slot Hwf Hj)
        as (st & Hv & Hf & Hk).
      rewrite (on_storage_eq slot _ r st Hv).
      destruct (Storage.clone empty_value_ mx proto ent st) as [rc st'] eqn:Hc. simpl.
      destruct (find_storage_wf is_empty_v r family st Hwf Hf) as (Hstwf & Hids & Hkind).
      assert (Registry.valid_entity r ent = true) as He1
        by (by rewrite (same_entities_valid r0 r)).
      assert (Storage.no_collision st ent) as Hnc.
      { eapply storage_no_collision_live; [exact Hwf | | done].
        by eapply find_storage_elem. }
      destruct (storage_clone_spec empty_value_ mx proto ent st rc st' Hstwf Hnc Hc)
        as (Hwf' & Hkind' & Hi & Hab).
      destruct (registry_set_slot_wf is_empty_v r family slot st st' Hwf Hk Hv Hwf')
        as (Hwf2 & _ & _); [| done |].
      { intros e' [? | ->]%Hi; [by apply Hids |].
        by apply (registry_wf_valid is_empty_v). }
      apply IH; [done | | done].
      eapply same_entities_trans; [exact Hsame | done].
    + by apply IH.
    + unfold SparseMap.get_slot, SparseSet.get_dense_index in Hs.
      by destruct (SparseSet.find_dense_index _ _ _).
Qed.

Lemma create_entity_clone_wf nd proto r res r' :
  rwf r -> Registry.valid_entity r proto = true ->
  Registry.create_entity_clone empty_value_ mx imx nd proto r = (res, r') ->
  rwf r' /\ is_abort res = false
  /\ forall w, w ∈ dense_ (entity_ids_ r') ->
       w ∈ dense_ (entity_ids_ r) \/ fst (Registry.create_entity mx imx r) = Ok w.
Proof.
  intros Hwf Hp. unfold Registry.create_entity_clone.
  rewrite assert_valid by done. simpl.
  destruct (Registry.create_entity mx imx r) as [rc r1] eqn:Hc.
  pose proof (create_entity_live is_empty_v mx imx r rc r1 Hwf Hc) as Hlive.
  destruct rc as [ent | ex |].
  - destruct (create_entity_valid r ent r1 Hwf Hc) as [Hwf1 He1].
    destruct (foldl (Registry.clone_step empty_value_ mx proto ent) (Ok tt, r1)
                (dense_ (keys_ (storages_ r1)))) as [ra r2] eqn:Ha.
    destruct (clone_steps_wf proto ent (dense_ (keys_ (storages_ r1))) r1 (Ok tt) r1 ra r2
                He1 Hwf1) as (Hwf2 & Hsame & Hab); [done | done | done |].
    pose proof Hsame as (Hids & _).
    destruct ra as [u | ex |]; [| | done].
    { intros [= <- <-]. rewrite Hids. done. }
    destruct (Registry.destroy_entity nd ent r2) as [rd r3] eqn:Hd.
    assert (Registry.valid_entity r2 ent = true) as He2
      by (by rewrite (same_entities_valid r1 r2)).
    destruct (destroy_entity_spec empty_value_ is_empty_v nd ent r2 rd r3 Hwf2 He2 Hd)
      as (-> & Hwf3 & _ & Hel & _).
    intros [= <- <-]. split; [done |]. split; [done |].
    intros w [Hw _]%Hel. rewrite Hids in Hw. by apply Hlive.
  - destruct (create_entity_no_abort r _ r1 Hwf Hc). by intros [= <- <-].
  - destruct (create_entity_no_abort r _ r1 Hwf Hc). done.
Qed.

(** *** Every reachable state is well formed *)

Lemma is_abort_outcome_map {A B} (f : A -> B) (o : outcome A) :
  is_abort (outcome_map f o) = is_abort o.
Proof. by destruct o. Qed.

Lemma exec_spec o r :
  rwf r -> op_ok o ->
  is_abort (fst (exec empty_value_ is_empty_v mx imx false o r)) = false ->
  rwf (snd (exec empty_value_ is_empty_v mx imx false o r))
  /\ forall w, w ∈ dense_ (entity_ids_ (snd (exec empty_value_ is_empty_v mx imx false o r))) ->
       w ∈ dense_ (entity_ids_ r) \/ issued_id mx imx o r = Some w.
Proof.
  intros Hwf Hok. destruct o as [| p | proto | e | T e v | T e v | T e | e | T | p e ov];
    simpl in *.
  - destruct (Registry.create_entity mx imx r) as [res r'] eqn:Hc. intros _.
    split; [by destruct (create_entity_no_abort r res r' Hwf Hc) |].
    intros w [? | ->]%(create_entity_live is_empty_v mx imx r res r' Hwf Hc); auto.
  - destruct (Prototype.create_entity_from _ _ _ _ _ _ _) as [res r'] eqn:Hc. intros _.
    destruct (create_entity_from_wf false p r res r' Hwf Hok Hc) as (H1 & _ & H3).
    split; [done |]. intros w [? | Hw]%H3; [by left |]. right. by rewrite Hw.
  - destruct (Registry.valid_entity r proto) eqn:Hv.
    + destruct (Registry.create_entity_clone _ _ _ _ _ _) as [res r'] eqn:Hc. intros _.
      destruct (create_entity_clone_wf false proto r res r' Hwf Hv Hc) as (H1 & _ & H3).
      split; [done |]. intros w [? | Hw]%H3; [by left |]. right. by rewrite Hw.
    + unfold Registry.create_entity_clone, assert_. rewrite Hv. simpl. done.
  - destruct (Registry.valid_entity r e) eqn:Hv.
    + destruct (Registry.destroy_entity false e r) as [res r'] eqn:Hd. intros _.
      destruct (destroy_entity_spec empty_value_ is_empty_v false e r res r' Hwf Hv Hd)
        as (_ & ? & _ & Hel & _).
      split; [done |]. intros w [? _]%Hel. by left.
    + by rewrite destroy_entity_invalid.
  - destruct (Registry.valid_entity r e) eqn:Hv.
    + destruct (Registry.assign_component _ _ _ _ _ _ _ _) as [res r'] eqn:Ha. intros _.
      destruct (assign_component_spec empty_value_ is_empty_v mx false T e v r res r'
                  Hwf Hok Hv Ha) as (? & (Hi & _) & _).
      split; [done |]. simpl. rewrite Hi. auto.
    + unfold Registry.assign_component, assert_. rewrite Hv. simpl. done.
  - destruct (Registry.valid_entity r e) eqn:Hv.
    + destruct (Registry.ensure_component _ _ _ _ _ _ _ _) as [res r'] eqn:Ha. intros _.
      destruct (ensure_component_spec empty_value_ is_empty_v mx false T e v r res r'
                  Hwf Hok Hv Ha) as (? & (Hi & _) & _).
      split; [done |]. simpl. rewrite Hi. auto.
    + unfold Registry.ensure_component, assert_. rewrite Hv. simpl. done.
  - destruct (Registry.valid_entity r e) eqn:Hv.
    + destruct (Registry.remove_component _ _ _ _) as [res r'] eqn:Ha. intros _.
      destruct (remove_component_spec empty_value_ is_empty_v false T e r res r'
                  Hwf Hv Ha) as (? & (Hi & _) & _).
      split; [done |]. simpl. rewrite Hi. auto.
    + unfold Registry.remove_component, assert_. rewrite Hv. simpl. done.
  - destruct (Registry.valid_entity r e) eqn:Hv.
    + destruct (Registry.remove_all_components _ _ _) as [res r'] eqn:Ha. intros _.
      destruct (remove_all_components_spec empty_value_ is_empty_v false e r res r'
                  Hwf Hv Ha) as (_ & ? & (Hi & _) & _).
      split; [done |]. simpl. rewrite Hi. auto.
    + unfold Registry.remove_all_components, assert_. rewrite Hv. simpl. done.
  - destruct (Registry.remove_all_components_of T r) as [n r'] eqn:Ha. intros _.
    destruct (remove_all_components_of_spec is_empty_v T r n r' Hwf Ha) as (? & (Hi & _)).
    split; [done |]. simpl. rewrite Hi. auto.
  - destruct (Registry.valid_entity r e) eqn:Hv.
    + destruct (apply_to_entity false p e ov r) as [res r'] eqn:Ha. intros _.
      destruct (apply_to_entity_wf false p e ov r res r' Hwf Hok Hv Ha) as (? & (Hi & _) & _).
      split; [done |]. simpl. rewrite Hi. auto.
    + destruct (apply_to_entity false p e ov r) as [res r'] eqn:Ha. intros _.
      unfold Prototype.apply_to_entity in Ha.
      rewrite (apply_steps_invalid p e ov _ _ r res r' Hv Ha). auto.
Qed.

Lemma exec_wf o r :
  rwf r -> op_ok o ->
  is_abort (fst (exec empty_value_ is_empty_v mx imx false o r)) = false ->
  rwf (snd (exec empty_value_ is_empty_v mx imx false o r)).
Proof. intros Hwf Hok Hab. by destruct (exec_spec o r Hwf Hok Hab). Qed.

Lemma reachable_wf r : reachable empty_value_ is_empty_v mx imx r -> rwf r.
Proof.
  induction 1 as [| r o Hr IH Hok Hab].
  - apply registry_wf_init.
  - by apply exec_wf.
Qed.
End ReachableFacts.

(** ** Feature dispatch *)

Section FeatureFacts.
Context {W event : Type}.
Implicit Types (f : feature W event) (s : system W event) (E : event_type)
  (ev : event) (w : W).

Lemma run_calls_stuck (calls : list (system W event * event_type)) ev (o : outcome W) :
  is_ok o = false ->
  foldl (fun acc call =>
           match acc with
           | Ok w => process (fst call) (snd call) ev w
           | _ => acc
           end) o calls = o.
Proof.
  intros Ho. induction calls as [| c calls IH]; simpl; [done |].
  destruct o; [done | exact IH | exact IH].
Qed.

Lemma run_calls_cons (c : system W event * event_type) calls ev w :
  Feature.run_calls (c :: calls) ev w =
  match process (fst c) (snd c) ev w with
  | Ok w' => Feature.run_calls calls ev w'
  | o => o
  end.
Proof.
  unfold Feature.run_calls. simpl.
  destruct (process (fst c) (snd c) ev w) eqn:Hp; [done | |];
    by rewrite run_calls_stuck.
Qed.

Lemma run_calls_app (l1 l2 : list (system W event * event_type)) ev w :
  Feature.run_calls (l1 ++ l2) ev w =
  match Feature.run_calls l1 ev w with
  | Ok w' => Feature.run_calls l2 ev w'
  | o => o
  end.
Proof.
  revert w. induction l1 as [| c l1 IH]; intros w; [done |].
  rewrite <- app_comm_cons, !run_calls_cons.
  destruct (process (fst c) (snd c) ev w); [apply IH | done | done].
Qed.

Lemma fire_event_stuck (l : list (system W event)) E ev (o : outcome W) :
  is_ok o = false ->
  foldl (fun acc base_system =>
           match acc with
           | Ok w =>
               if implements base_system E then process base_system E ev w else Ok w
           | _ => acc
           end) o l = o.
Proof.
  intros Ho. induction l as [| s l IH]; simpl; [done |].
  destruct o; [done | exact IH | exact IH].
Qed.

Lemma fire_event_calls f E ev w :
  Feature.fire_event f E ev w =
  Feature.run_calls
    (map (fun s => (s, E)) (filter (fun s => implements s E = true) (systems_ f))) ev w.
Proof.
  unfold Feature.fire_event. generalize (systems_ f) as l. intros l. revert w.
  induction l as [| s l IH]; intros w; [done |]. simpl.
  rewrite filter_cons. destruct (implements s E) eqn:Hi.
  - rewrite decide_True by done. simpl. rewrite run_calls_cons. simpl.
    destruct (process s E ev w); [apply IH | |]; by apply fire_event_stuck.
  - rewrite decide_False by (by intros ?). apply IH.
Qed.

Lemma add_system_systems s f :
  systems_ (Feature.add_system s f) = systems_ f ++ [s].
Proof. done. Qed.
End FeatureFacts.

(** C7 (as amended).  [process_event] is the run, in this order, of the
    handlers for [before<E>] of the systems that implement [before<E>], the
    handlers for [E] of the systems that implement [E], and the handlers for
    [after<E>] of the systems that implement [after<E>], each group in the
    order the systems were added (a handler that throws ends the run).  With
    S1 and S2 added in that order and both implementing [before<E>], [E] and
    [after<E>], the calls are before.S1, before.S2, E.S1, E.S2, after.S1,
    after.S2. *)
Theorem process_event_three_phases :
  (forall (W event : Type) (f : feature W event) (E : event_type) (ev : event) (w : W),
     Feature.process_event f E ev w = Feature.run_calls (Feature.dispatch_calls f E) ev w)
  /\ (forall (E : event_type) (n1 n2 : nat),
        let handled := [event_before E; E; event_after E] in
        let f := Feature.add_system (tracing_system n2 handled)
                   (Feature.add_system (tracing_system n1 handled) Feature.feature_init) in
        Feature.process_event f E tt []
        = Ok [(n1, event_before E); (n2, event_before E);
              (n1, E); (n2, E);
              (n1, event_after E); (n2, event_after E)]).
Proof.
  split.
  - intros W event f E ev w. unfold Feature.process_event, Feature.dispatch_calls.
    rewrite run_calls_app, fire_event_calls.
    destruct (Feature.run_calls _ ev w) as [w1 | |]; [| done | done].
    rewrite run_calls_app, fire_event_calls.
    destruct (Feature.run_calls _ ev w1) as [w2 | |]; [| done | done].
    apply fire_event_calls.
  - intros E n1 n2 handled f.
    unfold Feature.process_event, Feature.fire_event. simpl.
    rewrite !bool_decide_eq_true_2 by (subst handled; repeat constructor).
    reflexivity.
Qed.

(** C7 as stated fails for systems that handle [E] alone, as [system<E>]
    subclasses do: the dispatch of [before<E>] and [after<E>] skips them, and
    the calls are E.S1, E.S2 only. *)
Lemma process_event_plain_systems_counterexample :
  let E := event_user 0 in
  let f := Feature.add_system (tracing_system 2 [E])
             (Feature.add_system (tracing_system 1 [E]) Feature.feature_init) in
  Feature.process_event f E tt [] = Ok [(1, E); (2, E)].
Proof. vm_compute. reflexivity. Qed.

(** ** Entity life cycle: the claims *)

Section EntityClaims.
Context {value : Type}.
Variable empty_value_ : value.
Variable is_empty_v : Z -> bool.
Variable mx : Z.
Variable imx : Z.
Implicit Types (r : registry value) (e ent T : Z).

Abbreviation rwf := (registry_wf (value := value) is_empty_v).
Abbreviation reachable_ := (reachable empty_value_ is_empty_v mx imx).
Abbreviation create_entity := (Registry.create_entity (value := value) mx imx).
Abbreviation exec_ := (exec empty_value_ is_empty_v mx imx false).

Lemma op_okb_sound (o : op value) : op_okb o = true -> op_ok o.
Proof.
  destruct o; simpl; try done;
    intros [?%Z.leb_le ?%Z.ltb_lt]%andb_true_iff; unfold family_ok; lia.
Qed.

Lemma run_checked_reachable ops r r' :
  reachable_ r -> run_checked empty_value_ is_empty_v mx imx ops r = Some r' ->
  reachable_ r'.
Proof.
  revert r. induction ops as [| o ops IH]; intros r Hr; simpl.
  - by intros [= <-].
  - destruct (op_okb o) eqn:Hok; [| done]. simpl.
    destruct (is_abort (fst (exec_ o r))) eqn:Hab; [done |]. simpl.
    apply IH. apply reachable_step; [done | by apply op_okb_sound | done].
Qed.

Lemma valid_entity_false_iff r e :
  rwf r -> Registry.valid_entity r e = false <-> e ∉ dense_ (entity_ids_ r).
Proof.
  intros Hwf. rewrite <- (registry_wf_valid is_empty_v r e Hwf).
  by rewrite not_true_iff_false.
Qed.

(** C6.  In every reachable state the capacity of the free-id list covers
    the live entities, and its own size on top of them; so the [push_back]
    of [destroy_entity] finds room: it keeps the capacity (no reallocation),
    the inner assertion holds, and the call returns. *)
Theorem free_list_capacity_covers_live r (Hr : reachable_ r) :
  (Z.of_nat (Registry.entity_count r) <= free_entity_ids_capacity_ r)%Z
  /\ (Z.of_nat (length (free_entity_ids_ r)) + Z.of_nat (Registry.entity_count r)
      <= free_entity_ids_capacity_ r)%Z
  /\ forall nd ent,
       Registry.valid_entity r ent = true ->
       (Z.of_nat (length (free_entity_ids_ r)) < free_entity_ids_capacity_ r)%Z
       /\ Registry.push_back_capacity (free_entity_ids_capacity_ r)
            (length (free_entity_ids_ r)) = free_entity_ids_capacity_ r
       /\ fst (Registry.destroy_entity nd ent r) = Ok tt
       /\ free_entity_ids_ (snd (Registry.destroy_entity nd ent r))
          = free_entity_ids_ r ++ [ent]
       /\ free_entity_ids_capacity_ (snd (Registry.destroy_entity nd ent r))
          = free_entity_ids_capacity_ r.
Proof using Type*.
  pose proof (reachable_wf empty_value_ is_empty_v mx imx r Hr) as Hwf.
  pose proof (wf_capacity _ _ Hwf) as Hcap. unfold Registry.entity_count, SparseSet.size.
  split; [lia |]. split; [lia |]. intros nd ent Hv.
  destruct (Registry.destroy_entity nd ent r) as [res r'] eqn:Hd.
  destruct (destroy_entity_spec empty_value_ is_empty_v nd ent r res r' Hwf Hv Hd)
    as (-> & _ & Hfree & _ & _ & Hc & Hroom).
  split; [done |]. split; [| done].
  unfold Registry.push_back_capacity.
  destruct (Z.ltb_spec (Z.of_nat (length (free_entity_ids_ r)))
              (free_entity_ids_capacity_ r)); [done | lia].
Qed.

Lemma create_entities_spec n :
  (2 ^ 22 <= mx)%Z -> (2 ^ 22 <= imx)%Z ->
  (Z.of_nat n <= entity_id_index_mask)%Z ->
  reachable_ (create_entities mx imx n (@registry_init value))
  /\ last_entity_id_ (create_entities mx imx n (@registry_init value)) = Z.of_nat n
  /\ free_entity_ids_ (create_entities mx imx n (@registry_init value)) = []
  /\ length (dense_ (entity_ids_ (create_entities mx imx n (@registry_init value)))) = n.
Proof using Type*.
  intros Hmx Himx. induction n as [| n IH]; intros Hn.
  - split; [apply reachable_init | done].
  - destruct IH as (Hr & Hlast & Hfree & Hlen); [lia |].
    unfold create_entities in *. rewrite Nat.iter_succ.
    set (rn := Nat.iter n _ (@registry_init value)) in *.
    pose proof (reachable_wf empty_value_ is_empty_v mx imx rn Hr) as Hwf.
    destruct (create_entity rn) as [res r'] eqn:Hc.
    destruct (create_entity_spec is_empty_v mx imx rn res r' Hwf Hc) as [Hres _].
    assert (reachable_ r') as Hr'.
    { replace r' with (snd (exec_ op_create_entity rn)) by (simpl; by rewrite Hc).
      apply reachable_step; [done | done |]. simpl. rewrite Hc. simpl.
      by destruct Hres. }
    simpl. split; [done |].
    destruct Hres as [f ids Hl Hd | Hf Hover | ids capacity Hf Hlt Hd Hcap
                     | r' Hsm Hi Hfr Hla | Hf Him]; simpl.
    + rewrite Hfree in Hl. done.
    + lia.
    + split; [lia |]. split; [done |]. rewrite Hd, length_app. simpl. lia.
    + lia.
    + lia.
Qed.

(** C5.  With vectors that can hold 2^22 elements, [create_entity] fails in
    a reachable state exactly when the free-id list is empty and
    [last_entity_id_] has reached [entity_id_index_mask] = 2^22 - 1; it then
    throws the [std::logic_error] of the index overflow and leaves the
    registry as it was.  After 2^22 - 1 creations in a fresh registry the
    next [create_entity] fails so. *)
Theorem create_entity_fails_iff_exhausted r
  (Hmx : (2 ^ 22 <= mx)%Z) (Himx : (2 ^ 22 <= imx)%Z) (Hr : reachable_ r) :
  (is_ok (fst (create_entity r)) = false <->
     free_entity_ids_ r = [] /\ last_entity_id_ r = entity_id_index_mask)
  /\ (is_ok (fst (create_entity r)) = false ->
        create_entity r = (Throw entity_index_overflow, r)
        /\ is_logic_error entity_index_overflow = true)
  /\ (let full := create_entities mx imx (Z.to_nat entity_id_index_mask) (@registry_init value) in
      reachable_ full
      /\ Registry.entity_count full = Z.to_nat entity_id_index_mask
      /\ create_entity full = (Throw entity_index_overflow, full)).
Proof using Type*.
  pose proof (reachable_wf empty_value_ is_empty_v mx imx r Hr) as Hwf.
  assert (forall r0, rwf r0 ->
            free_entity_ids_ r0 = [] -> last_entity_id_ r0 = entity_id_index_mask ->
            create_entity r0 = (Throw entity_index_overflow, r0)) as Hfull.
  { intros r0 _ Hf Hl. unfold Registry.create_entity. rewrite Hf, Hl. simpl.
    by rewrite ?Z.leb_refl. }
  assert (is_ok (fst (create_entity r)) = false ->
          free_entity_ids_ r = [] /\ last_entity_id_ r = entity_id_index_mask) as Hdir.
  { destruct (create_entity r) as [res r'] eqn:Hc.
    destruct (create_entity_spec is_empty_v mx imx r res r' Hwf Hc) as [Hres _].
    pose proof (wf_last _ _ Hwf).
    destruct Hres; simpl; try done; try lia. intros _. split; [done | lia]. }
  split; [| split].
  - split; [exact Hdir |]. intros [Hf Hl]. by rewrite Hfull.
  - intros [Hf Hl]%Hdir. split; [by apply Hfull | done].
  - intros full. subst full.
    destruct (create_entities_spec (Z.to_nat entity_id_index_mask) Hmx Himx)
      as (Hrf & Hlast & Hfree & Hlen).
    { rewrite Z2Nat.id; [lia |]. rewrite entity_id_index_mask_val. lia. }
    split; [done |]. split; [done |].
    apply Hfull; [by apply (reachable_wf empty_value_ is_empty_v mx imx) | done |].
    rewrite Hlast. apply Z2Nat.id. rewrite entity_id_index_mask_val. lia.
Qed.

(** C4 (as amended).  After [destroy_entity(e)] the handle is invalid.  The
    next [create_entity] reuses the slot: it returns [upgrade_entity_id e],
    an id with the same index and the next version modulo 2^10, different
    from [e]; [e] is still invalid then.  In general an invalid handle becomes
    valid only through a [create_entity] call that issues that very id
    again. *)
Theorem destroyed_handle_invalid_until_reissued r ent nd
  (Hmx : (2 ^ 22 <= mx)%Z) (Hr : reachable_ r)
  (Hv : Registry.valid_entity r ent = true) :
  let r1 := snd (Registry.destroy_entity nd ent r) in
  let r2 := snd (create_entity r1) in
  Registry.valid_entity r1 ent = false
  /\ fst (create_entity r1) = Ok (upgrade_entity_id ent)
  /\ entity_id_index (upgrade_entity_id ent) = entity_id_index ent
  /\ entity_id_version (upgrade_entity_id ent) = ((entity_id_version ent + 1) mod 2 ^ 10)%Z
  /\ Registry.valid_entity r2 (upgrade_entity_id ent) = true
  /\ Registry.valid_entity r2 ent = false
  /\ forall r' o,
       reachable_ r' -> op_ok o -> is_abort (fst (exec_ o r')) = false ->
       Registry.valid_entity r' ent = false ->
       Registry.valid_entity (snd (exec_ o r')) ent = true ->
       issued_id mx imx o r' = Some ent.
Proof using Type*.
  intros r1 r2.
  pose proof (reachable_wf empty_value_ is_empty_v mx imx r Hr) as Hwf.
  destruct (registry_wf_live is_empty_v r ent Hwf) as [[Hent0 _] _];
    [by apply (registry_wf_valid is_empty_v) |].
  subst r2 r1.
  destruct (Registry.destroy_entity nd ent r) as [res r1] eqn:Hd.
  destruct (destroy_entity_spec empty_value_ is_empty_v nd ent r res r1 Hwf Hv Hd)
    as (-> & Hwf1 & Hfree & Hel & _).
  simpl.
  assert (ent ∉ dense_ (entity_ids_ r1)) as Hgone by (intros [_ ?]%Hel; done).
  destruct (create_entity r1) as [rc r2] eqn:Hc.
  destruct (create_entity_spec is_empty_v mx imx r1 rc r2 Hwf1 Hc) as [Hres Hwf2].
  simpl.
  split; [by apply valid_entity_false_iff |].
  assert (rc = Ok (upgrade_entity_id ent)
          /\ exists ids, entity_ids_ r2 = ids
               /\ dense_ ids = dense_ (entity_ids_ r1) ++ [upgrade_entity_id ent])
    as [-> (ids & Hids & Hdense)].
  { destruct Hres as [f ids Hl Hdn | Hf Hover | ids capacity Hf Hlt Hdn Hcap
                     | r' Hsm Hi Hfr Hla | Hf Him].
    - rewrite Hfree, last_snoc in Hl. injection Hl as <-. eauto.
    - rewrite Hfree in Hf. by destruct (free_entity_ids_ r).
    - rewrite Hfree in Hf. by destruct (free_entity_ids_ r).
    - lia.
    - rewrite Hfree in Hf. by destruct (free_entity_ids_ r). }
  split; [done |].
  split; [by apply entity_id_index_upgrade |].
  split; [by apply entity_id_version_upgrade |].
  split; [| split].
  - apply (registry_wf_valid is_empty_v); [done |]. rewrite Hids, Hdense.
    apply elem_of_app. right. by apply list_elem_of_singleton.
  - apply valid_entity_false_iff; [done |]. rewrite Hids, Hdense.
    intros [? | Heq%list_elem_of_singleton]%elem_of_app; [done |].
    by apply (upgrade_entity_id_neq ent).
  - intros r' o Hr' Hok Hab Hinv Hval.
    pose proof (reachable_wf empty_value_ is_empty_v mx imx r' Hr') as Hwf'.
    destruct (exec_spec empty_value_ is_empty_v mx imx o r' Hwf' Hok Hab) as [Hwf'' Hlive].
    apply (registry_wf_valid is_empty_v) in Hval; [| done].
    apply Hlive in Hval as [Hin | ?]; [| done].
    apply valid_entity_false_iff in Hinv; done.
Qed.

(** C9 (as amended).  In a build without assertions ([NDEBUG]), for a handle
    that is not valid in a reachable state, [find_component] returns null and
    [exists_component] returns false, on the registry and on the entity and
    component handles; in a build with assertions each of these calls fails
    its [assert(valid_entity(ent))]. *)
Theorem find_exists_on_invalid_handle r T ent
  (Hr : reachable_ r) (Hv : Registry.valid_entity r ent = false) :
  Registry.find_component empty_value_ true r T ent = Ok None
  /\ Registry.exists_component true r T ent = Ok false
  /\ Handle.entity_find_component empty_value_ true r T ent = Ok None
  /\ Handle.entity_exists_component true r T ent = Ok false
  /\ Handle.component_find empty_value_ true r T ent = Ok None
  /\ Handle.component_exists true r T ent = Ok false
  /\ Registry.find_component empty_value_ false r T ent = Abort
  /\ Registry.exists_component false r T ent = Abort.
Proof using Type*.
  pose proof (reachable_wf empty_value_ is_empty_v mx imx r Hr) as Hwf.
  assert (Registry.find_component empty_value_ true r T ent = Ok None
          /\ Registry.exists_component true r T ent = Ok false) as [Hf He].
  { unfold Registry.find_component, Registry.exists_component. simpl.
    destruct (Registry.find_storage_ r T) as [st |] eqn:Hst; [| done].
    destruct (find_storage_wf is_empty_v r T st Hwf Hst) as (Hstwf & Hids & _).
    assert (ent ∉ Storage.ids st) as Hno.
    { intros Hin%Hids. by apply valid_entity_false_iff in Hv. }
    split.
    - f_equal. apply eq_None_not_Some.
      by rewrite (storage_find_is_Some empty_value_ st ent Hstwf).
    - f_equal. rewrite storage_exists_has. apply not_true_iff_false.
      by rewrite (storage_has_ids st ent Hstwf). }
  unfold Handle.component_find, Handle.component_exists,
    Handle.entity_find_component, Handle.entity_exists_component.
  repeat (split; [done |]).
  unfold Registry.find_component, Registry.exists_component, assert_.
  rewrite Hv. done.
Qed.
End EntityClaims.

(** *** The claims on example states *)

(** The capacity budget on the example state. *)
Lemma free_list_capacity_covers_live_witness :
  (Z.of_nat (Registry.entity_count demo_registry) <= free_entity_ids_capacity_ demo_registry)%Z
  /\ (Z.of_nat (length (free_entity_ids_ demo_registry))
      + Z.of_nat (Registry.entity_count demo_registry)
      <= free_entity_ids_capacity_ demo_registry)%Z
  /\ forall nd ent,
       Registry.valid_entity demo_registry ent = true ->
       (Z.of_nat (length (free_entity_ids_ demo_registry))
        < free_entity_ids_capacity_ demo_registry)%Z
       /\ Registry.push_back_capacity (free_entity_ids_capacity_ demo_registry)
            (length (free_entity_ids_ demo_registry))
          = free_entity_ids_capacity_ demo_registry
       /\ fst (Registry.destroy_entity nd ent demo_registry) = Ok tt
       /\ free_entity_ids_ (snd (Registry.destroy_entity nd ent demo_registry))
          = free_entity_ids_ demo_registry ++ [ent]
       /\ free_entity_ids_capacity_ (snd (Registry.destroy_entity nd ent demo_registry))
          = free_entity_ids_capacity_ demo_registry.
Proof.
  apply (free_list_capacity_covers_live 0%Z demo_is_empty demo_sparse_max demo_ids_max
           demo_registry).
  apply (run_checked_reachable 0%Z demo_is_empty demo_sparse_max demo_ids_max
           demo_ops registry_init); [apply reachable_init |].
  vm_compute. reflexivity.
Defined.

(** [create_entity] on the example state and on the full registry. *)
Lemma create_entity_fails_iff_exhausted_witness :
  (is_ok (fst (Registry.create_entity demo_sparse_max demo_ids_max demo_registry)) = false <->
     free_entity_ids_ demo_registry = []
     /\ last_entity_id_ demo_registry = entity_id_index_mask)
  /\ (is_ok (fst (Registry.create_entity demo_sparse_max demo_ids_max demo_registry)) = false ->
        Registry.create_entity demo_sparse_max demo_ids_max demo_registry
        = (Throw entity_index_overflow, demo_registry)
        /\ is_logic_error entity_index_overflow = true)
  /\ (let full := create_entities demo_sparse_max demo_ids_max
                    (Z.to_nat entity_id_index_mask) (@registry_init Z) in
      reachable 0%Z demo_is_empty demo_sparse_max demo_ids_max full
      /\ Registry.entity_count full = Z.to_nat entity_id_index_mask
      /\ Registry.create_entity demo_sparse_max demo_ids_max full
         = (Throw entity_index_overflow, full)).
Proof.
  apply (create_entity_fails_iff_exhausted 0%Z demo_is_empty demo_sparse_max demo_ids_max
           demo_registry).
  - unfold demo_sparse_max. lia.
  - unfold demo_ids_max. lia.
  - apply (run_checked_reachable 0%Z demo_is_empty demo_sparse_max demo_ids_max
             demo_ops registry_init); [apply reachable_init |].
    vm_compute. reflexivity.
Defined.

(** Entity 1 of the example state, destroyed and its slot reused. *)
Lemma destroyed_handle_invalid_until_reissued_witness :
  let r1 := snd (Registry.destroy_entity false 1%Z demo_registry) in
  let r2 := snd (Registry.create_entity demo_sparse_max demo_ids_max r1) in
  Registry.valid_entity r1 1%Z = false
  /\ fst (Registry.create_entity demo_sparse_max demo_ids_max r1) = Ok (upgrade_entity_id 1%Z)
  /\ entity_id_index (upgrade_entity_id 1%Z) = entity_id_index 1%Z
  /\ entity_id_version (upgrade_entity_id 1%Z) = ((entity_id_version 1%Z + 1) mod 2 ^ 10)%Z
  /\ Registry.valid_entity r2 (upgrade_entity_id 1%Z) = true
  /\ Registry.valid_entity r2 1%Z = false
  /\ forall r' o,
       reachable 0%Z demo_is_empty demo_sparse_max demo_ids_max r' -> op_ok o ->
       is_abort (fst (exec 0%Z demo_is_empty demo_sparse_max demo_ids_max false o r')) = false ->
       Registry.valid_entity r' 1%Z = false ->
       Registry.valid_entity
         (snd (exec 0%Z demo_is_empty demo_sparse_max demo_ids_max false o r')) 1%Z = true ->
       issued_id demo_sparse_max demo_ids_max o r' = Some 1%Z.
Proof.
  apply (destroyed_handle_invalid_until_reissued 0%Z demo_is_empty demo_sparse_max
           demo_ids_max demo_registry 1%Z false).
  - unfold demo_sparse_max. lia.
  - apply (run_checked_reachable 0%Z demo_is_empty demo_sparse_max demo_ids_max
             demo_ops registry_init); [apply reachable_init |].
    vm_compute. reflexivity.
  - vm_compute. reflexivity.
Defined.

(** C4 as stated fails once the version field wraps: entity 1 is created and
    destroyed, its slot is reused 2^10 times (each time destroying the entity
    that holds it), and the stale handle 1 is valid again. *)
Lemma version_wrap_counterexample :
  let create := Registry.create_entity (value := Z) demo_sparse_max demo_ids_max in
  let r0 := snd (create registry_init) in
  let r1 := snd (Registry.destroy_entity false 1%Z r0) in
  fst (create registry_init) = Ok 1%Z
  /\ Registry.valid_entity r1 1%Z = false
  /\ Nat.iter 1 (recycle demo_sparse_max demo_ids_max) r0 = snd (create r1)
  /\ dense_ (entity_ids_ (Nat.iter 1 (recycle demo_sparse_max demo_ids_max) r0))
     = [upgrade_entity_id 1%Z]
  /\ Registry.valid_entity (Nat.iter 1024 (recycle demo_sparse_max demo_ids_max) r0) 1%Z
     = true.
Proof. vm_compute. repeat split. Qed.

(** The handle of the destroyed entity of [demo_destroyed]. *)
Lemma find_exists_on_invalid_handle_witness :
  Registry.find_component 0%Z true demo_destroyed 1%Z 1%Z = Ok None
  /\ Registry.exists_component true demo_destroyed 1%Z 1%Z = Ok false
  /\ Handle.entity_find_component 0%Z true demo_destroyed 1%Z 1%Z = Ok None
  /\ Handle.entity_exists_component true demo_destroyed 1%Z 1%Z = Ok false
  /\ Handle.component_find 0%Z true demo_destroyed 1%Z 1%Z = Ok None
  /\ Handle.component_exists true demo_destroyed 1%Z 1%Z = Ok false
  /\ Registry.find_component 0%Z false demo_destroyed 1%Z 1%Z = Abort
  /\ Registry.exists_component false demo_destroyed 1%Z 1%Z = Abort.
Proof.
  apply (find_exists_on_invalid_handle 0%Z demo_is_empty demo_sparse_max demo_ids_max
           demo_destroyed 1%Z 1%Z).
  - apply (run_checked_reachable 0%Z demo_is_empty demo_sparse_max demo_ids_max
             [op_create_entity; op_destroy_entity 1%Z] registry_init);
      [apply reachable_init |].
    vm_compute. reflexivity.
  - vm_compute. reflexivity.
Defined.

(** C9 as stated fails in a build with assertions: on the handle of a
    destroyed entity both calls trip [assert(valid_entity(ent))]. *)
Lemma find_on_destroyed_asserts_counterexample :
  Registry.valid_entity demo_destroyed 1%Z = false
  /\ Registry.find_component 0%Z false demo_destroyed 1%Z 1%Z = Abort
  /\ Registry.exists_component false demo_destroyed 1%Z 1%Z = Abort.
Proof. vm_compute. repeat split. Qed.

(** ** Iteration: the claims *)

Lemma foldl_step_ext {A B} (f g : A -> B -> A) (l : list B) (a : A) :
  (forall a x, f a x = g a x) -> foldl f a l = foldl g a l.
Proof.
  intros Hfg. revert a. induction l as [| x l IH]; intros a; simpl; [done |].
  by rewrite Hfg, IH.
Qed.

Lemma foldl_snoc_log {B} (l acc : list B) :
  foldl (fun calls x => calls ++ [x]) acc l = acc ++ l.
Proof.
  revert acc. induction l as [| x l IH]; intros acc; simpl.
  - by rewrite app_nil_r.
  - rewrite IH. by rewrite <- app_assoc.
Qed.

Lemma foldl_snoc_log_fmap {B C} (g : B -> C) (l : list B) (acc : list C) :
  foldl (fun calls x => calls ++ [g x]) acc l = acc ++ (g <$> l).
Proof.
  revert acc. induction l as [| x l IH]; intros acc; simpl.
  - by rewrite app_nil_r.
  - rewrite IH. by rewrite <- app_assoc.
Qed.

Lemma NoDup_omap_fst {B C} (g : Z * B -> option (Z * C)) (l : list (Z * B)) :
  (forall x c, g x = Some c -> c.1 = x.1) ->
  NoDup l.*1 -> NoDup (omap g l).*1.
Proof.
  intros Hg. induction l as [| x l IH]; simpl; [constructor |].
  intros [Hx Hl]%NoDup_cons. destruct (g x) as [c |] eqn:Hc; simpl; [| by apply IH].
  apply NoDup_cons. split; [| by apply IH].
  intros (c' & Heq & (x' & Hx' & Hc')%list_elem_of_omap)%list_elem_of_fmap.
  apply Hx. apply list_elem_of_fmap. exists x'. split; [| done].
  rewrite <- (Hg x c Hc), <- (Hg x' c' Hc'). done.
Qed.

(** A fold of steps that may fail, all of which return. *)
Lemma foldl_outcome_omap {A B C} (step : B -> A -> outcome A) (g : B -> option C)
    (h : C -> A -> A) (l : list B) (a : A) :
  (forall x a, x ∈ l -> step x a = Ok (match g x with Some c => h c a | None => a end)) ->
  foldl (fun acc x => match acc with Ok a => step x a | _ => acc end) (Ok a) l
  = Ok (foldl (fun a c => h c a) a (omap g l)).
Proof.
  revert a. induction l as [| x l IH]; intros a Hl; simpl; [done |].
  rewrite Hl by apply list_elem_of_here.
  destruct (g x); simpl; apply IH; intros; apply Hl; by apply list_elem_of_further.
Qed.

Lemma foldl_outcome_filter {A B} (step : B -> A -> outcome A) (p : B -> bool)
    (f : B -> A -> A) (l : list B) (a : A) :
  (forall x a, x ∈ l -> step x a = Ok (if p x then f x a else a)) ->
  foldl (fun acc x => match acc with Ok a => step x a | _ => acc end) (Ok a) l
  = Ok (foldl (fun a x => f x a) a (filter (fun x => p x = true) l)).
Proof.
  revert a. induction l as [| x l IH]; intros a Hl; [done |].
  rewrite filter_cons. simpl. rewrite Hl by apply list_elem_of_here.
  destruct (p x) eqn:Hp.
  - rewrite decide_True by done. simpl.
    apply IH. intros. apply Hl. by apply list_elem_of_further.
  - rewrite decide_False by congruence.
    apply IH. intros. apply Hl. by apply list_elem_of_further.
Qed.

(** A fold of steps that may fail stays where the first failure left it. *)
Lemma foldl_outcome_stuck {A B} (step : B -> A -> outcome A) (l : list B) (acc : outcome A) :
  is_ok acc = false ->
  foldl (fun acc x => match acc with Ok a => step x a | _ => acc end) acc l = acc.
Proof.
  intros Hacc. induction l as [| x l IH]; simpl; [done |].
  destruct acc; [done | apply IH | apply IH].
Qed.

(** *** Options *)

Lemma option_expr_nested_ind (P : option_expr -> Prop) :
  (forall T, P (opt_exists T)) ->
  (forall Ts, P (opt_exists_any Ts)) ->
  (forall Ts, P (opt_exists_all Ts)) ->
  (forall o, P o -> P (opt_neg o)) ->
  (forall os, Forall P os -> P (opt_conj os)) ->
  (forall os, Forall P os -> P (opt_disj os)) ->
  (forall b, P (opt_bool b)) ->
  forall o, P o.
Proof.
  intros H1 H2 H3 H4 H5 H6 H7. fix IH 1. intros [T | Ts | Ts | o | os | os | b].
  - apply H1.
  - apply H2.
  - apply H3.
  - apply H4, IH.
  - apply H5. induction os as [| o os IHos]; constructor; [apply IH | apply IHos].
  - apply H6. induction os as [| o os IHos]; constructor; [apply IH | apply IHos].
  - apply H7.
Qed.

Lemma all_of_map_ok {B} (F : B -> outcome bool) (g : B -> bool) (l : list B) :
  Forall (fun x => F x = Ok (g x)) l ->
  Options.all_of (map F l) = Ok (forallb g l).
Proof.
  induction 1 as [| x l Hx _ IH]; simpl; [done |].
  rewrite Hx. by destruct (g x).
Qed.

Lemma any_of_map_ok {B} (F : B -> outcome bool) (g : B -> bool) (l : list B) :
  Forall (fun x => F x = Ok (g x)) l ->
  Options.any_of (map F l) = Ok (existsb g l).
Proof.
  induction 1 as [| x l Hx _ IH]; simpl; [done |].
  rewrite Hx. by destruct (g x).
Qed.

Lemma elem_of_concat_map {B C} (F : B -> list C) (x : C) (o : B) (os : list B) :
  o ∈ os -> x ∈ F o -> x ∈ concat (map F os).
Proof.
  intros Ho Hx. apply list_elem_of_In, in_concat. exists (F o).
  split; [apply in_map; by apply list_elem_of_In | by apply list_elem_of_In].
Qed.

Lemma components_locker_not_held (T T' : Z) :
  T' <> T -> components_locker_ T' ∉ [components_locker_ T].
Proof. intros Hne [= ?]%list_elem_of_singleton. done. Qed.

Lemma components_locker_not_entity_ids (T : Z) :
  components_locker_ T ∉ [entity_ids_locker_].
Proof. by intros [=]%list_elem_of_singleton. Qed.

Section IterationClaims.
Context {value : Type}.
Variable empty_value_ : value.
Variable is_empty_v : Z -> bool.
Variable mx : Z.
Variable imx : Z.
Implicit Types (r : registry value) (e ent T : Z) (st : component_storage value).
Implicit Types (opts : list option_expr) (cs : list value) (held : list lock).

Abbreviation rwf := (registry_wf (value := value) is_empty_v).
Abbreviation reachable_ := (reachable empty_value_ is_empty_v mx imx).
Abbreviation find_storage_ := (Registry.find_storage_ (value := value)).
Abbreviation component_at := (Registry.component_at empty_value_).
Abbreviation find_component := (Registry.find_component empty_value_).
Abbreviation sfind := (Storage.find empty_value_).
Abbreviation probe := (Iteration.for_joined_components_probe empty_value_).
Abbreviation probe_components_ := (probe_components empty_value_).
Abbreviation selects := (Options.selects empty_value_).

Lemma find_component_at nd r T e :
  Registry.valid_entity r e = true ->
  find_component nd r T e = Ok (component_at r T e).
Proof.
  intros He. unfold Registry.find_component, Registry.component_at.
  rewrite assert_valid by done. simpl. by destruct (Registry.find_storage_ r T).
Qed.

Lemma exists_component_at nd r T e c :
  rwf r -> Registry.valid_entity r e = true -> component_at r T e = Some c ->
  Registry.exists_component nd r T e = Ok true.
Proof.
  intros Hwf He. unfold Registry.exists_component, Registry.component_at.
  rewrite assert_valid by done. simpl.
  destruct (Registry.find_storage_ r T) as [st |] eqn:Hst; [| done].
  destruct (find_storage_wf is_empty_v r T st Hwf Hst) as (Hstwf & _).
  intros Hc. f_equal. rewrite storage_exists_has.
  apply (storage_has_find empty_value_); [done |]. by rewrite Hc.
Qed.

Lemma component_at_valid r T e c :
  rwf r -> component_at r T e = Some c -> Registry.valid_entity r e = true.
Proof.
  intros Hwf. unfold Registry.component_at.
  destruct (Registry.find_storage_ r T) as [st |] eqn:Hst; [| done].
  destruct (find_storage_wf is_empty_v r T st Hwf Hst) as (Hstwf & Hids & _).
  intros Hc. apply (registry_wf_valid is_empty_v); [done |]. apply Hids.
  apply (storage_find_is_Some empty_value_); [done |]. by rewrite Hc.
Qed.

(** What [exists_component] returns for a valid entity. *)
Lemma exists_component_has nd r T e :
  rwf r -> Registry.valid_entity r e = true ->
  Registry.exists_component nd r T e = Ok (bool_decide (is_Some (component_at r T e))).
Proof.
  intros Hwf He. unfold Registry.exists_component, Registry.component_at.
  rewrite assert_valid by done. simpl.
  destruct (Registry.find_storage_ r T) as [st |] eqn:Hst.
  - destruct (find_storage_wf is_empty_v r T st Hwf Hst) as (Hstwf & _).
    f_equal. rewrite storage_exists_has.
    destruct (Storage.has st e) eqn:Hh; symmetry.
    + apply bool_decide_eq_true_2. by apply (storage_has_find empty_value_).
    + apply bool_decide_eq_false_2. intros Hs.
      apply (storage_has_find empty_value_) in Hs; [congruence | done].
  - by rewrite bool_decide_eq_false_2 by (by intros [? ?]).
Qed.

(** Inside an iteration [exists_component] is what it is outside, unless it
    locks a storage that the iteration holds: then the program stops. *)
Lemma exists_component_in_free held nd r T e :
  components_locker_ T ∉ held ->
  Registry.exists_component_in held nd r T e = Registry.exists_component nd r T e.
Proof.
  intros Hfree. unfold Registry.exists_component_in, Registry.exists_component.
  destruct (negb _); [done |].
  destruct (Registry.find_storage_ r T); [| done]. by apply with_lock_free.
Qed.

Lemma exists_component_in_held held nd r T e st :
  components_locker_ T ∈ held -> find_storage_ r T = Some st ->
  Registry.exists_component_in held nd r T e = Abort.
Proof.
  intros Hheld Hst. unfold Registry.exists_component_in.
  destruct (negb _); [done |]. rewrite Hst. by apply with_lock_held.
Qed.

(** An option called on a valid entity returns whether it selects it. *)
Lemma eval_selects nd r e o :
  rwf r -> Registry.valid_entity r e = true ->
  Options.eval nd r o e = Ok (selects r e o).
Proof.
  intros Hwf He. induction o as [T | Ts | Ts | o IH | os IH | os IH | b]
    using option_expr_nested_ind.
  - by apply exists_component_has.
  - apply (any_of_map_ok _ (fun T => bool_decide (is_Some (component_at r T e)))).
    apply Forall_forall. intros T _. by apply exists_component_has.
  - apply (all_of_map_ok _ (fun T => bool_decide (is_Some (component_at r T e)))).
    apply Forall_forall. intros T _. by apply exists_component_has.
  - change (outcome_map negb (Options.eval nd r o e) = Ok (negb (selects r e o))).
    by rewrite IH.
  - by apply (all_of_map_ok _ (selects r e)).
  - by apply (any_of_map_ok _ (selects r e)).
  - done.
Qed.

(** Called from an iteration that holds none of the storages it names, an
    option returns what it returns outside. *)
Lemma eval_in_selects held nd r e o :
  rwf r -> Registry.valid_entity r e = true ->
  (forall T, T ∈ Options.families o -> components_locker_ T ∉ held) ->
  Options.eval_in held nd r o e = Ok (selects r e o).
Proof.
  intros Hwf He. induction o as [T | Ts | Ts | o IH | os IH | os IH | b]
    using option_expr_nested_ind; intros Hfree.
  - change (Registry.exists_component_in held nd r T e
            = Ok (bool_decide (is_Some (component_at r T e)))).
    rewrite exists_component_in_free by (apply Hfree, list_elem_of_here).
    by apply exists_component_has.
  - apply (any_of_map_ok _ (fun T => bool_decide (is_Some (component_at r T e)))).
    apply Forall_forall. intros T HT.
    rewrite exists_component_in_free by (by apply Hfree).
    by apply exists_component_has.
  - apply (all_of_map_ok _ (fun T => bool_decide (is_Some (component_at r T e)))).
    apply Forall_forall. intros T HT.
    rewrite exists_component_in_free by (by apply Hfree).
    by apply exists_component_has.
  - change (outcome_map negb (Options.eval_in held nd r o e) = Ok (negb (selects r e o))).
    by rewrite IH.
  - apply (all_of_map_ok _ (selects r e)).
    rewrite Forall_forall in IH. apply Forall_forall. intros o Ho. apply IH; [done |].
    intros T HT. apply Hfree.
    change (T ∈ concat (map Options.families os)). by apply (elem_of_concat_map _ _ o).
  - apply (any_of_map_ok _ (selects r e)).
    rewrite Forall_forall in IH. apply Forall_forall. intros o Ho. apply IH; [done |].
    intros T HT. apply Hfree.
    change (T ∈ concat (map Options.families os)). by apply (elem_of_concat_map _ _ o).
  - done.
Qed.

Lemma options_hold_selects held nd r opts e :
  rwf r -> Registry.valid_entity r e = true ->
  Forall (fun o => forall T, T ∈ Options.families o -> components_locker_ T ∉ held) opts ->
  Iteration.options_hold held nd r opts e = Ok (forallb (selects r e) opts).
Proof.
  intros Hwf He Hfree. unfold Iteration.options_hold.
  apply (all_of_map_ok _ (selects r e)).
  eapply Forall_impl; [exact Hfree |]. intros o Ho. by apply eval_in_selects.
Qed.

Lemma guarded_selects {A} held nd r opts e (call : A -> outcome A) (a : A) :
  rwf r -> Registry.valid_entity r e = true ->
  Forall (fun o => forall T, T ∈ Options.families o -> components_locker_ T ∉ held) opts ->
  Iteration.guarded held nd r opts e call a
  = if forallb (selects r e) opts then call a else Ok a.
Proof.
  intros Hwf He Hfree. unfold Iteration.guarded.
  rewrite options_hold_selects by done. by destruct (forallb _ opts).
Qed.

Lemma forallb_selects r e opts :
  forallb (selects r e) opts = true <-> Forall (fun o => selects r e o = true) opts.
Proof.
  rewrite forallb_forall, Forall_forall. split; intros H o Ho; apply H.
  - by apply list_elem_of_In.
  - by apply list_elem_of_In.
Qed.

Lemma options_free_driver T opts :
  Forall (fun o => T ∉ Options.families o) opts ->
  Forall (fun o => forall T', T' ∈ Options.families o ->
                              components_locker_ T' ∉ [components_locker_ T]) opts.
Proof.
  intros Hopts. eapply Forall_impl; [exact Hopts |]. intros o Ho T' HT'.
  apply components_locker_not_held. by intros ->.
Qed.

(** *** for_each_entity *)

Lemma for_each_entity_filter {A} nd (f : Z -> A -> A) opts r (a : A) :
  rwf r ->
  Iteration.for_each_entity nd (functor1 f) opts r a
  = Ok (foldl (fun a e => f e a) a
          (filter (fun e => forallb (selects r e) opts = true) (dense_ (entity_ids_ r)))).
Proof.
  intros Hwf. unfold Iteration.for_each_entity.
  rewrite with_lock_free by apply not_elem_of_nil.
  apply (foldl_outcome_filter _ (fun e => forallb (selects r e) opts)).
  intros e a' He. rewrite guarded_selects; [| done | |].
  - by destruct (forallb (selects r e) opts).
  - by apply (registry_wf_valid is_empty_v).
  - apply Forall_forall. intros o _ T _. apply components_locker_not_entity_ids.
Qed.

Lemma entity_calls_filter nd opts r :
  rwf r ->
  entity_calls nd opts r
  = Ok (filter (fun e => forallb (selects r e) opts = true) (dense_ (entity_ids_ r))).
Proof.
  intros Hwf. unfold entity_calls. rewrite for_each_entity_filter by done.
  f_equal. apply (foldl_snoc_log _ []).
Qed.

(** *** Probes *)

Lemma probe_eq {A} held e (f : Z -> list value -> A -> A)
    (ss : list (Z * component_storage value)) cs (a : A) :
  Forall (fun s => components_locker_ s.1 ∉ held) ss ->
  probe held e (functor2 f) ss cs a
  = Ok (match probe_components_ e ss.*2 cs with Some cs' => f e cs' a | None => a end).
Proof.
  intros Hfree. revert cs. induction Hfree as [| [T s] ss Hs _ IH]; intros cs; simpl; [done |].
  rewrite with_lock_free by done.
  destruct (Storage.find empty_value_ s e); [apply IH | done].
Qed.

Lemma probe_components_Some e ss cs cs' :
  probe_components_ e ss cs = Some cs' <->
  exists tail, cs' = cs ++ tail /\ Forall2 (fun s c => sfind s e = Some c) ss tail.
Proof.
  revert cs. induction ss as [| s ss IH]; intros cs; simpl.
  - split.
    + intros [= <-]. exists []. by rewrite app_nil_r.
    + intros (tail & -> & ->%Forall2_nil_inv_l). by rewrite app_nil_r.
  - destruct (Storage.find empty_value_ s e) as [c |] eqn:Hc.
    + rewrite IH. split.
      * intros (tail & -> & Hall). exists (c :: tail). rewrite <- app_assoc.
        split; [done |]. by constructor.
      * intros (tail & -> & Hall). apply Forall2_cons_inv_l in Hall
          as (c' & tail' & Hc' & Hall & ->).
        assert (c' = c) as -> by congruence.
        exists tail'. by rewrite <- app_assoc.
    + split; [done |]. intros (tail & _ & Hall).
      apply Forall2_cons_inv_l in Hall as (c' & ? & Hc' & _). congruence.
Qed.

Lemma storages_components r e Ts ss tail :
  Forall2 (fun T s => find_storage_ r T = Some s) Ts ss ->
  Forall2 (fun s c => sfind s e = Some c) ss tail <->
  Forall2 (fun T c => component_at r T e = Some c) Ts tail.
Proof.
  intros Hss. revert tail. induction Hss as [| T s Ts ss Hs _ IH]; intros tail.
  - split; intros ->%Forall2_nil_inv_l; constructor.
  - split; intros (c & tail' & Hc & Hall & ->)%Forall2_cons_inv_l;
      constructor; try (by apply IH).
    + unfold Registry.component_at. by rewrite Hs.
    + unfold Registry.component_at in Hc. by rewrite Hs in Hc.
Qed.

(** The tuple of storages of a joined iteration. *)
Lemma find_storages_Some r Ts ss :
  Iteration.find_storages_ r Ts = Some ss ->
  ss.*1 = Ts /\ Forall2 (fun T s => find_storage_ r T = Some s) Ts ss.*2.
Proof.
  unfold Iteration.find_storages_. intros Hss%mapM_Some.
  induction Hss as [| T [T' s] Ts ss Hs _ [IH1 IH2]]; simpl; [by split; [| constructor] |].
  destruct (Registry.find_storage_ r T) as [s' |] eqn:Hst; [| done].
  simpl in Hs. injection Hs as <- <-. split; [by f_equal |]. by constructor.
Qed.

Lemma find_storages_None r Ts :
  Iteration.find_storages_ r Ts = None ->
  exists T, T ∈ Ts /\ find_storage_ r T = None.
Proof.
  unfold Iteration.find_storages_. intros Hss%mapM_None.
  apply Exists_exists in Hss as (T & HT & Hnone). exists T. split; [done |].
  by destruct (Registry.find_storage_ r T).
Qed.

Lemma storages_free T Ts (ss : list (Z * component_storage value)) :
  T ∉ Ts -> ss.*1 = Ts ->
  Forall (fun s => components_locker_ s.1 ∉ [components_locker_ T]) ss.
Proof.
  intros HT <-. apply Forall_forall. intros s Hs.
  apply components_locker_not_held. intros Heq. apply HT.
  apply list_elem_of_fmap. by exists s.
Qed.

(** *** for_each_component *)

(** The rows of the storage of a family belong to valid entities. *)
Lemma storage_row_valid r T st row :
  rwf r -> find_storage_ r T = Some st -> row ∈ Storage.rows empty_value_ st ->
  Registry.valid_entity r row.1 = true.
Proof.
  intros Hwf Hst Hrow.
  destruct (find_storage_wf is_empty_v r T st Hwf Hst) as (Hstwf & _).
  destruct row as [e c]. apply (storage_rows_find empty_value_) in Hrow; [| done].
  apply (component_at_valid r T e c); [done |].
  unfold Registry.component_at. by rewrite Hst.
Qed.

(** A walk of the storage of [T] with options that do not name [T] and a
    callback that returns. *)
Lemma for_each_component_omap {A C} nd T st opts r
    (f : list lock -> Z -> value -> A -> outcome A)
    (g : Z * value -> option C) (h : C -> A -> A) (a : A) :
  rwf r -> find_storage_ r T = Some st ->
  Forall (fun o => T ∉ Options.families o) opts ->
  (forall row a, row ∈ Storage.rows empty_value_ st ->
     f [components_locker_ T] row.1 row.2 a
     = Ok (match g row with Some c => h c a | None => a end)) ->
  Iteration.for_each_component empty_value_ nd T f opts r a
  = Ok (foldl (fun a c => h c a) a
          (omap (fun row => if forallb (selects r row.1) opts then g row else None)
                (Storage.rows empty_value_ st))).
Proof.
  intros Hwf Hst Hopts Hf. unfold Iteration.for_each_component. rewrite Hst.
  destruct (find_storage_wf is_empty_v r T st Hwf Hst) as (Hstwf & _).
  rewrite storage_for_each_component_rows by (done || apply not_elem_of_nil).
  apply foldl_outcome_omap. intros row a' Hrow.
  rewrite guarded_selects; [| done | by eapply storage_row_valid
                            | by apply options_free_driver].
  destruct (forallb (selects r row.1) opts); [by apply Hf | done].
Qed.

(** The calls of a joined iteration whose storages all exist. *)
Lemma for_each_component_row_calls {A} nd (f : Z -> list value -> A -> A) T Ts st ss opts r
    (a : A) :
  rwf r -> find_storage_ r T = Some st ->
  T ∉ Ts -> ss.*1 = Ts ->
  Forall (fun o => T ∉ Options.families o) opts ->
  Iteration.for_each_component empty_value_ nd T
    (fun held e t => probe held e (functor2 f) ss [t]) opts r a
  = Ok (foldl (fun a call => f call.1 call.2 a) a
          (omap (row_call empty_value_ opts r ss.*2) (Storage.rows empty_value_ st))).
Proof.
  intros Hwf Hst HT Hss Hopts.
  rewrite (for_each_component_omap nd T st opts r _
             (fun row => pair row.1 <$> probe_components_ row.1 ss.*2 [row.2])
             (fun call a => f call.1 call.2 a)); [done | done | done | done |].
  intros row a' Hrow. rewrite probe_eq by (by apply (storages_free T Ts)).
  by destruct (probe_components_ row.1 ss.*2 [row.2]).
Qed.

Lemma row_calls_spec T Ts st ss opts r e cs :
  rwf r -> find_storage_ r T = Some st ->
  Forall2 (fun T s => find_storage_ r T = Some s) Ts ss ->
  (e, cs) ∈ omap (row_call empty_value_ opts r ss) (Storage.rows empty_value_ st) <->
  Forall (fun o => selects r e o = true) opts
  /\ Forall2 (fun T c => component_at r T e = Some c) (T :: Ts) cs.
Proof.
  intros Hwf Hst Hss. rewrite <- forallb_selects.
  destruct (find_storage_wf is_empty_v r T st Hwf Hst) as (Hstwf & _).
  rewrite list_elem_of_omap. split.
  - intros ([e' c] & Hrow & Hcall). unfold row_call in Hcall. simpl in Hcall.
    destruct (forallb (selects r e') opts) eqn:Ho; [| done].
    destruct (probe_components empty_value_ e' ss [c]) as [cs' |] eqn:Hp; [| done].
    simpl in Hcall. injection Hcall as -> ->. split; [done |].
    apply probe_components_Some in Hp as (tail & -> & Hall). simpl.
    constructor.
    + unfold Registry.component_at. rewrite Hst.
      by apply (storage_rows_find empty_value_).
    + by apply (storages_components r e Ts ss).
  - intros (Ho & Hall). apply Forall2_cons_inv_l in Hall as (c & tail & Hc & Hall & ->).
    unfold Registry.component_at in Hc. rewrite Hst in Hc.
    exists (e, c). split; [by apply (storage_rows_find empty_value_) |].
    unfold row_call. simpl. rewrite Ho.
    apply (storages_components r e Ts ss) in Hall; [| done].
    assert (probe_components empty_value_ e ss [c] = Some ([c] ++ tail)) as ->; [| done].
    apply probe_components_Some. by exists tail.
Qed.

Lemma row_calls_NoDup st ss opts r :
  Storage.wf st ->
  NoDup (omap (row_call empty_value_ opts r ss) (Storage.rows empty_value_ st)).*1.
Proof.
  intros Hstwf. apply NoDup_omap_fst; [| by apply storage_rows_NoDup].
  intros [e c] call. unfold row_call. simpl.
  destruct (forallb (selects r e) opts); [| done].
  destruct (probe_components empty_value_ e ss [c]); [| done].
  by intros [= <-].
Qed.

Lemma components_exist nd r e Ts cs :
  rwf r -> Registry.valid_entity r e = true ->
  Forall2 (fun T c => component_at r T e = Some c) Ts cs ->
  Forall (fun T => Registry.exists_component nd r T e = Ok true) Ts.
Proof.
  intros Hwf He. induction 1 as [| T c Ts cs Hc _ IH]; constructor; [| done].
  by apply (exists_component_at nd r T e c).
Qed.

Lemma components_found r e Ts cs :
  Registry.valid_entity r e = true ->
  Forall2 (fun T c => component_at r T e = Some c) Ts cs <->
  Forall2 (fun T c => find_component false r T e = Ok (Some c)) Ts cs.
Proof.
  intros He. split; intros Hall; (eapply Forall2_impl; [exact Hall |]); intros T c; cbv beta.
  - intros Hc. by rewrite find_component_at, Hc.
  - rewrite find_component_at by done. by intros [= ->].
Qed.

Lemma missing_storage_no_component r e Ts cs T' :
  T' ∈ Ts -> find_storage_ r T' = None ->
  Forall2 (fun T c => component_at r T e = Some c) Ts cs -> False.
Proof.
  intros [i Hi]%list_elem_of_lookup Hnone Hall.
  destruct (Forall2_lookup_l _ _ _ _ _ Hall Hi) as (c & _ & Hc).
  unfold Registry.component_at in Hc. by rewrite Hnone in Hc.
Qed.

(** The calls of a joined iteration over at least one component type that
    does not lock the storage of its driver again. *)
Lemma joined_row_calls r nd T Ts opts :
  rwf r -> Iteration.relock_free (T :: Ts) opts ->
  exists calls,
    (forall A (f : Z -> list value -> A -> A) (a : A),
       Iteration.for_joined_components empty_value_ nd (T :: Ts) (functor2 f) opts r a
       = Ok (foldl (fun a call => f call.1 call.2 a) a calls))
    /\ NoDup calls.*1
    /\ forall e cs,
         (e, cs) ∈ calls <->
         Forall (fun o => selects r e o = true) opts
         /\ Forall2 (fun T c => component_at r T e = Some c) (T :: Ts) cs.
Proof.
  intros Hwf [HT Hopts]. unfold Iteration.for_joined_components.
  destruct (Iteration.find_storages_ r Ts) as [ss |] eqn:Hss.
  - apply find_storages_Some in Hss as [Hss1 Hss2].
    destruct (Registry.find_storage_ r T) as [st |] eqn:Hst.
    + exists (omap (row_call empty_value_ opts r ss.*2) (Storage.rows empty_value_ st)).
      destruct (find_storage_wf is_empty_v r T st Hwf Hst) as (Hstwf & _).
      split; [| split].
      * intros A f a. by apply (for_each_component_row_calls nd f T Ts).
      * by apply row_calls_NoDup.
      * intros e cs. by apply row_calls_spec.
    + exists []. split; [| split].
      * intros A f a. unfold Iteration.for_each_component. by rewrite Hst.
      * constructor.
      * intros e cs. split; [by intros ?%elem_of_nil |]. intros [_ Hall].
        destruct (missing_storage_no_component r e (T :: Ts) cs T); try done.
        apply list_elem_of_here.
  - apply find_storages_None in Hss as (T' & HT' & Hnone).
    exists []. split; [| split].
    + done.
    + constructor.
    + intros e cs. split; [by intros ?%elem_of_nil |]. intros [_ Hall].
      destruct (missing_storage_no_component r e (T :: Ts) cs T'); try done.
      by apply list_elem_of_further.
Qed.


End IterationClaims.

(** *** Iteration over the example state

    Entity 1 has components 10, 20 and the empty value of families 1, 2 and
    3; entity 2 has component 40 of family 1. *)

Example joined_calls_demo :
  joined_calls 0%Z false [1; 2]%Z [] demo_registry = Ok [(1, [10; 20])]%Z
  /\ joined_calls 0%Z false [1]%Z [] demo_registry = Ok [(1, [10]); (2, [40])]%Z
  /\ joined_calls 0%Z false [1; 3]%Z [] demo_registry = Ok [(1, [10; 0])]%Z
  /\ joined_calls 0%Z false [1; 7]%Z [] demo_registry = Ok []
  /\ joined_calls 0%Z false [] [] demo_registry = Ok [(1, []); (2, [])]%Z
  /\ entity_calls false [] demo_registry = Ok [1; 2]%Z
  /\ joined_calls 0%Z false [1]%Z [opt_neg (opt_exists 2)] demo_registry = Ok [(2, [40])]%Z
  /\ joined_calls 0%Z false [1; 3]%Z [opt_exists 2; opt_neg (opt_exists 7)] demo_registry
     = Ok [(1, [10; 0])]%Z
  /\ joined_calls 0%Z false [3; 2; 2]%Z [opt_exists 1] demo_registry
     = Ok [(1, [0; 20; 20])]%Z
  /\ entity_calls false [opt_exists 2] demo_registry = Ok [1%Z]
  /\ entity_calls false [opt_disj [opt_exists 2; opt_exists 1]; opt_neg (opt_exists 3)]
       demo_registry = Ok [2%Z]
  /\ joined_calls 0%Z false [] [opt_exists 1; opt_exists 3] demo_registry = Ok [(1, [])]%Z.
Proof. vm_compute. repeat split. Qed.




(** ** Prototypes: the claim *)

Section PrototypeClaim.
Context {value : Type}.
Variable empty_value_ : value.
Variable is_empty_v : Z -> bool.
Variable mx : Z.
Variable imx : Z.
Implicit Types (r : registry value) (e ent T : Z) (p : prototype value).
Implicit Types (a : applier value) (c : value).

Abbreviation rwf := (registry_wf (value := value) is_empty_v).
Abbreviation reachable_ := (reachable empty_value_ is_empty_v mx imx).
Abbreviation component_at := (Registry.component_at empty_value_).
Abbreviation assigned := (assigned_value empty_value_ is_empty_v).
Abbreviation find_applier := (fun p => SparseMap.find sparse_indexer (appliers_ p)).
Abbreviation apply_to_entity :=
  (Prototype.apply_to_entity empty_value_ is_empty_v mx).
Abbreviation apply_step := (Prototype.apply_step empty_value_ is_empty_v mx).
Abbreviation applier_apply_to_entity :=
  (Prototype.applier_apply_to_entity empty_value_ is_empty_v mx).

(** *** The builders *)

Lemma prototype_empty_wf : Prototype.wf (value := value) Prototype.prototype_empty.
Proof.
  split; [apply map_wf_empty |]. intros family a Hin. simpl in Hin.
  by apply elem_of_nil in Hin.
Qed.

Lemma prototype_keys_ok p family :
  Prototype.wf p -> family ∈ dense_ (keys_ (appliers_ p)) -> family_ok family.
Proof.
  intros [Hm Hf] Hin. apply (map_find_is_Some sparse_indexer) in Hin as [a Ha]; [| done].
  apply (map_find_entries sparse_indexer) in Ha; [| done]. by apply Hf in Ha as [_ ?].
Qed.

Lemma prototype_component_wf family c p res p' :
  Prototype.wf p -> family_ok family ->
  Prototype.component mx family c p = (res, p') ->
  Prototype.wf p'
  /\ (res = Ok tt -> find_applier p' family = Some (mk_applier family c)).
Proof.
  intros Hp Hfam. pose proof Hp as [Hm Hf]. unfold Prototype.component.
  destruct (SparseMap.insert_or_assign sparse_indexer mx family (mk_applier family c)
              (appliers_ p)) as [ri m] eqn:Hins.
  intros [= <- <-]. simpl. unfold SparseMap.insert_or_assign in Hins.
  destruct (SparseMap.find_slot sparse_indexer (appliers_ p) family) as [i |] eqn:Hslot.
  - injection Hins as <- <-.
    apply map_find_slot_Some in Hslot; [| done].
    pose proof (map_set_slot_wf sparse_indexer (appliers_ p) i (mk_applier family c) Hm)
      as Hm'.
    pose proof (map_set_slot_find sparse_indexer (appliers_ p) i family
                  (mk_applier family c) Hm Hslot) as Hnew.
    split; [| done]. split; [done |]. intros family' a Hin. simpl in Hin.
    apply (map_find_entries sparse_indexer) in Hin; [| done].
    destruct (decide (family' = family)) as [-> | Hne].
    + rewrite Hnew in Hin. by injection Hin as <-.
    + rewrite (map_set_slot_find_ne sparse_indexer (appliers_ p) i family family') in Hin
        by done.
      apply (map_find_entries sparse_indexer) in Hin; [| done]. by apply Hf.
  - apply map_insert_new_inv in Hins; [| by apply sparse_indexer_size | done | | done].
    2:{ intros w Hw Heq. apply (prototype_keys_ok p w Hp) in Hw.
        unfold sparse_indexer, family_ok in *. apply Z2Nat.inj; lia. }
    destruct Hins as [Hmx | m Hwfm Hd Hv _]; [done |].
    destruct (map_insert_added_find sparse_indexer family (mk_applier family c)
                (appliers_ p) m Hm Hwfm Hd Hv) as (Hf1 & Hf2 & _).
    split; [| done]. split; [done |]. intros family' a Hin. simpl in Hin.
    apply (map_find_entries sparse_indexer) in Hin; [| done].
    destruct (decide (family' = family)) as [-> | Hne].
    + rewrite Hf1 in Hin. by injection Hin as <-.
    + rewrite Hf2 in Hin by done. apply (map_find_entries sparse_indexer) in Hin; [| done]. by apply Hf.
Qed.

(** *** One applier *)

Lemma exists_component_None nd r T e :
  rwf r -> Registry.valid_entity r e = true -> component_at r T e = None ->
  Registry.exists_component nd r T e = Ok false.
Proof.
  intros Hwf He. unfold Registry.exists_component, Registry.component_at.
  rewrite assert_valid by done. simpl.
  destruct (Registry.find_storage_ r T) as [st |] eqn:Hst; [| done].
  destruct (find_storage_wf is_empty_v r T st Hwf Hst) as (Hstwf & _).
  intros Hc. f_equal. rewrite storage_exists_has. apply not_true_iff_false.
  rewrite (storage_has_find empty_value_) by done. rewrite Hc. by intros [? ?].
Qed.

Lemma applier_apply_spec nd a ent override r res r' :
  (2 ^ 22 <= mx)%Z -> rwf r -> family_ok (applier_family a) ->
  Registry.valid_entity r ent = true ->
  applier_apply_to_entity nd a ent override r = (res, r') ->
  res = Ok tt /\ rwf r' /\ same_entities r r'
  /\ component_at r' (applier_family a) ent
     = (if override then Some (assigned (applier_family a) (args_ a))
        else match component_at r (applier_family a) ent with
             | Some c => Some c
             | None => Some (assigned (applier_family a) (args_ a))
             end)
  /\ forall T e, (T, e) <> (applier_family a, ent) ->
       component_at r' T e = component_at r T e.
Proof.
  intros Hmx Hwf HT He. unfold Prototype.applier_apply_to_entity.
  assert (forall res r',
            (let '(res0, r'0) :=
               Registry.assign_component empty_value_ is_empty_v mx nd
                 (applier_family a) ent (args_ a) r in
             (outcome_map (fun _ => tt) res0, r'0)) = (res, r') ->
            res = Ok tt /\ rwf r' /\ same_entities r r'
            /\ component_at r' (applier_family a) ent
               = Some (assigned (applier_family a) (args_ a))
            /\ forall T e, (T, e) <> (applier_family a, ent) ->
                 component_at r' T e = component_at r T e) as Hassign.
  { intros res0 r0.
    destruct (Registry.assign_component empty_value_ is_empty_v mx nd
                (applier_family a) ent (args_ a) r) as [ra r1] eqn:Ha.
    intros [= <- <-].
    destruct (assign_component_spec empty_value_ is_empty_v mx nd _ ent _ r ra r1
                Hwf HT He Ha) as (H1 & H2 & [(_ & ? & _) | (-> & H3 & H4)]); [lia |].
    done. }
  destruct override; simpl; [apply Hassign |].
  destruct (component_at r (applier_family a) ent) as [c |] eqn:Hc.
  - rewrite (exists_component_at empty_value_ is_empty_v nd r _ ent c) by done. simpl.
    intros [= <- <-]. split; [done |]. split; [done |].
    split; [by apply same_entities_refl |]. done.
  - rewrite (exists_component_None nd r _ ent) by done. simpl. apply Hassign.
Qed.

(** *** The loop over the appliers *)

Lemma prototype_get_applier p family :
  Prototype.wf p -> family ∈ dense_ (keys_ (appliers_ p)) ->
  exists a, SparseMap.get sparse_indexer (appliers_ p) family = Ok a
            /\ find_applier p family = Some a
            /\ applier_family a = family /\ family_ok family.
Proof.
  intros Hp Hin. pose proof Hp as [Hm Hf].
  pose proof Hin as [a Ha]%(map_find_is_Some sparse_indexer); [| done].
  exists a. pose proof Ha as (i & Hk & Hv)%map_find_Some; [| done].
  split; [by eapply map_get_wf |]. split; [done |].
  apply (map_find_entries sparse_indexer) in Ha; [| done]. by apply Hf.
Qed.

Lemma apply_steps_spec nd p ent override l r res r' :
  (2 ^ 22 <= mx)%Z -> Prototype.wf p -> rwf r ->
  Registry.valid_entity r ent = true ->
  NoDup l -> (forall T, T ∈ l -> T ∈ dense_ (keys_ (appliers_ p))) ->
  foldl (apply_step nd p ent override) (Ok tt, r) l = (res, r') ->
  res = Ok tt /\ rwf r' /\ same_entities r r'
  /\ (forall T e, e <> ent \/ T ∉ l -> component_at r' T e = component_at r T e)
  /\ (forall T a, T ∈ l -> find_applier p T = Some a ->
        component_at r' T ent
        = (if override then Some (assigned T (args_ a))
           else match component_at r T ent with
                | Some c => Some c
                | None => Some (assigned T (args_ a))
                end)).
Proof.
  intros Hmx Hp. revert r.
  induction l as [| T0 l IH]; intros r Hwf He Hnd Hkeys; simpl.
  - intros [= <- <-]. split; [done |]. split; [done |].
    split; [by apply same_entities_refl |]. split; [done |].
    by intros T a ?%elem_of_nil.
  - apply NoDup_cons in Hnd as [HT0 Hnd].
    destruct (prototype_get_applier p T0 Hp) as (a0 & Hget & Hfind & Hfam & Hok);
      [apply Hkeys, list_elem_of_here |].
    rewrite Hget.
    destruct (applier_apply_to_entity nd a0 ent override r) as [ra r1] eqn:Ha.
    destruct (applier_apply_spec nd a0 ent override r ra r1 Hmx Hwf) as
      (-> & Hwf1 & Hsame1 & Hat1 & Hframe1); [by rewrite Hfam | done | done |].
    rewrite Hfam in Hat1, Hframe1.
    intros Hfold. apply IH in Hfold as (-> & Hwf' & Hsame' & Hframe' & Hat'); try done.
    2:{ by rewrite (same_entities_valid r r1). }
    2:{ intros T HT. by apply Hkeys, list_elem_of_further. }
    split; [done |]. split; [done |].
    split; [by eapply same_entities_trans |]. split.
    + intros T e Hout. rewrite Hframe'.
      * apply Hframe1. intros [= -> ->]. destruct Hout as [? | Hout]; [done |].
        apply Hout, list_elem_of_here.
      * destruct Hout as [? | Hout]; [by left | right].
        intros ?. by apply Hout, list_elem_of_further.
    + intros T a [-> | HT]%elem_of_cons Hfa.
      * rewrite Hframe' by (by right). rewrite Hat1.
        rewrite Hfind in Hfa. by injection Hfa as <-.
      * rewrite (Hat' T a HT Hfa). rewrite (Hframe1 T ent); [done |].
        intros [= ->]. done.
Qed.

Lemma apply_to_entity_spec nd r p ent override :
  (2 ^ 22 <= mx)%Z -> rwf r -> Prototype.wf p ->
  Registry.valid_entity r ent = true ->
  exists r',
    apply_to_entity nd p ent override r = (Ok tt, r')
    /\ (forall T e, e <> ent -> component_at r' T e = component_at r T e)
    /\ (forall T, find_applier p T = None -> component_at r' T ent = component_at r T ent)
    /\ (forall T a, find_applier p T = Some a ->
          component_at r' T ent
          = (if override then Some (assigned T (args_ a))
             else match component_at r T ent with
                  | Some c => Some c
                  | None => Some (assigned T (args_ a))
                  end)).
Proof.
  intros Hmx Hwf Hp He. pose proof Hp as [Hm _].
  destruct (apply_to_entity nd p ent override r) as [res r'] eqn:Ha.
  unfold Prototype.apply_to_entity in Ha.
  apply apply_steps_spec in Ha as (-> & _ & _ & Hframe & Hat); try done.
  2:{ apply (set_wf_NoDup sparse_indexer), Hm. }
  assert (forall T a, find_applier p T = Some a -> T ∈ dense_ (keys_ (appliers_ p))) as Hin.
  { intros T a Hfa. apply (map_find_is_Some sparse_indexer); [done |]. by exists a. }
  assert (forall T, find_applier p T = None -> T ∉ dense_ (keys_ (appliers_ p))) as Hout.
  { intros T Hfa [a Ha]%(map_find_is_Some sparse_indexer); [| done]. congruence. }
  exists r'. split; [done |]. split; [| split].
  - intros T e Hne. apply Hframe. by left.
  - intros T Hfa. apply Hframe. right. by apply Hout.
  - intros T a Hfa. apply Hat; [by eapply Hin | done].
Qed.

(** C8.  A prototype applied to a live entity of a reachable state, on a
    platform whose vectors hold [2^22] entries.  Either call returns and
    leaves the other entities alone.  Without [override] it keeps every
    component the entity has, and for a type the entity lacks it constructs
    the component exactly when the prototype has an applier for the type.
    With [override] it assigns the component of every applier of the
    prototype, present before or not, and keeps the other types as they
    were. *)
Theorem apply_to_entity_override nd r p ent
  (Hmx : (2 ^ 22 <= mx)%Z) (Hr : reachable_ r) (Hp : Prototype.wf p)
  (He : Registry.valid_entity r ent = true) :
  (exists r',
     apply_to_entity nd p ent false r = (Ok tt, r')
     /\ (forall T e, e <> ent -> component_at r' T e = component_at r T e)
     /\ (forall T c, component_at r T ent = Some c -> component_at r' T ent = Some c)
     /\ (forall T, component_at r T ent = None ->
           component_at r' T ent
           = (fun a => assigned T (args_ a)) <$> find_applier p T))
  /\ (exists r',
        apply_to_entity nd p ent true r = (Ok tt, r')
        /\ (forall T e, e <> ent -> component_at r' T e = component_at r T e)
        /\ (forall T a, find_applier p T = Some a ->
              component_at r' T ent = Some (assigned T (args_ a)))
        /\ (forall T, find_applier p T = None ->
              component_at r' T ent = component_at r T ent)).
Proof using Type*.
  pose proof (reachable_wf empty_value_ is_empty_v mx imx r Hr) as Hwf.
  split.
  - destruct (apply_to_entity_spec nd r p ent false Hmx Hwf Hp He)
      as (r' & Hrun & Hframe & Hout & Hin).
    exists r'. split; [done |]. split; [done |]. split.
    + intros T c Hc. destruct (find_applier p T) as [a |] eqn:Hfa.
      * by rewrite (Hin T a Hfa), Hc.
      * by rewrite (Hout T Hfa).
    + intros T Hc. destruct (find_applier p T) as [a |] eqn:Hfa; simpl.
      * by rewrite (Hin T a Hfa), Hc.
      * by rewrite (Hout T Hfa).
  - destruct (apply_to_entity_spec nd r p ent true Hmx Hwf Hp He)
      as (r' & Hrun & Hframe & Hout & Hin).
    exists r'. done.
Qed.
End PrototypeClaim.

(** *** A prototype on the example state *)

Lemma demo_prototype_wf : Prototype.wf demo_prototype.
Proof.
  unfold demo_prototype.
  eapply proj1, (prototype_component_wf demo_sparse_max 2%Z 22%Z);
    [| unfold family_ok; lia | apply surjective_pairing].
  eapply proj1, (prototype_component_wf demo_sparse_max 1%Z 11%Z);
    [apply prototype_empty_wf | unfold family_ok; lia | apply surjective_pairing].
Qed.

Example apply_to_entity_demo :
  let apply := Prototype.apply_to_entity 0%Z demo_is_empty demo_sparse_max false
                 demo_prototype 2%Z in
  Registry.component_at 0%Z demo_registry 1%Z 2%Z = Some 40%Z
  /\ Registry.component_at 0%Z demo_registry 2%Z 2%Z = None
  /\ fst (apply false demo_registry) = Ok tt
  /\ Registry.component_at 0%Z (snd (apply false demo_registry)) 1%Z 2%Z = Some 40%Z
  /\ Registry.component_at 0%Z (snd (apply false demo_registry)) 2%Z 2%Z = Some 22%Z
  /\ fst (apply true demo_registry) = Ok tt
  /\ Registry.component_at 0%Z (snd (apply true demo_registry)) 1%Z 2%Z = Some 11%Z
  /\ Registry.component_at 0%Z (snd (apply true demo_registry)) 2%Z 2%Z = Some 22%Z
  /\ Registry.component_at 0%Z (snd (apply true demo_registry)) 1%Z 1%Z = Some 10%Z.
Proof. vm_compute. repeat split. Qed.

(** [demo_prototype] applied to entity 2 of the example state. *)
Lemma apply_to_entity_override_witness :
  (exists r',
     Prototype.apply_to_entity 0%Z demo_is_empty demo_sparse_max false demo_prototype 2%Z
       false demo_registry = (Ok tt, r')
     /\ (forall T e, e <> 2%Z ->
           Registry.component_at 0%Z r' T e = Registry.component_at 0%Z demo_registry T e)
     /\ (forall T c, Registry.component_at 0%Z demo_registry T 2%Z = Some c ->
           Registry.component_at 0%Z r' T 2%Z = Some c)
     /\ (forall T, Registry.component_at 0%Z demo_registry T 2%Z = None ->
           Registry.component_at 0%Z r' T 2%Z
           = (fun a => assigned_value 0%Z demo_is_empty T (args_ a))
               <$> SparseMap.find sparse_indexer (appliers_ demo_prototype) T))
  /\ (exists r',
        Prototype.apply_to_entity 0%Z demo_is_empty demo_sparse_max false demo_prototype 2%Z
          true demo_registry = (Ok tt, r')
        /\ (forall T e, e <> 2%Z ->
              Registry.component_at 0%Z r' T e = Registry.component_at 0%Z demo_registry T e)
        /\ (forall T a, SparseMap.find sparse_indexer (appliers_ demo_prototype) T = Some a ->
              Registry.component_at 0%Z r' T 2%Z
              = Some (assigned_value 0%Z demo_is_empty T (args_ a)))
        /\ (forall T, SparseMap.find sparse_indexer (appliers_ demo_prototype) T = None ->
              Registry.component_at 0%Z r' T 2%Z
              = Registry.component_at 0%Z demo_registry T 2%Z)).
Proof.
  apply (apply_to_entity_override 0%Z demo_is_empty demo_sparse_max demo_ids_max
           false demo_registry demo_prototype 2%Z).
  - unfold demo_sparse_max. lia.
  - apply (run_checked_reachable 0%Z demo_is_empty demo_sparse_max demo_ids_max
             demo_ops registry_init); [apply reachable_init |].
    vm_compute. reflexivity.
  - apply demo_prototype_wf.
  - vm_compute. reflexivity.
Defined.

(** * Further properties of the library *)

(** ** Entity ids *)

Local Open Scope Z_scope.

Lemma entity_id_split id :
  is_uint32 id -> id = entity_id_index id + entity_id_version id * 2 ^ 22.
Proof.
  intros [H0 H1]. unfold uint32_max in H1.
  rewrite entity_id_index_mod, entity_id_version_mod by lia.
  rewrite (Z.mod_small (id / 2 ^ 22)).
  - pose proof (Z.div_mod id (2 ^ 22)). lia.
  - split; [apply Z.div_pos; lia |].
    apply Z.div_lt_upper_bound; lia.
Qed.

(** X1.  The id codec is a bijection between 32-bit ids and pairs of a
    22-bit index and a 10-bit version: decoding a joined pair gives the pair
    back, and joining the fields of an id gives the id back. *)
Theorem entity_id_codec_round_trip (id i v : Z)
  (Hid : is_uint32 id) (Hi : 0 <= i < 2 ^ 22) (Hv : 0 <= v < 2 ^ 10) :
  is_uint32 (entity_id_join i v)
  /\ entity_id_index (entity_id_join i v) = i
  /\ entity_id_version (entity_id_join i v) = v
  /\ entity_id_join (entity_id_index id) (entity_id_version id) = id.
Proof.
  split; [apply entity_id_join_range; lia |].
  split; [apply entity_id_index_join; lia |].
  split.
  - rewrite entity_id_version_join by lia. apply Z.mod_small. lia.
  - destruct Hid as [H0 H1].
    pose proof (entity_id_index_range id H0).
    pose proof (entity_id_version_range id H0).
    rewrite entity_id_join_add by lia. rewrite Z.mod_small by lia.
    symmetry. by apply entity_id_split.
Qed.

(** The codec on the id with index 2048 and version 1023. *)
Lemma entity_id_codec_round_trip_witness :
  is_uint32 (entity_id_join 2048 1023)
  /\ entity_id_index (entity_id_join 2048 1023) = 2048
  /\ entity_id_version (entity_id_join 2048 1023) = 1023
  /\ entity_id_join (entity_id_index 4290772993) (entity_id_version 4290772993)
     = 4290772993.
Proof.
  apply (entity_id_codec_round_trip 4290772993 2048 1023);
    unfold is_uint32, uint32_max; lia.
Defined.

Lemma upgrade_entity_id_iter id (n : nat) :
  is_uint32 id ->
  is_uint32 (Nat.iter n upgrade_entity_id id)
  /\ entity_id_index (Nat.iter n upgrade_entity_id id) = entity_id_index id
  /\ entity_id_version (Nat.iter n upgrade_entity_id id)
     = (entity_id_version id + Z.of_nat n) mod 2 ^ 10.
Proof.
  intros Hid. induction n as [| n (Hr & Hi & Hv)].
  - simpl. split; [done |]. split; [done |].
    rewrite Z.add_0_r. symmetry. apply Z.mod_small.
    apply entity_id_version_range. apply Hid.
  - rewrite Nat.iter_succ. destruct Hr as [Hr0 Hr1].
    split; [by apply upgrade_entity_id_range |].
    split; [by rewrite entity_id_index_upgrade |].
    rewrite entity_id_version_upgrade by done. rewrite Hv.
    rewrite Zplus_mod_idemp_l. f_equal. lia.
Qed.

(** X2.  Upgrading an id any number of times keeps its index and advances
    its version modulo 2^10; so the id comes back exactly after a multiple
    of 2^10 upgrades, and never before. *)
Theorem upgrade_entity_id_cycle (id : Z) (n : nat) (Hid : is_uint32 id) :
  entity_id_index (Nat.iter n upgrade_entity_id id) = entity_id_index id
  /\ entity_id_version (Nat.iter n upgrade_entity_id id)
     = (entity_id_version id + Z.of_nat n) mod 2 ^ 10
  /\ (Nat.iter n upgrade_entity_id id = id <-> Z.of_nat n mod 2 ^ 10 = 0).
Proof.
  destruct (upgrade_entity_id_iter id n Hid) as (Hr & Hi & Hv).
  split; [done |]. split; [done |].
  pose proof (entity_id_version_range id (proj1 Hid)) as Hvr.
  split.
  - intros Heq. rewrite Heq in Hv.
    assert ((entity_id_version id + Z.of_nat n) mod 2 ^ 10
            = (entity_id_version id + Z.of_nat n mod 2 ^ 10) mod 2 ^ 10) as Hm
      by (by rewrite Zplus_mod_idemp_r).
    rewrite Hm in Hv.
    pose proof (Z.mod_pos_bound (Z.of_nat n) (2 ^ 10)).
    destruct (Z.lt_ge_cases (entity_id_version id + Z.of_nat n mod 2 ^ 10) (2 ^ 10)).
    + rewrite Z.mod_small in Hv by lia. lia.
    + replace (entity_id_version id + Z.of_nat n mod 2 ^ 10)
        with (entity_id_version id + Z.of_nat n mod 2 ^ 10 - 2 ^ 10 + 1 * 2 ^ 10) in Hv
        by lia.
      rewrite Z.mod_add in Hv by lia. rewrite Z.mod_small in Hv by lia. lia.
  - intros Hn.
    rewrite (entity_id_split _ Hr), Hi, Hv.
    rewrite <- Zplus_mod_idemp_r, Hn, Z.add_0_r, Z.mod_small by lia.
    symmetry. by apply entity_id_split.
Qed.

(** Id 1 after 1024 upgrades. *)
Lemma upgrade_entity_id_cycle_witness :
  entity_id_index (Nat.iter 1024 upgrade_entity_id 1) = entity_id_index 1
  /\ entity_id_version (Nat.iter 1024 upgrade_entity_id 1)
     = (entity_id_version 1 + Z.of_nat 1024) mod 2 ^ 10
  /\ (Nat.iter 1024 upgrade_entity_id 1 = 1 <-> Z.of_nat 1024 mod 2 ^ 10 = 0).
Proof.
  apply (upgrade_entity_id_cycle 1 1024). unfold is_uint32, uint32_max. lia.
Defined.

(** X3.  [next_capacity_size] throws [std::length_error] exactly when the
    requested minimum exceeds the maximum; otherwise the new capacity covers
    the minimum, stays within the maximum and is at least twice the current
    size (or the maximum itself). *)
Theorem next_capacity_size_growth (cur mn mx : Z) :
  (next_capacity_size cur mn mx = Throw length_error <-> mx < mn)
  /\ (mn <= mx ->
      exists n, next_capacity_size cur mn mx = Ok n
                /\ mn <= n <= mx /\ Z.min (2 * cur) mx <= n).
Proof.
  unfold next_capacity_size.
  pose proof (Z.mul_div_le mx 2).
  destruct (Z.ltb_spec mx mn) as [Hlt | Hge].
  - split; [done | lia].
  - split.
    + split; [| lia]. by destruct (mx / 2 <=? cur).
    + intros _. destruct (Z.leb_spec (mx / 2) cur); eexists; (split; [reflexivity |]); lia.
Qed.

Local Close Scope Z_scope.

(** ** The sparse set, operation by operation *)

Section SparseSetExtras.
Variable indexer : Z -> nat.
Variable mx : Z.
Implicit Types (s : sparse_set) (v w : Z).

Lemma set_has_eq s s' v :
  SparseSet.wf indexer s -> SparseSet.wf indexer s' ->
  (v ∈ dense_ s' <-> v ∈ dense_ s) ->
  SparseSet.has indexer s' v = SparseSet.has indexer s v.
Proof.
  intros Hwf Hwf' Hiff. apply eq_true_iff_eq.
  by rewrite !set_has_iff_elem.
Qed.

Lemma set_run_wf ops :
  Forall (SparseSet.below_size_max indexer) ops ->
  SparseSet.collision_free indexer mx ops sparse_set_empty ->
  SparseSet.wf indexer (SparseSet.set_run indexer mx ops sparse_set_empty).
Proof.
  intros Hidx Hcf.
  by destruct (set_run_invariant indexer mx ops sparse_set_empty [] Hidx
                 (set_wf_empty indexer)).
Qed.

Lemma swap_pop_last {A} (l : list A) (x : A) : swap_pop (length l) (l ++ [x]) = l.
Proof.
  unfold swap_pop. rewrite length_app. simpl.
  replace (length l + 1 - 1) with (length l) by lia.
  rewrite Nat.eqb_refl. simpl. apply vec_pop_back_snoc.
Qed.

(** X4.  [sparse_set::insert] of a value [v] whose index is below [SIZE_MAX]
    into a well-formed set whose members do not share the sparse slot of
    [v].  It returns [false] and changes nothing when [v] is present.  It
    returns [true] when [v] is new: [v] is appended to the dense array, is
    present afterwards, no other membership changes, and a second insert
    returns [false].  It throws [std::length_error] only when the sparse
    vector cannot reach the index of [v], and then the set is unchanged. *)
Theorem sparse_set_insert_outcomes s v
  (Hvi : (Z.of_nat (indexer v) < size_max)%Z)
  (Hwf : SparseSet.wf indexer s) (Hnc : SparseSet.no_collision indexer s v) :
  let s' := snd (SparseSet.insert indexer mx v s) in
  SparseSet.wf indexer s'
  /\ match fst (SparseSet.insert indexer mx v s) with
     | Ok true =>
         SparseSet.has indexer s v = false
         /\ dense_ s' = dense_ s ++ [v]
         /\ SparseSet.has indexer s' v = true
         /\ (forall w, w <> v -> SparseSet.has indexer s' w = SparseSet.has indexer s w)
         /\ SparseSet.insert indexer mx v s' = (Ok false, s')
     | Ok false => SparseSet.has indexer s v = true /\ s' = s
     | Throw e =>
         e = length_error /\ s' = s
         /\ SparseSet.has indexer s v = false
         /\ (mx < Z.of_nat (indexer v) + 1)%Z
     | Abort => False
     end.
Proof.
  intros s'. subst s'.
  destruct (SparseSet.insert indexer mx v s) as [res s'] eqn:Hins. simpl.
  pose proof (set_insert_wf indexer mx v s res s' Hvi Hwf Hnc Hins) as Hwf'.
  split; [done |].
  pose proof (set_insert_dense indexer mx v s res s' Hvi Hins) as Hd.
  pose proof (set_insert_inv indexer mx v s res s' Hvi Hins) as Hres.
  destruct Hres as [Hh | Hh Hle Hmx | sp Hh Hvi' Hsp Hlen Hor]; try done.
  split; [done |]. split; [done |].
  assert (SparseSet.has indexer
            (mk_sparse_set (dense_ s ++ [v]) (<[indexer v := length (dense_ s)]> sp)) v
          = true) as Hnew.
  { apply set_has_iff_elem; [done |]. simpl. apply elem_of_app. right.
    by apply list_elem_of_singleton. }
  split; [done |]. split.
  - intros w Hne. apply set_has_eq; [done | done |]. simpl.
    rewrite elem_of_app, list_elem_of_singleton. tauto.
  - unfold SparseSet.insert. by rewrite Hnew.
Qed.

(** X5.  [sparse_set::unordered_erase] on a well-formed set returns whether
    [v] was present; afterwards [v] is absent, every other membership is as
    before, and the sparse vector keeps its length.  When [v] sat at dense
    position [i] the dense array is the old one with the last element moved
    to [i]; when [v] was absent the set is unchanged. *)
Theorem sparse_set_unordered_erase_outcomes s v (Hwf : SparseSet.wf indexer s) :
  let b := fst (SparseSet.unordered_erase indexer v s) in
  let s' := snd (SparseSet.unordered_erase indexer v s) in
  b = SparseSet.has indexer s v
  /\ SparseSet.wf indexer s'
  /\ SparseSet.has indexer s' v = false
  /\ (forall w, w <> v -> SparseSet.has indexer s' w = SparseSet.has indexer s w)
  /\ length (sparse_ s') = length (sparse_ s)
  /\ (b = false -> s' = s)
  /\ (forall i, dense_ s !! i = Some v -> dense_ s' = swap_pop i (dense_ s)).
Proof.
  intros b s'. subst b s'.
  destruct (SparseSet.unordered_erase indexer v s) as [b s'] eqn:Her. simpl.
  pose proof (set_erase_wf indexer v s b s' Hwf Her) as Hwf'.
  pose proof (set_erase_result indexer v s) as Hb. rewrite Her in Hb. simpl in Hb.
  pose proof (fun w => set_erase_elem indexer v s b s' w Hwf Her) as Hel.
  split; [done |]. split; [done |]. split; [| split; [| split; [| split]]].
  - apply not_true_iff_false. rewrite set_has_iff_elem by done.
    intros [_ ?]%Hel. done.
  - intros w Hne. apply set_has_eq; [done | done |]. rewrite Hel. tauto.
  - destruct (SparseSet.has indexer s v) eqn:Hh.
    + apply set_has_iff_elem in Hh as [i Hi]%list_elem_of_lookup; [| done].
      destruct (set_erase_present indexer v s i Hwf Hi) as (sp & Heq & _ & Hlen).
      rewrite Heq in Her. injection Her as _ <-. done.
    + rewrite set_erase_absent in Her by done. by injection Her as _ <-.
  - intros ->. symmetry in Hb. rewrite set_erase_absent in Her by done.
    by injection Her as <-.
  - intros i Hi.
    destruct (set_erase_present indexer v s i Hwf Hi) as (sp & Heq & _).
    rewrite Heq in Her. by injection Her as _ <-.
Qed.

(** X6.  Inserting a new value and erasing it again restores the dense
    array, and with it every membership: the pair is a round trip (there is
    room for the value in the sparse vector, and its index is below
    [SIZE_MAX]). *)
Theorem sparse_set_insert_erase_round_trip s v
  (Hvi : (Z.of_nat (indexer v) < size_max)%Z)
  (Hwf : SparseSet.wf indexer s) (Hnc : SparseSet.no_collision indexer s v)
  (Hnew : SparseSet.has indexer s v = false)
  (Hroom : (Z.of_nat (indexer v) + 1 <= mx)%Z) :
  let s1 := snd (SparseSet.insert indexer mx v s) in
  let s2 := snd (SparseSet.unordered_erase indexer v s1) in
  fst (SparseSet.insert indexer mx v s) = Ok true
  /\ fst (SparseSet.unordered_erase indexer v s1) = true
  /\ dense_ s2 = dense_ s
  /\ SparseSet.wf indexer s2
  /\ forall w, SparseSet.has indexer s2 w = SparseSet.has indexer s w.
Proof.
  intros s1 s2. subst s2 s1.
  pose proof (set_insert_no_throw indexer mx v s Hvi Hroom) as Hok.
  destruct (SparseSet.insert indexer mx v s) as [res s1] eqn:Hins. simpl in *.
  pose proof (set_insert_wf indexer mx v s res s1 Hvi Hwf Hnc Hins) as Hwf1.
  pose proof (set_insert_inv indexer mx v s res s1 Hvi Hins) as Hres.
  destruct Hres as [Hh | Hh Hle Hmx | sp Hh Hvi' Hsp Hlen Hor]; [congruence | done |].
  split; [done |].
  assert (dense_ (mk_sparse_set (dense_ s ++ [v])
                     (<[indexer v := length (dense_ s)]> sp)) !! length (dense_ s)
          = Some v) as Hi
    by (simpl; by apply list_lookup_middle).
  destruct (set_erase_present indexer v _ _ Hwf1 Hi) as (sp' & Heq & Hwf2 & _).
  rewrite Heq. simpl in *. rewrite swap_pop_last in *.
  split; [done |]. split; [done |]. split; [done |].
  intros w. by apply set_has_eq.
Qed.
(** X30.  [sparse_set::insert] of a new value whose index is [SIZE_MAX]:
    [vi + 1u] wraps to 0, so [next_capacity_size] is asked for no room and
    throws nothing; the sparse vector stays too short (its [max_size()] is
    below [SIZE_MAX]), the value is pushed onto the dense array and the write
    to [sparse_[vi]] falls outside the vector.  The program stops there
    instead of throwing [std::length_error]. *)
Theorem sparse_set_insert_index_wraps s v
  (Hvi : Z.of_nat (indexer v) = size_max)
  (Hnew : SparseSet.has indexer s v = false)
  (Hlen : (Z.of_nat (length (sparse_ s)) <= mx)%Z) (Hmx : (mx < size_max)%Z) :
  to_size_t (Z.of_nat (indexer v) + 1) = 0%Z
  /\ (exists n, next_capacity_size (Z.of_nat (length (sparse_ s))) 0 mx = Ok n
                /\ (n <= mx)%Z)
  /\ fst (SparseSet.insert indexer mx v s) = Abort
  /\ dense_ (snd (SparseSet.insert indexer mx v s)) = dense_ s ++ [v]
  /\ length (sparse_ (snd (SparseSet.insert indexer mx v s))) <= indexer v.
Proof.
  assert (to_size_t (Z.of_nat (indexer v) + 1) = 0%Z) as Hwrap.
  { rewrite Hvi. reflexivity. }
  split; [done |].
  assert (exists n, next_capacity_size (Z.of_nat (length (sparse_ s))) 0 mx = Ok n
                    /\ (0 <= n <= mx)%Z) as (n & Hn & Hn0 & Hnmx).
  { unfold next_capacity_size.
    destruct (Z.ltb_spec mx 0) as [? | ?]; [lia |].
    destruct (Z.leb_spec (mx / 2) (Z.of_nat (length (sparse_ s)))) as [? | Hhalf].
    - exists mx. split; [done | lia].
    - eexists. split; [reflexivity |].
      assert (2 * (mx / 2) <= mx)%Z by (apply Z.mul_div_le; lia). lia. }
  split; [by exists n |].
  unfold SparseSet.insert. rewrite Hnew. cbv zeta. rewrite Hwrap, Hn.
  destruct (Nat.leb_spec (length (sparse_ s)) (indexer v)) as [_ | ?]; [| lia].
  simpl. rewrite length_vec_resize.
  destruct (Nat.ltb_spec (indexer v) (Z.to_nat n)) as [? | Hout]; [lia |].
  simpl. rewrite length_vec_resize. done.
Qed.
End SparseSetExtras.

(** The three outcomes on a set built with the default indexer. *)
Lemma sparse_set_insert_outcomes_witness :
  let s := SparseSet.set_run sparse_indexer 1000
             [SparseSet.op_insert 42; SparseSet.op_insert 84] sparse_set_empty in
  let s' := snd (SparseSet.insert sparse_indexer 1000 7 s) in
  SparseSet.wf sparse_indexer s'
  /\ match fst (SparseSet.insert sparse_indexer 1000 7 s) with
     | Ok true =>
         SparseSet.has sparse_indexer s 7 = false
         /\ dense_ s' = dense_ s ++ [7%Z]
         /\ SparseSet.has sparse_indexer s' 7 = true
         /\ (forall w, w <> 7%Z ->
               SparseSet.has sparse_indexer s' w = SparseSet.has sparse_indexer s w)
         /\ SparseSet.insert sparse_indexer 1000 7 s' = (Ok false, s')
     | Ok false => SparseSet.has sparse_indexer s 7 = true /\ s' = s
     | Throw e =>
         e = length_error /\ s' = s
         /\ SparseSet.has sparse_indexer s 7 = false
         /\ (1000 < Z.of_nat (sparse_indexer 7) + 1)%Z
     | Abort => False
     end.
Proof.
  apply (sparse_set_insert_outcomes sparse_indexer 1000).
  - vm_compute. reflexivity.
  - apply set_run_wf; [repeat constructor |].
    apply collision_freeb_sound. vm_compute. reflexivity.
  - apply no_collisionb_sound. vm_compute. reflexivity.
Defined.

(** Erasing the first of two values. *)
Lemma sparse_set_unordered_erase_outcomes_witness :
  let s := SparseSet.set_run sparse_indexer 1000
             [SparseSet.op_insert 42; SparseSet.op_insert 84] sparse_set_empty in
  let b := fst (SparseSet.unordered_erase sparse_indexer 42 s) in
  let s' := snd (SparseSet.unordered_erase sparse_indexer 42 s) in
  b = SparseSet.has sparse_indexer s 42
  /\ SparseSet.wf sparse_indexer s'
  /\ SparseSet.has sparse_indexer s' 42 = false
  /\ (forall w, w <> 42%Z ->
        SparseSet.has sparse_indexer s' w = SparseSet.has sparse_indexer s w)
  /\ length (sparse_ s') = length (sparse_ s)
  /\ (b = false -> s' = s)
  /\ (forall i, dense_ s !! i = Some 42%Z -> dense_ s' = swap_pop i (dense_ s)).
Proof.
  apply (sparse_set_unordered_erase_outcomes sparse_indexer).
  apply (set_run_wf sparse_indexer 1000); [repeat constructor |].
  apply collision_freeb_sound. vm_compute. reflexivity.
Defined.

(** Insert and erase of 7 on a set of two values. *)
Lemma sparse_set_insert_erase_round_trip_witness :
  let s := SparseSet.set_run sparse_indexer 1000
             [SparseSet.op_insert 42; SparseSet.op_insert 84] sparse_set_empty in
  let s1 := snd (SparseSet.insert sparse_indexer 1000 7 s) in
  let s2 := snd (SparseSet.unordered_erase sparse_indexer 7 s1) in
  fst (SparseSet.insert sparse_indexer 1000 7 s) = Ok true
  /\ fst (SparseSet.unordered_erase sparse_indexer 7 s1) = true
  /\ dense_ s2 = dense_ s
  /\ SparseSet.wf sparse_indexer s2
  /\ forall w, SparseSet.has sparse_indexer s2 w = SparseSet.has sparse_indexer s w.
Proof.
  apply (sparse_set_insert_erase_round_trip sparse_indexer 1000).
  - vm_compute. reflexivity.
  - apply set_run_wf; [repeat constructor |].
    apply collision_freeb_sound. vm_compute. reflexivity.
  - apply no_collisionb_sound. vm_compute. reflexivity.
  - vm_compute. reflexivity.
  - vm_compute. discriminate.
Defined.

(** A value of index [SIZE_MAX] inserted into the empty set, with the
    [max_size()] of a 64-bit libstdc++. *)
Lemma sparse_set_insert_index_wraps_witness :
  to_size_t (Z.of_nat (sparse_indexer size_max) + 1) = 0%Z
  /\ (exists n, next_capacity_size (Z.of_nat (length (sparse_ sparse_set_empty))) 0
                  (2 ^ 60 - 1) = Ok n
                /\ (n <= 2 ^ 60 - 1)%Z)
  /\ fst (SparseSet.insert sparse_indexer (2 ^ 60 - 1) size_max sparse_set_empty) = Abort
  /\ dense_ (snd (SparseSet.insert sparse_indexer (2 ^ 60 - 1) size_max sparse_set_empty))
     = dense_ sparse_set_empty ++ [size_max]
  /\ length (sparse_ (snd (SparseSet.insert sparse_indexer (2 ^ 60 - 1) size_max
                             sparse_set_empty)))
     <= sparse_indexer size_max.
Proof.
  apply (sparse_set_insert_index_wraps sparse_indexer (2 ^ 60 - 1) sparse_set_empty size_max).
  - unfold sparse_indexer. apply Z2Nat.id. done.
  - apply not_true_is_false. intros H%set_has_elem. by apply elem_of_nil in H.
  - simpl. lia.
  - reflexivity.
Defined.

(** ** The sparse map, operation by operation *)

Section SparseMapExtras.
Context {V : Type}.
Variable indexer : Z -> nat.
Variable mx : Z.
Implicit Types (m : sparse_map V) (k : Z) (v : V).

Lemma map_find_slot_find m k :
  SparseMap.wf indexer m ->
  (SparseMap.find_slot indexer m k = None <-> SparseMap.find indexer m k = None)
  /\ (forall i, SparseMap.find_slot indexer m k = Some i ->
        is_Some (SparseMap.find indexer m k)).
Proof.
  intros Hwf. unfold SparseMap.find.
  destruct (SparseMap.find_slot indexer m k) as [i |] eqn:Hs.
  - pose proof (map_find_slot_lt indexer m k i Hwf Hs) as Hlt.
    apply lookup_lt_is_Some_2 in Hlt as [x Hx]. rewrite Hx. split; [done |].
    intros ? _. by exists x.
  - split; [done |]. by intros i.
Qed.

Lemma map_insert_new_outcomes k v m :
  (Z.of_nat (indexer k) < size_max)%Z ->
  SparseMap.wf indexer m -> SparseSet.no_collision indexer (keys_ m) k ->
  SparseMap.find_slot indexer m k = None ->
  let m' := snd (SparseMap.insert_new indexer mx k v m) in
  SparseMap.wf indexer m'
  /\ match fst (SparseMap.insert_new indexer mx k v m) with
     | Ok true =>
         SparseMap.find indexer m' k = Some v
         /\ (forall k', k' <> k -> SparseMap.find indexer m' k' = SparseMap.find indexer m k')
         /\ SparseMap.size m' = S (SparseMap.size m)
     | Throw e => e = length_error /\ m' = m /\ (mx < Z.of_nat (indexer k) + 1)%Z
     | _ => False
     end.
Proof.
  intros Hki Hwf Hnc Hno m'. subst m'.
  destruct (SparseMap.insert_new indexer mx k v m) as [res m'] eqn:Hins. simpl.
  apply map_insert_new_inv in Hins; [| done | done | done | done].
  destruct Hins as [Hmx | m' Hwf' Hd Hv _]; [done |].
  split; [done |].
  destruct (map_insert_added_find indexer k v m m' Hwf Hwf' Hd Hv) as (Hf1 & Hf2 & _).
  split; [done |]. split; [done |].
  unfold SparseMap.size. rewrite Hv, length_app. simpl. lia.
Qed.

(** X7.  [sparse_map::insert] of a key whose index is below [SIZE_MAX] into
    a well-formed map keeps keys and values in lock-step.  On a present key
    it returns [false] and leaves the map and the stored value alone.  On a
    new key it returns [true], the key maps to the value, no other key
    changes and the size grows by one; or the key set throws
    [std::length_error], the tentative value is popped again and the map is
    unchanged. *)
Theorem sparse_map_insert_outcomes m k v
  (Hki : (Z.of_nat (indexer k) < size_max)%Z)
  (Hwf : SparseMap.wf indexer m) (Hnc : SparseSet.no_collision indexer (keys_ m) k) :
  let m' := snd (SparseMap.insert indexer mx k v m) in
  SparseMap.wf indexer m'
  /\ match fst (SparseMap.insert indexer mx k v m) with
     | Ok false => is_Some (SparseMap.find indexer m k) /\ m' = m
     | Ok true =>
         SparseMap.find indexer m k = None
         /\ SparseMap.find indexer m' k = Some v
         /\ (forall k', k' <> k -> SparseMap.find indexer m' k' = SparseMap.find indexer m k')
         /\ SparseMap.size m' = S (SparseMap.size m)
     | Throw e =>
         e = length_error /\ m' = m
         /\ SparseMap.find indexer m k = None
         /\ (mx < Z.of_nat (indexer k) + 1)%Z
     | Abort => False
     end.
Proof.
  intros m'. subst m'. unfold SparseMap.insert.
  destruct (map_find_slot_find m k Hwf) as [Hnone Hsome].
  destruct (SparseMap.find_slot indexer m k) as [i |] eqn:Hs; simpl.
  - split; [done |]. split; [by apply (Hsome i) | done].
  - destruct (map_insert_new_outcomes k v m Hki Hwf Hnc Hs) as [Hwf' Hres].
    split; [done |]. pose proof (proj1 Hnone eq_refl) as Hf.
    destruct (fst (SparseMap.insert_new indexer mx k v m)) as [[|] | e |];
      first [done | tauto].
Qed.

(** X8.  [sparse_map::insert_or_assign] of a key whose index is below
    [SIZE_MAX] differs from [insert] on a present key only: it returns
    [false] too, but the key now maps to the new value, while the key set,
    the size and every other key are as before. *)
Theorem sparse_map_insert_or_assign_outcomes m k v
  (Hki : (Z.of_nat (indexer k) < size_max)%Z)
  (Hwf : SparseMap.wf indexer m) (Hnc : SparseSet.no_collision indexer (keys_ m) k) :
  let m' := snd (SparseMap.insert_or_assign indexer mx k v m) in
  SparseMap.wf indexer m'
  /\ match fst (SparseMap.insert_or_assign indexer mx k v m) with
     | Ok false =>
         is_Some (SparseMap.find indexer m k)
         /\ SparseMap.find indexer m' k = Some v
         /\ (forall k', k' <> k -> SparseMap.find indexer m' k' = SparseMap.find indexer m k')
         /\ keys_ m' = keys_ m
         /\ SparseMap.size m' = SparseMap.size m
     | Ok true =>
         SparseMap.find indexer m k = None
         /\ SparseMap.find indexer m' k = Some v
         /\ (forall k', k' <> k -> SparseMap.find indexer m' k' = SparseMap.find indexer m k')
         /\ SparseMap.size m' = S (SparseMap.size m)
     | Throw e =>
         e = length_error /\ m' = m
         /\ SparseMap.find indexer m k = None
         /\ (mx < Z.of_nat (indexer k) + 1)%Z
     | Abort => False
     end.
Proof.
  intros m'. subst m'. unfold SparseMap.insert_or_assign.
  destruct (map_find_slot_find m k Hwf) as [Hnone Hsome].
  destruct (SparseMap.find_slot indexer m k) as [i |] eqn:Hs; simpl.
  - pose proof Hs as Hk. apply map_find_slot_Some in Hk; [| done].
    split; [by apply map_set_slot_wf |].
    split; [by apply (Hsome i) |].
    split; [by apply map_set_slot_find |].
    split; [intros k' Hne; by apply (map_set_slot_find_ne indexer m i k) |].
    split; [done |]. unfold SparseMap.size. simpl. by rewrite length_insert.
  - destruct (map_insert_new_outcomes k v m Hki Hwf Hnc Hs) as [Hwf' Hres].
    split; [done |]. pose proof (proj1 Hnone eq_refl) as Hf.
    destruct (fst (SparseMap.insert_new indexer mx k v m)) as [[|] | e |];
      first [done | tauto].
Qed.

(** X9.  [sparse_map::unordered_erase] on a well-formed map returns whether
    the key was present; afterwards the key is absent, every other key maps
    to what it did, the size drops by one exactly when the key was present,
    and keys and values are still in lock-step. *)
Theorem sparse_map_unordered_erase_outcomes m k (Hwf : SparseMap.wf indexer m) :
  let b := fst (SparseMap.unordered_erase indexer k m) in
  let m' := snd (SparseMap.unordered_erase indexer k m) in
  b = SparseMap.has indexer m k
  /\ SparseMap.wf indexer m'
  /\ SparseMap.find indexer m' k = None
  /\ (forall k', k' <> k -> SparseMap.find indexer m' k' = SparseMap.find indexer m k')
  /\ SparseMap.size m' = (if b then SparseMap.size m - 1 else SparseMap.size m)
  /\ (b = false -> m' = m).
Proof.
  intros b m'. subst b m'.
  destruct (SparseMap.unordered_erase indexer k m) as [b m'] eqn:Her. simpl.
  destruct (map_erase_spec indexer k m b m' Hwf Her) as (Hwf' & Hb & Hf & Hframe & _).
  split; [done |]. split; [done |]. split; [done |]. split; [done |].
  unfold SparseMap.unordered_erase in Her.
  destruct (SparseSet.find_dense_index indexer (keys_ m) k) as [i |] eqn:Hi.
  - injection Her as <- <-. split; [| done]. unfold SparseMap.size. simpl.
    apply length_swap_pop.
  - injection Her as <- <-. done.
Qed.

(** X10.  On a well-formed map [get] and [find] agree on present keys;
    on an absent key [find] returns null while [get] throws the
    [std::logic_error] of the key set, and [has] tells the two cases
    apart. *)
Theorem sparse_map_get_find m k (Hwf : SparseMap.wf indexer m) :
  (forall v, SparseMap.get indexer m k = Ok v <-> SparseMap.find indexer m k = Some v)
  /\ (SparseMap.find indexer m k = None <->
      SparseMap.get indexer m k = Throw value_not_found)
  /\ is_logic_error value_not_found = true
  /\ (SparseMap.has indexer m k = true <-> is_Some (SparseMap.find indexer m k)).
Proof.
  destruct (map_find_slot_find m k Hwf) as [Hnone Hsome].
  split; [| split; [| split]].
  - intros v. split; [apply map_get_find |].
    intros Hf. pose proof Hf as (i & Hk & Hv)%map_find_Some; [| done].
    by eapply map_get_wf.
  - unfold SparseMap.get, SparseMap.get_slot, SparseSet.get_dense_index.
    rewrite <- Hnone. unfold SparseMap.find_slot.
    destruct (SparseSet.find_dense_index indexer (keys_ m) k) as [i |] eqn:Hi.
    + split; [done |]. by destruct (values_ m !! i).
    + done.
  - done.
  - by apply map_find_has.
Qed.
End SparseMapExtras.

(** *** The map operations on an example map *)

Lemma map_insert_keeps_wf {V} indexer mx k (v : V) (m : sparse_map V) :
  (Z.of_nat (indexer k) < size_max)%Z ->
  SparseMap.wf indexer m -> SparseSet.no_collision indexer (keys_ m) k ->
  SparseMap.wf indexer (snd (SparseMap.insert indexer mx k v m)).
Proof.
  intros Hki Hwf Hnc. unfold SparseMap.insert.
  destruct (SparseMap.find_slot indexer m k) eqn:Hs; [done |].
  by apply map_insert_new_outcomes.
Qed.

Lemma demo_map_wf : SparseMap.wf sparse_indexer demo_map.
Proof.
  unfold demo_map.
  apply map_insert_keeps_wf; [done | apply map_insert_keeps_wf | ].
  - done.
  - apply map_wf_empty.
  - apply no_collisionb_sound. vm_compute. reflexivity.
  - apply no_collisionb_sound. vm_compute. reflexivity.
Qed.

(** A new key. *)
Lemma sparse_map_insert_outcomes_witness :
  let m' := snd (SparseMap.insert sparse_indexer 1000 7 70%Z demo_map) in
  SparseMap.wf sparse_indexer m'
  /\ match fst (SparseMap.insert sparse_indexer 1000 7 70%Z demo_map) with
     | Ok false => is_Some (SparseMap.find sparse_indexer demo_map 7) /\ m' = demo_map
     | Ok true =>
         SparseMap.find sparse_indexer demo_map 7 = None
         /\ SparseMap.find sparse_indexer m' 7 = Some 70%Z
         /\ (forall k', k' <> 7%Z ->
               SparseMap.find sparse_indexer m' k' = SparseMap.find sparse_indexer demo_map k')
         /\ SparseMap.size m' = S (SparseMap.size demo_map)
     | Throw e =>
         e = length_error /\ m' = demo_map
         /\ SparseMap.find sparse_indexer demo_map 7 = None
         /\ (1000 < Z.of_nat (sparse_indexer 7) + 1)%Z
     | Abort => False
     end.
Proof.
  apply (sparse_map_insert_outcomes sparse_indexer 1000 demo_map 7 70%Z).
  - vm_compute. reflexivity.
  - apply demo_map_wf.
  - apply no_collisionb_sound. vm_compute. reflexivity.
Defined.

(** A present key. *)
Lemma sparse_map_insert_or_assign_outcomes_witness :
  let m' := snd (SparseMap.insert_or_assign sparse_indexer 1000 3 33%Z demo_map) in
  SparseMap.wf sparse_indexer m'
  /\ match fst (SparseMap.insert_or_assign sparse_indexer 1000 3 33%Z demo_map) with
     | Ok false =>
         is_Some (SparseMap.find sparse_indexer demo_map 3)
         /\ SparseMap.find sparse_indexer m' 3 = Some 33%Z
         /\ (forall k', k' <> 3%Z ->
               SparseMap.find sparse_indexer m' k' = SparseMap.find sparse_indexer demo_map k')
         /\ keys_ m' = keys_ demo_map
         /\ SparseMap.size m' = SparseMap.size demo_map
     | Ok true =>
         SparseMap.find sparse_indexer demo_map 3 = None
         /\ SparseMap.find sparse_indexer m' 3 = Some 33%Z
         /\ (forall k', k' <> 3%Z ->
               SparseMap.find sparse_indexer m' k' = SparseMap.find sparse_indexer demo_map k')
         /\ SparseMap.size m' = S (SparseMap.size demo_map)
     | Throw e =>
         e = length_error /\ m' = demo_map
         /\ SparseMap.find sparse_indexer demo_map 3 = None
         /\ (1000 < Z.of_nat (sparse_indexer 3) + 1)%Z
     | Abort => False
     end.
Proof.
  apply (sparse_map_insert_or_assign_outcomes sparse_indexer 1000 demo_map 3 33%Z).
  - vm_compute. reflexivity.
  - apply demo_map_wf.
  - apply no_collisionb_sound. vm_compute. reflexivity.
Defined.

(** Erasing the first key moves the last entry into its slot. *)
Lemma sparse_map_unordered_erase_outcomes_witness :
  let b := fst (SparseMap.unordered_erase sparse_indexer 3 demo_map) in
  let m' := snd (SparseMap.unordered_erase sparse_indexer 3 demo_map) in
  b = SparseMap.has sparse_indexer demo_map 3
  /\ SparseMap.wf sparse_indexer m'
  /\ SparseMap.find sparse_indexer m' 3 = None
  /\ (forall k', k' <> 3%Z ->
        SparseMap.find sparse_indexer m' k' = SparseMap.find sparse_indexer demo_map k')
  /\ SparseMap.size m' = (if b then SparseMap.size demo_map - 1 else SparseMap.size demo_map)
  /\ (b = false -> m' = demo_map).
Proof.
  apply (sparse_map_unordered_erase_outcomes sparse_indexer demo_map 3). apply demo_map_wf.
Defined.

(** A key that is not in the map. *)
Lemma sparse_map_get_find_witness :
  (forall v, SparseMap.get sparse_indexer demo_map 7 = Ok v <->
             SparseMap.find sparse_indexer demo_map 7 = Some v)
  /\ (SparseMap.find sparse_indexer demo_map 7 = None <->
      SparseMap.get sparse_indexer demo_map 7 = Throw value_not_found)
  /\ is_logic_error value_not_found = true
  /\ (SparseMap.has sparse_indexer demo_map 7 = true <->
      is_Some (SparseMap.find sparse_indexer demo_map 7)).
Proof.
  apply (sparse_map_get_find sparse_indexer demo_map 7). apply demo_map_wf.
Defined.

Example demo_map_entries :
  SparseMap.entries demo_map = [(3, 30); (5, 50)]%Z
  /\ SparseMap.entries (snd (SparseMap.unordered_erase sparse_indexer 3 demo_map))
     = [(5, 50)]%Z
  /\ SparseMap.get sparse_indexer demo_map 7 = Throw value_not_found
  /\ SparseMap.find sparse_indexer demo_map 5 = Some 50%Z.
Proof. vm_compute. repeat split. Qed.

(** ** The registry: components, operation by operation *)

Lemma filter_ext_elem {A} (P Q : A -> Prop) `{!forall x, Decision (P x)}
    `{!forall x, Decision (Q x)} (l : list A) :
  (forall x, x ∈ l -> P x <-> Q x) -> filter P l = filter Q l.
Proof.
  induction l as [| x l IH]; intros Hiff; [done |].
  rewrite !filter_cons.
  rewrite IH by (intros y Hy; by apply Hiff, list_elem_of_further).
  pose proof (Hiff x (list_elem_of_here _ _)) as Hx.
  destruct (decide (P x)), (decide (Q x)); tauto || done.
Qed.

Section RegistryToolkit.
Context {value : Type}.
Variable empty_value_ : value.
Variable is_empty_v : Z -> bool.
Variable mx : Z.
Implicit Types (r : registry value) (e ent T : Z) (st : component_storage value).

Abbreviation rwf := (registry_wf (value := value) is_empty_v).
Abbreviation find_storage_ := (Registry.find_storage_ (value := value)).
Abbreviation component_at := (Registry.component_at empty_value_).
Abbreviation sfind := (Storage.find empty_value_).
Abbreviation families r := (dense_ (keys_ (storages_ r))).
Abbreviation live r := (dense_ (entity_ids_ r)).

(** A created storage sits at a slot of the table. *)
Lemma family_slot r T :
  rwf r -> T ∈ families r ->
  exists slot st,
    families r !! slot = Some T
    /\ values_ (storages_ r) !! slot = Some st
    /\ SparseMap.get_slot sparse_indexer (storages_ r) T = Ok slot
    /\ SparseMap.get sparse_indexer (storages_ r) T = Ok st
    /\ Registry.find_storage_slot_ r T = Some slot
    /\ find_storage_ r T = Some st.
Proof.
  intros Hwf [slot Hslot]%list_elem_of_lookup.
  pose proof (wf_storages _ _ Hwf) as Hm.
  destruct (lookup_lt_is_Some_2 (values_ (storages_ r)) slot) as [st Hst].
  { destruct Hm as [_ ->]. by eapply lookup_lt_Some. }
  exists slot, st. split; [done |]. split; [done |].
  split; [by apply map_get_slot_wf |]. split; [by eapply map_get_wf |].
  split; [by apply map_find_slot_Some |].
  apply map_find_Some; [done |]. eauto.
Qed.

Lemma find_storage_family r T st :
  rwf r -> find_storage_ r T = Some st -> T ∈ families r.
Proof.
  intros Hwf Hf. apply (map_find_is_Some sparse_indexer); [apply Hwf |]. by exists st.
Qed.

Lemma component_at_family r T e c :
  rwf r -> component_at r T e = Some c -> T ∈ families r.
Proof.
  intros Hwf. unfold Registry.component_at.
  destruct (Registry.find_storage_ r T) as [st |] eqn:Hst; [| done].
  intros _. by eapply find_storage_family.
Qed.

(** A call through the storage pointer of family [T]: what it leaves in the
    registry. *)
Lemma on_storage_spec {A} r T slot st
    (f : component_storage value -> outcome A * component_storage value) res st' :
  rwf r ->
  families r !! slot = Some T ->
  values_ (storages_ r) !! slot = Some st ->
  f st = (res, st') ->
  Storage.wf st' ->
  (forall e, e ∈ Storage.ids st' -> e ∈ live r) ->
  Storage.is_empty_kind st' = Storage.is_empty_kind st ->
  exists r',
    Registry.on_storage slot f r = (res, r')
    /\ rwf r' /\ same_entities r r'
    /\ keys_ (storages_ r') = keys_ (storages_ r)
    /\ find_storage_ r' T = Some st'
    /\ (forall e, component_at r' T e = sfind st' e)
    /\ (forall T' e, T' <> T -> component_at r' T' e = component_at r T' e).
Proof.
  intros Hwf Hk Hv Hf Hwf' Hids Hkind.
  rewrite (on_storage_eq slot f r st Hv), Hf. simpl.
  destruct (registry_set_slot_wf is_empty_v r T slot st st' Hwf Hk Hv Hwf' Hids Hkind)
    as (Hwfr & Hfind & Hne).
  eexists. split; [reflexivity |]. split; [done |]. split; [done |].
  split; [done |]. split; [done |]. split.
  - intros e. unfold Registry.component_at. by rewrite Hfind.
  - intros T' e HT. unfold Registry.component_at. by rewrite Hne.
Qed.

Lemma storage_has_component r T st e :
  rwf r -> find_storage_ r T = Some st ->
  Storage.has st e = true <-> is_Some (component_at r T e).
Proof.
  intros Hwf Hst. destruct (find_storage_wf is_empty_v r T st Hwf Hst) as (Hstwf & _).
  unfold Registry.component_at. rewrite Hst. by apply storage_has_find.
Qed.

(** *** The loop of [remove_all_components] *)

Lemma remove_all_steps_spec e l rk c :
  rwf rk -> NoDup l -> (forall T, T ∈ l -> T ∈ families rk) ->
  exists r',
    foldl (Registry.remove_all_components_step e) (Ok c, rk) l
    = (Ok (c + length (filter (fun T => is_Some (component_at rk T e)) l)), r')
    /\ rwf r' /\ same_entities rk r'
    /\ keys_ (storages_ r') = keys_ (storages_ rk)
    /\ forall T e',
         component_at r' T e'
         = if decide (e' = e /\ T ∈ l) then None else component_at rk T e'.
Proof.
  revert rk c. induction l as [| T l IH]; intros rk c Hwf Hnd Hkeys.
  - exists rk. simpl. rewrite Nat.add_0_r. split; [done |]. split; [done |].
    split; [done |]. split; [done |]. intros T e'.
    rewrite decide_False; [done |]. intros [_ ?%elem_of_nil]. done.
  - apply NoDup_cons in Hnd as [HT Hnd].
    destruct (family_slot rk T Hwf) as (slot & st & Hk & Hv & Hgs & _ & _ & Hfind);
      [apply Hkeys, list_elem_of_here |].
    destruct (find_storage_wf is_empty_v rk T st Hwf Hfind) as (Hstwf & Hids & _).
    destruct (Storage.remove e st) as [b st'] eqn:Hr.
    destruct (storage_remove_spec empty_value_ e st b st' Hstwf Hr)
      as (Hwf' & Hkind' & Hb & Hgone & Hframe & Hi).
    destruct (on_storage_spec rk T slot st
                (fun st => let '(b, st') := Storage.remove e st in (Ok b, st'))
                (Ok b) st' Hwf Hk Hv) as (r1 & Hon & Hwf1 & Hsame1 & Hkeys1 & _ & Hat1 & Hne1);
      try done.
    { by rewrite Hr. }
    { intros e' [? _]%Hi. by apply Hids. }
    destruct (IH r1 (if b then S c else c) Hwf1 Hnd) as (r' & Hfold & Hwf2 & Hsame2 & Hkeys2 & Hat2).
    { intros T' HT'. rewrite Hkeys1. by apply Hkeys, list_elem_of_further. }
    exists r'. split; [| split; [done | split; [by eapply same_entities_trans | split]]].
    + simpl. rewrite Hgs, Hon.
      assert (filter (fun T => is_Some (component_at r1 T e)) l
              = filter (fun T => is_Some (component_at rk T e)) l) as Hfl.
      { apply filter_ext_elem. intros T' HT'. rewrite Hne1; [done |].
        intros ->. done. }
      rewrite Hfl in Hfold. rewrite filter_cons.
      pose proof (storage_has_component rk T st e Hwf Hfind) as Hhas.
      destruct b.
      * rewrite decide_True by (by apply Hhas). simpl.
        rewrite Hfold. f_equal. f_equal. lia.
      * rewrite decide_False; [by rewrite Hfold |].
        intros ?%Hhas. congruence.
    + congruence.
    + intros T' e'. rewrite Hat2.
      destruct (decide (e' = e /\ T' ∈ l)) as [[-> HT'] | Hout].
      * rewrite decide_True; [done |]. split; [done |]. by apply list_elem_of_further.
      * destruct (decide (T' = T)) as [-> | HneT].
        -- rewrite Hat1. destruct (decide (e' = e)) as [-> | Hne].
           ++ rewrite decide_True; [done |]. split; [done | apply list_elem_of_here].
           ++ rewrite decide_False by (intros [? _]; done).
              rewrite Hframe by done. unfold Registry.component_at. by rewrite Hfind.
        -- rewrite Hne1 by done. destruct (decide (e' = e /\ T' ∈ T :: l)) as [[-> Hin] |];
             [| done].
           apply elem_of_cons in Hin as [? | ?]; [done |]. exfalso. by apply Hout.
Qed.

(** *** The loop of [entity_component_count] *)

Lemma entity_component_count_steps e l r c :
  rwf r -> (forall T, T ∈ l -> T ∈ families r) ->
  foldl (fun acc family =>
           match acc with
           | Ok component_count =>
               match SparseMap.get sparse_indexer (storages_ r) family with
               | Ok st => Ok (if Storage.has st e then S component_count
                              else component_count)
               | _ => Abort
               end
           | _ => acc
           end) (Ok c) l
  = Ok (c + length (filter (fun T => is_Some (component_at r T e)) l)).
Proof.
  intros Hwf. revert c. induction l as [| T l IH]; intros c Hkeys; simpl.
  - by rewrite Nat.add_0_r.
  - destruct (family_slot r T Hwf) as (slot & st & _ & _ & _ & Hget & _ & Hfind);
      [apply Hkeys, list_elem_of_here |].
    rewrite Hget, filter_cons.
    pose proof (storage_has_component r T st e Hwf Hfind) as Hhas.
    rewrite IH by (intros T' HT'; by apply Hkeys, list_elem_of_further).
    destruct (Storage.has st e) eqn:Hh.
    + rewrite decide_True by (by apply Hhas). simpl. f_equal. lia.
    + rewrite decide_False; [done |]. intros ?%Hhas. congruence.
Qed.
End RegistryToolkit.

Section RegistryExtras.
Context {value : Type}.
Variable empty_value_ : value.
Variable is_empty_v : Z -> bool.
Variable mx : Z.
Variable imx : Z.
Implicit Types (r : registry value) (e ent T : Z) (st : component_storage value).

Abbreviation rwf := (registry_wf (value := value) is_empty_v).
Abbreviation reachable_ := (reachable empty_value_ is_empty_v mx imx).
Abbreviation find_storage_ := (Registry.find_storage_ (value := value)).
Abbreviation component_at := (Registry.component_at empty_value_).
Abbreviation find_component := (Registry.find_component empty_value_).
Abbreviation get_component := (Registry.get_component empty_value_).
Abbreviation create_entity := (Registry.create_entity (value := value) mx imx).
Abbreviation exec_ := (exec empty_value_ is_empty_v mx imx false).
Abbreviation families r := (dense_ (keys_ (storages_ r))).
Abbreviation live r := (dense_ (entity_ids_ r)).

Lemma valid_entity_eq r r' e :
  rwf r -> rwf r' -> (e ∈ live r' <-> e ∈ live r) ->
  Registry.valid_entity r' e = Registry.valid_entity r e.
Proof.
  intros Hwf Hwf' Hiff. apply eq_true_iff_eq.
  by rewrite !(registry_wf_valid is_empty_v).
Qed.

Lemma component_at_storages r r' T e :
  storages_ r' = storages_ r -> component_at r' T e = component_at r T e.
Proof. intros Hs. unfold Registry.component_at, Registry.find_storage_. by rewrite Hs. Qed.

Lemma component_at_live r T e c :
  rwf r -> component_at r T e = Some c -> e ∈ live r.
Proof.
  intros Hwf Hc. apply (registry_wf_valid is_empty_v); [done |].
  by apply (component_at_valid empty_value_ is_empty_v r T e c).
Qed.

(** X11.  What every reachable registry satisfies: live and free ids add up
    to [last_entity_id_], which stays below 2^22; no index is used by two
    ids, live or free; [valid_entity] is membership in the live set, whose
    ids have an index between 1 and [last_entity_id_]; and every stored
    component belongs to a live entity and to a 16-bit family whose storage
    is of the kind of its type. *)
Theorem reachable_registry_invariant r (Hr : reachable_ r) :
  (Z.of_nat (Registry.entity_count r) + Z.of_nat (length (free_entity_ids_ r))
   = last_entity_id_ r)%Z
  /\ (0 <= last_entity_id_ r <= 2 ^ 22 - 1)%Z
  /\ NoDup (entity_id_index <$> (live r ++ free_entity_ids_ r))
  /\ (forall e, Registry.valid_entity r e = true <-> e ∈ live r)
  /\ (forall e, Registry.valid_entity r e = true ->
        is_uint32 e /\ (1 <= entity_id_index e <= last_entity_id_ r)%Z)
  /\ (forall T e c, component_at r T e = Some c ->
        Registry.valid_entity r e = true /\ family_ok T)
  /\ (forall T st, find_storage_ r T = Some st -> Storage.is_empty_kind st = is_empty_v T).
Proof using Type*.
  pose proof (reachable_wf empty_value_ is_empty_v mx imx r Hr) as Hwf.
  split; [apply Hwf |]. split.
  { pose proof (wf_last _ _ Hwf). rewrite entity_id_index_mask_val in *. lia. }
  split; [apply Hwf |].
  split; [intros e; by apply (registry_wf_valid is_empty_v) |].
  split.
  { intros e He. apply (registry_wf_live is_empty_v); [done |].
    by apply (registry_wf_valid is_empty_v). }
  split.
  - intros T e c Hc. split; [by apply (component_at_valid empty_value_ is_empty_v r T e c) |].
    apply (wf_families _ _ Hwf). by apply (component_at_family empty_value_ is_empty_v r T e c).
  - intros T st Hst. by apply (wf_kinds _ _ Hwf).
Qed.

Lemma create_entity_outcomes r :
  (2 ^ 22 <= mx)%Z -> (2 ^ 22 <= imx)%Z -> rwf r ->
  match create_entity r with
  | (Ok ent, r') =>
      ent = match last (free_entity_ids_ r) with
            | Some free_ent_id => upgrade_entity_id free_ent_id
            | None => (last_entity_id_ r + 1)%Z
            end
      /\ Registry.valid_entity r ent = false
      /\ Registry.valid_entity r' ent = true
      /\ (forall e, e <> ent -> Registry.valid_entity r' e = Registry.valid_entity r e)
      /\ Registry.entity_count r' = S (Registry.entity_count r)
      /\ storages_ r' = storages_ r
      /\ (forall T, component_at r' T ent = None)
      /\ rwf r'
  | (Throw ex, r') => ex = entity_index_overflow /\ r' = r
  | (Abort, _) => False
  end.
Proof.
  intros Hmx Himx Hwf.
  destruct (create_entity r) as [res r'] eqn:Hc.
  destruct (create_entity_spec is_empty_v mx imx r res r' Hwf Hc) as [Hres Hwf'].
  assert (forall ent ids,
            dense_ ids = live r ++ [ent] -> entity_ids_ r' = ids ->
            storages_ r' = storages_ r -> ent ∉ live r ->
            Registry.valid_entity r ent = false
            /\ Registry.valid_entity r' ent = true
            /\ (forall e, e <> ent -> Registry.valid_entity r' e = Registry.valid_entity r e)
            /\ Registry.entity_count r' = S (Registry.entity_count r)
            /\ storages_ r' = storages_ r
            /\ (forall T, component_at r' T ent = None)
            /\ rwf r') as Hnew.
  { intros ent ids Hd Hids Hst Hfresh.
    assert (forall e, e ∈ live r' <-> e ∈ live r \/ e = ent) as Hlive.
    { intros e. rewrite Hids, Hd, elem_of_app, list_elem_of_singleton. done. }
    split.
    { apply not_true_iff_false. by rewrite (registry_wf_valid is_empty_v). }
    split; [apply (registry_wf_valid is_empty_v); [done |]; apply Hlive; by right |].
    split.
    { intros e Hne. apply valid_entity_eq; [done | done |]. rewrite Hlive. tauto. }
    split.
    { unfold Registry.entity_count, SparseSet.size. rewrite Hids, Hd, length_app.
      simpl. lia. }
    split; [done |]. split; [| done].
    intros T. rewrite (component_at_storages r r') by done.
    destruct (component_at r T ent) as [c |] eqn:Hat; [| done].
    exfalso. apply Hfresh. by eapply component_at_live. }
  destruct Hres as [f ids Hl Hd | Hf Hover | ids capacity Hf Hlt Hd Hcap
                   | r' Hsm Hi Hfr Hla | Hf Him]; try lia; try done.
  - rewrite Hl. split; [done |]. apply (Hnew _ ids); try done.
    intros Hin. apply last_Some in Hl as [l' Hl].
    assert (f ∈ free_entity_ids_ r) as Hfree.
    { rewrite Hl. apply elem_of_app. right. by apply list_elem_of_singleton. }
    apply (registry_wf_live_free_index is_empty_v r _ f Hwf Hin Hfree).
    apply entity_id_index_upgrade.
    apply (registry_wf_free is_empty_v r f Hwf Hfree).
  - rewrite Hf. simpl. split; [done |]. apply (Hnew _ ids); try done.
    intros Hin. apply (registry_wf_live is_empty_v r _ Hwf) in Hin as [_ Hin].
    rewrite entity_id_index_mask_val in Hlt. pose proof (wf_last _ _ Hwf).
    rewrite entity_id_index_small in Hin by lia. lia.
Qed.

(** X12.  [create_entity] in a reachable state (vectors hold 2^22 entries)
    either throws the index overflow and changes nothing, or returns an id
    that was not valid and is valid now: the upgrade of the id freed last,
    or [last_entity_id_ + 1] when no id is free.  No other id changes its
    validity, the count grows by one, the storages are untouched and the new
    entity has no component. *)
Theorem create_entity_fresh r
  (Hmx : (2 ^ 22 <= mx)%Z) (Himx : (2 ^ 22 <= imx)%Z) (Hr : reachable_ r) :
  match create_entity r with
  | (Ok ent, r') =>
      ent = match last (free_entity_ids_ r) with
            | Some free_ent_id => upgrade_entity_id free_ent_id
            | None => (last_entity_id_ r + 1)%Z
            end
      /\ Registry.valid_entity r ent = false
      /\ Registry.valid_entity r' ent = true
      /\ (forall e, e <> ent -> Registry.valid_entity r' e = Registry.valid_entity r e)
      /\ Registry.entity_count r' = S (Registry.entity_count r)
      /\ storages_ r' = storages_ r
      /\ (forall T, component_at r' T ent = None)
      /\ reachable_ r'
  | (Throw ex, r') => ex = entity_index_overflow /\ r' = r
  | (Abort, _) => False
  end.
Proof using Type*.
  pose proof (reachable_wf empty_value_ is_empty_v mx imx r Hr) as Hwf.
  pose proof (create_entity_outcomes r Hmx Himx Hwf) as Hout.
  destruct (create_entity r) as [[ent | ex |] r'] eqn:Hc; [| done | done].
  destruct Hout as (H1 & H2 & H3 & H4 & H5 & H6 & H7 & _).
  repeat (split; [done |]).
  replace r' with (snd (exec_ op_create_entity r)) by (simpl; by rewrite Hc).
  apply reachable_step; [done | done |]. simpl. by rewrite Hc.
Qed.

(** X13.  [get_component], [find_component] and [exists_component] agree on
    a valid entity of a reachable registry: [exists] is true exactly when
    [find] is not null, and then [get] returns the component [find] points
    to; otherwise [get] throws the [std::logic_error] for a missing
    component. *)
Theorem component_lookups_agree r nd T e
  (Hr : reachable_ r) (He : Registry.valid_entity r e = true) :
  find_component nd r T e = Ok (component_at r T e)
  /\ Registry.exists_component nd r T e = Ok (bool_decide (is_Some (component_at r T e)))
  /\ get_component nd r T e
     = match component_at r T e with
       | Some c => Ok c
       | None => Throw component_not_found
       end
  /\ is_logic_error component_not_found = true.
Proof using Type*.
  pose proof (reachable_wf empty_value_ is_empty_v mx imx r Hr) as Hwf.
  pose proof (find_component_at empty_value_ nd r T e He) as Hf.
  split; [done |]. split; [| split; [| done]].
  - destruct (component_at r T e) as [c |] eqn:Hc.
    + rewrite bool_decide_eq_true_2 by done.
      by apply (exists_component_at empty_value_ is_empty_v nd r T e c).
    + rewrite bool_decide_eq_false_2 by (by intros [? ?]).
      by apply (exists_component_None empty_value_ is_empty_v).
  - unfold Registry.get_component. rewrite assert_valid by done. simpl.
    rewrite Hf. by destruct (component_at r T e).
Qed.

(** X14.  [component_count<T>] of a reachable registry is the number of live
    entities that have a component of type [T]. *)
Theorem component_count_live r T (Hr : reachable_ r) :
  Registry.component_count r T
  = length (filter (fun e => is_Some (component_at r T e)) (live r)).
Proof using Type*.
  pose proof (reachable_wf empty_value_ is_empty_v mx imx r Hr) as Hwf.
  unfold Registry.component_count, Registry.component_at.
  destruct (Registry.find_storage_ r T) as [st |] eqn:Hst.
  - destruct (find_storage_wf is_empty_v r T st Hwf Hst) as (Hstwf & Hids & _).
    assert (Storage.count st = length (Storage.ids st)) as ->.
    { destruct st as [m | s]; simpl in *; [| done].
      unfold SparseMap.size. apply Hstwf. }
    apply Permutation_length, NoDup_Permutation.
    + by apply storage_ids_NoDup.
    + apply NoDup_filter, (set_wf_NoDup entity_id_indexer), Hwf.
    + intros e. rewrite list_elem_of_filter.
      rewrite (storage_find_is_Some empty_value_ st e Hstwf). split; [| tauto].
      intros Hin. split; [done | by apply Hids].
  - induction (dense_ (entity_ids_ r)) as [| x l IH]; [done |].
    rewrite filter_cons_False; [done | by intros [? ?]].
Qed.
End RegistryExtras.

Section RegistryComponentExtras.
Context {value : Type}.
Variable empty_value_ : value.
Variable is_empty_v : Z -> bool.
Variable mx : Z.
Variable imx : Z.
Implicit Types (r : registry value) (e ent T : Z) (st : component_storage value).

Abbreviation rwf := (registry_wf (value := value) is_empty_v).
Abbreviation reachable_ := (reachable empty_value_ is_empty_v mx imx).
Abbreviation find_storage_ := (Registry.find_storage_ (value := value)).
Abbreviation component_at := (Registry.component_at empty_value_).
Abbreviation find_component := (Registry.find_component empty_value_).
Abbreviation assigned := (assigned_value empty_value_ is_empty_v).
Abbreviation assign_component := (Registry.assign_component empty_value_ is_empty_v mx).
Abbreviation ensure_component := (Registry.ensure_component empty_value_ is_empty_v mx).
Abbreviation families r := (dense_ (keys_ (storages_ r))).
Abbreviation live r := (dense_ (entity_ids_ r)).

Lemma filter_no_component r e (l : list Z) :
  (forall T, component_at r T e = None) ->
  filter (fun T => is_Some (component_at r T e)) l = [].
Proof.
  intros Hnone. induction l as [| T l IH]; [done |].
  rewrite filter_cons_False; [done |]. rewrite Hnone. by intros [? ?].
Qed.

Lemma remove_all_components_outcome nd ent r :
  rwf r -> Registry.valid_entity r ent = true ->
  exists r',
    Registry.remove_all_components nd ent r
    = (Ok (length (filter (fun T => is_Some (component_at r T ent)) (families r))), r')
    /\ rwf r' /\ same_entities r r'
    /\ (forall T, component_at r' T ent = None)
    /\ (forall T e, e <> ent -> component_at r' T e = component_at r T e).
Proof.
  intros Hwf He. unfold Registry.remove_all_components.
  rewrite assert_valid by done. simpl.
  destruct (remove_all_steps_spec empty_value_ is_empty_v ent (families r) r 0 Hwf)
    as (r' & Hfold & Hwf' & Hsame & _ & Hat); [| done |].
  { apply (set_wf_NoDup sparse_indexer), Hwf. }
  exists r'. split; [done |]. split; [done |]. split; [done |]. split.
  - intros T. rewrite Hat. destruct (decide (ent = ent /\ T ∈ families r)) as [| Hout];
      [done |].
    destruct (component_at r T ent) as [c |] eqn:Hc; [| done].
    exfalso. apply Hout. split; [done |].
    by apply (component_at_family empty_value_ is_empty_v r T ent c).
  - intros T e Hne. rewrite Hat. by rewrite decide_False by (intros [? _]; done).
Qed.

Lemma entity_component_count_outcome nd r ent :
  rwf r -> Registry.valid_entity r ent = true ->
  Registry.entity_component_count nd r ent
  = Ok (length (filter (fun T => is_Some (component_at r T ent)) (families r))).
Proof.
  intros Hwf He. unfold Registry.entity_component_count.
  rewrite assert_valid by done. simpl.
  by rewrite (entity_component_count_steps empty_value_ is_empty_v ent (families r) r 0).
Qed.

(** X15.  [remove_all_components(ent)] on a valid entity of a reachable
    registry returns the number of component types the entity had, which is
    what [entity_component_count] reported; afterwards the entity has no
    component and counts zero, while every other entity keeps its
    components and the entity set is as before. *)
Theorem remove_all_components_count r nd ent
  (Hr : reachable_ r) (He : Registry.valid_entity r ent = true) :
  let n := length (filter (fun T => is_Some (component_at r T ent)) (families r)) in
  let r' := snd (Registry.remove_all_components nd ent r) in
  fst (Registry.remove_all_components nd ent r) = Ok n
  /\ Registry.entity_component_count nd r ent = Ok n
  /\ Registry.entity_component_count nd r' ent = Ok 0
  /\ (forall T, component_at r' T ent = None)
  /\ (forall T e, e <> ent -> component_at r' T e = component_at r T e)
  /\ same_entities r r'.
Proof using Type*.
  intros n r'. subst n r'.
  pose proof (reachable_wf empty_value_ is_empty_v mx imx r Hr) as Hwf.
  destruct (remove_all_components_outcome nd ent r Hwf He)
    as (r' & -> & Hwf' & Hsame & Hnone & Hframe).
  simpl. split; [done |].
  split; [by apply entity_component_count_outcome |].
  split; [| done].
  rewrite entity_component_count_outcome; [| done |].
  - by rewrite filter_no_component.
  - by rewrite (same_entities_valid r r').
Qed.

Lemma destroy_entity_storages nd ent r :
  storages_ (snd (Registry.destroy_entity nd ent r))
  = storages_ (snd (Registry.remove_all_components nd ent r)).
Proof.
  unfold Registry.destroy_entity, Registry.remove_all_components.
  destruct (negb (assert_ nd (Registry.valid_entity r ent))); [done |].
  destruct (foldl _ _ _) as [[n | ex |] r1]; simpl; try done.
  destruct (SparseSet.unordered_erase entity_id_indexer ent (entity_ids_ r1)) as [[|] ids];
    [| done].
  by destruct (negb (assert_ nd _)).
Qed.

(** X16.  [destroy_entity] on a valid entity of a reachable registry
    returns; the id is no longer valid and is the next one to be reused, the
    count drops by one and no other id changes its validity; the components
    of the entity are gone and every other entity keeps its own. *)
Theorem destroy_entity_effect r nd ent
  (Hr : reachable_ r) (He : Registry.valid_entity r ent = true) :
  let r' := snd (Registry.destroy_entity nd ent r) in
  fst (Registry.destroy_entity nd ent r) = Ok tt
  /\ Registry.valid_entity r' ent = false
  /\ (forall e, e <> ent -> Registry.valid_entity r' e = Registry.valid_entity r e)
  /\ S (Registry.entity_count r') = Registry.entity_count r
  /\ last (free_entity_ids_ r') = Some ent
  /\ (forall T, component_at r' T ent = None)
  /\ (forall T e, e <> ent -> component_at r' T e = component_at r T e).
Proof using Type*.
  intros r'. subst r'.
  pose proof (reachable_wf empty_value_ is_empty_v mx imx r Hr) as Hwf.
  pose proof (destroy_entity_storages nd ent r) as Hst.
  destruct (remove_all_components_outcome nd ent r Hwf He)
    as (r1 & Hra & _ & _ & Hnone & Hframe).
  rewrite Hra in Hst. simpl in Hst.
  destruct (Registry.destroy_entity nd ent r) as [res r'] eqn:Hd. simpl in *.
  destruct (destroy_entity_spec empty_value_ is_empty_v nd ent r res r' Hwf He Hd)
    as (-> & Hwf' & Hfree & Hel & _).
  split; [done |]. split.
  { apply not_true_iff_false. rewrite (registry_wf_valid is_empty_v) by done.
    intros [_ ?]%Hel. done. }
  split.
  { intros e Hne. apply (valid_entity_eq is_empty_v); [done | done |]. rewrite Hel. tauto. }
  split.
  { unfold Registry.entity_count, SparseSet.size.
    change (S (length (live r'))) with (length (ent :: live r')).
    apply Permutation_length, NoDup_Permutation.
    - constructor; [intros [_ ?]%Hel; done |].
      apply (set_wf_NoDup entity_id_indexer), Hwf'.
    - apply (set_wf_NoDup entity_id_indexer), Hwf.
    - intros e. rewrite elem_of_cons, Hel.
      destruct (decide (e = ent)) as [-> | Hne]; [| tauto].
      split; [| tauto]. intros _. by apply (registry_wf_valid is_empty_v). }
  split; [by rewrite Hfree, last_snoc |].
  split.
  - intros T. by rewrite (component_at_storages empty_value_ r1 r').
  - intros T e Hne. rewrite (component_at_storages empty_value_ r1 r') by done.
    by apply Hframe.
Qed.

(** X17.  [assign_component] on a valid entity of a reachable registry
    (vectors hold 2^22 entries) returns the stored component: the value
    given, or the shared empty value for an empty type.  Afterwards [find]
    and [exists] see it, and no other component and no entity changes. *)
Theorem assign_component_round_trip r nd T e (v : value)
  (Hmx : (2 ^ 22 <= mx)%Z) (Hr : reachable_ r) (HT : family_ok T)
  (He : Registry.valid_entity r e = true) :
  let r' := snd (assign_component nd T e v r) in
  fst (assign_component nd T e v r) = Ok (assigned T v)
  /\ find_component nd r' T e = Ok (Some (assigned T v))
  /\ Registry.exists_component nd r' T e = Ok true
  /\ (forall T' e', (T', e') <> (T, e) -> component_at r' T' e' = component_at r T' e')
  /\ same_entities r r'.
Proof using Type*.
  intros r'. subst r'.
  pose proof (reachable_wf empty_value_ is_empty_v mx imx r Hr) as Hwf.
  destruct (assign_component nd T e v r) as [res r'] eqn:Ha. simpl.
  destruct (assign_component_spec empty_value_ is_empty_v mx nd T e v r res r' Hwf HT He Ha)
    as (Hwf' & Hsame & [(_ & ? & _) | (-> & Hat & Hframe)]); [lia |].
  assert (Registry.valid_entity r' e = true) as He'
    by (by rewrite (same_entities_valid r r')).
  split; [done |].
  split; [by rewrite (find_component_at empty_value_ nd r' T e He'), Hat |].
  split; [by eapply (exists_component_at empty_value_ is_empty_v) |].
  done.
Qed.

Lemma storage_ensure_is_assign st e (v : value) :
  Storage.wf st ->
  match Storage.find empty_value_ st e with
  | Some c => Storage.ensure empty_value_ mx e v st = (Ok c, st)
  | None => Storage.ensure empty_value_ mx e v st = Storage.assign empty_value_ mx e v st
  end.
Proof.
  intros Hwf. destruct st as [m | s]; simpl in *.
  - unfold SparseMap.find.
    destruct (SparseMap.find_slot entity_id_indexer m e) as [i |] eqn:Hs; [| done].
    pose proof (map_find_slot_lt entity_id_indexer m e i Hwf Hs) as Hlt.
    apply lookup_lt_is_Some_2 in Hlt as [x Hx]. by rewrite Hx.
  - by destruct (SparseSet.has entity_id_indexer s e).
Qed.

Lemma set_storages_same r slot st :
  values_ (storages_ r) !! slot = Some st ->
  set_storages (mk_sparse_map (keys_ (storages_ r))
                              (<[slot := st]> (values_ (storages_ r)))) r = r.
Proof.
  intros Hv. rewrite list_insert_id by done.
  destruct r as [? ? ? ? [? ?]]. done.
Qed.

(** X18.  [ensure_component] on a valid entity of a reachable registry
    returns the component the entity already has and leaves the registry
    exactly as it was; when the entity has none it is [assign_component]. *)
Theorem ensure_component_keeps r nd T e (v : value)
  (Hr : reachable_ r) (HT : family_ok T) (He : Registry.valid_entity r e = true) :
  match component_at r T e with
  | Some c => ensure_component nd T e v r = (Ok c, r)
  | None => ensure_component nd T e v r = assign_component nd T e v r
  end.
Proof using Type*.
  pose proof (reachable_wf empty_value_ is_empty_v mx imx r Hr) as Hwf.
  unfold Registry.ensure_component, Registry.assign_component.
  rewrite assert_valid by done. simpl.
  destruct (Registry.get_or_create_storage_ is_empty_v mx T r) as [rs r1] eqn:Hg.
  destruct (get_or_create_storage_spec empty_value_ is_empty_v mx T r rs r1 Hwf HT Hg)
    as (Hwf1 & Hsame1 & Hframe1 & [(-> & -> & Hlim) | (slot & st & -> & Hk & Hv & Hst)]).
  { destruct (component_at r T e) as [c |] eqn:Hc; [| done].
    exfalso. unfold Registry.get_or_create_storage_ in Hg.
    pose proof (component_at_family empty_value_ is_empty_v r T e c Hwf Hc) as Hin.
    destruct (family_slot is_empty_v r T Hwf Hin) as (sl & ? & _ & _ & _ & _ & Hsl & _).
    by rewrite Hsl in Hg. }
  pose proof (component_at_slot is_empty_v r1 T slot st e Hwf1 Hk Hv) as Hfind1.
  destruct (find_storage_wf is_empty_v r1 T st Hwf1 Hfind1) as (Hstwf & _).
  pose proof (storage_ensure_is_assign st e v Hstwf) as Hens.
  rewrite (Hst e) in Hens.
  rewrite !(on_storage_eq slot _ r1 st Hv).
  destruct (component_at r T e) as [c |] eqn:Hc.
  - rewrite Hens. simpl. f_equal.
    assert (r1 = r) as Hr1.
    { unfold Registry.get_or_create_storage_ in Hg.
      pose proof (component_at_family empty_value_ is_empty_v r T e c Hwf Hc) as Hin.
      destruct (family_slot is_empty_v r T Hwf Hin) as (sl & ? & _ & _ & _ & _ & Hsl & _).
      rewrite Hsl in Hg. by injection Hg as _ <-. }
    subst r1. by apply set_storages_same.
  - by rewrite Hens.
Qed.

(** X19.  [remove_component] on a valid entity of a reachable registry
    returns whether the entity had the component; afterwards it has none,
    and no other component and no entity changes. *)
Theorem remove_component_effect r nd T e
  (Hr : reachable_ r) (He : Registry.valid_entity r e = true) :
  let r' := snd (Registry.remove_component nd T e r) in
  fst (Registry.remove_component nd T e r)
  = Ok (bool_decide (is_Some (component_at r T e)))
  /\ component_at r' T e = None
  /\ (forall T' e', (T', e') <> (T, e) -> component_at r' T' e' = component_at r T' e')
  /\ same_entities r r'.
Proof using Type*.
  intros r'. subst r'.
  pose proof (reachable_wf empty_value_ is_empty_v mx imx r Hr) as Hwf.
  unfold Registry.remove_component. rewrite assert_valid by done. simpl.
  destruct (Registry.find_storage_slot_ r T) as [slot |] eqn:Hslot.
  - destruct (find_storage_slot_Some is_empty_v r T slot Hwf Hslot) as (st & Hv & Hfind & Hk).
    destruct (find_storage_wf is_empty_v r T st Hwf Hfind) as (Hstwf & Hids & _).
    destruct (Storage.remove e st) as [b st'] eqn:Hrm.
    destruct (storage_remove_spec empty_value_ e st b st' Hstwf Hrm)
      as (Hwf' & Hkind' & Hb & Hgone & Hframe & Hi).
    destruct (on_storage_spec empty_value_ is_empty_v r T slot st
                (fun st => let '(b, st') := Storage.remove e st in (Ok b, st'))
                (Ok b) st' Hwf Hk Hv) as (r1 & Hon & Hwf1 & Hsame1 & _ & _ & Hat1 & Hne1);
      try done.
    { by rewrite Hrm. }
    { intros e' [? _]%Hi. by apply Hids. }
    rewrite Hon. simpl. split.
    { f_equal. rewrite Hb. apply eq_true_iff_eq.
      rewrite bool_decide_eq_true.
      by apply (storage_has_component empty_value_ is_empty_v). }
    split; [by rewrite Hat1 |]. split; [| done].
    intros T' e' Hne. destruct (decide (T' = T)) as [-> | HT]; [| by apply Hne1].
    rewrite Hat1, Hframe by congruence.
    unfold Registry.component_at. by rewrite Hfind.
  - simpl. apply (find_storage_slot_None r T) in Hslot.
    assert (component_at r T e = None) as Hnone
      by (unfold Registry.component_at; by rewrite Hslot).
    rewrite Hnone. rewrite bool_decide_eq_false_2 by (by intros [? ?]). done.
Qed.

Lemma storage_count_ids st : Storage.wf st -> Storage.count st = length (Storage.ids st).
Proof.
  destruct st as [m | s]; simpl; [| done]. intros [_ Hlen]. done.
Qed.

(** X20.  [remove_all_components<T>()] on a reachable registry returns
    [component_count<T>()]; afterwards no entity has a component of type
    [T] and the count is zero, while the components of the other types and
    the entities are as before. *)
Theorem remove_all_components_of_effect r T (Hr : reachable_ r) :
  let r' := snd (Registry.remove_all_components_of T r) in
  fst (Registry.remove_all_components_of T r) = Registry.component_count r T
  /\ Registry.component_count r' T = 0
  /\ (forall e, component_at r' T e = None)
  /\ (forall T' e, T' <> T -> component_at r' T' e = component_at r T' e)
  /\ same_entities r r'.
Proof using Type*.
  intros r'. subst r'.
  pose proof (reachable_wf empty_value_ is_empty_v mx imx r Hr) as Hwf.
  unfold Registry.remove_all_components_of, Registry.component_count.
  destruct (Registry.find_storage_slot_ r T) as [slot |] eqn:Hslot.
  - destruct (find_storage_slot_Some is_empty_v r T slot Hwf Hslot) as (st & Hv & Hfind & Hk).
    destruct (find_storage_wf is_empty_v r T st Hwf Hfind) as (Hstwf & Hids & _).
    destruct (Storage.remove_all st) as [n st'] eqn:Hrm.
    destruct (storage_remove_all_spec st n st' Hrm) as (Hwf' & Hkind' & Hempty).
    destruct (on_storage_spec empty_value_ is_empty_v r T slot st
                (fun st => let '(n, st') := Storage.remove_all st in (Ok n, st'))
                (Ok n) st' Hwf Hk Hv) as (r1 & Hon & Hwf1 & Hsame1 & _ & Hfind1 & Hat1 & Hne1);
      try done.
    { by rewrite Hrm. }
    { intros e'. rewrite Hempty. by intros ?%elem_of_nil. }
    rewrite Hon. simpl. rewrite Hfind. fold (find_storage_ r1 T). rewrite Hfind1.
    split.
    { destruct st; simpl in Hrm; by injection Hrm as <- _. }
    split; [by rewrite storage_count_ids, Hempty |].
    split; [| done].
    intros e. rewrite Hat1. apply eq_None_not_Some.
    rewrite (storage_find_is_Some empty_value_ st' e Hwf'), Hempty.
    by intros ?%elem_of_nil.
  - simpl. apply (find_storage_slot_None r T) in Hslot. rewrite Hslot.
    split; [done |]. split; [done |]. split; [| done].
    intros e. unfold Registry.component_at. by rewrite Hslot.
Qed.
End RegistryComponentExtras.

Section RegistryCloneExtras.
Context {value : Type}.
Variable empty_value_ : value.
Variable is_empty_v : Z -> bool.
Variable mx : Z.
Variable imx : Z.
Implicit Types (r : registry value) (e ent proto T : Z) (st : component_storage value).

Abbreviation rwf := (registry_wf (value := value) is_empty_v).
Abbreviation reachable_ := (reachable empty_value_ is_empty_v mx imx).
Abbreviation find_storage_ := (Registry.find_storage_ (value := value)).
Abbreviation component_at := (Registry.component_at empty_value_).
Abbreviation sfind := (Storage.find empty_value_).
Abbreviation assigned := (assigned_value empty_value_ is_empty_v).
Abbreviation create_entity := (Registry.create_entity (value := value) mx imx).
Abbreviation find_applier := (fun p : prototype value => SparseMap.find sparse_indexer (appliers_ p)).
Abbreviation families r := (dense_ (keys_ (storages_ r))).
Abbreviation live r := (dense_ (entity_ids_ r)).

Lemma storage_clone_outcome proto ent st :
  Storage.wf st -> Storage.no_collision st ent ->
  (Z.of_nat (entity_id_indexer ent) + 1 <= mx)%Z ->
  exists st',
    Storage.clone empty_value_ mx proto ent st = (Ok tt, st')
    /\ Storage.wf st'
    /\ Storage.is_empty_kind st' = Storage.is_empty_kind st
    /\ (forall e', e' ∈ Storage.ids st' -> e' ∈ Storage.ids st \/ e' = ent)
    /\ forall e',
         sfind st' e'
         = if decide (e' = ent)
           then match sfind st proto with Some c => Some c | None => sfind st ent end
           else sfind st e'.
Proof.
  intros Hwf Hnc Hroom. unfold Storage.clone.
  destruct (sfind st proto) as [c |] eqn:Hc.
  - destruct (Storage.assign empty_value_ mx ent c st) as [res st'] eqn:Ha.
    destruct (storage_assign_spec empty_value_ mx ent c st res st' Hwf Hnc Ha)
      as (Hwf' & Hkind & [(_ & _ & ?) | (-> & Hnew & Hframe & Hids)]); [lia |].
    assert (Storage.stored empty_value_ st c = c) as Hstored.
    { unfold Storage.stored. destruct st as [m | s]; simpl; [done |].
      rewrite storage_find_empty in Hc.
      destruct (SparseSet.has entity_id_indexer s proto); congruence. }
    rewrite Hstored in Hnew.
    exists st'. split; [done |]. split; [done |]. split; [done |]. split.
    + intros e' He'. by apply Hids.
    + intros e'. destruct (decide (e' = ent)) as [-> | Hne]; [done | by apply Hframe].
  - exists st. split; [done |]. split; [done |]. split; [done |]. split; [by left |].
    intros e'. by destruct (decide (e' = ent)) as [-> |].
Qed.

Lemma entity_indexer_room r e :
  (2 ^ 22 <= mx)%Z -> rwf r -> Registry.valid_entity r e = true ->
  (Z.of_nat (entity_id_indexer e) + 1 <= mx)%Z.
Proof.
  intros Hmx Hwf He. apply (registry_wf_valid is_empty_v) in He; [| done].
  apply (registry_wf_live is_empty_v r e Hwf) in He as [[H0 _] _].
  pose proof (entity_id_index_range e H0). unfold entity_id_indexer. lia.
Qed.

(** The loop of [create_entity(const const_uentity&)]. *)
Lemma clone_steps_spec proto ent l rk :
  (2 ^ 22 <= mx)%Z -> rwf rk -> Registry.valid_entity rk ent = true ->
  NoDup l -> (forall T, T ∈ l -> T ∈ families rk) ->
  exists r',
    foldl (Registry.clone_step empty_value_ mx proto ent) (Ok tt, rk) l = (Ok tt, r')
    /\ rwf r' /\ same_entities rk r'
    /\ keys_ (storages_ r') = keys_ (storages_ rk)
    /\ forall T e',
         component_at r' T e'
         = if decide (e' = ent /\ T ∈ l)
           then match component_at rk T proto with
                | Some c => Some c
                | None => component_at rk T ent
                end
           else component_at rk T e'.
Proof.
  intros Hmx. revert rk. induction l as [| T l IH]; intros rk Hwf He Hnd Hkeys.
  - exists rk. simpl. split; [done |]. split; [done |]. split; [done |].
    split; [done |]. intros T e'.
    rewrite decide_False; [done |]. intros [_ ?%elem_of_nil]. done.
  - apply NoDup_cons in Hnd as [HT Hnd].
    destruct (family_slot is_empty_v rk T Hwf) as (slot & st & Hk & Hv & Hgs & _ & _ & Hfind);
      [apply Hkeys, list_elem_of_here |].
    destruct (find_storage_wf is_empty_v rk T st Hwf Hfind) as (Hstwf & Hids & _).
    destruct (storage_clone_outcome proto ent st Hstwf)
      as (st' & Hcl & Hwf' & Hkind & Hids' & Hst').
    { apply (storage_no_collision_live is_empty_v rk); try done.
      by eapply find_storage_elem. }
    { by eapply entity_indexer_room. }
    destruct (on_storage_spec empty_value_ is_empty_v rk T slot st
                (Storage.clone empty_value_ mx proto ent) (Ok tt) st' Hwf Hk Hv Hcl Hwf')
      as (r1 & Hon & Hwf1 & Hsame1 & Hkeys1 & _ & Hat1 & Hne1); [| done |].
    { intros e' [? | ->]%Hids'; [by apply Hids |].
      by apply (registry_wf_valid is_empty_v). }
    destruct (IH r1 Hwf1) as (r' & Hfold & Hwf2 & Hsame2 & Hkeys2 & Hat2); [| done | |].
    { by rewrite (same_entities_valid rk r1). }
    { intros T' HT'. rewrite Hkeys1. by apply Hkeys, list_elem_of_further. }
    exists r'. split; [| split; [done | split; [by eapply same_entities_trans | split]]].
    + simpl. by rewrite Hgs, Hon.
    + congruence.
    + intros T' e'. rewrite Hat2.
      assert (forall x, component_at rk T x = sfind st x) as Hrk
        by (intros x; unfold Registry.component_at; by rewrite Hfind).
      destruct (decide (e' = ent /\ T' ∈ l)) as [[-> HT'] | Hout].
      * rewrite decide_True by (split; [done | by apply list_elem_of_further]).
        assert (T' <> T) as Hne by (intros ->; done).
        by rewrite !Hne1.
      * destruct (decide (T' = T)) as [-> | HneT].
        -- rewrite Hat1, Hst'. destruct (decide (e' = ent)) as [-> | Hne].
           ++ rewrite decide_True by (split; [done | apply list_elem_of_here]).
              by rewrite !Hrk.
           ++ rewrite decide_False by (intros [? _]; done). by rewrite Hrk.
        -- rewrite Hne1 by done.
           destruct (decide (e' = ent /\ T' ∈ T :: l)) as [[-> Hin] |]; [| done].
           apply elem_of_cons in Hin as [? | ?]; [done |]. exfalso. by apply Hout.
Qed.

(** X21.  [create_entity(proto)] for a valid entity [proto] of a reachable
    registry (vectors hold 2^22 entries) fails only with the index overflow
    of [create_entity], leaving the registry as it was; otherwise it returns
    the id [create_entity] would have issued, now valid, with a copy of
    every component of [proto] and nothing else, and no other entity
    changes. *)
Theorem create_entity_clone_copies r nd proto
  (Hmx : (2 ^ 22 <= mx)%Z) (Himx : (2 ^ 22 <= imx)%Z) (Hr : reachable_ r)
  (Hp : Registry.valid_entity r proto = true) :
  match Registry.create_entity_clone empty_value_ mx imx nd proto r with
  | (Ok ent, r') =>
      fst (create_entity r) = Ok ent
      /\ Registry.valid_entity r ent = false
      /\ Registry.valid_entity r' ent = true
      /\ (forall e, e <> ent -> Registry.valid_entity r' e = Registry.valid_entity r e)
      /\ (forall T, component_at r' T ent = component_at r T proto)
      /\ (forall T e, e <> ent -> component_at r' T e = component_at r T e)
  | (Throw ex, r') => ex = entity_index_overflow /\ r' = r
  | (Abort, _) => False
  end.
Proof using Type*.
  pose proof (reachable_wf empty_value_ is_empty_v mx imx r Hr) as Hwf.
  unfold Registry.create_entity_clone. rewrite assert_valid by done. simpl.
  pose proof (create_entity_outcomes empty_value_ is_empty_v mx imx r Hmx Himx Hwf) as Hout.
  destruct (create_entity r) as [[ent | ex |] r1] eqn:Hc; [| done | done].
  destruct Hout as (_ & Hfresh & Hvalid & Hothers & _ & Hst & Hnone & Hwf1).
  destruct (clone_steps_spec proto ent (families r1) r1 Hmx Hwf1 Hvalid)
    as (r2 & Hfold & Hwf2 & Hsame & _ & Hat); [| done |].
  { apply (set_wf_NoDup sparse_indexer), Hwf1. }
  rewrite Hfold. simpl.
  split; [done |]. split; [done |].
  split; [by rewrite (same_entities_valid r1 r2) |].
  split; [intros e Hne; rewrite (same_entities_valid r1 r2) by done; by apply Hothers |].
  split.
  - intros T. rewrite Hat. rewrite Hnone.
    rewrite (component_at_storages empty_value_ r r1 T proto) by done.
    destruct (decide (ent = ent /\ T ∈ families r1)) as [| Hout];
      [by destruct (component_at r T proto) |].
    destruct (component_at r T proto) as [c |] eqn:Hcp; [| done].
    exfalso. apply Hout. split; [done |]. rewrite Hst.
    by apply (component_at_family empty_value_ is_empty_v r T proto c).
  - intros T e Hne. rewrite Hat.
    rewrite decide_False by (intros [? _]; done).
    by apply component_at_storages.
Qed.

(** X22.  [create_entity(prototype)] on a reachable registry (vectors hold
    2^22 entries, the prototype as its builders leave it) fails only with
    the index overflow of [create_entity], leaving the registry as it was;
    otherwise the new entity has exactly the components of the prototype's
    appliers, and no other entity changes. *)
Theorem create_entity_from_prototype r nd (p : prototype value)
  (Hmx : (2 ^ 22 <= mx)%Z) (Himx : (2 ^ 22 <= imx)%Z) (Hr : reachable_ r)
  (Hp : Prototype.wf p) :
  match Prototype.create_entity_from empty_value_ is_empty_v mx imx nd p r with
  | (Ok ent, r') =>
      fst (create_entity r) = Ok ent
      /\ Registry.valid_entity r ent = false
      /\ Registry.valid_entity r' ent = true
      /\ (forall e, e <> ent -> Registry.valid_entity r' e = Registry.valid_entity r e)
      /\ (forall T, component_at r' T ent
                    = (fun a => assigned T (args_ a)) <$> find_applier p T)
      /\ (forall T e, e <> ent -> component_at r' T e = component_at r T e)
  | (Throw ex, r') => ex = entity_index_overflow /\ r' = r
  | (Abort, _) => False
  end.
Proof using Type*.
  pose proof (reachable_wf empty_value_ is_empty_v mx imx r Hr) as Hwf.
  unfold Prototype.create_entity_from.
  pose proof (create_entity_outcomes empty_value_ is_empty_v mx imx r Hmx Himx Hwf) as Hout.
  destruct (create_entity r) as [[ent | ex |] r1] eqn:Hc; [| done | done].
  destruct Hout as (_ & Hfresh & Hvalid & Hothers & _ & Hst & Hnone & Hwf1).
  destruct (apply_to_entity_spec empty_value_ is_empty_v mx nd r1 p ent true
              Hmx Hwf1 Hp Hvalid) as (r2 & Hrun & Hframe & Hkeep & Hset).
  rewrite Hrun.
  destruct (apply_to_entity_wf empty_value_ is_empty_v mx nd p ent true r1 (Ok tt) r2
              Hwf1 Hp Hvalid Hrun) as (_ & Hsame & _).
  split; [done |]. split; [done |].
  split; [by rewrite (same_entities_valid r1 r2) |].
  split; [intros e Hne; rewrite (same_entities_valid r1 r2) by done; by apply Hothers |].
  split.
  - intros T. destruct (find_applier p T) as [a |] eqn:Hfa; simpl.
    + by apply Hset.
    + rewrite Hkeep by done. apply Hnone.
  - intros T e Hne. rewrite Hframe by done. by apply component_at_storages.
Qed.
End RegistryCloneExtras.

(** *** The registry operations on the example state *)

Lemma demo_registry_reachable :
  reachable 0%Z demo_is_empty demo_sparse_max demo_ids_max demo_registry.
Proof.
  apply (run_checked_reachable 0%Z demo_is_empty demo_sparse_max demo_ids_max
           demo_ops registry_init); [apply reachable_init |].
  vm_compute. reflexivity.
Qed.

Lemma demo_limits : (2 ^ 22 <= demo_sparse_max)%Z /\ (2 ^ 22 <= demo_ids_max)%Z.
Proof. unfold demo_sparse_max, demo_ids_max. lia. Qed.

(** The invariant on the example state. *)
Lemma reachable_registry_invariant_witness :
  (Z.of_nat (Registry.entity_count demo_registry)
   + Z.of_nat (length (free_entity_ids_ demo_registry))
   = last_entity_id_ demo_registry)%Z
  /\ (0 <= last_entity_id_ demo_registry <= 2 ^ 22 - 1)%Z
  /\ NoDup (entity_id_index <$> (dense_ (entity_ids_ demo_registry)
                                 ++ free_entity_ids_ demo_registry))
  /\ (forall e, Registry.valid_entity demo_registry e = true <->
                e ∈ dense_ (entity_ids_ demo_registry))
  /\ (forall e, Registry.valid_entity demo_registry e = true ->
        is_uint32 e /\ (1 <= entity_id_index e <= last_entity_id_ demo_registry)%Z)
  /\ (forall T e c, Registry.component_at 0%Z demo_registry T e = Some c ->
        Registry.valid_entity demo_registry e = true /\ family_ok T)
  /\ (forall T st, Registry.find_storage_ demo_registry T = Some st ->
        Storage.is_empty_kind st = demo_is_empty T).
Proof.
  apply (reachable_registry_invariant 0%Z demo_is_empty demo_sparse_max demo_ids_max
           demo_registry).
  apply demo_registry_reachable.
Defined.

(** A third entity for the example state. *)
Lemma create_entity_fresh_witness :
  match Registry.create_entity demo_sparse_max demo_ids_max demo_registry with
  | (Ok ent, r') =>
      ent = match last (free_entity_ids_ demo_registry) with
            | Some free_ent_id => upgrade_entity_id free_ent_id
            | None => (last_entity_id_ demo_registry + 1)%Z
            end
      /\ Registry.valid_entity demo_registry ent = false
      /\ Registry.valid_entity r' ent = true
      /\ (forall e, e <> ent ->
            Registry.valid_entity r' e = Registry.valid_entity demo_registry e)
      /\ Registry.entity_count r' = S (Registry.entity_count demo_registry)
      /\ storages_ r' = storages_ demo_registry
      /\ (forall T, Registry.component_at 0%Z r' T ent = None)
      /\ reachable 0%Z demo_is_empty demo_sparse_max demo_ids_max r'
  | (Throw ex, r') => ex = entity_index_overflow /\ r' = demo_registry
  | (Abort, _) => False
  end.
Proof.
  apply (create_entity_fresh 0%Z demo_is_empty demo_sparse_max demo_ids_max demo_registry).
  - apply demo_limits.
  - apply demo_limits.
  - apply demo_registry_reachable.
Defined.

(** Family 2 of entity 2, which has no such component. *)
Lemma component_lookups_agree_witness :
  Registry.find_component 0%Z false demo_registry 2 2
  = Ok (Registry.component_at 0%Z demo_registry 2 2)
  /\ Registry.exists_component false demo_registry 2 2
     = Ok (bool_decide (is_Some (Registry.component_at 0%Z demo_registry 2 2)))
  /\ Registry.get_component 0%Z false demo_registry 2 2
     = match Registry.component_at 0%Z demo_registry 2 2 with
       | Some c => Ok c
       | None => Throw component_not_found
       end
  /\ is_logic_error component_not_found = true.
Proof.
  apply (component_lookups_agree 0%Z demo_is_empty demo_sparse_max demo_ids_max
           demo_registry false 2%Z 2%Z).
  - apply demo_registry_reachable.
  - vm_compute. reflexivity.
Defined.

(** Family 1 of the example state. *)
Lemma component_count_live_witness :
  Registry.component_count demo_registry 1
  = length (filter (fun e => is_Some (Registry.component_at 0%Z demo_registry 1 e))
                   (dense_ (entity_ids_ demo_registry))).
Proof.
  apply (component_count_live 0%Z demo_is_empty demo_sparse_max demo_ids_max
           demo_registry 1%Z).
  apply demo_registry_reachable.
Defined.

(** Entity 1 of the example state loses its three components. *)
Lemma remove_all_components_count_witness :
  let n := length (filter (fun T => is_Some (Registry.component_at 0%Z demo_registry T 1))
                          (dense_ (keys_ (storages_ demo_registry)))) in
  let r' := snd (Registry.remove_all_components false 1 demo_registry) in
  fst (Registry.remove_all_components false 1 demo_registry) = Ok n
  /\ Registry.entity_component_count false demo_registry 1 = Ok n
  /\ Registry.entity_component_count false r' 1 = Ok 0
  /\ (forall T, Registry.component_at 0%Z r' T 1 = None)
  /\ (forall T e, e <> 1%Z ->
        Registry.component_at 0%Z r' T e = Registry.component_at 0%Z demo_registry T e)
  /\ same_entities demo_registry r'.
Proof.
  apply (remove_all_components_count 0%Z demo_is_empty demo_sparse_max demo_ids_max
           demo_registry false 1%Z).
  - apply demo_registry_reachable.
  - vm_compute. reflexivity.
Defined.

(** Entity 1 of the example state destroyed. *)
Lemma destroy_entity_effect_witness :
  let r' := snd (Registry.destroy_entity false 1 demo_registry) in
  fst (Registry.destroy_entity false 1 demo_registry) = Ok tt
  /\ Registry.valid_entity r' 1 = false
  /\ (forall e, e <> 1%Z ->
        Registry.valid_entity r' e = Registry.valid_entity demo_registry e)
  /\ S (Registry.entity_count r') = Registry.entity_count demo_registry
  /\ last (free_entity_ids_ r') = Some 1%Z
  /\ (forall T, Registry.component_at 0%Z r' T 1 = None)
  /\ (forall T e, e <> 1%Z ->
        Registry.component_at 0%Z r' T e = Registry.component_at 0%Z demo_registry T e).
Proof.
  apply (destroy_entity_effect 0%Z demo_is_empty demo_sparse_max demo_ids_max
           demo_registry false 1%Z).
  - apply demo_registry_reachable.
  - vm_compute. reflexivity.
Defined.

(** A component of the empty family 3 for entity 2: the argument is dropped. *)
Lemma assign_component_round_trip_witness :
  let r' := snd (Registry.assign_component 0%Z demo_is_empty demo_sparse_max false
                   3 2 77%Z demo_registry) in
  fst (Registry.assign_component 0%Z demo_is_empty demo_sparse_max false
         3 2 77%Z demo_registry)
  = Ok (assigned_value 0%Z demo_is_empty 3 77%Z)
  /\ Registry.find_component 0%Z false r' 3 2
     = Ok (Some (assigned_value 0%Z demo_is_empty 3 77%Z))
  /\ Registry.exists_component false r' 3 2 = Ok true
  /\ (forall T' e', (T', e') <> (3%Z, 2%Z) ->
        Registry.component_at 0%Z r' T' e' = Registry.component_at 0%Z demo_registry T' e')
  /\ same_entities demo_registry r'.
Proof.
  apply (assign_component_round_trip 0%Z demo_is_empty demo_sparse_max demo_ids_max
           demo_registry false 3%Z 2%Z 77%Z).
  - apply demo_limits.
  - apply demo_registry_reachable.
  - unfold family_ok. lia.
  - vm_compute. reflexivity.
Defined.

(** Entity 1 has a component of family 1 already. *)
Lemma ensure_component_keeps_witness :
  match Registry.component_at 0%Z demo_registry 1 1 with
  | Some c =>
      Registry.ensure_component 0%Z demo_is_empty demo_sparse_max false 1 1 99%Z
        demo_registry = (Ok c, demo_registry)
  | None =>
      Registry.ensure_component 0%Z demo_is_empty demo_sparse_max false 1 1 99%Z
        demo_registry
      = Registry.assign_component 0%Z demo_is_empty demo_sparse_max false 1 1 99%Z
          demo_registry
  end.
Proof.
  apply (ensure_component_keeps 0%Z demo_is_empty demo_sparse_max demo_ids_max
           demo_registry false 1%Z 1%Z 99%Z).
  - apply demo_registry_reachable.
  - unfold family_ok. lia.
  - vm_compute. reflexivity.
Defined.

(** Family 1 removed from entity 1. *)
Lemma remove_component_effect_witness :
  let r' := snd (Registry.remove_component false 1 1 demo_registry) in
  fst (Registry.remove_component false 1 1 demo_registry)
  = Ok (bool_decide (is_Some (Registry.component_at 0%Z demo_registry 1 1)))
  /\ Registry.component_at 0%Z r' 1 1 = None
  /\ (forall T' e', (T', e') <> (1%Z, 1%Z) ->
        Registry.component_at 0%Z r' T' e' = Registry.component_at 0%Z demo_registry T' e')
  /\ same_entities demo_registry r'.
Proof.
  apply (remove_component_effect 0%Z demo_is_empty demo_sparse_max demo_ids_max
           demo_registry false 1%Z 1%Z).
  - apply demo_registry_reachable.
  - vm_compute. reflexivity.
Defined.

(** Family 1 removed from every entity. *)
Lemma remove_all_components_of_effect_witness :
  let r' := snd (Registry.remove_all_components_of 1 demo_registry) in
  fst (Registry.remove_all_components_of 1 demo_registry)
  = Registry.component_count demo_registry 1
  /\ Registry.component_count r' 1 = 0
  /\ (forall e, Registry.component_at 0%Z r' 1 e = None)
  /\ (forall T' e, T' <> 1%Z ->
        Registry.component_at 0%Z r' T' e = Registry.component_at 0%Z demo_registry T' e)
  /\ same_entities demo_registry r'.
Proof.
  apply (remove_all_components_of_effect 0%Z demo_is_empty demo_sparse_max demo_ids_max
           demo_registry 1%Z).
  apply demo_registry_reachable.
Defined.

(** A clone of entity 1. *)
Lemma create_entity_clone_copies_witness :
  match Registry.create_entity_clone 0%Z demo_sparse_max demo_ids_max false 1
          demo_registry with
  | (Ok ent, r') =>
      fst (Registry.create_entity demo_sparse_max demo_ids_max demo_registry) = Ok ent
      /\ Registry.valid_entity demo_registry ent = false
      /\ Registry.valid_entity r' ent = true
      /\ (forall e, e <> ent ->
            Registry.valid_entity r' e = Registry.valid_entity demo_registry e)
      /\ (forall T, Registry.component_at 0%Z r' T ent
                    = Registry.component_at 0%Z demo_registry T 1)
      /\ (forall T e, e <> ent ->
            Registry.component_at 0%Z r' T e = Registry.component_at 0%Z demo_registry T e)
  | (Throw ex, r') => ex = entity_index_overflow /\ r' = demo_registry
  | (Abort, _) => False
  end.
Proof.
  apply (create_entity_clone_copies 0%Z demo_is_empty demo_sparse_max demo_ids_max
           demo_registry false 1%Z).
  - apply demo_limits.
  - apply demo_limits.
  - apply demo_registry_reachable.
  - vm_compute. reflexivity.
Defined.

(** An entity made from [demo_prototype]. *)
Lemma create_entity_from_prototype_witness :
  match Prototype.create_entity_from 0%Z demo_is_empty demo_sparse_max demo_ids_max
          false demo_prototype demo_registry with
  | (Ok ent, r') =>
      fst (Registry.create_entity demo_sparse_max demo_ids_max demo_registry) = Ok ent
      /\ Registry.valid_entity demo_registry ent = false
      /\ Registry.valid_entity r' ent = true
      /\ (forall e, e <> ent ->
            Registry.valid_entity r' e = Registry.valid_entity demo_registry e)
      /\ (forall T, Registry.component_at 0%Z r' T ent
                    = (fun a => assigned_value 0%Z demo_is_empty T (args_ a))
                        <$> SparseMap.find sparse_indexer (appliers_ demo_prototype) T)
      /\ (forall T e, e <> ent ->
            Registry.component_at 0%Z r' T e = Registry.component_at 0%Z demo_registry T e)
  | (Throw ex, r') => ex = entity_index_overflow /\ r' = demo_registry
  | (Abort, _) => False
  end.
Proof.
  apply (create_entity_from_prototype 0%Z demo_is_empty demo_sparse_max demo_ids_max
           demo_registry false demo_prototype).
  - apply demo_limits.
  - apply demo_limits.
  - apply demo_registry_reachable.
  - apply demo_prototype_wf.
Defined.

Example registry_operations_demo :
  Registry.component_count demo_registry 1 = 2
  /\ Registry.entity_component_count false demo_registry 1 = Ok 3
  /\ fst (Registry.remove_all_components false 1 demo_registry) = Ok 3
  /\ fst (Registry.create_entity_clone 0%Z demo_sparse_max demo_ids_max false 1
            demo_registry) = Ok 3%Z
  /\ Registry.component_at 0%Z
       (snd (Registry.create_entity_clone 0%Z demo_sparse_max demo_ids_max false 1
               demo_registry)) 2 3 = Some 20%Z
  /\ Registry.get_component 0%Z false demo_registry 2 2 = Throw component_not_found
  /\ Registry.get_component 0%Z false demo_registry 1 2 = Ok 40%Z.
Proof. vm_compute. repeat split. Qed.

(** ** Prototypes, builder by builder *)

Section PrototypeExtras.
Context {value : Type}.
Variable mx : Z.
Implicit Types (p other : prototype value) (T family : Z) (a : applier value) (v c : value).

Abbreviation find_applier := (fun p : prototype value => SparseMap.find sparse_indexer (appliers_ p)).

Lemma prototype_no_collision p T :
  Prototype.wf p -> family_ok T ->
  SparseSet.no_collision sparse_indexer (keys_ (appliers_ p)) T.
Proof.
  intros Hp HT w Hw Heq. apply (prototype_keys_ok p w Hp) in Hw.
  unfold sparse_indexer, family_ok in *. apply Z2Nat.inj; lia.
Qed.

(** Storing an applier under its own family. *)
Lemma prototype_store p a :
  (2 ^ 16 <= mx)%Z -> Prototype.wf p -> family_ok (applier_family a) ->
  exists b m,
    SparseMap.insert_or_assign sparse_indexer mx (applier_family a) a (appliers_ p)
    = (Ok b, m)
    /\ Prototype.wf (mk_prototype m)
    /\ SparseMap.find sparse_indexer m (applier_family a) = Some a
    /\ (forall T', T' <> applier_family a ->
          SparseMap.find sparse_indexer m T' = find_applier p T')
    /\ (forall T', T' ∈ dense_ (keys_ m) <->
          T' ∈ dense_ (keys_ (appliers_ p)) \/ T' = applier_family a).
Proof.
  intros Hmx Hp HT. pose proof Hp as [Hm Hf].
  assert (forall m,
            SparseMap.wf sparse_indexer m ->
            SparseMap.find sparse_indexer m (applier_family a) = Some a ->
            (forall T', T' <> applier_family a ->
               SparseMap.find sparse_indexer m T' = find_applier p T') ->
            Prototype.wf (mk_prototype m)) as Hwf.
  { intros m Hwfm Hnew Hold. split; [done |]. intros family a' Hin. simpl in Hin.
    apply (map_find_entries sparse_indexer) in Hin; [| done].
    destruct (decide (family = applier_family a)) as [-> | Hne].
    - rewrite Hnew in Hin. by injection Hin as <-.
    - rewrite Hold in Hin by done.
      apply (map_find_entries sparse_indexer) in Hin; [| done]. by apply Hf. }
  unfold SparseMap.insert_or_assign.
  destruct (SparseMap.find_slot sparse_indexer (appliers_ p) (applier_family a))
    as [i |] eqn:Hslot.
  - apply map_find_slot_Some in Hslot; [| done].
    pose proof (map_set_slot_wf sparse_indexer (appliers_ p) i a Hm) as Hm'.
    pose proof (map_set_slot_find sparse_indexer (appliers_ p) i _ a Hm Hslot) as Hnew.
    pose proof (fun T' => map_set_slot_find_ne sparse_indexer (appliers_ p) i
                            (applier_family a) T' a Hm Hslot) as Hold.
    eexists _, _. split; [reflexivity |]. split; [by apply Hwf |].
    split; [done |]. split; [done |]. simpl. intros T'. split; [by left |].
    intros [? | ->]; [done |]. by eapply list_elem_of_lookup_2.
  - pose proof (map_insert_new_outcomes sparse_indexer mx (applier_family a) a
                  (appliers_ p) (sparse_indexer_size _ HT) Hm
                  (prototype_no_collision p _ Hp HT) Hslot) as [Hwfm Hres].
    destruct (SparseMap.insert_new sparse_indexer mx (applier_family a) a (appliers_ p))
      as [res m] eqn:Hins. simpl in *.
    destruct res as [[|] | ex |]; try done.
    + destruct Hres as (Hnew & Hold & _).
      eexists _, _. split; [reflexivity |]. split; [by apply Hwf |].
      split; [done |]. split; [done |].
      intros T'. rewrite <- !(map_find_is_Some sparse_indexer) by done.
      destruct (decide (T' = applier_family a)) as [-> | Hne].
      * rewrite Hnew. split; [by right | by eexists].
      * rewrite Hold by done. tauto.
    + destruct Hres as (_ & _ & Hlim). unfold sparse_indexer, family_ok in *. lia.
Qed.

(** X23.  [prototype::component<T>(args)] (family ids fit the sparse
    vector) records an applier for [T]: afterwards [has_component<T>] holds
    and [apply_to_component<T>] overwrites a component with [T{args}]; an
    applier recorded before for [T] is replaced, the appliers of the other
    types are kept. *)
Theorem prototype_component_records p T v
  (Hmx : (2 ^ 16 <= mx)%Z) (Hp : Prototype.wf p) (HT : family_ok T) :
  let p' := snd (Prototype.component mx T v p) in
  fst (Prototype.component mx T v p) = Ok tt
  /\ Prototype.wf p'
  /\ Prototype.has_component p' T = true
  /\ (forall c, Prototype.apply_to_component p' T c = (true, v))
  /\ (forall T' c, T' <> T ->
        Prototype.has_component p' T' = Prototype.has_component p T'
        /\ Prototype.apply_to_component p' T' c = Prototype.apply_to_component p T' c).
Proof.
  intros p'. subst p'. unfold Prototype.component.
  destruct (prototype_store p (mk_applier T v) Hmx Hp HT)
    as (b & m & Hins & Hwf & Hnew & Hold & _). simpl in *.
  rewrite Hins. simpl. split; [done |]. split; [done |].
  pose proof Hwf as [Hm _]. pose proof Hp as [Hm0 _]. simpl in Hm.
  split.
  { unfold Prototype.has_component. simpl.
    apply (map_find_has sparse_indexer); [done |]. by rewrite Hnew. }
  split.
  { intros c. unfold Prototype.apply_to_component. simpl. by rewrite Hnew. }
  intros T' c Hne. split.
  - unfold Prototype.has_component. simpl. apply eq_true_iff_eq.
    rewrite !(map_find_has sparse_indexer) by done. by rewrite Hold.
  - unfold Prototype.apply_to_component. simpl. by rewrite Hold.
Qed.

Lemma applier_clone_id a : Prototype.applier_clone a = a.
Proof. by destruct a. Qed.

(** The loop of [merge_with]. *)
Lemma merge_steps_spec other override l p0 :
  (2 ^ 16 <= mx)%Z -> Prototype.wf other -> Prototype.wf p0 ->
  NoDup l -> (forall T, T ∈ l -> T ∈ dense_ (keys_ (appliers_ other))) ->
  exists p',
    foldl (Prototype.merge_step mx other override) (Ok tt, p0) l = (Ok tt, p')
    /\ Prototype.wf p'
    /\ forall T,
         find_applier p' T
         = if decide (T ∈ l)
           then (if override || negb (Prototype.has_component p0 T)
                 then find_applier other T else find_applier p0 T)
           else find_applier p0 T.
Proof.
  intros Hmx Hother. revert p0. induction l as [| T l IH]; intros p0 Hp Hnd Hkeys.
  - exists p0. split; [done |]. split; [done |]. intros T.
    rewrite decide_False; [done |]. by intros ?%elem_of_nil.
  - apply NoDup_cons in Hnd as [HT Hnd]. cbn [foldl].
    destruct (prototype_get_applier other T Hother) as (a & Hget & Hfa & Hfam & Hok);
      [apply Hkeys, list_elem_of_here |].
    assert (exists p1,
              Prototype.merge_step mx other override (Ok tt, p0) T = (Ok tt, p1)
              /\ Prototype.wf p1
              /\ find_applier p1 T
                 = (if override || negb (Prototype.has_component p0 T)
                    then find_applier other T else find_applier p0 T)
              /\ forall T', T' <> T -> find_applier p1 T' = find_applier p0 T')
      as (p1 & Hstep & Hp1 & Hat1 & Hne1).
    { unfold Prototype.merge_step, Prototype.has_component.
      destruct (override || negb (SparseMap.has sparse_indexer (appliers_ p0) T)).
      - rewrite Hget, applier_clone_id.
        destruct (prototype_store p0 a Hmx Hp) as (b & m & Hins & Hwf & Hnew & Hold & _);
          [by rewrite Hfam |].
        rewrite Hfam in Hins, Hnew, Hold. rewrite Hins. simpl.
        exists (mk_prototype m). split; [done |]. split; [done |].
        split; [by rewrite Hfa |]. done.
      - exists p0. done. }
    rewrite Hstep.
    destruct (IH p1 Hp1 Hnd) as (p' & Hfold & Hp' & Hat).
    { intros T' HT'. by apply Hkeys, list_elem_of_further. }
    exists p'. split; [done |]. split; [done |]. intros T'. rewrite Hat.
    destruct (decide (T' ∈ l)) as [Hin | Hout].
    + rewrite decide_True by (by apply list_elem_of_further).
      assert (T' <> T) as Hne by (intros ->; done).
      rewrite (Hne1 T' Hne).
      assert (Prototype.has_component p1 T' = Prototype.has_component p0 T') as ->; [| done].
      unfold Prototype.has_component. apply eq_true_iff_eq.
      rewrite !(map_find_has sparse_indexer) by (apply Hp1 || apply Hp).
      by rewrite (Hne1 T' Hne).
    + destruct (decide (T' = T)) as [-> | Hne].
      * rewrite decide_True by apply list_elem_of_here. done.
      * rewrite decide_False; [by apply Hne1 |].
        intros [? | ?]%elem_of_cons; done.
Qed.

(** X24.  [prototype::merge_with(other, override)] (family ids fit the
    sparse vector) returns with, for every type: the applier of [other] when
    [other] has one and either [override] is set or the prototype had none;
    otherwise the applier the prototype had. *)
Theorem prototype_merge_with_spec p other override
  (Hmx : (2 ^ 16 <= mx)%Z) (Hp : Prototype.wf p) (Hother : Prototype.wf other) :
  let p' := snd (Prototype.merge_with mx other override p) in
  fst (Prototype.merge_with mx other override p) = Ok tt
  /\ Prototype.wf p'
  /\ forall T,
       find_applier p' T
       = match find_applier other T with
         | Some a =>
             if override || negb (Prototype.has_component p T)
             then Some a else find_applier p T
         | None => find_applier p T
         end.
Proof.
  intros p'. subst p'. unfold Prototype.merge_with.
  pose proof Hother as [Hmo _].
  destruct (merge_steps_spec other override (dense_ (keys_ (appliers_ other))) p
              Hmx Hother Hp) as (p' & Hfold & Hp' & Hat); [| done |].
  { apply (set_wf_NoDup sparse_indexer), Hmo. }
  rewrite Hfold. simpl. split; [done |]. split; [done |].
  intros T. rewrite Hat.
  destruct (decide (T ∈ dense_ (keys_ (appliers_ other)))) as [Hin | Hout].
  - apply (map_find_is_Some sparse_indexer) in Hin as [a Ha]; [| done].
    rewrite Ha. done.
  - destruct (find_applier other T) as [a |] eqn:Ha; [| done].
    exfalso. apply Hout. apply (map_find_is_Some sparse_indexer); [done |]. by exists a.
Qed.
End PrototypeExtras.

(** A second applier for family 1 replaces the first. *)
Lemma prototype_component_records_witness :
  let p' := snd (Prototype.component demo_sparse_max 1 99%Z demo_prototype) in
  fst (Prototype.component demo_sparse_max 1 99%Z demo_prototype) = Ok tt
  /\ Prototype.wf p'
  /\ Prototype.has_component p' 1 = true
  /\ (forall c, Prototype.apply_to_component p' 1 c = (true, 99%Z))
  /\ (forall T' c, T' <> 1%Z ->
        Prototype.has_component p' T' = Prototype.has_component demo_prototype T'
        /\ Prototype.apply_to_component p' T' c
           = Prototype.apply_to_component demo_prototype T' c).
Proof.
  apply (prototype_component_records demo_sparse_max demo_prototype 1%Z 99%Z).
  - unfold demo_sparse_max. lia.
  - apply demo_prototype_wf.
  - unfold family_ok. lia.
Defined.

(** The empty prototype merged with [demo_prototype], and back. *)
Lemma prototype_merge_with_spec_witness :
  let p' := snd (Prototype.merge_with demo_sparse_max demo_prototype false
                   (@Prototype.prototype_empty Z)) in
  fst (Prototype.merge_with demo_sparse_max demo_prototype false
         (@Prototype.prototype_empty Z)) = Ok tt
  /\ Prototype.wf p'
  /\ forall T,
       SparseMap.find sparse_indexer (appliers_ p') T
       = match SparseMap.find sparse_indexer (appliers_ demo_prototype) T with
         | Some a =>
             if false || negb (Prototype.has_component (@Prototype.prototype_empty Z) T)
             then Some a
             else SparseMap.find sparse_indexer (appliers_ (@Prototype.prototype_empty Z)) T
         | None => SparseMap.find sparse_indexer (appliers_ (@Prototype.prototype_empty Z)) T
         end.
Proof.
  apply (prototype_merge_with_spec demo_sparse_max (@Prototype.prototype_empty Z)
           demo_prototype false).
  - unfold demo_sparse_max. lia.
  - apply prototype_empty_wf.
  - apply demo_prototype_wf.
Defined.

(** ** Features of a registry *)

Section FeatureExtras.
Context {W event : Type}.
Variable mx : Z.
Implicit Types (f : feature W event) (E : event_type) (ev : event) (w : W).

Lemma feature_process_event_calls f E ev w :
  Feature.process_event f E ev w = Feature.run_calls (Feature.dispatch_calls f E) ev w.
Proof.
  unfold Feature.process_event, Feature.dispatch_calls.
  rewrite run_calls_app, fire_event_calls.
  destruct (Feature.run_calls _ ev w) as [w1 | |]; [| done | done].
  rewrite run_calls_app, fire_event_calls.
  destruct (Feature.run_calls _ ev w1) as [w2 | |]; [| done | done].
  apply fire_event_calls.
Qed.

Lemma run_calls_nil ev w :
  Feature.run_calls ([] : list (system W event * event_type)) ev w = Ok w.
Proof. done. Qed.

Lemma feature_table_get (features_ : sparse_map (feature W event)) :
  SparseMap.wf sparse_indexer features_ ->
  Forall2 (fun family f => SparseMap.get sparse_indexer features_ family = Ok f)
          (dense_ (keys_ features_)) (values_ features_).
Proof.
  intros Hwf. apply Forall2_same_length_lookup_2.
  - symmetry. apply Hwf.
  - intros i family f Hk Hv. by eapply map_get_wf.
Qed.

Lemma process_event_stuck (features_ : sparse_map (feature W event)) E ev
    (keys : list Z) (o : outcome W) :
  is_ok o = false ->
  foldl (fun acc family =>
           match acc with
           | Ok w =>
               match SparseMap.get sparse_indexer features_ family with
               | Ok f => if Feature.is_enabled f then Feature.process_event f E ev w
                         else Ok w
               | Throw e => Throw e
               | Abort => Abort
               end
           | _ => acc
           end) o keys = o.
Proof.
  intros Ho. induction keys as [| k keys IHk]; [done |].
  simpl. destruct o; [done | exact IHk | exact IHk].
Qed.

Lemma process_event_steps (features_ : sparse_map (feature W event)) E ev (keys : list Z) (fs : list (feature W event)) w :
  Forall2 (fun family f => SparseMap.get sparse_indexer features_ family = Ok f) keys fs ->
  foldl (fun acc family =>
           match acc with
           | Ok w =>
               match SparseMap.get sparse_indexer features_ family with
               | Ok f => if Feature.is_enabled f then Feature.process_event f E ev w
                         else Ok w
               | Throw e => Throw e
               | Abort => Abort
               end
           | _ => acc
           end) (Ok w) keys
  = Feature.run_calls
      (concat ((fun f => if Feature.is_enabled f then Feature.dispatch_calls f E else [])
                 <$> fs)) ev w.
Proof.
  intros Hall. revert w. induction Hall as [| family f keys fs Hget _ IH]; intros w.
  - done.
  - cbn [foldl fmap list_fmap concat]. rewrite Hget, run_calls_app.
    destruct (Feature.is_enabled f).
    + rewrite <- feature_process_event_calls.
      destruct (Feature.process_event f E ev w) as [w' | ex |]; [apply IH | |];
        by apply process_event_stuck.
    + rewrite run_calls_nil. apply IH.
Qed.

(** X25.  [registry::process_event] over a well-formed feature table is the
    run of the handler calls of its enabled features, feature after feature
    in the order the features were added, each with its three phases; the
    systems of a disabled feature are not called, and a handler that throws
    ends the whole run. *)
Theorem registry_process_event_calls (features_ : sparse_map (feature W event)) E ev w
  (Hwf : SparseMap.wf sparse_indexer features_) :
  Feature.registry_process_event features_ E ev w
  = Feature.run_calls (FeatureTable.event_calls features_ E) ev w.
Proof.
  unfold Feature.registry_process_event, FeatureTable.event_calls.
  by apply process_event_steps, feature_table_get.
Qed.

(** X26.  [assign_feature<Tag>] on a well-formed feature table (tag ids fit
    the sparse vector) stores the feature under the tag, replacing the one
    that was there, while [ensure_feature<Tag>] keeps a feature that is
    there; either way [has_feature<Tag>] holds afterwards and the features
    of the other tags are untouched. *)
Theorem assign_ensure_feature (features_ : sparse_map (feature W event)) tag f
  (Hmx : (2 ^ 16 <= mx)%Z) (Htag : family_ok tag)
  (Hwf : SparseMap.wf sparse_indexer features_)
  (Hkeys : Forall family_ok (dense_ (keys_ features_))) :
  let assigned := snd (FeatureTable.assign_feature mx tag f features_) in
  let ensured := snd (FeatureTable.ensure_feature mx tag f features_) in
  fst (FeatureTable.assign_feature mx tag f features_) = Ok tt
  /\ fst (FeatureTable.ensure_feature mx tag f features_) = Ok tt
  /\ SparseMap.wf sparse_indexer assigned /\ SparseMap.wf sparse_indexer ensured
  /\ FeatureTable.has_feature assigned tag = true
  /\ FeatureTable.has_feature ensured tag = true
  /\ SparseMap.find sparse_indexer assigned tag = Some f
  /\ SparseMap.find sparse_indexer ensured tag
     = match SparseMap.find sparse_indexer features_ tag with
       | Some old => Some old
       | None => Some f
       end
  /\ (forall k, k <> tag ->
        SparseMap.find sparse_indexer assigned k = SparseMap.find sparse_indexer features_ k
        /\ SparseMap.find sparse_indexer ensured k = SparseMap.find sparse_indexer features_ k).
Proof.
  intros assigned ensured. subst assigned ensured.
  unfold FeatureTable.assign_feature, FeatureTable.ensure_feature,
    FeatureTable.has_feature, SparseMap.insert.
  destruct (map_find_slot_find sparse_indexer features_ tag Hwf) as [Hnone Hsome].
  destruct (SparseMap.find_slot sparse_indexer features_ tag) as [i |] eqn:Hs.
  - pose proof Hs as Hk. apply map_find_slot_Some in Hk; [| done].
    pose proof (map_set_slot_wf sparse_indexer features_ i f Hwf) as Hwf'.
    pose proof (map_set_slot_find sparse_indexer features_ i tag f Hwf Hk) as Hnew.
    destruct (Hsome i eq_refl) as [old Hold]. simpl.
    split; [done |]. split; [done |]. split; [done |]. split; [done |].
    split; [apply (map_find_has sparse_indexer); [done |]; by rewrite Hnew |].
    split; [apply (map_find_has sparse_indexer); [done |]; by rewrite Hold |].
    split; [done |]. split; [by rewrite Hold |].
    intros k Hne. split; [| done].
    by apply (map_set_slot_find_ne sparse_indexer features_ i tag).
  - assert (SparseSet.no_collision sparse_indexer (keys_ features_) tag) as Hnc.
    { intros k Hk Heq. rewrite Forall_forall in Hkeys. apply Hkeys in Hk.
      unfold sparse_indexer, family_ok in *. apply Z2Nat.inj; lia. }
    pose proof (map_insert_new_outcomes sparse_indexer mx tag f features_
                  (sparse_indexer_size tag Htag) Hwf Hnc Hs)
      as [Hwfm Hres].
    destruct (SparseMap.insert_new sparse_indexer mx tag f features_) as [res m] eqn:Hins.
    simpl in *. destruct res as [[|] | ex |]; try done.
    + destruct Hres as (Hnew & Hold & _). simpl.
      split; [done |]. split; [done |]. split; [done |]. split; [done |].
      assert (SparseMap.has sparse_indexer m tag = true) as Hhas
        by (apply (map_find_has sparse_indexer); [done |]; by rewrite Hnew).
      split; [done |]. split; [done |]. split; [done |].
      split; [by rewrite (proj1 Hnone eq_refl) |].
      intros k Hne. by rewrite Hold.
    + destruct Hres as (_ & _ & Hlim). unfold sparse_indexer, family_ok in *. lia.
Qed.
End FeatureExtras.

Lemma sparse_set_wfb_sound indexer (s : sparse_set) :
  sparse_set_wfb indexer s = true -> SparseSet.wf indexer s.
Proof.
  unfold sparse_set_wfb. rewrite forallb_forall. intros Hall i v Hi.
  assert (imap pair (dense_ s) !! i = Some (i, v)) as Hiv
    by (by rewrite list_lookup_imap, Hi).
  apply list_elem_of_lookup_2, list_elem_of_In, Hall in Hiv.
  by apply bool_decide_eq_true in Hiv.
Qed.

Lemma sparse_map_wfb_sound {V} indexer (m : sparse_map V) :
  sparse_map_wfb indexer m = true -> SparseMap.wf indexer m.
Proof.
  unfold sparse_map_wfb. intros [H1 H2%Nat.eqb_eq]%andb_true_iff.
  split; [by apply sparse_set_wfb_sound | done].
Qed.

Lemma demo_features_wf : SparseMap.wf sparse_indexer demo_features.
Proof. apply sparse_map_wfb_sound. vm_compute. reflexivity. Qed.

(** The event of the example table: systems 1 and 2 of the enabled feature
    are called, system 3 of the disabled one is not. *)
Lemma registry_process_event_calls_witness :
  Feature.registry_process_event demo_features (event_user 0) tt []
  = Feature.run_calls (FeatureTable.event_calls demo_features (event_user 0)) tt [].
Proof.
  apply (registry_process_event_calls demo_features (event_user 0) tt []).
  apply demo_features_wf.
Defined.

Example registry_process_event_demo :
  Feature.registry_process_event demo_features (event_user 0) tt []
  = Ok [(1, event_before (event_user 0)); (1, event_user 0); (2, event_user 0);
        (1, event_after (event_user 0))].
Proof. vm_compute. reflexivity. Qed.

(** A feature for a new tag and for the tag of the first feature. *)
Lemma assign_ensure_feature_witness :
  let f := Feature.feature_init (W := list (nat * event_type)) (event := unit) in
  let assigned := snd (FeatureTable.assign_feature 100000 7 f demo_features) in
  let ensured := snd (FeatureTable.ensure_feature 100000 7 f demo_features) in
  fst (FeatureTable.assign_feature 100000 7 f demo_features) = Ok tt
  /\ fst (FeatureTable.ensure_feature 100000 7 f demo_features) = Ok tt
  /\ SparseMap.wf sparse_indexer assigned /\ SparseMap.wf sparse_indexer ensured
  /\ FeatureTable.has_feature assigned 7 = true
  /\ FeatureTable.has_feature ensured 7 = true
  /\ SparseMap.find sparse_indexer assigned 7 = Some f
  /\ SparseMap.find sparse_indexer ensured 7
     = match SparseMap.find sparse_indexer demo_features 7 with
       | Some old => Some old
       | None => Some f
       end
  /\ (forall k, k <> 7%Z ->
        SparseMap.find sparse_indexer assigned k = SparseMap.find sparse_indexer demo_features k
        /\ SparseMap.find sparse_indexer ensured k
           = SparseMap.find sparse_indexer demo_features k).
Proof.
  apply (assign_ensure_feature 100000 demo_features 7%Z Feature.feature_init).
  - lia.
  - unfold family_ok. lia.
  - apply demo_features_wf.
  - repeat constructor; unfold family_ok; lia.
Defined.

(** ** Iteration, options and aspects *)

Section IterationExtras.
Context {value : Type}.
Variable empty_value_ : value.
Variable is_empty_v : Z -> bool.
Variable mx : Z.
Variable imx : Z.
Implicit Types (r : registry value) (e ent T : Z) (st : component_storage value).
Implicit Types (opts : list option_expr) (cs : list value) (Ts : list Z).

Abbreviation rwf := (registry_wf (value := value) is_empty_v).
Abbreviation reachable_ := (reachable empty_value_ is_empty_v mx imx).
Abbreviation find_storage_ := (Registry.find_storage_ (value := value)).
Abbreviation component_at := (Registry.component_at empty_value_).
Abbreviation find_component := (Registry.find_component empty_value_).
Abbreviation selects := (Options.selects empty_value_).

(** A walk of a storage that has a component stops the program at the first
    row when its first option locks the storage again. *)
Lemma for_each_component_relock {A} r nd T opt opts
    (f : list lock -> Z -> value -> A -> outcome A) (a : A) :
  rwf r -> 0 < Registry.component_count r T ->
  (forall e st, find_storage_ r T = Some st ->
                Options.eval_in [components_locker_ T] nd r opt e = Abort) ->
  Iteration.for_each_component empty_value_ nd T f (opt :: opts) r a = Abort.
Proof.
  intros Hwf Hcount Hopt. unfold Iteration.for_each_component.
  unfold Registry.component_count in Hcount.
  destruct (Registry.find_storage_ r T) as [st |] eqn:Hst; [| lia].
  destruct (find_storage_wf is_empty_v r T st Hwf Hst) as (Hstwf & _).
  rewrite storage_for_each_component_rows by (done || apply not_elem_of_nil).
  rewrite storage_count_ids in Hcount by done.
  rewrite <- (storage_rows_ids empty_value_) in Hcount by done.
  rewrite length_fmap in Hcount.
  destruct (Storage.rows empty_value_ st) as [| row rows]; [simpl in Hcount; lia |].
  cbn [foldl].
  assert (Iteration.guarded [components_locker_ T] nd r (opt :: opts) row.1
            (f [components_locker_ T] row.1 row.2) a = Abort) as ->.
  { unfold Iteration.guarded, Iteration.options_hold. cbn [map].
    by rewrite (Hopt row.1 st eq_refl). }
  by apply foldl_outcome_stuck.
Qed.

Lemma exists_relock nd r T e st :
  find_storage_ r T = Some st ->
  Options.eval_in [components_locker_ T] nd r (opt_exists T) e = Abort.
Proof.
  intros Hst. cbn [Options.eval_in].
  apply (exists_component_in_held _ nd r T e st); [apply list_elem_of_here | done].
Qed.


(** *** Options *)

Lemma all_of_singleton (o : outcome bool) : Options.all_of [o] = o.
Proof. by destruct o as [[|] | |]. Qed.

Lemma any_of_singleton (o : outcome bool) : Options.any_of [o] = o.
Proof. by destruct o as [[|] | |]. Qed.

Lemma all_of_cons_all_of (l l' : list (outcome bool)) :
  Options.all_of (Options.all_of l :: l') = Options.all_of (l ++ l').
Proof.
  induction l as [| o l IH]; [done |].
  simpl. destruct o as [[|] | |]; done.
Qed.

Lemma to_option_eval nd r (acc : option_expr) Ts e :
  Options.eval nd r (foldl (fun acc T => opt_conj [acc; opt_exists T]) acc Ts) e
  = Options.all_of (Options.eval nd r acc e
                    :: map (fun T => Registry.exists_component nd r T e) Ts).
Proof.
  revert acc. induction Ts as [| T Ts IH]; intros acc.
  - cbn [foldl map]. by rewrite all_of_singleton.
  - cbn [foldl]. rewrite IH. cbn [Options.eval map].
    rewrite all_of_cons_all_of. done.
Qed.

(** X28.  The option combinators obey the laws of the boolean operators
    they are named after, whatever their operands do (return, throw or stop
    the program): double negation, both De Morgan laws, [exists_all] and
    [exists_any] as the conjunction and disjunction of [exists], and the
    units of the empty conjunction and disjunction.  The option of an
    aspect evaluates as the aspect's [match_entity]. *)
Theorem option_algebra nd r e (a b o : option_expr) Ts :
  Options.eval nd r (opt_neg (opt_neg o)) e = Options.eval nd r o e
  /\ Options.eval nd r (opt_neg (opt_conj [a; b])) e
     = Options.eval nd r (opt_disj [opt_neg a; opt_neg b]) e
  /\ Options.eval nd r (opt_neg (opt_disj [a; b])) e
     = Options.eval nd r (opt_conj [opt_neg a; opt_neg b]) e
  /\ Options.eval nd r (opt_exists_all Ts) e
     = Options.eval nd r (opt_conj (opt_exists <$> Ts)) e
  /\ Options.eval nd r (opt_exists_any Ts) e
     = Options.eval nd r (opt_disj (opt_exists <$> Ts)) e
  /\ Options.eval nd r (opt_conj []) e = Ok true
  /\ Options.eval nd r (opt_disj []) e = Ok false
  /\ Options.eval nd r (Aspect.to_option Ts) e = Aspect.match_entity nd r Ts e.
Proof.
  split; [| split; [| split; [| split; [| split; [| split; [| split]]]]]].
  - simpl. by destruct (Options.eval nd r o e) as [[|] | |].
  - simpl. destruct (Options.eval nd r a e) as [[|] | |]; simpl; try done;
      by destruct (Options.eval nd r b e) as [[|] | |].
  - simpl. destruct (Options.eval nd r a e) as [[|] | |]; simpl; try done;
      by destruct (Options.eval nd r b e) as [[|] | |].
  - simpl. f_equal. by rewrite <- list_fmap_compose.
  - simpl. f_equal. by rewrite <- list_fmap_compose.
  - done.
  - done.
  - unfold Aspect.to_option, Aspect.match_entity. by rewrite to_option_eval.
Qed.

(** *** Aspects *)

Lemma match_entity_components nd r Ts e :
  rwf r -> Registry.valid_entity r e = true ->
  Aspect.match_entity nd r Ts e = Ok true <->
  Forall (fun T => is_Some (component_at r T e)) Ts.
Proof.
  intros Hwf He. unfold Aspect.match_entity.
  induction Ts as [| T Ts IH]; simpl.
  - split; [constructor | done].
  - rewrite Forall_cons.
    destruct (component_at r T e) as [c |] eqn:Hc.
    + rewrite (exists_component_at empty_value_ is_empty_v nd r T e c) by done.
      rewrite IH. split; [| tauto]. intros ?. split; [by eexists | done].
    + rewrite (exists_component_None empty_value_ is_empty_v nd r T e) by done.
      split; [done |]. by intros [[? ?] _].
Qed.

Lemma components_Forall2 r Ts e :
  Forall (fun T => is_Some (component_at r T e)) Ts <->
  exists cs, Forall2 (fun T c => component_at r T e = Some c) Ts cs.
Proof.
  induction Ts as [| T Ts IH].
  - split; [intros _; exists []; constructor | constructor].
  - rewrite Forall_cons, IH. split.
    + intros [[c Hc] [cs Hcs]]. exists (c :: cs). by constructor.
    + intros [cs (c & cs' & Hc & Hcs & ->)%Forall2_cons_inv_l]. split; eauto.
Qed.

Lemma to_option_eval_in held nd r (acc : option_expr) Ts e :
  Options.eval_in held nd r (foldl (fun acc T => opt_conj [acc; opt_exists T]) acc Ts) e
  = Options.all_of (Options.eval_in held nd r acc e
                    :: map (fun T => Registry.exists_component_in held nd r T e) Ts).
Proof.
  revert acc. induction Ts as [| T Ts IH]; intros acc.
  - cbn [foldl map]. by rewrite all_of_singleton.
  - cbn [foldl]. rewrite IH. cbn [Options.eval_in map].
    rewrite all_of_cons_all_of. done.
Qed.

(** The option of an aspect, called from the walk of the storage of the
    aspect's first type, locks that storage again. *)
Lemma to_option_relock nd r T Ts e st :
  find_storage_ r T = Some st ->
  Options.eval_in [components_locker_ T] nd r (Aspect.to_option (T :: Ts)) e = Abort.
Proof.
  intros Hst. unfold Aspect.to_option. rewrite to_option_eval_in.
  cbn [Options.eval_in map Options.all_of].
  rewrite (exists_component_in_held _ nd r T e st); [done | | done].
  apply list_elem_of_here.
Qed.

End IterationExtras.



Example options_demo :
  Options.eval false demo_registry (opt_conj [opt_exists 1; opt_neg (opt_exists 2)]) 2
  = Ok true
  /\ Options.eval false demo_registry (opt_exists_any [2; 3]%Z) 2 = Ok false
  /\ Options.eval false demo_registry (Aspect.to_option [1; 2; 3]%Z) 1 = Ok true
  /\ Options.eval false demo_registry (opt_exists 1) 9 = Abort
  /\ Options.selects 0%Z demo_registry 2 (opt_conj [opt_exists 1; opt_neg (opt_exists 2)])
     = true
  /\ Options.selects 0%Z demo_registry 2 (opt_exists_any [2; 3]%Z) = false.
Proof. vm_compute. repeat split. Qed.

(** Iterations on the example state: those that leave the storage of their
    driver alone return, those that lock it again stop the program. *)
Example iteration_demo :
  Aspect.for_each_entity 0%Z false [1; 2]%Z (functor1 (fun e es => es ++ [e])) []
    demo_registry [] = Ok [1%Z]
  /\ Aspect.for_each_entity 0%Z false [2; 1]%Z (functor1 (fun e es => es ++ [e]))
       [opt_neg (opt_exists 7)] demo_registry [] = Ok [1%Z]
  /\ Iteration.for_each_component 0%Z false 1 (functor2 (fun e c cs => cs ++ [(e, c)])) []
       demo_registry [] = Ok [(1, 10); (2, 40)]%Z
  /\ Iteration.for_each_component 0%Z false 1 (functor2 (fun e c cs => cs ++ [(e, c)]))
       [opt_exists 2] demo_registry [] = Ok [(1, 10)]%Z
  /\ Iteration.for_each_component 0%Z false 1 (functor2 (fun e c cs => cs ++ [(e, c)]))
       [opt_exists 1] demo_registry [] = Abort
  /\ Iteration.for_each_component 0%Z false 1 (functor2 (fun e c cs => cs ++ [(e, c)]))
       [opt_bool false; opt_exists 1] demo_registry [] = Ok []
  /\ Iteration.for_each_component 0%Z false 7 (functor2 (fun e c cs => cs ++ [(e, c)]))
       [opt_exists 7] demo_registry [] = Ok []
  /\ Aspect.for_each_entity 0%Z false [1; 2]%Z (functor1 (fun e es => es ++ [e]))
       [Aspect.to_option [1; 2]%Z] demo_registry [] = Abort
  /\ Aspect.for_each_entity 0%Z false [] (functor1 (fun e es => es ++ [e]))
       [Aspect.to_option [1; 2]%Z] demo_registry [] = Ok [1%Z].
Proof. vm_compute. repeat split. Qed.
